(** * SDTGEN: scanner/parser generator with locally least-cost error repair

    A shallow embedding of the parts of the SDTGEN sources that the
    specification makes claims about:

    - [lib/parser.c]      the table-driven LR driver and its error repair,
    - [src/intset.c] and the symbol sets of [src/symbols.c],
    - [src/lalrgen.c]     production sort keys, goto generation, action
                          table and error-repair values,
    - [tools/packtables.c] first-fit compression of the parser table.

    C [int]s are modelled by [Z].  Most quantities the modelled code
    computes are table indices, tokens, state or production numbers; where
    a value is computed from an [int] that the tables or the grammar
    supply (the negation of a table entry, the sums of the sort keys), its
    wrap-around to 32 bits is written out with [wrap_int].  C arrays are
    lists read through [aref]. *)

From Stdlib Require Import ZArith Lia Bool Sorted.
From stdpp Require Import base list sets sorting.

Local Open Scope Z_scope.

(** ** The type [int] *)

Definition INT_MAX : Z := 2147483647.
Definition INT_MIN : Z := - INT_MAX - 1.

(** The [int] that a result [v] of two's complement arithmetic is stored
    as: [v] itself from [INT_MIN] to [INT_MAX], and [v] modulo [2^32]
    otherwise. *)
Definition wrap_int (v : Z) : Z := (v + 2 ^ 31) mod 2 ^ 32 - 2 ^ 31.

(** ** Arrays *)

(** [a[i]] for an [int] array.  Reads outside the allocated cells yield 0;
    the modelled functions never depend on such a read for tables produced
    by the generator. *)
Definition aref (a : list Z) (i : Z) : Z :=
  if i <? 0 then 0 else default 0 (a !! Z.to_nat i).

(** The live top cell [a[count - 1]] of a stack or queue, if there is one. *)
Definition top_of {A : Type} (a : list A) : option A :=
  List.last (map Some a) None.

(** ** parser_definitions.h *)

Definition SHIFT_OFFSET : Z := 10000.
Definition ACCEPT_OFFSET : Z := -10000.
Definition MAXCOST : Z := 99999.

(** Parsing actions decoded from the table entries. *)
Inductive action : Type :=
  | ERROR | SHIFT | SHIFTREDUCE | REDUCE | ACCEPT.

Definition action_eqb (a b : action) : bool :=
  match a, b with
  | ERROR, ERROR | SHIFT, SHIFT | SHIFTREDUCE, SHIFTREDUCE
  | REDUCE, REDUCE | ACCEPT, ACCEPT => true
  | _, _ => false
  end.

(** The persistent part of [struct sdt_tables] used by the parser.  All
    arrays except none here are base 1: cell 0 is a filler written by
    [tableformat]. *)
Record sdt_tables : Type := {
  tnumber   : Z;        (* number of terminal symbols *)
  context   : Z;        (* number of error repair context tokens *)
  defcost   : Z;        (* assumed default cost of an error repair *)
  inscost   : list Z;   (* insertion cost for each terminal *)
  delcost   : list Z;   (* deletion cost for each terminal *)
  lhsymbol  : list Z;   (* nonterminal of each production's left side *)
  rhslength : list Z;   (* length of each production's right side *)
  semantics : list Z;   (* semantic routine number of each production *)
  repair    : list Z;   (* error repair value of each parser state *)
  pbase     : list Z;   (* index of actions of each parser state *)
  pcheck    : list Z;   (* state for which a parsing action is valid *)
  pnext     : list Z    (* parsing action for state and token *)
}.

(** ** parser.c: decoding the compressed action table *)

(** [decode_action(tables, state, token, &entry)]: the result pairs the
    returned action with the value of [*entry] after the call; on [ERROR]
    the caller's [entry] is left as it was.  [-next] is the negation of
    an [int]. *)
Definition decode_action (tables : sdt_tables) (state token entry : Z)
  : action * Z :=
  let i := aref (pbase tables) state + token in
  if aref (pcheck tables) i =? state then
    let next := aref (pnext tables) i in
    if next <? 0 then (REDUCE, wrap_int (- next))
    else if next >? SHIFT_OFFSET then (SHIFT, next - SHIFT_OFFSET)
    else (SHIFTREDUCE, next)
  else (ERROR, entry).

(** [decode_goto(tables, state, token, &entry)]: the nonterminal was
    produced by a reduce, so the entry is taken to be valid. *)
Definition decode_goto (tables : sdt_tables) (state token : Z)
  : action * Z :=
  let next := aref (pnext tables) (aref (pbase tables) state + token) in
  if next >? SHIFT_OFFSET then (SHIFT, next - SHIFT_OFFSET)
  else if next >? 0 then (SHIFTREDUCE, next)
  else (ACCEPT, 0).

(** The encoding of a table entry as the specification words it, for a
    decoding function [dec]: to be compared with [decode_action]. *)
Definition persisted_encoding
    (dec : sdt_tables -> Z -> Z -> Z -> action * Z)
    (tables : sdt_tables) (state token entry : Z) : Prop :=
  let cell := aref (pbase tables) state + token in
  let next := aref (pnext tables) cell in
  (aref (pcheck tables) cell <> state ->
     fst (dec tables state token entry) = ERROR) /\
  (aref (pcheck tables) cell = state ->
     (next > SHIFT_OFFSET ->
        dec tables state token entry = (SHIFT, next - SHIFT_OFFSET)) /\
     (0 < next <= SHIFT_OFFSET ->
        dec tables state token entry = (SHIFTREDUCE, next)) /\
     (ACCEPT_OFFSET < next < 0 ->
        dec tables state token entry = (REDUCE, - next)) /\
     (next = ACCEPT_OFFSET -> fst (dec tables state token entry) = ACCEPT) /\
     (next = 0 -> fst (dec tables state token entry) = ERROR)).

(** ** parser.c: run-time state *)

(** A buffer pointer is modelled by the sequence number [order] of the
    buffer it points to (buffers are numbered 0, 1, ... as they are
    allocated), the NULL pointer by [-1]. *)
Record location : Type := {
  buffer : Z;           (* buffer containing the character *)
  offset : Z            (* offset of the character in the buffer *)
}.

(** [a.buffer->order < b.buffer->order ||
     a.buffer == b.buffer && a.offset < b.offset] *)
Definition loc_before (a b : location) : bool :=
  (buffer a <? buffer b) || ((buffer a =? buffer b) && (offset a <? offset b)).

(** The same test with [<=] on the offsets. *)
Definition loc_upto (a b : location) : bool :=
  (buffer a <? buffer b) || ((buffer a =? buffer b) && (offset a <=? offset b)).

(** A C string; as a token string or message, [None] is the NULL pointer. *)
Definition cstring : Type := list Z.

Record errorentry : Type := {
  point   : location;               (* location for error message display *)
  last    : location;               (* last consecutive ignored character *)
  message : option cstring          (* error message, NULL for the scanner *)
}.

Record tokenentry : Type := {
  tk_token  : Z;                    (* token number for parser *)
  tk_symbol : option cstring;       (* token string (if installed) *)
  tk_locus  : location;             (* start of containing line *)
  tk_where  : location              (* token start position *)
}.

Record parseentry : Type := {
  pe_state  : Z;                    (* state number *)
  pe_where  : location;             (* start of token which created entry *)
  pe_token  : Z;                    (* token number *)
  pe_symbol : option cstring        (* token string (if installed) *)
}.

Record reduceentry : Type := {
  number   : Z;                     (* production number *)
  pointer  : Z;                     (* pointer after RHS popped *)
  rd_state : Z                      (* state for LHS shift *)
}.

Record insertentry : Type := {
  in_token  : Z;                    (* token number *)
  in_symbol : option cstring;       (* symbol string if appropriate *)
  in_cost   : Z;                    (* cost up to this token *)
  known     : bool                  (* true if followset known *)
}.

Record errorrepair : Type := {
  er_token  : Z;                    (* token insertion *)
  er_prefix : Z;                    (* continuation prefix insertion *)
  er_cost   : Z                     (* error repair cost *)
}.

(** What the driver does to the outside world, in the order it does it. *)
Inductive event : Type :=
  | EvAction (semno : Z)            (* call of the action callback *)
  | EvFree (s : cstring)            (* free() of an installed symbol *)
  | EvLine (line : Z) (start : location) (* a source line is printed *)
  | EvMessage (e : errorentry).     (* a queued message is printed *)

(** ** Shifting insertion

    The loop
    [for (i = count; i > 0 && a[i-1] > x; i--) a[i] = a[i-1];  a[i] = x;]
    occurs in [intset_insert], [symbolset_insert], [enqueue_error] and in
    the insertion sorts of [packtables].  [above y] is the loop test on
    the cell [y = a[i-1]]. *)
Section ShiftInsert.
Context {A : Type} (above : A -> bool).

(** The [for] loop: returns the final [i] and the array. *)
Fixpoint shift_up (i : nat) (a : list A) : nat * list A :=
  match i with
  | O => (O, a)
  | S j =>
      match a !! j with
      | Some y => if above y then shift_up j (<[S j := y]> a) else (S j, a)
      | None => (S j, a)
      end
  end.

(** The array grows by one cell, the loop runs from [count], and [x] is
    stored at the index where the loop stopped. *)
Definition shift_insert (x : A) (a : list A) : list A :=
  let '(i, a') := shift_up (length a) (a ++ [x]) in <[i := x]> a'.
End ShiftInsert.

(** ** parser.c: source listing and message queue *)

(** The buffers of the input file.  The chain is modelled as already read
    to the end of the file ([endfile] set), so that [read_buffer] only
    steps to the next buffer; buffer [i] of the list has sequence
    number [i]. *)
Definition bufferchain : Type := list (list Z).

Record listing_state : Type := {
  chain      : bufferchain;
  listing    : bool;                (* true if a listing is generated *)
  lineno     : Z;                   (* number of last line written *)
  unwritten  : location;            (* beginning of first unwritten line *)
  msgwritten : bool;                (* true if a message has been written *)
  msgqueue   : list errorentry;     (* error message queue *)
  output     : list event
}.

(** [b->count] *)
Definition bcount (c : bufferchain) (b : Z) : Z :=
  if b <? 0 then 0 else Z.of_nat (length (default [] (c !! Z.to_nat b))).

(** [w.buffer->buffer[w.offset]] *)
Definition bchar (c : bufferchain) (w : location) : Z :=
  if buffer w <? 0 then 0
  else aref (default [] (c !! Z.to_nat (buffer w))) (offset w).

(** [b->next != NULL] *)
Definition has_next (c : bufferchain) (b : Z) : bool :=
  (0 <=? b) && (b + 1 <? Z.of_nat (length c)).

(** [read_buffer(tables, &w)] once the file has been read: the result is
    the updated [w] and the returned flag. *)
Definition read_buffer (c : bufferchain) (w : location) : location * bool :=
  let w' := if has_next c (buffer w)
            then {| buffer := buffer w + 1; offset := 0 |} else w in
  (w', offset w' <? bcount c (buffer w')).

Definition newline : Z := 10.

(** The [for (;;)] loop of [write_line] that looks for the start of the
    next line. *)
Fixpoint scan_line (fuel : nat) (c : bufferchain) (nl : location) : location :=
  match fuel with
  | O => nl
  | S f =>
      let '(nl1, more) :=
        if offset nl >=? bcount c (buffer nl) then read_buffer c nl
        else (nl, true) in
      if negb more then nl1
      else
        let nl2 := {| buffer := buffer nl1; offset := offset nl1 + 1 |} in
        if bchar c nl1 =? newline then
          if offset nl2 >=? bcount c (buffer nl2)
          then fst (read_buffer c nl2) else nl2
        else scan_line f c nl2
  end.

Definition chain_fuel (c : bufferchain) : nat :=
  S (length (concat c) + length c).

(** The messages at the head of the queue that lie before [nl]. *)
Fixpoint flush_messages (nl : location) (q : list errorentry)
  : list errorentry * list errorentry :=
  match q with
  | [] => ([], [])
  | e :: q' =>
      if loc_before (point e) nl
      then let '(shown, rest) := flush_messages nl q' in (e :: shown, rest)
      else ([], q)
  end.

Definition head_before (q : list errorentry) (nl : location) : bool :=
  match q with
  | [] => false
  | e :: _ => loc_before (point e) nl
  end.

(** [write_line(tables)]: skip over or write the line at [unwritten].
    The text that is printed is abstracted to one [EvLine] per line shown
    and one [EvMessage] per message shown. *)
Definition write_line (s : listing_state) : listing_state :=
  let c := chain s in
  let u := unwritten s in
  let nl :=
    if offset u >=? bcount c (buffer u)
    then {| buffer := buffer u; offset := bcount c (buffer u) + 1 |}
    else scan_line (chain_fuel c) c u in
  let line := lineno s + 1 in
  if listing s || head_before (msgqueue s) nl then
    let nl' := if offset u <? bcount c (buffer u) then nl
               else {| buffer := buffer nl; offset := offset nl + 1 |} in
    let '(shown, rest) := flush_messages nl' (msgqueue s) in
    {| chain := c; listing := listing s; lineno := line; unwritten := nl';
       msgwritten := match shown with [] => false | _ => true end;
       msgqueue := rest;
       output := output s ++ EvLine line u :: map EvMessage shown |}
  else
    {| chain := c; listing := listing s; lineno := line; unwritten := nl;
       msgwritten := msgwritten s; msgqueue := msgqueue s;
       output := output s |}.

(** [while (unwritten before/upto target) write_line(tables);] with the
    test [loc_upto] when [incl] is set and [loc_before] otherwise. *)
Fixpoint write_lines (fuel : nat) (incl : bool) (target : location)
    (s : listing_state) : listing_state :=
  match fuel with
  | O => s
  | S f =>
      if (if incl then loc_upto else loc_before) (unwritten s) target
      then write_lines f incl target (write_line s)
      else s
  end.

Definition lines_fuel (c : bufferchain) : nat := S (S (chain_fuel c)).

(** [enqueue_error(tables, point, message)] *)
Definition enqueue_error (c : bufferchain) (pt : location)
    (msg : option cstring) (q : list errorentry) : list errorentry :=
  let fresh := {| point := pt; last := pt; message := msg |} in
  match top_of q with
  | None => [fresh]
  | Some final =>
      let adjacent :=
        match msg, message final with
        | None, None =>
            let w := {| buffer := buffer (last final);
                        offset := offset (last final) + 1 |} in
            let w := if offset w >=? bcount c (buffer w)
                     then {| buffer := if has_next c (buffer w)
                                       then buffer w + 1 else -1;
                             offset := 0 |}
                     else w in
            (buffer pt =? buffer w) && (offset pt =? offset w)
        | _, _ => false
        end in
      if adjacent then
        removelast q ++ [{| point := point final; last := pt;
                            message := message final |}]
      else shift_insert (fun e => loc_before pt (point e)) fresh q
  end.

(** [record_error(tables, point, fmt, ...)]: [msg] is the formatted
    message, [None] for a scanner error. *)
Definition record_error (pt : location) (msg : option cstring)
    (s : listing_state) : listing_state :=
  {| chain := chain s; listing := listing s; lineno := lineno s;
     unwritten := unwritten s; msgwritten := msgwritten s;
     msgqueue := enqueue_error (chain s) pt msg (msgqueue s);
     output := output s |}.

(** ** parser.c: the parse stack and the queue of delayed reduces *)

Record pstate : Type := {
  lst      : listing_state;
  parstack : list parseentry;       (* parse stack, bottom first *)
  redqueue : list reduceentry;      (* delayed reduces, oldest first *)
  tknqueue : list tokenentry        (* input token queue, next token first *)
}.

(** The locals of [parse_input] that survive an iteration of its loop. *)
Record locals : Type := {
  cur_state   : Z;                  (* current state for simulating reduces *)
  cur_pointer : Z;                  (* parse pointer for simulating reduces *)
  knownptr    : Z;                  (* stack part unaffected by reduces *)
  cur_where   : location            (* position of last token on stack *)
}.

(** [free(p)]: freeing NULL does nothing. *)
Definition free_symbol (p : option cstring) : list event :=
  match p with
  | Some str => [EvFree str]
  | None => []
  end.

(** [while (PARCOUNT > ptr) free(PARSTACK(--PARCOUNT).symbol);] where [n]
    bounds the number of iterations by [PARCOUNT - ptr]. *)
Fixpoint pop_free (n : nat) (stk : list parseentry)
  : list parseentry * list event :=
  match n with
  | O => (stk, [])
  | S m =>
      match top_of stk with
      | None => (stk, [])
      | Some e =>
          let '(stk', evs) := pop_free m (removelast stk) in
          (stk', free_symbol (pe_symbol e) ++ evs)
      end
  end.

Definition pop_to (ptr : Z) (stk : list parseentry)
  : list parseentry * list event :=
  pop_free (Z.to_nat (Z.of_nat (length stk) - ptr)) stk.

(** The body and the [for] loop of [perform_reduces(tables, where)] over
    the queue [q]; the result is the parse stack and what was called and
    freed on the way. *)
Fixpoint reduce_loop (tables : sdt_tables) (w : location)
    (q : list reduceentry) (stk : list parseentry)
  : list parseentry * list event :=
  match q with
  | [] => (stk, [])
  | r :: q' =>
      let sem := aref (semantics tables) (number r) in
      let called := if sem =? 0 then [] else [EvAction sem] in
      let '(stk1, freed) := pop_to (pointer r) stk in
      let lhs := {| pe_state := rd_state r; pe_where := w;
                    pe_token := aref (lhsymbol tables) (number r);
                    pe_symbol := None |} in
      let '(stk2, evs) := reduce_loop tables w q' (stk1 ++ [lhs]) in
      (stk2, called ++ freed ++ evs)
  end.





Definition emit (evs : list event) (s : listing_state) : listing_state :=
  {| chain := chain s; listing := listing s; lineno := lineno s;
     unwritten := unwritten s; msgwritten := msgwritten s;
     msgqueue := msgqueue s; output := output s ++ evs |}.

(** [perform_reduces(tables, where)] *)
Definition perform_reduces (tables : sdt_tables) (w : location)
    (s : pstate) : pstate :=
  let '(stk, evs) := reduce_loop tables w (redqueue s) (parstack s) in
  {| lst := emit evs (lst s); parstack := stk; redqueue := [];
     tknqueue := tknqueue s |}.

Definition null_location : location := {| buffer := -1; offset := 0 |}.

Definition null_token : tokenentry :=
  {| tk_token := 0; tk_symbol := None;
     tk_locus := null_location; tk_where := null_location |}.

(** [PARSTACK(PARCOUNT - 1).where] *)
Definition top_where (stk : list parseentry) : location :=
  match top_of stk with
  | Some e => pe_where e
  | None => null_location
  end.

(** The [case SHIFT: case SHIFTREDUCE:] arm of [parse_input], up to its
    [if (action == SHIFT) break;].  [act] and [entry] are what
    [decode_action] returned for the token at the head of the queue. *)
Definition parse_shift (tables : sdt_tables) (act : action) (entry : Z)
    (s : pstate) : pstate * locals :=
  let w := top_where (parstack s) in
  let s1 := perform_reduces tables w s in
  let tk := hd null_token (tknqueue s1) in
  let state := if action_eqb act SHIFT then entry else 0 in
  let ptr := Z.of_nat (length (parstack s1)) in
  let pushed := {| pe_state := state; pe_where := tk_where tk;
                   pe_token := tk_token tk; pe_symbol := tk_symbol tk |} in
  let l1 := write_lines (lines_fuel (chain (lst s1))) false (tk_locus tk)
              (lst s1) in
  ({| lst := l1; parstack := parstack s1 ++ [pushed];
      redqueue := redqueue s1; tknqueue := tl (tknqueue s1) |},
   {| cur_state := state; cur_pointer := ptr; knownptr := ptr;
      cur_where := w |}).

(** ** dynarray.c, intset.c and the symbol sets of symbols.c

    An ordered set is a dynamic array whose live cells hold the elements by
    increasing key: the value of an integer, the [order] of a symbol.
    [intset.c] and the [symbolset_] functions of [symbols.c] are the same
    code up to the key, so the model is written once over the key. *)

(** [struct dynarray]: [array] is [None] for the NULL pointer and the live
    cells [0 .. count-1] otherwise; [element] is the size of an element. *)
Record dynarray (A : Type) : Type := {
  array   : option (list A);
  element : Z
}.
Arguments array {A} _.
Arguments element {A} _.

(** The live cells; a NULL array has none ([count] is 0). *)
Definition cells {A : Type} (d : dynarray A) : list A := default [] (array d).

(** [dynalloc(array, element, size)] *)
Definition dynalloc {A : Type} (elsize : Z) : dynarray A :=
  {| array := Some []; element := elsize |}.

(** [dynfree(array)] *)
Definition dynfree {A : Type} : dynarray A :=
  {| array := None; element := 0 |}.

(** [dyncopy(dst, src)] *)
Definition dyncopy {A : Type} (src : dynarray A) : dynarray A :=
  {| array := Some (cells src); element := element src |}.

Section OrderedSet.
Context {A : Type} (key : A -> Z) (elsize : Z).

(** The binary search shared by [_find], [_insert] and [_delete]:
    [Some i] when the loop is left at a cell [i] with the key. *)
Fixpoint set_search (fuel : nat) (a : list A) (value : Z)
    (lower upper : nat) : option nat :=
  match fuel with
  | O => None
  | S f =>
      if (lower <? upper)%nat then
        let i := (lower + (upper - lower) / 2)%nat in
        match a !! i with
        | Some y =>
            if value <? key y then set_search f a value lower i
            else if value >? key y then set_search f a value (S i) upper
            else Some i
        | None => None
        end
      else None
  end.

Definition set_lookup (a : list A) (value : Z) : option nat :=
  set_search (S (length a)) a value 0 (length a).

(** [intset_find], [symbolset_find] *)
Definition set_find (s : dynarray A) (value : Z) : Z :=
  match array s with
  | Some a =>
      match set_lookup a value with
      | Some i => Z.of_nat i
      | None => -1
      end
  | None => -1
  end.

(** [intset_insert], [symbolset_insert] *)
Definition set_insert (s : dynarray A) (x : A) : dynarray A :=
  match array s with
  | Some a =>
      match set_lookup a (key x) with
      | Some _ => s
      | None =>
          {| array := Some (shift_insert (fun y => key y >? key x) x a);
             element := element s |}
      end
  | None => {| array := Some [x]; element := elsize |}
  end.

(** [while (i < count - 1) { a[i] = a[i + 1]; i++; }] *)
Fixpoint shift_down (n i : nat) (a : list A) : list A :=
  match n with
  | O => a
  | S m =>
      match a !! S i with
      | Some y => shift_down m (S i) (<[i := y]> a)
      | None => a
      end
  end.

(** [intset_delete], [symbolset_delete] *)
Definition set_delete (s : dynarray A) (value : Z) : dynarray A :=
  match array s with
  | Some a =>
      match set_lookup a value with
      | Some i =>
          {| array := Some (take (length a - 1) (shift_down (length a) i a));
             element := element s |}
      | None => s
      end
  | None => s
  end.

(** The element-wise comparison of [symbolset_equal]; for integers it
    is the [memcmp] of [intset_equal]. *)
Fixpoint cells_equal (a b : list A) : bool :=
  match a, b with
  | x :: a', y :: b' => (key x =? key y) && cells_equal a' b'
  | _, _ => true
  end.

(** [intset_equal], [symbolset_equal] *)
Definition set_equal (s1 s2 : dynarray A) : bool :=
  if negb (length (cells s1) =? length (cells s2))%nat
     || negb (element s1 =? element s2)
  then false
  else cells_equal (cells s1) (cells s2).

(** [while (i < count && key src[i] < bound) i++;], copying the cells
    passed over to [dst] when [copy] is set. *)
Fixpoint pass_lower (fuel : nat) (copy : bool) (src : list A) (bound : Z)
    (i : nat) (dst : list A) : nat * list A :=
  match fuel with
  | O => (i, dst)
  | S f =>
      match src !! i with
      | Some y =>
          if key y <? bound
          then pass_lower f copy src bound (S i)
                 (if copy then dst ++ [y] else dst)
          else (i, dst)
      | None => (i, dst)
      end
  end.

(** The main loop of [_union] ([copy] set) and of [_intersect]. *)
Fixpoint merge_loop (fuel : nat) (copy : bool) (src1 src2 : list A)
    (i1 i2 : nat) (dst : list A) : nat * nat * list A :=
  match fuel with
  | O => (i1, i2, dst)
  | S f =>
      match src1 !! i1, src2 !! i2 with
      | Some _, Some y2 =>
          let '(i1, dst) :=
            pass_lower (length src1) copy src1 (key y2) i1 dst in
          let '(i1, i2, dst) :=
            match src1 !! i1 with
            | Some y1 =>
                if key y1 =? key y2 then (S i1, S i2, dst ++ [y1])
                else (i1, i2, dst)
            | None => (i1, i2, dst)
            end in
          let '(i2, dst) :=
            match src1 !! i1 with
            | Some y1 => pass_lower (length src2) copy src2 (key y1) i2 dst
            | None => (i2, dst)
            end in
          merge_loop f copy src1 src2 i1 i2 dst
      | _, _ => (i1, i2, dst)
      end
  end.

(** [while (i < count) dst[dstcount++] = src[i++];] *)
Fixpoint copy_rest (fuel : nat) (src : list A) (i : nat) (dst : list A)
  : list A :=
  match fuel with
  | O => dst
  | S f =>
      match src !! i with
      | Some y => copy_rest f src (S i) (dst ++ [y])
      | None => dst
      end
  end.

Definition merge_fuel (src1 src2 : list A) : nat :=
  S (length src1 + length src2).

(** [intset_intersect], [symbolset_intersect] *)
Definition set_intersect (src1 src2 : dynarray A) : dynarray A :=
  match array src1, array src2 with
  | Some a1, Some a2 =>
      let '(_, _, dst) :=
        merge_loop (merge_fuel a1 a2) false a1 a2 0 0 [] in
      {| array := Some dst; element := elsize |}
  | _, _ => dynalloc elsize
  end.

(** [intset_union], [symbolset_union] *)
Definition set_union (src1 src2 : dynarray A) : dynarray A :=
  match array src1, array src2 with
  | Some a1, Some a2 =>
      let '(i1, i2, dst) :=
        merge_loop (merge_fuel a1 a2) true a1 a2 0 0 [] in
      let dst := copy_rest (length a1) a1 i1 dst in
      let dst := copy_rest (length a2) a2 i2 dst in
      {| array := Some dst; element := elsize |}
  | Some _, None => dyncopy src1
  | None, Some _ => dyncopy src2
  | None, None => dynalloc elsize
  end.

(** The textbook merges of two lists by key, to which the loops are
    compared: the union keeps one of two elements with equal keys (the
    one of the first list), the intersection keeps only those. *)
Fixpoint merge_union (l1 : list A) : list A -> list A :=
  fix merge_with (l2 : list A) : list A :=
    match l1, l2 with
    | [], _ => l2
    | _, [] => l1
    | x :: l1', y :: l2' =>
        if key x <? key y then x :: merge_union l1' l2
        else if key x =? key y then x :: merge_union l1' l2'
        else y :: merge_with l2'
    end.

Fixpoint merge_inter (l1 : list A) : list A -> list A :=
  fix merge_with (l2 : list A) : list A :=
    match l1, l2 with
    | [], _ => []
    | _, [] => []
    | x :: l1', y :: l2' =>
        if key x <? key y then merge_inter l1' l2
        else if key x =? key y then x :: merge_inter l1' l2'
        else merge_with l2'
    end.

(** What the main loop has to produce, and what it leaves to the loops
    that copy the rest. *)
Definition merged (copy : bool) (l1 l2 : list A) : list A :=
  if copy then merge_union l1 l2 else merge_inter l1 l2.

Definition leftover (copy : bool) (l1 l2 : list A) : list A :=
  if copy then l1 ++ l2 else [].

(** The invariant of a set: an allocated array has the element size of
    the set's type and strictly increasing keys. *)
Definition increasing (a : list A) : Prop :=
  StronglySorted Z.lt (map key a).

Definition set_inv (s : dynarray A) : Prop :=
  match array s with
  | Some a => element s = elsize /\ increasing a
  | None => True
  end.
End OrderedSet.

(** *** Sets of integers (intset.c) *)

Definition sizeof_int : Z := 4.
Definition intset : Type := dynarray Z.
Definition int_key (v : Z) : Z := v.

Definition intset_alloc : intset := dynalloc sizeof_int.
Definition intset_find : intset -> Z -> Z := set_find int_key.
Definition intset_insert : intset -> Z -> intset := set_insert int_key sizeof_int.
Definition intset_delete : intset -> Z -> intset := set_delete int_key.
Definition intset_equal : intset -> intset -> bool := set_equal int_key.
Definition intset_intersect : intset -> intset -> intset :=
  set_intersect int_key sizeof_int.
Definition intset_union : intset -> intset -> intset :=
  set_union int_key sizeof_int.

(** *** Symbols and sets of symbols (symbols.c) *)

Inductive symtype : Type := DEFINITION | TERMINAL | NONTERMINAL.

Definition symtype_eqb (a b : symtype) : bool :=
  match a, b with
  | DEFINITION, DEFINITION | TERMINAL, TERMINAL
  | NONTERMINAL, NONTERMINAL => true
  | _, _ => false
  end.

(** Flag bits defined for tokens. *)
Definition LEFT : Z := 2.
Definition RIGHT : Z := 4.
Definition NONE : Z := 8.
Definition ASSOCIATIVITY : Z := 14.
Definition EMPTY : Z := 64.

(** [struct symbol] with the [struct token] of a terminal or nonterminal.
    A set holds pointers to symbols; [order] identifies the symbol. *)
Record symbolentry : Type := {
  order          : Z;       (* unique id for symbol ordering in sets *)
  sym_type       : symtype; (* type associated with entry *)
  sym_token      : Z;       (* token number for parser *)
  sym_flags      : Z;       (* special token processing flags *)
  sym_precedence : Z;       (* precedence to disambiguate grammar *)
  sym_insert     : Z;       (* error correction insertion cost *)
  sym_delete     : Z        (* error correction deletion cost *)
}.

Definition sizeof_pointer : Z := 8.
Definition symbolset : Type := dynarray symbolentry.

Definition symbolset_alloc : symbolset := dynalloc sizeof_pointer.
Definition symbolset_find (s : symbolset) (x : symbolentry) : Z :=
  set_find order s (order x).
Definition symbolset_insert : symbolset -> symbolentry -> symbolset :=
  set_insert order sizeof_pointer.
Definition symbolset_delete (s : symbolset) (x : symbolentry) : symbolset :=
  set_delete order s (order x).
Definition symbolset_equal : symbolset -> symbolset -> bool := set_equal order.
Definition symbolset_intersect : symbolset -> symbolset -> symbolset :=
  set_intersect order sizeof_pointer.
Definition symbolset_union : symbolset -> symbolset -> symbolset :=
  set_union order sizeof_pointer.

(** ** packtables.c: first-fit compression of the parser table

    States are numbered from 0 here and a cell of the check table holds
    the state plus one, so that 0 marks a free cell.  [tableformat] puts a
    filler in front of each table, which turns these into the base-1
    tables the parser reads. *)

(** [a[i]] for a natural index. *)
Definition cell (a : list Z) (i : nat) : Z := default 0 (a !! i).

(** The two dynamic arrays [tcheck] and [tnext], which the program keeps
    at the same count and size, and the base table.  The arrays hold all
    [DYNSIZE] cells, the live ones first. *)
Record packed : Type := {
  tbase  : list nat;    (* compressed tables state base index *)
  tcheck : list Z;      (* compressed tables check value *)
  tnext  : list Z;      (* compressed tables action *)
  tcount : nat          (* DYNCOUNT of tcheck and of tnext *)
}.

(** [while (DYNCOUNT + tokens > DYNSIZE)]: double both arrays and clear
    the new half. *)
Fixpoint grow_tables (fuel tokens : nat) (t : packed) : packed :=
  match fuel with
  | O => t
  | S f =>
      if (length (tcheck t) <? tcount t + tokens)%nat then
        let size := length (tcheck t) in
        grow_tables f tokens
          {| tbase := tbase t;
             tcheck := tcheck t ++ replicate size 0;
             tnext := tnext t ++ replicate size 0;
             tcount := tcount t |}
      else t
  end.

(** The inner [for] loop of the search, from column [j] with [n] columns
    to go: true when it runs through all of them. *)
Fixpoint row_fits (n j : nat) (row check : list Z) (i : nat) : bool :=
  match n with
  | O => true
  | S n' =>
      if (cell row j =? 0) || (cell check (i + j) =? 0)
      then row_fits n' (S j) row check i
      else false
  end.

(** The outer [for] loop, from [i] with [n] candidates to go: the first
    base at which the row fits, or the count. *)
Fixpoint find_base (n i tokens : nat) (row check : list Z) : nat :=
  match n with
  | O => i
  | S n' =>
      if row_fits tokens 0 row check i then i
      else find_base n' (S i) tokens row check
  end.

(** The loop that stores the non-zero entries of the row at base [i]. *)
Fixpoint store_row (n j : nat) (row : list Z) (i : nat) (owner : Z)
    (check next : list Z) : list Z * list Z :=
  match n with
  | O => (check, next)
  | S n' =>
      if cell row j =? 0 then store_row n' (S j) row i owner check next
      else store_row n' (S j) row i owner
             (<[(i + j)%nat := owner]> check)
             (<[(i + j)%nat := cell row j]> next)
  end.

(** [compress_parser(actions, state, tokens, tbase, tcheck, tnext)] *)
Definition compress_parser (actions : list (list Z)) (state tokens : nat)
    (t : packed) : packed :=
  let row := default [] (actions !! state) in
  let t := grow_tables (S (tcount t + tokens)) tokens t in
  let i := find_base (tcount t) 0 tokens row (tcheck t) in
  let '(check, next) :=
    store_row tokens 0 row i (Z.of_nat state + 1) (tcheck t) (tnext t) in
  {| tbase := <[state := i]> (tbase t);
     tcheck := check; tnext := next;
     tcount := if (tcount t <? i + tokens)%nat then (i + tokens)%nat
               else tcount t |}.

(** The insertion sort of [sort_parser], from position [i] with [n]
    positions to go: the states with more actions come first. *)
Fixpoint sort_from (n i : nat) (count : list Z) (index : list nat)
  : list nat :=
  match n with
  | O => index
  | S n' =>
      match index !! i with
      | Some save =>
          sort_from n' (S i) count
            (shift_insert (fun y => cell count y <? cell count save) save
                          (take i index)
             ++ drop (S i) index)
      | None => index
      end
  end.

(** [sort_parser(count, states, &index)] *)
Definition sort_parser (count : list Z) (states : nat) : list nat :=
  sort_from (states - 1) 1 count (seq 0 states).

(** The part of [main] that packs the parser: [actions] and [count] are
    what [load_actions] has read. *)
Definition pack_parser (actions : list (list Z)) (count : list Z)
    (states tokens : nat) : packed :=
  fold_left (fun t state => compress_parser actions state tokens t)
    (sort_parser count states)
    {| tbase := replicate states 0%nat;
       tcheck := replicate tokens 0; tnext := replicate tokens 0;
       tcount := 0 |}.

(** Decoding as the specification gives it, on the packed tables:
    [entry = base[s] + t; if check[entry] == s return next[entry] else
    error], the state being stored plus one and the error entry being 0. *)
Definition unpack (t : packed) (state token : nat) : Z :=
  let entry := (default 0%nat (tbase t !! state) + token)%nat in
  if cell (tcheck t) entry =? Z.of_nat state + 1
  then cell (tnext t) entry else 0.

(** The parser tables [tableformat] makes of the packed ones: the live
    cells of each table behind a filler 0.  The tables that are copied
    unchanged are taken from [other]. *)
Definition formatted (other : sdt_tables) (t : packed) : sdt_tables :=
  {| tnumber := tnumber other; context := context other;
     defcost := defcost other; inscost := inscost other;
     delcost := delcost other; lhsymbol := lhsymbol other;
     rhslength := rhslength other; semantics := semantics other;
     repair := repair other;
     pbase := 0 :: map Z.of_nat (tbase t);
     pcheck := 0 :: take (tcount t) (tcheck t);
     pnext := 0 :: take (tcount t) (tnext t) |}.

(** [actions[state][token]] and [tbase[state]]. *)
Definition action_at (actions : list (list Z)) (state token : nat) : Z :=
  cell (default [] (actions !! state)) token.

Definition base_of (t : packed) (state : nat) : nat :=
  default 0%nat (tbase t !! state).

(** The invariant of the packing loop once the states in [done] have
    been inserted: the cells from the count on are free, every cell in
    use is an entry of one of those states, and each of their non-zero
    entries is in its cell. *)
Definition pack_inv (actions : list (list Z)) (tokens : nat)
    (done : nat -> Prop) (t : packed) : Prop :=
  (1 <= length (tcheck t))%nat /\
  length (tnext t) = length (tcheck t) /\
  (tcount t <= length (tcheck t))%nat /\
  (forall k, (tcount t <= k)%nat -> cell (tcheck t) k = 0) /\
  (forall k, cell (tcheck t) k <> 0 ->
     exists s j, done s /\ (j < tokens)%nat /\ k = (base_of t s + j)%nat /\
                 action_at actions s j <> 0 /\
                 cell (tcheck t) k = Z.of_nat s + 1) /\
  (forall s j, done s -> (j < tokens)%nat -> action_at actions s j <> 0 ->
     cell (tcheck t) (base_of t s + j) = Z.of_nat s + 1 /\
     cell (tnext t) (base_of t s + j) = action_at actions s j) /\
  (forall s, done s -> (base_of t s + tokens <= tcount t)%nat).

(** ** lalrgen.c: the parser generator

    Token, cost and action values are [Z]; production, item and state
    numbers index arrays and are [nat].  Cell 0 of the production list and
    of the collection of states is not used by the generator. *)

(** Options selected in the grammar file (sdtgen_definitions.h). *)
Definition ERRORREPAIR : Z := 1.
Definition DEFAULTREDUCE : Z := 2.
Definition AMBIGUOUS : Z := 4.
Definition SPLITSTATES : Z := 8.

(** Parser state errors. *)
Definition NO_ERROR : Z := 0.
Definition SHIFT_REDUCE_ERROR : Z := 1.
Definition REDUCE_REDUCE_ERROR : Z := 2.

Record production : Type := {
  lhside   : symbolentry;       (* left hand side symbol *)
  rhside   : list symbolentry;  (* list of right hand side symbols *)
  plength  : nat;               (* [length]: index of last non-epsilon token *)
  semantic : Z;                 (* semantic routine number *)
  steps    : Z;                 (* minimum number of steps to derive terminals *)
  pinsert  : Z                  (* [insert]: minimum insertion cost for RHS *)
}.

Record target : Type := {
  tg_state : nat;               (* item state number *)
  tg_item  : nat                (* index of item in state *)
}.

Record itementry : Type := {
  item_prod  : nat;             (* [prod]: production this item represents *)
  item_dot   : nat;             (* [dot]: index of dot in the right hand side *)
  descendant : target;          (* kernel item in goto state created by this item *)
  lookahead  : symbolset;       (* spontaneous and propagated follow set *)
  ancestors  : list target      (* items in other states which created this item *)
}.

Record gotoentry : Type := {
  goto_token : Z;               (* token on which to take goto *)
  goto_state : nat              (* target state of goto *)
}.

Record configuration : Type := {
  itemset : list itementry;     (* LR items in this configuration *)
  kernel  : nat;                (* number of items in the configuration kernel *)
  gotos   : list gotoentry      (* list of gotos from state *)
}.

(** The fields of the generator's [struct sdt_tables] read below. *)
Record generator : Type := {
  options      : Z;
  termcount    : Z;
  nontermcount : Z;
  productions  : list production;
  lhsindex     : list nat
}.

Definition option_set (opts flag : Z) : bool := negb (Z.land opts flag =? 0).

Definition null_symbol : symbolentry :=
  {| order := 0; sym_type := DEFINITION; sym_token := 0; sym_flags := 0;
     sym_precedence := 0; sym_insert := 0; sym_delete := 0 |}.

Definition null_production : production :=
  {| lhside := null_symbol; rhside := []; plength := 0; semantic := 0;
     steps := 0; pinsert := 0 |}.

Definition null_target : target := {| tg_state := 0; tg_item := 0 |}.

Definition null_item : itementry :=
  {| item_prod := 0; item_dot := 0; descendant := null_target;
     lookahead := dynfree; ancestors := [] |}.

Definition null_configuration : configuration :=
  {| itemset := []; kernel := 0; gotos := [] |}.

(** [PRODUCTION(i)], [RHSIDE(i, j)], [COLLECTION(i)] and [ITEMSET(i, j)]. *)
Definition PRODUCTION (prods : list production) (i : nat) : production :=
  default null_production (prods !! i).
Definition RHSIDE (p : production) (j : nat) : symbolentry :=
  default null_symbol (rhside p !! j).
Definition COLLECTION (coll : list configuration) (i : nat) : configuration :=
  default null_configuration (coll !! i).
Definition ITEMSET (coll : list configuration) (i j : nat) : itementry :=
  default null_item (itemset (COLLECTION coll i) !! j).

(** A terminal flagged [EMPTY] stands for the empty string. *)
Definition is_epsilon (s : symbolentry) : bool :=
  symtype_eqb (sym_type s) TERMINAL && (Z.land (sym_flags s) EMPTY =? EMPTY).

(** [for (; dot < RHSCOUNT; dot++) if (not epsilon) break;] over the part
    [rhs] of the right hand side that starts at [dot]. *)
Fixpoint skip_epsilon (rhs : list symbolentry) (dot : nat) : nat :=
  match rhs with
  | [] => dot
  | s :: rest => if is_epsilon s then skip_epsilon rest (S dot) else dot
  end.

(** The length [insert_production] records while appending the symbols of
    a right hand side: the count after the last symbol which is not an
    epsilon terminal. *)
Fixpoint effective_length (rhs : list symbolentry) (count len : nat) : nat :=
  match rhs with
  | [] => len
  | s :: rest =>
      effective_length rest (S count) (if is_epsilon s then len else S count)
  end.

(** One production as [insert_production] appends it. *)
Definition new_production (lhs : symbolentry) (rhs : list symbolentry)
    (sem : Z) : production :=
  {| lhside := lhs; rhside := rhs; plength := effective_length rhs 0 0;
     semantic := sem; steps := INT_MAX; pinsert := INT_MAX |}.

Section Generator.
Context (tables : generator).

Definition PRODCOUNT : nat := length (productions tables).

(** The production and the symbol after the dot of an item. *)
Definition item_production (it : itementry) : production :=
  PRODUCTION (productions tables) (item_prod it).
Definition item_symbol (it : itementry) : symbolentry :=
  RHSIDE (item_production it) (item_dot it).

(** [dot >= PRODUCTION(prod).length] *)
Definition complete (it : itementry) : bool :=
  (plength (item_production it) <=? item_dot it)%nat.

(** [dot < PRODUCTION(prod).length && RHSIDE(prod, dot)->token == token] *)
Definition before_token (token : Z) (it : itementry) : bool :=
  negb (complete it) && (sym_token (item_symbol it) =? token).

Definition fresh_item (prod dot : nat) : itementry :=
  {| item_prod := prod; item_dot := dot; descendant := null_target;
     lookahead := symbolset_alloc; ancestors := [] |}.

(** The search of the closure items for production [j]. *)
Definition in_closure (knl : nat) (items : list itementry) (j : nat) : bool :=
  existsb (fun it => (item_prod it =? j)%nat) (drop knl items).

(** [apply_closure(tables, state, index)] on the item set of [state],
    whose kernel has [knl] items.  [add_definitions] is the loop over
    the productions [j] that define the nonterminal [token]; for error
    repair it closes each new item before the next one is added. *)
Fixpoint apply_closure (fuel knl : nat) (items : list itementry) (i : nat)
    {struct fuel} : list itementry :=
  match fuel with
  | O => items
  | S fuel' =>
      match items !! i with
      | None => items
      | Some it =>
          let sym := item_symbol it in
          let items' :=
            if negb (complete it) && symtype_eqb (sym_type sym) NONTERMINAL
            then add_definitions fuel' knl items (sym_token sym)
                   (default O (lhsindex tables
                                 !! Z.to_nat (sym_token sym - termcount tables)))
            else items in
          apply_closure fuel' knl items' (S i)
      end
  end
with add_definitions (fuel knl : nat) (items : list itementry) (token : Z)
    (j : nat) {struct fuel} : list itementry :=
  match fuel with
  | O => items
  | S fuel' =>
      if (j <? PRODCOUNT)%nat
         && (sym_token (lhside (PRODUCTION (productions tables) j)) =? token)
      then
        let items' :=
          if in_closure knl items j then items
          else
            let added :=
              items ++ [fresh_item j
                          (skip_epsilon
                             (rhside (PRODUCTION (productions tables) j)) O)] in
            if option_set (options tables) ERRORREPAIR
            then apply_closure fuel' knl added (length items)
            else added in
        add_definitions fuel' knl items' token (S j)
      else items
  end.

(** Enough fuel for the closure of [items]: every call adds an item, moves
    to the next item or moves to the next production. *)
Definition closure_fuel (items : list itementry) : nat :=
  (S (S PRODCOUNT) * S (S (length items + PRODCOUNT)))%nat.

(** The kernel [lookup_goto] collects: the items of the state with the
    dot in front of [token], advanced past it and past epsilon
    terminals. *)
Definition advance (it : itementry) : itementry :=
  fresh_item (item_prod it)
    (skip_epsilon (drop (S (item_dot it)) (rhside (item_production it)))
       (S (item_dot it))).

Definition goto_kernel (items : list itementry) (token : Z)
  : list itementry :=
  map advance (List.filter (before_token token) items).

Definition same_item (a b : itementry) : bool :=
  (item_prod a =? item_prod b)%nat && (item_dot a =? item_dot b)%nat.

Definition item_at (items : list itementry) (i : nat) : itementry :=
  default null_item (items !! i).

(** [itemset_equal(tables, itemset1, kernel1, itemset2, kernel2)] *)
Definition itemset_equal (itemset1 : list itementry) (kernel1 : nat)
    (itemset2 : list itementry) (kernel2 : nat) : bool :=
  if negb (kernel1 =? kernel2)%nat then false
  else if option_set (options tables) ERRORREPAIR then
    forallb (fun i => same_item (item_at itemset1 i) (item_at itemset2 i))
      (seq 0 kernel1)
  else
    forallb (fun i =>
               existsb (fun j =>
                          same_item (item_at itemset1 j) (item_at itemset2 i))
                 (seq 0 kernel2))
      (seq 0 kernel1).

(** [for (i = 2; i < COLLCOUNT && !itemset_equal(...); i++);] with [n]
    bounding the states left to compare. *)
Fixpoint find_state (n i : nat) (coll : list configuration)
    (knl : list itementry) : nat :=
  match n with
  | O => i
  | S n' =>
      match coll !! i with
      | None => i
      | Some c =>
          if itemset_equal (itemset c) (kernel c) knl (length knl) then i
          else find_state n' (S i) coll knl
      end
  end.

Definition set_item (coll : list configuration) (i j : nat)
    (it : itementry) : list configuration :=
  let c := COLLECTION coll i in
  <[i := {| itemset := <[j := it]> (itemset c); kernel := kernel c;
            gotos := gotos c |}]> coll.

Definition set_descendant (it : itementry) (d : target) : itementry :=
  {| item_prod := item_prod it; item_dot := item_dot it; descendant := d;
     lookahead := lookahead it; ancestors := ancestors it |}.

Definition set_lookahead (it : itementry) (s : symbolset) : itementry :=
  {| item_prod := item_prod it; item_dot := item_dot it;
     descendant := descendant it; lookahead := s;
     ancestors := ancestors it |}.

Definition add_ancestor (it : itementry) (a : target) : itementry :=
  {| item_prod := item_prod it; item_dot := item_dot it;
     descendant := descendant it; lookahead := lookahead it;
     ancestors := ancestors it ++ [a] |}.

(** The loop of [lookup_goto] that sets up descendant and ancestor
    values, from item [j] of [state] on, [k] items being linked so far
    and [n] bounding the items left. *)
Fixpoint link_items (n j k state : nat) (token : Z) (i : nat)
    (coll : list configuration) : list configuration :=
  match n with
  | O => coll
  | S n' =>
      let it := ITEMSET coll state j in
      if before_token token it then
        let coll1 :=
          set_item coll state j
            (set_descendant it {| tg_state := i; tg_item := k |}) in
        let coll2 :=
          set_item coll1 i k
            (add_ancestor (ITEMSET coll1 i k)
               {| tg_state := state; tg_item := j |}) in
        link_items n' (S j) (S k) state token i coll2
      else link_items n' (S j) k state token i coll
  end.

(** [lookup_goto(tables, state, token)]: the collection afterwards and
    the state returned. *)
Definition lookup_goto (coll : list configuration) (state : nat) (token : Z)
  : list configuration * nat :=
  let items := itemset (COLLECTION coll state) in
  let knl := goto_kernel items token in
  let i := find_state (length coll) 2 coll knl in
  let coll1 :=
    if (length coll <=? i)%nat then
      coll ++ [ {| itemset :=
                     apply_closure (closure_fuel knl) (length knl) knl 0;
                   kernel := length knl; gotos := [] |} ]
    else coll in
  let i := if (length coll <=? i)%nat then length coll else i in
  (link_items (length items) 0 0 state token i coll1, i).

(** The count of the items of a state with the dot in front of [token]
    and the index of the last of them, from item [j] on. *)
Fixpoint count_token (items : list itementry) (token : Z)
    (j count found : nat) : nat * nat :=
  match items with
  | [] => (count, found)
  | it :: rest =>
      if before_token token it
      then count_token rest token (S j) (S count) j
      else count_token rest token (S j) count found
  end.

Definition add_goto (coll : list configuration) (i : nat) (g : gotoentry)
  : list configuration :=
  let c := COLLECTION coll i in
  <[i := {| itemset := itemset c; kernel := kernel c;
            gotos := gotos c ++ [g] |}]> coll.

(** The body of the goto loop of [generate_parser] for state [i] and
    [token]. *)
Definition goto_step (coll : list configuration) (i : nat) (token : Z)
  : list configuration :=
  let items := itemset (COLLECTION coll i) in
  let '(count, found) := count_token items token 0 0 0 in
  let it := item_at items found in
  if option_set (options tables) DEFAULTREDUCE && (count =? 1)%nat
     && (Z.of_nat (item_dot it)
           =? Z.of_nat (plength (item_production it)) - 1)
  then coll
  else if (0 <? count)%nat then
    let tok := sym_token (item_symbol it) in
    let '(coll1, st) := lookup_goto coll i token in
    add_goto coll1 i {| goto_token := tok; goto_state := st |}
  else coll.

(** [for (token = 1; token <= termcount + nontermcount; token++)] *)
Fixpoint goto_tokens (n : nat) (token : Z) (i : nat)
    (coll : list configuration) : list configuration :=
  match n with
  | O => coll
  | S n' => goto_tokens n' (token + 1) i (goto_step coll i token)
  end.

Definition token_count : nat :=
  Z.to_nat (termcount tables + nontermcount tables).

(** [for (i = 1; i < COLLCOUNT; i++)], the collection growing as the
    loop runs; [fuel] bounds the number of states visited. *)
Fixpoint goto_states (fuel i : nat) (coll : list configuration)
  : list configuration :=
  match fuel with
  | O => coll
  | S fuel' =>
      if (i <? length coll)%nat
      then goto_states fuel' (S i) (goto_tokens token_count 1 i coll)
      else coll
  end.

(** State 1 of the canonical collection, as [generate_parser] creates
    it: the augmented production with the dot on the left, closed. *)
Definition initial_collection : list configuration :=
  [ null_configuration;
    {| itemset := apply_closure (closure_fuel [fresh_item 1 0]) 1
                    [fresh_item 1 0] 0;
       kernel := 1; gotos := [] |} ].

(** [set_action(tables, state, token, action)] on the row of [state]:
    the row afterwards and the error returned. *)
Definition set_action (row : list Z) (token action : Z) : list Z * Z :=
  let cur := aref row token in
  if negb (cur =? 0) && negb (cur =? action) then
    (row, if (0 <? cur) || (0 <? action) then SHIFT_REDUCE_ERROR
          else REDUCE_REDUCE_ERROR)
  else (<[Z.to_nat token := action]> row, NO_ERROR).

(** The shift and shiftreduce action of one item. *)
Definition shift_item (row : list Z) (it : itementry) : list Z :=
  if negb (tg_state (descendant it) =? 0)%nat then
    fst (set_action row (sym_token (item_symbol it))
           (SHIFT_OFFSET + Z.of_nat (tg_state (descendant it))))
  else if negb (complete it) then
    fst (set_action row (sym_token (item_symbol it))
           (Z.of_nat (item_prod it)))
  else row.

(** The reduce actions of one item over its lookahead set. *)
Definition reduce_item (acc : list Z * Z) (it : itementry) : list Z * Z :=
  if complete it then
    fold_left
      (fun (a : list Z * Z) (sym : symbolentry) =>
         let '(row, r) :=
           set_action (fst a) (sym_token sym) (- Z.of_nat (item_prod it)) in
         (row, Z.lor (snd a) r))
      (cells (lookahead it)) acc
  else acc.

(** The row of state [i] as [build_table] fills it in, and the errors
    of the reduce pass; [goal] is the token of the symbol named Goal. *)
Definition build_row (goal : Z) (i : nat) (c : configuration)
  : list Z * Z :=
  let row0 := replicate (S token_count) 0 in
  let row1 :=
    if (i =? 1)%nat then fst (set_action row0 goal ACCEPT_OFFSET)
    else row0 in
  fold_left reduce_item (itemset c)
    (fold_left shift_item (itemset c) row1, NO_ERROR).

(** The precedence of a reduce: that of the last terminal of the right
    hand side, -1 when it has none. *)
Definition reduce_precedence (it : itementry) : Z :=
  fold_left
    (fun prec s =>
       if symtype_eqb (sym_type s) TERMINAL then sym_precedence s else prec)
    (rhside (item_production it)) (-1).

(** The precedence and the associativity of the items that shift
    [token]: those of the first of them that has one. *)
Definition shift_precedence (items : list itementry) (token : Z) : Z * Z :=
  fold_left
    (fun (acc : Z * Z) x =>
       if before_token token x then
         (if fst acc <? 0 then sym_precedence (item_symbol x) else fst acc,
          if snd acc =? 0
          then Z.land (sym_flags (item_symbol x)) ASSOCIATIVITY
          else snd acc)
       else acc)
    items (-1, 0).

(** [set_ambiguity(tables, state, item, token, reduceprec, shiftprec,
    associativity)] on the row of the state: the entry of the first
    item that shifts [token] becomes the reduce by the production of
    [it] when the reduce has the higher precedence (the lower number),
    or the same and the token is left associative. *)
Definition set_ambiguity (items : list itementry) (row : list Z)
    (it : itementry) (token reduceprec shiftprec associativity : Z)
  : list Z :=
  match List.find (before_token token) items with
  | None => row
  | Some x =>
      if shiftprec <? reduceprec then row
      else if (reduceprec <? shiftprec) || (associativity =? LEFT)
      then <[Z.to_nat (sym_token (item_symbol x))
             := - Z.of_nat (item_prod it)]> row
      else row
  end.

(** A symbol of the lookahead set of [it] has a shift or shiftreduce in
    the row. *)
Definition collides (row : list Z) (it : itementry) : bool :=
  existsb (fun s => 0 <? aref row (sym_token s)) (cells (lookahead it)).

(** The body of the loop of [resolve_ambiguity] over the items, on the
    row and the flag [failure]. *)
Definition resolve_item (items : list itementry) (acc : list Z * bool)
    (it : itementry) : list Z * bool :=
  if complete it && collides (fst acc) it then
    let reduceprec := reduce_precedence it in
    if 0 <=? reduceprec then
      fold_left
        (fun (a : list Z * bool) (s : symbolentry) =>
           let '(shiftprec, associativity) :=
             shift_precedence items (sym_token s) in
           (set_ambiguity items (fst a) it (sym_token s) reduceprec
              shiftprec associativity,
            snd a || ((reduceprec =? shiftprec) && (associativity =? NONE))))
        (cells (lookahead it)) acc
    else (fst acc, true)
  else acc.

(** [resolve_ambiguity(tables, state)]: the row afterwards, and whether
    [tables->process] is left as it was; the messages written to
    [stderr] are left out. *)
Definition resolve_ambiguity (items : list itementry) (row : list Z)
  : list Z * bool :=
  if option_set (options tables) AMBIGUOUS then
    let '(row', failure) :=
      fold_left (resolve_item items) items (row, false) in
    (row', negb failure)
  else (row, false).

(** The row of state [i] as the loop of [build_table] leaves it when
    the table is not rebuilt because of the state: after the shift and
    the reduce pass, a shift-reduce error is handed to
    [resolve_ambiguity]. *)
Definition table_row (goal : Z) (i : nat) (c : configuration)
  : list Z * bool :=
  let '(row, result) := build_row goal i c in
  if negb (Z.land result SHIFT_REDUCE_ERROR =? 0)
  then resolve_ambiguity (itemset c) row
  else (row, true).

(** The search of [build_repair] through the closure items of a state
    for the first reduce or shift of a terminal; the value stays 0 when
    there is none. *)
Fixpoint scan_closure (items : list itementry) : Z :=
  match items with
  | [] => 0
  | it :: rest =>
      if complete it then - Z.of_nat (item_prod it)
      else if symtype_eqb (sym_type (item_symbol it)) TERMINAL
      then sym_token (item_symbol it)
      else scan_closure rest
  end.

(** The error repair value [build_repair] selects for a state. *)
Definition repair_value (c : configuration) : Z :=
  let first := item_at (itemset c) 0 in
  if complete first then - Z.of_nat (item_prod first)
  else if symtype_eqb (sym_type (item_symbol first)) TERMINAL
  then sym_token (item_symbol first)
  else scan_closure (drop (kernel c) (itemset c)).

(** [build_repair(tables)]: the array [errortoken] of [COLLCOUNT + 1]
    cells, cleared and then filled in for the states from 1 on when
    error repair is selected. *)
Definition build_repair (coll : list configuration) : list Z :=
  if option_set (options tables) ERRORREPAIR then
    imap (fun i c => if (i =? 0)%nat then 0 else repair_value c) coll ++ [0]
  else replicate (S (length coll)) 0.

End Generator.

(** The two kinds of item that decide an error repair value, in the
    words of the specification: the dot at or past the effective length
    of the production, and the dot immediately before a terminal. *)
Definition past_end (tables : generator) (it : itementry) : Prop :=
  (plength (item_production tables it) <= item_dot it)%nat.

Definition before_terminal (tables : generator) (it : itementry) : Prop :=
  (item_dot it < plength (item_production tables it))%nat /\
  sym_type (item_symbol tables it) = TERMINAL.

(** [errortoken[i]] *)
Definition errortoken_at (errortoken : list Z) (i : nat) : Z :=
  aref errortoken (Z.of_nat i).

(** The test of the goto loop of [generate_parser] for a default
    shiftreduce on [token], on the items of a state. *)
Definition shortcut (tables : generator) (items : list itementry)
    (token : Z) : bool :=
  let '(count, found) := count_token tables items token 0 0 0 in
  let it := item_at items found in
  option_set (options tables) DEFAULTREDUCE && (count =? 1)%nat
  && (Z.of_nat (item_dot it)
        =? Z.of_nat (plength (item_production tables it)) - 1).

(** In the words of the specification: [it] is the only item of [items]
    with the dot immediately before [t], and that dot is at the effective
    length of its production minus one. *)
Definition only_item_before (tables : generator) (items : list itementry)
    (t : Z) (it : itementry) : Prop :=
  exists pre rest,
    items = pre ++ it :: rest /\
    before_token tables t it = true /\
    forall x, x ∈ pre ++ rest -> before_token tables t x = false.

Definition dot_before_last (tables : generator) (it : itementry) : Prop :=
  S (item_dot it) = plength (item_production tables it).

(** The production and dot of an item: what the goto loop reads of it. *)
Definition item_key (x : itementry) : nat * nat := (item_prod x, item_dot x).

(** A state of the collection during the goto loop: an item has a
    descendant, and a goto is recorded, only for a token that is not
    taken by a default shiftreduce. *)
Definition state_ok (tables : generator) (c : configuration) : Prop :=
  (forall x, x ∈ itemset c -> tg_state (descendant x) <> 0%nat ->
     complete tables x = false /\
     shortcut tables (itemset c) (sym_token (item_symbol tables x)) = false) /\
  (forall g, g ∈ gotos c -> shortcut tables (itemset c) (goto_token g) = false).

(** The items of a state with the lookahead sets [ls], as far as they
    go, in place of their own. *)
Fixpoint set_lookaheads (items : list itementry) (ls : list symbolset)
  : list itementry :=
  match items, ls with
  | it :: items', l :: ls' => set_lookahead it l :: set_lookaheads items' ls'
  | _, _ => items
  end.

Definition with_lookaheads (c : configuration) (ls : list symbolset)
  : configuration :=
  {| itemset := set_lookaheads (itemset c) ls; kernel := kernel c;
     gotos := gotos c |}.

(** [lrstates[state][token]] in the row of a state. *)
Definition row_entry {A : Type} (row : list Z * A) (token : Z) : Z :=
  aref (fst row) token.

(** The default shiftreduce sentence of the specification, for a state
    of the collection the goto loop has generated after any number of
    states, with any lookahead sets [ls] for its items: no goto on [t] is
    recorded for the state and the entry for [t] of its row is the
    production number. *)
Definition default_shiftreduce (tables : generator) : Prop :=
  forall (fuel : nat) (goal : Z) (i : nat) (c : configuration)
         (ls : list symbolset) (t : Z) (it : itementry),
    goto_states tables fuel 1 (initial_collection tables) !! i = Some c ->
    1 <= t <= termcount tables -> termcount tables < goal ->
    0 <= nontermcount tables ->
    (0 < item_prod it)%nat ->
    only_item_before tables (itemset c) t it ->
    dot_before_last tables it ->
    goto_step tables (goto_states tables fuel 1 (initial_collection tables)) i t
    = goto_states tables fuel 1 (initial_collection tables) /\
    (forall g, g ∈ gotos c -> goto_token g <> t) /\
    tg_state (descendant it) = 0%nat /\
    row_entry (table_row tables goal i (with_lookaheads c ls)) t
    = Z.of_nat (item_prod it).

(** A complete item of [items] has a symbol of token [t] in its
    lookahead set: a reduce is in conflict with the actions on [t]. *)
Definition reduce_on (tables : generator) (items : list itementry) (t : Z)
    (x : itementry) : Prop :=
  x ∈ items /\ complete tables x = true /\
  exists s, s ∈ cells (lookahead x) /\ sym_token s = t.

(** ** parser.c: error repair

    [tknqueue] stands here for the token queue followed by the tokens
    [input_token] will deliver when [look_ahead] or the repair loop ask for
    more: the queue is a window on the token stream that the scanner
    extends on demand.  How far the scanner has read is not modelled. *)

(** A stack of states ([ERRSTACK], [LCLSTACK], [STASTACK]): the cells of the
    array and the count of the live ones. *)
Record statestack : Type := {
  st_cells : list Z;
  st_count : Z
}.

(** [a[i] = v] after [dyncheck] has made room for cell [i]. *)
Definition store (a : list Z) (i v : Z) : list Z :=
  if i <? 0 then a
  else if i <? Z.of_nat (length a) then <[Z.to_nat i := v]> a
  else a ++ replicate (Z.to_nat i - length a)%nat 0 ++ [v].

(** [STACK(COUNT - 1)], [STACK(COUNT++) = v], [COUNT -= n] and the
    [memcpy] of the live cells. *)
Definition st_top (s : statestack) : Z := aref (st_cells s) (st_count s - 1).

Definition st_push (s : statestack) (v : Z) : statestack :=
  {| st_cells := store (st_cells s) (st_count s) v;
     st_count := st_count s + 1 |}.

Definition st_drop (s : statestack) (n : Z) : statestack :=
  {| st_cells := st_cells s; st_count := st_count s - n |}.

Definition st_copy (s : statestack) : statestack :=
  {| st_cells := take (Z.to_nat (st_count s)) (st_cells s);
     st_count := st_count s |}.

(** The state of a repair: the error stack and the local stack, the
    continuation string with its count of live cells, and the follow
    set. *)
Record repairstate : Type := {
  errstack  : statestack;
  lclstack  : statestack;
  insertion : list insertentry;
  followset : list Z
}.

(** How a function that may call [exit] ends: it returns, the process
    exits with a status, or the fuel of a loop ran out. *)
Inductive outcome (A : Type) : Type :=
  | Returned (a : A)
  | Exited (status : Z) (l : listing_state)
  | Unfinished.
Arguments Returned {A} a.
Arguments Exited {A} status l.
Arguments Unfinished {A}.

(** The text of the fatal message. *)
Definition syntax_error : cstring :=
  [83; 121; 110; 116; 97; 120; 32; 101; 114; 114; 111; 114].

(** [TKNQUEUE(0)] *)
Definition next_token (q : list tokenentry) : tokenentry := hd null_token q.

(** The fatal branch of [error_value]: the message is recorded at the
    token at the head of the queue, the lines up to the one that holds
    the token are written, and the process exits with status 1. *)
Definition fatal_error {A : Type} (fuel : nat) (l : listing_state)
    (tk : tokenentry) : outcome A :=
  let l1 := record_error (tk_where tk) (Some syntax_error) l in
  let l2 := write_lines fuel true (tk_locus tk) l1 in
  if loc_upto (unwritten l2) (tk_locus tk) then Unfinished
  else Exited 1 l2.

(** The loop
    [do { COUNT -= rhslength[entry]; action = decode_goto(...);
          STACK(COUNT++) = entry; } while (action == SHIFTREDUCE);]
    of [build_continuation], [error_value] and [look_ahead]. *)
Fixpoint reduce_gotos (fuel : nat) (tables : sdt_tables) (stk : statestack)
    (entry : Z) : option (action * Z * statestack) :=
  match fuel with
  | O => None
  | S f =>
      let stk1 := st_drop stk (aref (rhslength tables) entry) in
      let '(act, entry') :=
        decode_goto tables (st_top stk1) (aref (lhsymbol tables) entry) in
      let stk2 := st_push stk1 entry' in
      if action_eqb act SHIFTREDUCE then reduce_gotos f tables stk2 entry'
      else Some (act, entry', stk2)
  end.

(** The loop of [error_value] that parses forward on [STASTACK] after a
    reduce on token [i]: whether [i] is legal at this point. *)
Fixpoint follow_reduce (fuel : nat) (tables : sdt_tables) (sta : statestack)
    (i entry : Z) : option bool :=
  match fuel with
  | O => None
  | S f =>
      match reduce_gotos f tables sta entry with
      | None => None
      | Some (act, entry1, sta1) =>
          if action_eqb act ACCEPT then Some true
          else
            let '(act2, entry2) :=
              decode_action tables (st_top sta1) i entry1 in
            if action_eqb act2 REDUCE then follow_reduce f tables sta1 i entry2
            else Some (action_eqb act2 SHIFT || action_eqb act2 SHIFTREDUCE
                       || action_eqb act2 ACCEPT)
      end
  end.

Definition follow_legal (fuel : nat) (tables : sdt_tables) (lcl : statestack)
    (i : Z) : option bool :=
  let '(act, entry) := decode_action tables (st_top lcl) i 0 in
  if action_eqb act SHIFT || action_eqb act SHIFTREDUCE then Some true
  else if action_eqb act REDUCE
  then follow_reduce fuel tables (st_copy lcl) i entry
  else Some false.

(** [for (i = 1; i <= tnumber; i++) if (followset[i] < 0) ...] from token
    [i] on, [n] tokens being left; [mark] is [INSCOUNT - 1]. *)
Fixpoint follow_tokens (fuel : nat) (tables : sdt_tables) (lcl : statestack)
    (mark : Z) (n : nat) (i : Z) (fs : list Z) : option (list Z) :=
  match n with
  | O => Some fs
  | S n' =>
      if aref fs i <? 0 then
        match follow_legal fuel tables lcl i with
        | None => None
        | Some legal =>
            follow_tokens fuel tables lcl mark n' (i + 1)
              (if legal then <[Z.to_nat i := mark]> fs else fs)
        end
      else follow_tokens fuel tables lcl mark n' (i + 1) fs
  end.

Definition null_insert : insertentry :=
  {| in_token := 0; in_symbol := None; in_cost := 0; known := false |}.

(** [INSERTION(i)] and [INSERTION(INSCOUNT - 1)]. *)
Definition INSERTION (ins : list insertentry) (i : Z) : insertentry :=
  if i <? 0 then null_insert else default null_insert (ins !! Z.to_nat i).

Definition last_insert (ins : list insertentry) : insertentry :=
  INSERTION ins (Z.of_nat (length ins) - 1).

Definition set_known (e : insertentry) : insertentry :=
  {| in_token := in_token e; in_symbol := in_symbol e; in_cost := in_cost e;
     known := true |}.

(** [error_value(tables)]: the value returned and the state of the repair
    afterwards, unless the state on top of the local stack has no repair
    value. *)
Definition error_value (fuel : nat) (tables : sdt_tables) (l : listing_state)
    (tk : tokenentry) (rs : repairstate) : outcome (Z * repairstate) :=
  let value := aref (repair tables) (st_top (lclstack rs)) in
  if value =? 0 then fatal_error (lines_fuel (chain l)) l tk
  else
    let ins := insertion rs in
    let followed :=
      if known (last_insert ins) then Some (ins, followset rs)
      else
        match follow_tokens fuel tables (lclstack rs)
                (Z.of_nat (length ins) - 1) (Z.to_nat (tnumber tables)) 1
                (followset rs) with
        | None => None
        | Some fs =>
            Some (<[(length ins - 1)%nat := set_known (last_insert ins)]> ins,
                  fs)
        end in
    match followed with
    | None => Unfinished
    | Some (ins1, fs) =>
        let ins2 :=
          if value >? 0 then
            ins1 ++ [ {| in_token := value; in_symbol := None;
                         in_cost := in_cost (last_insert ins1)
                                    + aref (inscost tables) value;
                         known := false |} ]
          else ins1 in
        Returned (value, {| errstack := errstack rs; lclstack := lclstack rs;
                            insertion := ins2; followset := fs |})
    end.

Definition with_lclstack (rs : repairstate) (lcl : statestack) : repairstate :=
  {| errstack := errstack rs; lclstack := lcl; insertion := insertion rs;
     followset := followset rs |}.

(** What one turn of the loop of [build_continuation] does with the
    [value] that [error_value] has returned: the state of the repair
    afterwards, and whether the action was [ACCEPT]; [None] when the
    loop over the reduces does not end within [fuel]. *)
Definition continuation_step (fuel : nat) (tables : sdt_tables) (value : Z)
    (rs1 : repairstate) : option (bool * repairstate) :=
  let lcl := lclstack rs1 in
  let '(act, entry) :=
    if value <? 0 then (REDUCE, wrap_int (- value))
    else decode_action tables (st_top lcl) value 0 in
  let shifted :=
    if action_eqb act SHIFT || action_eqb act SHIFTREDUCE
    then st_push lcl entry else lcl in
  if action_eqb act SHIFTREDUCE || action_eqb act REDUCE then
    match reduce_gotos fuel tables shifted entry with
    | None => None
    | Some (act', _, lcl') =>
        Some (action_eqb act' ACCEPT, with_lclstack rs1 lcl')
    end
  else Some (action_eqb act ACCEPT, with_lclstack rs1 shifted).

(** The [do ... while (action != ACCEPT)] loop of [build_continuation]. *)
Fixpoint continuation_loop (fuel : nat) (tables : sdt_tables)
    (l : listing_state) (tk : tokenentry) (rs : repairstate)
  : outcome repairstate :=
  match fuel with
  | O => Unfinished
  | S f =>
      match error_value f tables l tk rs with
      | Exited status l' => Exited status l'
      | Unfinished => Unfinished
      | Returned (value, rs1) =>
          match continuation_step f tables value rs1 with
          | None => Unfinished
          | Some (true, rs2) => Returned rs2
          | Some (false, rs2) => continuation_loop f tables l tk rs2
          end
      end
  end.

(** The state of the repair when [build_continuation] enters its loop. *)
Definition initial_repair (tables : sdt_tables) (err : statestack)
  : repairstate :=
  {| errstack := err; lclstack := st_copy err;
     insertion := [null_insert];
     followset := replicate (S (Z.to_nat (tnumber tables))) (-1) |}.

(** [build_continuation(tables)] *)
Definition build_continuation (fuel : nat) (tables : sdt_tables)
    (l : listing_state) (tk : tokenentry) (err : statestack)
  : outcome repairstate :=
  continuation_loop fuel tables l tk (initial_repair tables err).


Definition null_reduce : reduceentry :=
  {| number := 0; pointer := 0; rd_state := 0 |}.

(** The loop of [repair_error] that performs queued reduces on the error
    stack until its top is a real state, from [REDQUEUE(i)] on. *)
Fixpoint settle_stack (fuel : nat) (q : list reduceentry) (i : nat)
    (err : statestack) : option statestack :=
  match fuel with
  | O => None
  | S f =>
      if st_top err =? 0 then
        let r := default null_reduce (q !! i) in
        settle_stack f q (S i)
          (st_push {| st_cells := st_cells err; st_count := pointer r |}
             (rd_state r))
      else Some err
  end.

(** [look_ahead]'s parse of the tokens [chk] that are left on the local
    token stack. *)
Fixpoint parse_ahead (fuel : nat) (tables : sdt_tables) (sta : statestack)
    (chk : list Z) : option Z :=
  match fuel with
  | O => None
  | S f =>
      let '(act, entry) := decode_action tables (st_top sta) (hd 0 chk) 0 in
      match act with
      | SHIFT =>
          match tl chk with
          | [] => Some 0
          | rest => parse_ahead f tables (st_push sta entry) rest
          end
      | SHIFTREDUCE =>
          match tl chk with
          | [] => Some 0
          | rest =>
              match reduce_gotos f tables (st_push sta entry) entry with
              | None => None
              | Some (act', _, sta') =>
                  if action_eqb act' ACCEPT then Some 0
                  else parse_ahead f tables sta' rest
              end
          end
      | REDUCE =>
          match reduce_gotos f tables sta entry with
          | None => None
          | Some (act', _, sta') =>
              if action_eqb act' ACCEPT then Some 0
              else parse_ahead f tables sta' chk
          end
      | ERROR => Some (Z.of_nat (length chk))
      | ACCEPT => Some 0
      end
  end.

(** [look_ahead(tables, token, count, number)] *)
Definition look_ahead (fuel : nat) (tables : sdt_tables) (rs : repairstate)
    (q : list tokenentry) (token count number : Z) : option Z :=
  let special := if token >? 0 then [token] else [] in
  let continuation :=
    map (fun i => in_token (INSERTION (insertion rs) (Z.of_nat i)))
      (seq 1 (Z.to_nat count)) in
  let input :=
    map (fun i => tk_token (default null_token (q !! i)))
      (seq 0 (Z.to_nat number)) in
  parse_ahead fuel tables (st_copy (errstack rs))
    (special ++ continuation ++ input).

(** The test and the cost of the insertion of [token] in front of the
    next input token: [Some None] when the token is not a candidate. *)
Definition insert_cost (fuel : nat) (tables : sdt_tables) (rs : repairstate)
    (q : list tokenentry) (delete token : Z) : option (option Z) :=
  if (aref (followset rs) token =? 0)
     && negb (token =? in_token (INSERTION (insertion rs) 1))
  then
    match look_ahead fuel tables rs q token 0 1 with
    | None => None
    | Some remaining =>
        if remaining =? 0 then
          let cost := delete + aref (inscost tables) token in
          if context tables >? 1 then
            match look_ahead fuel tables rs q token 0 (context tables) with
            | None => None
            | Some remaining' =>
                Some (Some (cost + Z.quot (remaining' * defcost tables)
                                     (context tables)))
            end
          else Some (Some cost)
        else Some None
    end
  else Some None.

(** The loop of [repair_error] over the terminals, from [token] on, that
    finds the cheapest insertion. *)
Fixpoint cheapest_insert (fuel : nat) (tables : sdt_tables) (rs : repairstate)
    (q : list tokenentry) (delete : Z) (n : nat) (token : Z)
    (ins : errorrepair) : option errorrepair :=
  match n with
  | O => Some ins
  | S n' =>
      match insert_cost fuel tables rs q delete token with
      | None => None
      | Some None => cheapest_insert fuel tables rs q delete n' (token + 1) ins
      | Some (Some cost) =>
          cheapest_insert fuel tables rs q delete n' (token + 1)
            (if cost <? er_cost ins
             then {| er_token := token; er_prefix := er_prefix ins;
                     er_cost := cost |}
             else ins)
      end
  end.

Definition no_repair : errorrepair :=
  {| er_token := -1; er_prefix := -1; er_cost := MAXCOST |}.

(** The repair by the prefix of the continuation that makes the next
    input token legal. *)
Definition prefix_repair (fuel : nat) (tables : sdt_tables) (rs : repairstate)
    (q : list tokenentry) (delete : Z) : option errorrepair :=
  let token := tk_token (next_token q) in
  let follow := aref (followset rs) token in
  if follow >=? 0 then
    let cost := delete + in_cost (INSERTION (insertion rs) follow) in
    if context tables >? 0 then
      match look_ahead fuel tables rs q 0 follow (context tables) with
      | None => None
      | Some remaining =>
          Some {| er_token := -1; er_prefix := follow;
                  er_cost := cost + Z.quot (remaining * defcost tables)
                                      (context tables) |}
      end
    else Some {| er_token := -1; er_prefix := follow; er_cost := cost |}
  else Some {| er_token := -1; er_prefix := 0; er_cost := MAXCOST |}.

(** [if (insert.cost < choice.cost || prefix.cost < choice.cost)
       choice = (insert.cost <= prefix.cost) ? insert : prefix;] *)
Definition new_choice (choice insert prefix : errorrepair) : errorrepair :=
  if (er_cost insert <? er_cost choice) || (er_cost prefix <? er_cost choice)
  then if er_cost insert <=? er_cost prefix then insert else prefix
  else choice.

(** The variables of the search of [repair_error]. *)
Record search : Type := {
  choice   : errorrepair;           (* least cost repair (insert or prefix) *)
  delete   : Z;                     (* total cost of deleted tokens *)
  scnstack : list tokenentry;       (* tokens scanned over *)
  deletion : list tokenentry;       (* tokens deleted by the repair *)
  tokens   : list tokenentry        (* the token queue *)
}.

(** One turn of the [for (;;)] loop: the variables afterwards, and
    whether the loop goes on. *)
Definition search_step (fuel : nat) (tables : sdt_tables) (rs : repairstate)
    (st : search) : option (search * bool) :=
  match cheapest_insert fuel tables rs (tokens st) (delete st)
          (Z.to_nat (tnumber tables)) 1 no_repair with
  | None => None
  | Some insert =>
      match prefix_repair fuel tables rs (tokens st) (delete st) with
      | None => None
      | Some prefix =>
          let token := tk_token (next_token (tokens st)) in
          let better :=
            (er_cost insert <? er_cost (choice st))
            || (er_cost prefix <? er_cost (choice st)) in
          let choice' := new_choice (choice st) insert prefix in
          let deletion' :=
            if better then deletion st ++ scnstack st else deletion st in
          let scnstack' := if better then [] else scnstack st in
          if delete st + aref (delcost tables) token <? er_cost choice' then
            Some ({| choice := choice';
                     delete := delete st + aref (delcost tables) token;
                     scnstack := scnstack' ++ [next_token (tokens st)];
                     deletion := deletion';
                     tokens := tl (tokens st) |}, true)
          else
            Some ({| choice := choice'; delete := delete st;
                     scnstack := scnstack'; deletion := deletion';
                     tokens := tokens st |}, false)
      end
  end.

Fixpoint search_loop (fuel : nat) (tables : sdt_tables) (rs : repairstate)
    (st : search) : option search :=
  match fuel with
  | O => None
  | S f =>
      match search_step f tables rs st with
      | None => None
      | Some (st', true) => search_loop f tables rs st'
      | Some (st', false) => Some st'
      end
  end.

(** The variables of the search when it starts. *)
Definition initial_search (q : list tokenentry) : search :=
  {| choice := no_repair; delete := 0; scnstack := []; deletion := [];
     tokens := q |}.

(** The copy of the states of the parse stack at the start of
    [repair_error]. *)
Definition error_stack (s : pstate) : statestack :=
  {| st_cells := map pe_state (parstack s);
     st_count := Z.of_nat (length (parstack s)) |}.

(** [repair_error(tables)] up to the point where the repair that was
    chosen is reported: the error stack is set up and settled, the
    continuation is built, the least cost repair is searched for and the
    tokens that were scanned but not deleted are put back. *)
Definition repair_error (fuel : nat) (tables : sdt_tables) (s : pstate)
  : outcome (repairstate * search) :=
  match settle_stack fuel (redqueue s) 0 (error_stack s) with
  | None => Unfinished
  | Some err' =>
      match build_continuation fuel tables (lst s)
              (next_token (tknqueue s)) err' with
      | Exited status l' => Exited status l'
      | Unfinished => Unfinished
      | Returned rs =>
          match search_loop fuel tables rs (initial_search (tknqueue s)) with
          | None => Unfinished
          | Some st =>
              Returned (rs, {| choice := choice st; delete := delete st;
                               scnstack := []; deletion := deletion st;
                               tokens := scnstack st ++ tokens st |})
          end
      end
  end.


(** *** Positions in the buffer chain *)

(** Every buffer but the last holds characters: a buffer is only
    allocated when the one before it is full. *)
Definition buffers_filled (c : bufferchain) : Prop :=
  forall b, 0 <= b -> b + 1 < Z.of_nat (length c) -> 0 < bcount c b.

(** The position of a character, or the end of a buffer. *)
Definition in_chain (c : bufferchain) (w : location) : Prop :=
  0 <= buffer w < Z.of_nat (length c) /\
  0 <= offset w <= bcount c (buffer w).

(** A position [unwritten] can take: on a character, or in the last
    buffer. *)
Definition line_position (c : bufferchain) (w : location) : Prop :=
  0 <= buffer w < Z.of_nat (length c) /\ 0 <= offset w /\
  (offset w < bcount c (buffer w) \/ buffer w + 1 = Z.of_nat (length c)).

(** The number of characters in the buffers before buffer [b], and the
    number of characters before a position. *)
Definition chars_before (c : bufferchain) (b : nat) : Z :=
  Z.of_nat (length (concat (take b c))).

Definition rank (c : bufferchain) (w : location) : Z :=
  chars_before c (Z.to_nat (buffer w)) + offset w.

(** The message of a fatal syntax error at a token. *)
Definition syntax_error_at (tk : tokenentry) : errorentry :=
  {| point := tk_where tk; last := tk_where tk;
     message := Some syntax_error |}.




(** ** lalrgen.c: the sort keys of the productions

    The sums of [compute_sortkeys] are [int] additions: what is stored
    when a sum leaves the range of [int] is given by [wrap_int]. *)

(** [a == b] for two pointers to symbols. *)
Definition same_symbol (a b : symbolentry) : bool := order a =? order b.

Definition set_steps (p : production) (v : Z) : production :=
  {| lhside := lhside p; rhside := rhside p; plength := plength p;
     semantic := semantic p; steps := v; pinsert := pinsert p |}.

Definition set_pinsert (p : production) (v : Z) : production :=
  {| lhside := lhside p; rhside := rhside p; plength := plength p;
     semantic := semantic p; steps := steps p; pinsert := v |}.

(** [if (a < INT_MAX && m < INT_MAX) a += m; else a = INT_MAX;] *)
Definition add_key (a m : Z) : Z :=
  if (a <? INT_MAX) && (m <? INT_MAX) then wrap_int (a + m) else INT_MAX.

(** [if (a < INT_MAX) a += cost;] *)
Definition add_cost (a cost : Z) : Z :=
  if a <? INT_MAX then wrap_int (a + cost) else a.

Section SortKeys.
Context (termcount : Z) (lhsindex : list nat).

(** [lhsindex[sym->token - termcount]] *)
Definition lhs_start (sym : symbolentry) : nat :=
  default O (lhsindex !! Z.to_nat (sym_token sym - termcount)).

(** The loop over the productions [alts] from [lhsindex] on that finds
    the minimum number of steps and insert cost of the nonterminal
    [sym]; it stops at the first production of another symbol. *)
Fixpoint min_keys (alts : list production) (sym : symbolentry)
    (minsteps mininsert : Z) : Z * Z :=
  match alts with
  | [] => (minsteps, mininsert)
  | p :: rest =>
      if same_symbol (lhside p) sym then
        min_keys rest sym
          (if steps p <? minsteps then steps p else minsteps)
          (if pinsert p <? mininsert then pinsert p else mininsert)
      else (minsteps, mininsert)
  end.

(** The loop over the symbols [rhs] of a right hand side. *)
Fixpoint rhs_keys (prods : list production) (rhs : list symbolentry)
    (st ins : Z) : Z * Z :=
  match rhs with
  | [] => (st, ins)
  | sym :: rest =>
      if symtype_eqb (sym_type sym) NONTERMINAL then
        let '(minsteps, mininsert) :=
          min_keys (drop (lhs_start sym) prods) sym INT_MAX INT_MAX in
        rhs_keys prods rest (add_key st minsteps) (add_key ins mininsert)
      else if negb (Z.land (sym_flags sym) EMPTY =? EMPTY) then
        rhs_keys prods rest st (add_cost ins (sym_insert sym))
      else rhs_keys prods rest st ins
  end.

(** The body of the loop over the productions: the keys of production
    [i] are lowered when its right hand side gives lower ones. *)
Definition update_keys (prods : list production) (i : nat)
  : list production * bool :=
  let p := PRODUCTION prods i in
  let '(st, ins) := rhs_keys prods (take (plength p) (rhside p)) 0 0 in
  let fewer := (st <? INT_MAX) && (st + 1 <? steps p) in
  let cheaper := ins <? pinsert p in
  let p1 := if fewer then set_steps p (st + 1) else p in
  let p2 := if cheaper then set_pinsert p1 ins else p1 in
  (<[i := p2]> prods, fewer || cheaper).

(** [for (changed = false, i = 1; i < PRODCOUNT; i++)] from production
    [i] on, [n] productions being left. *)
Fixpoint sortkeys_pass (n i : nat) (prods : list production)
    (changed : bool) : list production * bool :=
  match n with
  | O => (prods, changed)
  | S n' =>
      let '(prods', c) := update_keys prods i in
      sortkeys_pass n' (S i) prods' (changed || c)
  end.

(** [compute_sortkeys(tables)]; [None] when [fuel] passes do not reach
    the end of the loop. *)
Fixpoint compute_sortkeys (fuel : nat) (prods : list production)
  : option (list production) :=
  match fuel with
  | O => None
  | S f =>
      match sortkeys_pass (length prods - 1) 1 prods false with
      | (prods', true) => compute_sortkeys f prods'
      | (prods', false) => Some prods'
      end
  end.

(** The order of [sort_productions]: fewer steps, or as many steps and
    a lower insert cost. *)
Definition key_less (a b : production) : bool :=
  (steps a <? steps b) || ((steps a =? steps b) && (pinsert a <? pinsert b)).

Definition lhs_token (p : production) : Z := sym_token (lhside p).

(** The search for the smallest of the remaining right hand sides, from
    production [k] on. *)
Fixpoint find_min (prods : list production) (token : Z) (n k min : nat)
  : nat :=
  match n with
  | O => min
  | S n' =>
      match prods !! k with
      | None => min
      | Some p =>
          if lhs_token p =? token then
            find_min prods token n' (S k)
              (if key_less p (PRODUCTION prods min) then k else min)
          else min
      end
  end.

Definition swap_productions (prods : list production) (j min : nat)
  : list production :=
  if (j =? min)%nat then prods
  else <[min := PRODUCTION prods j]> (<[j := PRODUCTION prods min]> prods).

(** The loop over the alternatives of the nonterminal with [token],
    from production [j] on. *)
Fixpoint sort_alternatives (n j : nat) (token : Z)
    (prods : list production) : list production :=
  match n with
  | O => prods
  | S n' =>
      match prods !! j with
      | None => prods
      | Some p =>
          if lhs_token p =? token then
            let min :=
              find_min prods (lhs_token p) (length prods) (S j) j in
            sort_alternatives n' (S j) token (swap_productions prods j min)
          else prods
      end
  end.

(** [for (i = 1; i <= nontermcount; i++)] from nonterminal [i] on. *)
Fixpoint sort_nonterminals (n i : nat) (prods : list production)
  : list production :=
  match n with
  | O => prods
  | S n' =>
      sort_nonterminals n' (S i)
        (sort_alternatives (length prods) (default O (lhsindex !! i))
           (termcount + Z.of_nat i) prods)
  end.

(** [sort_productions(tables)] *)
Definition sort_productions (nontermcount : Z) (prods : list production)
  : list production :=
  sort_nonterminals (Z.to_nat nontermcount) 1 prods.

End SortKeys.

(** *** The sums checked against the range of [int]

    The loops of [compute_sortkeys] once more, with every sum checked:
    the answer is [None], and [Overflow] for the whole computation, where
    an addition of the loops above leaves the range of [int].  They serve
    to show that within the bound [sums_fit] no addition wraps. *)

Inductive computed (A : Type) : Type :=
  | Value (a : A)
  | Overflow
  | Timeout.
Arguments Value {A} a.
Arguments Overflow {A}.
Arguments Timeout {A}.

Definition checked (v : Z) : option Z :=
  if (INT_MIN <=? v) && (v <=? INT_MAX) then Some v else None.

Definition checked_add_key (a m : Z) : option Z :=
  if (a <? INT_MAX) && (m <? INT_MAX) then checked (a + m) else Some INT_MAX.

Definition checked_add_cost (a cost : Z) : option Z :=
  if a <? INT_MAX then checked (a + cost) else Some a.

Section CheckedKeys.
Context (termcount : Z) (lhsindex : list nat).

Fixpoint checked_rhs_keys (prods : list production)
    (rhs : list symbolentry) (st ins : Z) : option (Z * Z) :=
  match rhs with
  | [] => Some (st, ins)
  | sym :: rest =>
      if symtype_eqb (sym_type sym) NONTERMINAL then
        let '(minsteps, mininsert) :=
          min_keys (drop (lhs_start termcount lhsindex sym) prods) sym
            INT_MAX INT_MAX in
        match checked_add_key st minsteps,
              checked_add_key ins mininsert with
        | Some st', Some ins' => checked_rhs_keys prods rest st' ins'
        | _, _ => None
        end
      else if negb (Z.land (sym_flags sym) EMPTY =? EMPTY) then
        match checked_add_cost ins (sym_insert sym) with
        | Some ins' => checked_rhs_keys prods rest st ins'
        | None => None
        end
      else checked_rhs_keys prods rest st ins
  end.

Definition checked_update_keys (prods : list production) (i : nat)
  : option (list production * bool) :=
  let p := PRODUCTION prods i in
  match checked_rhs_keys prods (take (plength p) (rhside p)) 0 0 with
  | None => None
  | Some (st, ins) =>
      let fewer := (st <? INT_MAX) && (st + 1 <? steps p) in
      let cheaper := ins <? pinsert p in
      let p1 := if fewer then set_steps p (st + 1) else p in
      let p2 := if cheaper then set_pinsert p1 ins else p1 in
      Some (<[i := p2]> prods, fewer || cheaper)
  end.

Fixpoint checked_pass (n i : nat) (prods : list production)
    (changed : bool) : option (list production * bool) :=
  match n with
  | O => Some (prods, changed)
  | S n' =>
      match checked_update_keys prods i with
      | None => None
      | Some (prods', c) => checked_pass n' (S i) prods' (changed || c)
      end
  end.

Fixpoint checked_sortkeys (fuel : nat) (prods : list production)
  : computed (list production) :=
  match fuel with
  | O => Timeout
  | S f =>
      match checked_pass (length prods - 1) 1 prods false with
      | None => Overflow
      | Some (prods', true) => checked_sortkeys f prods'
      | Some (prods', false) => Value prods'
      end
  end.
End CheckedKeys.

(** *** The keys in the words of the specification *)

(** The productions with the left hand side [sym]. *)
Definition alternatives (prods : list production) (sym : symbolentry)
  : list production :=
  List.filter (fun q => same_symbol (lhside q) sym) (drop 1 prods).

(** The minimum of [f] over productions, infinite when there is none;
    [INT_MAX] stands for infinity. *)
Definition least (f : production -> Z) (l : list production) : Z :=
  fold_right (fun q m => Z.min (f q) m) INT_MAX l.

Definition saturate (v : Z) : Z := Z.min INT_MAX v.

Definition sum_list (l : list Z) : Z := fold_right Z.add 0 l.

Definition is_nonterminal (s : symbolentry) : bool :=
  symtype_eqb (sym_type s) NONTERMINAL.

(** A terminal that is not an epsilon terminal. *)
Definition is_costed (s : symbolentry) : bool :=
  negb (is_nonterminal s) && negb (Z.land (sym_flags s) EMPTY =? EMPTY).

Definition spec_steps (prods : list production) (p : production) : Z :=
  saturate
    (1 + sum_list (map (fun n => least steps (alternatives prods n))
                     (List.filter is_nonterminal (rhside p)))).

Definition spec_insert (prods : list production) (p : production) : Z :=
  saturate
    (sum_list (map (fun n => least pinsert (alternatives prods n))
                 (List.filter is_nonterminal (rhside p)))
     + sum_list (map sym_insert (List.filter is_costed (rhside p)))).

(** [(steps, insert)] of [a] is at most that of [b]. *)
Definition key_le (a b : production) : Prop :=
  steps a < steps b \/ (steps a = steps b /\ pinsert a <= pinsert b).

(** The run of productions from [lhsindex] on that [compute_sortkeys]
    looks at for the nonterminal [sym]. *)
Fixpoint run_of (sym : symbolentry) (alts : list production)
  : list production :=
  match alts with
  | [] => []
  | p :: rest =>
      if same_symbol (lhside p) sym then p :: run_of sym rest else []
  end.

(** The productions as [build_productions] lays them out, for the list
    [rules] of left hand side, right hand side and semantic number:
    - costs are not negative;
    - the alternatives of a nonterminal of a right hand side are the run
      of productions that starts at its [lhsindex];
    - no [lhsindex] of a nonterminal is 0;
    - the productions of a token follow each other from the [lhsindex]
      of the token on. *)
Record grammar_ok (termcount nontermcount : Z) (lhsindex : list nat)
    (prods : list production) : Prop := {
  ok_costs :
    forall p s, p ∈ prods -> s ∈ rhside p -> 0 <= sym_insert s;
  ok_start :
    forall p s, p ∈ prods -> s ∈ rhside p -> is_nonterminal s = true ->
      (1 <= lhs_start termcount lhsindex s)%nat;
  ok_runs :
    forall p s, p ∈ prods -> s ∈ rhside p -> is_nonterminal s = true ->
      alternatives prods s
      = run_of s (drop (lhs_start termcount lhsindex s) prods);
  ok_index :
    forall i, (1 <= i <= Z.to_nat nontermcount)%nat ->
      (1 <= default O (lhsindex !! i))%nat;
  ok_tokens :
    forall k p, (1 <= k)%nat -> prods !! k = Some p ->
      exists i, lhs_token p = termcount + Z.of_nat i /\
                (1 <= i <= Z.to_nat nontermcount)%nat /\
                (1 <= default O (lhsindex !! i) <= k)%nat /\
                forall m q, (default O (lhsindex !! i) <= m <= k)%nat ->
                            prods !! m = Some q -> lhs_token q = lhs_token p
}.

(** The productions [insert_production] appends for [rules], after the
    cell 0 that is not used. *)
Definition initial_productions
    (rules : list (symbolentry * list symbolentry * Z)) : list production :=
  null_production
  :: map (fun r => new_production (fst (fst r)) (snd (fst r)) (snd r)) rules.

(** *** Relations between lists of productions used in the proofs *)

(** The same production up to its keys. *)
Definition same_shape (a b : production) : Prop :=
  lhside a = lhside b /\ rhside a = rhside b /\ plength a = plength b /\
  semantic a = semantic b.

(** The same production with keys that are not greater. *)
Definition below (a b : production) : Prop :=
  same_shape a b /\ steps a <= steps b /\ pinsert a <= pinsert b.

Definition in_range (p : production) : Prop :=
  0 <= steps p <= INT_MAX /\ 0 <= pinsert p <= INT_MAX.

(** The sum of the keys: it decreases with every change. *)
Definition key_sum (prods : list production) : Z :=
  sum_list (map (fun p => steps p + pinsert p) prods).

(** The minima [compute_sortkeys] adds for the nonterminal [sym]: over
    the run of productions that starts at its [lhsindex]. *)
Definition run_steps (termcount : Z) (lhsindex : list nat)
    (prods : list production) (sym : symbolentry) : Z :=
  least steps (run_of sym (drop (lhs_start termcount lhsindex sym) prods)).

Definition run_insert (termcount : Z) (lhsindex : list nat)
    (prods : list production) (sym : symbolentry) : Z :=
  least pinsert (run_of sym (drop (lhs_start termcount lhsindex sym) prods)).

(** The production [update_keys] stores for the sums [st] and [ins], and
    whether it has changed. *)
Definition updated (p : production) (st ins : Z) : production :=
  let p1 := if (st <? INT_MAX) && (st + 1 <? steps p)
            then set_steps p (st + 1) else p in
  if ins <? pinsert p then set_pinsert p1 ins else p1.

Definition lowered (p : production) (st ins : Z) : bool :=
  ((st <? INT_MAX) && (st + 1 <? steps p)) || (ins <? pinsert p).

(** The keys of a production are not below the sums of its right hand
    side for any keys [X] that are not above those of [prods]. *)
Definition keys_bound (termcount : Z) (lhsindex : list nat)
    (prods : list production) : Prop :=
  forall i p X st ins,
    (1 <= i)%nat -> prods !! i = Some p -> Forall2 below X prods ->
    checked_rhs_keys termcount lhsindex X (take (plength p) (rhside p)) 0 0
    = Some (st, ins) ->
    saturate (st + 1) <= steps p /\ ins <= pinsert p.

Definition costs_ok (p : production) : Prop :=
  Forall (fun s => 0 <= sym_insert s) (rhside p).

(** What holds of the productions during [compute_sortkeys]. *)
Record keys_inv (termcount : Z) (lhsindex : list nat)
    (prods0 prods : list production) : Prop := {
  inv_below : Forall2 below prods prods0;
  inv_range : Forall in_range prods;
  inv_costs : Forall costs_ok prods;
  inv_bound : keys_bound termcount lhsindex prods
}.

(** A bound on the finite keys of the productions when [k] of them are
    finite, for right hand sides of at most [len] symbols whose terminals
    cost less than [cost] to insert: the first finite key of a production
    is [1] or an insert cost plus at most [len] keys that were finite
    before. *)
Fixpoint key_bound (len cost : Z) (k : nat) : Z :=
  match k with
  | O => 0
  | S k' => cost + len * key_bound len cost k'
  end.

(** The insert costs of the terminals of a right hand side that are not
    empty. *)
Definition rhs_cost (p : production) : Z :=
  sum_list (map sym_insert (List.filter is_costed (rhside p))).

(** The right hand sides have at most [len] symbols and terminals that
    cost less than [cost] to insert. *)
Definition rhs_within (len cost : Z) (prods : list production) : Prop :=
  forall p, p ∈ prods ->
    Z.of_nat (length (rhside p)) <= len /\ 1 + rhs_cost p <= cost.

(** A grammar that is small enough for every sum of [compute_sortkeys]
    to stay below [INT_MAX]. *)
Definition sums_fit (len cost : Z) (prods : list production) : Prop :=
  rhs_within len cost prods /\
  key_bound len cost (S (length prods)) < INT_MAX.

(** No addition of [compute_sortkeys] on [prods] leaves the range of
    [int], however many passes are made. *)
Definition sums_in_range (termcount : Z) (lhsindex : list nat)
    (prods : list production) : Prop :=
  forall fuel, checked_sortkeys termcount lhsindex fuel prods <> Overflow.

(** The number of productions whose key [f] is finite. *)
Definition finite_keys (f : production -> Z) (prods : list production)
  : nat :=
  length (List.filter (fun p => f p <? INT_MAX) prods).

(** The finite keys [f] are within the bound for their number. *)
Definition capped (len cost : Z) (f : production -> Z)
    (prods : list production) : Prop :=
  forall p, p ∈ prods -> f p < INT_MAX ->
    f p <= key_bound len cost (finite_keys f prods).

(** The sentence of the specification on the sort keys, for the
    productions of [rules]: [compute_sortkeys] ends, every production
    from 1 on then has the keys of the specification, and
    [sort_productions] permutes the productions, keeps their keys right
    and leaves the alternatives of every nonterminal in ascending order
    of [(steps, insert)]. *)
Definition sort_keys_spec (termcount nontermcount : Z) (lhsindex : list nat)
    (rules : list (symbolentry * list symbolentry * Z)) : Prop :=
  exists passes, forall fuel, (passes <= fuel)%nat ->
    exists keyed,
      compute_sortkeys termcount lhsindex fuel (initial_productions rules)
      = Some keyed /\
      let sorted := sort_productions termcount lhsindex nontermcount keyed in
      Forall2 below keyed (initial_productions rules) /\
      (forall i p, (1 <= i)%nat -> keyed !! i = Some p ->
         steps p = spec_steps keyed p /\ pinsert p = spec_insert keyed p) /\
      sorted ≡ₚ keyed /\
      (forall i p, (1 <= i)%nat -> sorted !! i = Some p ->
         steps p = spec_steps sorted p /\
         pinsert p = spec_insert sorted p) /\
      (forall a b pa pb, (1 <= a <= b)%nat ->
         sorted !! a = Some pa -> sorted !! b = Some pb ->
         lhs_token pa = lhs_token pb -> key_le pa pb).

(** The keys of a list of productions are at a fixpoint. *)
Definition keys_fixed (termcount : Z) (lhsindex : list nat)
    (prods : list production) : Prop :=
  forall i, (1 <= i < length prods)%nat ->
    checked_update_keys termcount lhsindex prods i = Some (prods, false).

(** *** The layout of the productions used in the proofs of the sort *)

(** The cells from [j] up to [e] hold the token [t], the cell [e] does
    not. *)
Definition is_run (tokens : list Z) (t : Z) (j e : nat) : Prop :=
  (j <= e)%nat /\
  (forall m, (j <= m < e)%nat -> tokens !! m = Some t) /\
  tokens !! e <> Some t.

(** The tokens of the left hand sides follow each other from the
    [lhsindex] of each nonterminal on. *)
Definition token_layout (termcount nontermcount : Z) (lhsindex : list nat)
    (tokens : list Z) : Prop :=
  (forall i, (1 <= i <= Z.to_nat nontermcount)%nat ->
     (1 <= default O (lhsindex !! i))%nat) /\
  forall k t, (1 <= k)%nat -> tokens !! k = Some t ->
    exists i, t = termcount + Z.of_nat i /\
              (1 <= i <= Z.to_nat nontermcount)%nat /\
              (default O (lhsindex !! i) <= k)%nat /\
              forall m, (default O (lhsindex !! i) <= m <= k)%nat ->
                        tokens !! m = Some t.

(** The alternatives of the nonterminals before nonterminal [i] are in
    the order of their keys. *)
Definition sorted_upto (termcount : Z) (prods : list production) (i : nat)
  : Prop :=
  forall a b pa pb,
    (1 <= a <= b)%nat -> prods !! a = Some pa -> prods !! b = Some pb ->
    lhs_token pa = lhs_token pb -> lhs_token pa < termcount + Z.of_nat i ->
    key_le pa pb.

(** * Definitions for the further properties *)

(** ** packtables.c: the order of packing *)

(** State [x] is packed before state [y]: it has more actions, or as
    many and the smaller number. *)
Definition packed_before (count : list Z) (x y : nat) : Prop :=
  cell count y < cell count x \/ (cell count x = cell count y /\ (x < y)%nat).

(** ** parser.c: the order of the message queue *)

(** Message [a] may stand in front of message [b] in the queue: [b] is
    not located before [a]. *)
Definition point_order (a b : errorentry) : Prop :=
  loc_before (point b) (point a) = false.

(** The messages among the events of the listing, in their order. *)
Definition messages_of (evs : list event) : list errorentry :=
  omap (fun ev => match ev with EvMessage e => Some e | _ => None end) evs.

(** ** packtables.c: compression of the scanner table

    The scanner table has a row of [MAPCOUNT] transitions for each state.
    A state is stored as the transitions that differ from those of a
    default state, which is one of the states stored before it.  As for
    the parser, states are numbered from 0 and the check and default
    tables hold a state plus one. *)

(** All possible bytes plus EOF (utility_functions.h). *)
Definition MAPCOUNT : nat := 257.

Record scanpack : Type := {
  tdefault : list Z;    (* compressed tables default state *)
  chainlen : list Z;    (* [chain]: length of default state chains *)
  spacked  : packed     (* [tbase], [tcheck], [tnext] and their count *)
}.

(** [state_mismatch(actions, state1, state2)] *)
Definition state_mismatch (actions : list (list Z)) (state1 state2 : nat) : Z :=
  if (state1 =? state2)%nat then 0
  else
    fold_left
      (fun fail i =>
         if negb (action_at actions state1 i =? action_at actions state2 i)
         then fail + 1 else fail)
      (seq 0 MAPCOUNT) 0.

(** [compare_scanner(actions, states, &compare)]: the loop computes the
    cells [compare[i][j]] and [compare[j][i]] for [i <= j] from
    [state_mismatch(actions, i, j)]. *)
Definition compare_scanner (actions : list (list Z)) (states : nat)
  : list (list Z) :=
  map (fun i =>
         map (fun j => state_mismatch actions (Nat.min i j) (Nat.max i j))
           (seq 0 states))
    (seq 0 states).

(** [compare[i][j]] and [index[i]]. *)
Definition compare_at (compare : list (list Z)) (i j : nat) : Z :=
  cell (default [] (compare !! i)) j.

Definition index_at (index : list nat) (i : nat) : nat :=
  default 0%nat (index !! i).

(** The search of [compress_scanner] for the first previously inserted
    state which is most similar to the state [index[entry]], from
    position [i] with [n] positions to go. *)
Fixpoint closest (compare : list (list Z)) (index : list nat) (entry : nat)
    (n i : nat) (value : Z) (min : nat) : nat :=
  match n with
  | O => min
  | S n' =>
      let v := compare_at compare (index_at index entry) (index_at index i) in
      if v <? value
      then closest compare index entry n' (S i) v i
      else closest compare index entry n' (S i) value min
  end.

(** The inner loop of the search for an insertion point, as [row_fits]
    with the test [!diff[j]] in the place of [actions[state][j] == 0]. *)
Fixpoint diff_fits (n j : nat) (diff : nat -> bool) (check : list Z) (i : nat)
  : bool :=
  match n with
  | O => true
  | S n' =>
      if negb (diff j) || (cell check (i + j) =? 0)
      then diff_fits n' (S j) diff check i
      else false
  end.

Fixpoint find_diff_base (n i : nat) (diff : nat -> bool) (check : list Z)
  : nat :=
  match n with
  | O => i
  | S n' =>
      if diff_fits MAPCOUNT 0 diff check i then i
      else find_diff_base n' (S i) diff check
  end.

(** The loop that stores the entries of the row selected by [need] at
    base [i]: [diff] for [compress_scanner], every entry for
    [insert_scanner]. *)
Fixpoint store_needed (n j : nat) (row : list Z) (need : nat -> bool)
    (i : nat) (owner : Z) (check next : list Z) : list Z * list Z :=
  match n with
  | O => (check, next)
  | S n' =>
      if need j
      then store_needed n' (S j) row need i owner
             (<[(i + j)%nat := owner]> check)
             (<[(i + j)%nat := cell row j]> next)
      else store_needed n' (S j) row need i owner check next
  end.

(** [insert_scanner(actions, states, index, tdefault, tbase, &tcheck,
    &tnext, &chain)]: the first state is stored completely. *)
Definition insert_scanner (actions : list (list Z)) (states index : nat)
    (t : scanpack) : scanpack :=
  let p := spacked t in
  let base := tcount p in
  let p1 :=
    if (length (tcheck p) <? tcount p + MAPCOUNT)%nat then
      let size := length (tcheck p) in
      {| tbase := tbase p;
         tcheck := tcheck p ++ replicate size 0;
         tnext := tnext p ++ replicate size 0;
         tcount := tcount p |}
    else p in
  let '(check, next) :=
    store_needed MAPCOUNT 0 (default [] (actions !! index)) (fun _ => true)
      base (Z.of_nat index + 1) (tcheck p1) (tnext p1) in
  {| tdefault := <[index := 0]> (tdefault t);
     chainlen := <[index := 1]> (replicate states 0);
     spacked := {| tbase := <[index := base]> (tbase p1);
                   tcheck := check; tnext := next;
                   tcount := (tcount p1 + MAPCOUNT)%nat |} |}.

(** [compress_scanner(actions, index, entry, compare, tdefault, tbase,
    &tcheck, &tnext, chain)] *)
Definition compress_scanner (actions : list (list Z)) (index : list nat)
    (entry : nat) (compare : list (list Z)) (t : scanpack) : scanpack :=
  let state := index_at index entry in
  let min := closest compare index entry entry 0 (Z.of_nat MAPCOUNT + 1) 0 in
  let dflt := index_at index min in
  let diff := fun i =>
    negb (action_at actions state i =? action_at actions dflt i) in
  let p := grow_tables (S (tcount (spacked t) + MAPCOUNT)) MAPCOUNT
             (spacked t) in
  let i := find_diff_base (tcount p) 0 diff (tcheck p) in
  let '(check, next) :=
    store_needed MAPCOUNT 0 (default [] (actions !! state)) diff i
      (Z.of_nat state + 1) (tcheck p) (tnext p) in
  {| tdefault := <[state := Z.of_nat dflt + 1]> (tdefault t);
     chainlen := <[state := cell (chainlen t) dflt + 1]> (chainlen t);
     spacked := {| tbase := <[state := i]> (tbase p);
                   tcheck := check; tnext := next;
                   tcount := if (tcount p <? i + MAPCOUNT)%nat
                             then (i + MAPCOUNT)%nat else tcount p |} |}.

(** The loop of [complete_scanner] over the transitions of one state:
    unused cells of its row are given to the state. *)
Fixpoint fill_row (n j : nat) (row : list Z) (base : nat) (owner : Z)
    (check next : list Z) : list Z * list Z :=
  match n with
  | O => (check, next)
  | S n' =>
      if cell check (base + j) =? 0
      then fill_row n' (S j) row base owner
             (<[(base + j)%nat := owner]> check)
             (<[(base + j)%nat := cell row j]> next)
      else fill_row n' (S j) row base owner check next
  end.

Definition fill_state (actions : list (list Z)) (t : scanpack) (state : nat)
  : scanpack :=
  let p := spacked t in
  let '(check, next) :=
    fill_row MAPCOUNT 0 (default [] (actions !! state)) (base_of p state)
      (Z.of_nat state + 1) (tcheck p) (tnext p) in
  {| tdefault := tdefault t; chainlen := chainlen t;
     spacked := {| tbase := tbase p; tcheck := check; tnext := next;
                   tcount := tcount p |} |}.

(** [complete_scanner(actions, states, tdefault, tbase, &tcheck, &tnext,
    chain)]: the index is sorted by the insertion sort of [sort_parser],
    on the chain lengths. *)
Definition complete_scanner (actions : list (list Z)) (states : nat)
    (t : scanpack) : scanpack :=
  fold_left (fill_state actions) (sort_parser (chainlen t) states) t.

(** The part of [main] that packs the scanner.  [index] is the order of
    the states [sort_scanner] has computed; [check0] and [next0] are the
    cells of the two arrays as [dynalloc] returns them. *)
Definition pack_scanner (actions : list (list Z)) (index : list nat)
    (states : nat) (check0 next0 : list Z) : scanpack :=
  let compare := compare_scanner actions states in
  let t0 :=
    insert_scanner actions states (index_at index 0)
      {| tdefault := replicate states 0; chainlen := [];
         spacked := {| tbase := replicate states 0%nat;
                       tcheck := check0; tnext := next0; tcount := 0 |} |} in
  complete_scanner actions states
    (fold_left (fun t entry => compress_scanner actions index entry compare t)
       (seq 1 (states - 1)) t0).

(** ** parser.c: the scanner tables at run time *)

Record scanner : Type := {
  sdefault : list Z;    (* default state table *)
  sbase    : list Z;    (* base index table *)
  scheck   : list Z;    (* check state table *)
  snext    : list Z     (* next state table *)
}.

(** The tables [tableformat] writes: [Sdefault] and [Sbase] behind a
    filler 0, [Scheck] and [Snext] as they are. *)
Definition formatted_scanner (t : scanpack) : scanner :=
  {| sdefault := 0 :: tdefault t;
     sbase := 0 :: map Z.of_nat (tbase (spacked t));
     scheck := take (tcount (spacked t)) (tcheck (spacked t));
     snext := take (tcount (spacked t)) (tnext (spacked t)) |}.

(** The loop of [input_token] that searches through the default state
    chain:
    [while (scheck[i = sbase[state] + ch] != state &&
            (state = sdefault[state]));]
    It returns the state and the index it is left with. *)
Fixpoint default_chain (fuel : nat) (tb : scanner) (state ch : Z)
  : option (Z * Z) :=
  match fuel with
  | O => None
  | S f =>
      let i := aref (sbase tb) state + ch in
      if negb (aref (scheck tb) i =? state) then
        let state' := aref (sdefault tb) state in
        if negb (state' =? 0) then default_chain f tb state' ch
        else Some (0, i)
      else Some (state, i)
  end.

(** The transition of the scanner on [ch]:
    [if (state && (state = snext[i]))], with the state it leaves. *)
Definition next_state (fuel : nat) (tb : scanner) (state ch : Z) : option Z :=
  match default_chain fuel tb state ch with
  | Some (st, i) => Some (if negb (st =? 0) then aref (snext tb) i else 0)
  | None => None
  end.

(** The invariant of the packing of the scanner once the states in
    [done] are stored: a cell in use is a transition of the state it
    names, and a transition of a stored state is either in its cell or
    the same as that of its default state, which has a shorter chain. *)
Definition scan_inv (actions : list (list Z)) (done : nat -> Prop)
    (t : scanpack) : Prop :=
  let p := spacked t in
  (1 <= length (tcheck p))%nat /\
  length (tnext p) = length (tcheck p) /\
  (tcount p <= length (tcheck p))%nat /\
  (forall k, (tcount p <= k)%nat -> cell (tcheck p) k = 0) /\
  (forall k, cell (tcheck p) k <> 0 ->
     exists s j, done s /\ (j < MAPCOUNT)%nat /\ k = (base_of p s + j)%nat /\
                 cell (tcheck p) k = Z.of_nat s + 1 /\
                 cell (tnext p) k = action_at actions s j) /\
  (forall s, done s ->
     (base_of p s + MAPCOUNT <= tcount p)%nat /\
     1 <= cell (chainlen t) s /\
     ((cell (tdefault t) s = 0 /\
       forall j, (j < MAPCOUNT)%nat ->
         cell (tcheck p) (base_of p s + j) = Z.of_nat s + 1) \/
      (exists d, cell (tdefault t) s = Z.of_nat d + 1 /\ done d /\
                 cell (chainlen t) s = cell (chainlen t) d + 1 /\
                 forall j, (j < MAPCOUNT)%nat ->
                   cell (tcheck p) (base_of p s + j) = Z.of_nat s + 1 \/
                   action_at actions s j = action_at actions d j))).

(** The tables with a cell for each state have [n] cells. *)
Definition sized (t : scanpack) (n : nat) : Prop :=
  length (tbase (spacked t)) = n /\ length (tdefault t) = n /\
  length (chainlen t) = n.

(** ** lalrgen.c: closure items *)

(** The dot of [y] is in front of a nonterminal. *)
Definition before_nonterminal (tables : generator) (y : itementry) : Prop :=
  complete tables y = false /\
  sym_type (item_symbol tables y) = NONTERMINAL.

(** [x] is the closure item of a production that defines the nonterminal
    behind the dot of one of the items [all]: the production with the dot
    on the left, behind its leading epsilon terminals. *)
Definition closure_item (tables : generator) (all : list itementry)
    (x : itementry) : Prop :=
  exists j y,
    x = fresh_item j
          (skip_epsilon (rhside (PRODUCTION (productions tables) j)) 0) /\
    (j < PRODCOUNT tables)%nat /\
    y ∈ all /\ before_nonterminal tables y /\
    sym_token (lhside (PRODUCTION (productions tables) j))
    = sym_token (item_symbol tables y).

(** Production [j] is one of the productions the loop of [apply_closure]
    over the definitions of the nonterminal [token] reaches: every
    production from the [lhsindex] of the nonterminal up to [j] has the
    nonterminal on its left hand side. *)
Definition defines (tables : generator) (token : Z) (j : nat) : Prop :=
  let start :=
    default 0%nat (lhsindex tables !! Z.to_nat (token - termcount tables)) in
  (start <= j)%nat /\
  forall m, (start <= m <= j)%nat ->
    (m < PRODCOUNT tables)%nat /\
    sym_token (lhside (PRODUCTION (productions tables) m)) = token.

(** ** symbols.c: the symbol table

    The table is an array of [HASH_TABLE_SIZE] chains, a chain being the
    list of its entries from the front.  [hash_string] belongs to the
    utility sources and is a parameter here.  An entry pairs the identifier
    string with the rest of [struct symbol]; the union [value] of a new
    entry is cleared (for a DEFINITION its tree pointer is NULL). *)
Definition HASH_TABLE_SIZE : nat := 199.

Definition LOOKUP : Z := 0.
Definition INSERT : Z := 1.
Definition DELETE : Z := 2.

Record symbolnode : Type := {
  symbol : cstring;      (* identifier string for entry *)
  node   : symbolentry   (* order, type and value of the entry *)
}.

(** The symbol table with the counter [order] of [alloc_symbol]. *)
Record symtable : Type := {
  symboltable : list (list symbolnode);
  next_order  : Z
}.

(** [order++] on an [int]. *)
Definition next_int (v : Z) : Z := if v =? INT_MAX then INT_MIN else v + 1.

(** [alloc_symbol(name)] with the [type] and [value] that [lookup_symbol]
    stores in the new node. *)
Definition alloc_symbol (t : symtable) (name : cstring) (type : symtype)
  : symbolnode * Z :=
  ({| symbol := name;
      node := {| order := next_order t; sym_type := type; sym_token := 0;
                 sym_flags := 0; sym_precedence := 0; sym_insert := 0;
                 sym_delete := 0 |} |},
   next_int (next_order t)).

(** [chain->type != type || strcmp(chain->symbol, symbol)] is false. *)
Definition chain_match (name : cstring) (type : symtype) (e : symbolnode)
  : bool :=
  symtype_eqb (sym_type (node e)) type && bool_decide (symbol e = name).

(** [while (chain && ...) chain = chain->next;] *)
Fixpoint search_chain (chain : list symbolnode) (name : cstring)
    (type : symtype) : option symbolnode :=
  match chain with
  | [] => None
  | e :: rest =>
      if chain_match name type e then Some e else search_chain rest name type
  end.

(** The chain without the entry the search stopped at. *)
Fixpoint unlink_chain (chain : list symbolnode) (name : cstring)
    (type : symtype) : list symbolnode :=
  match chain with
  | [] => []
  | e :: rest =>
      if chain_match name type e then rest
      else e :: unlink_chain rest name type
  end.

Section SymbolTable.
Context (hash_string : cstring -> nat).

(** [lookup_symbol(tables, symbol, type, action)]: the table afterwards
    and the entry returned, [None] for NULL. *)
Definition lookup_symbol (t : symtable) (name : cstring) (type : symtype)
    (action : Z) : symtable * option symbolnode :=
  let hash := hash_string name in
  let chain := default [] (symboltable t !! hash) in
  match search_chain chain name type with
  | None =>
      if action =? INSERT then
        let '(e, counter) := alloc_symbol t name type in
        ({| symboltable := <[hash := e :: chain]> (symboltable t);
            next_order := counter |}, Some e)
      else (t, None)
  | Some e =>
      if action =? DELETE then
        ({| symboltable :=
              <[hash := unlink_chain chain name type]> (symboltable t);
            next_order := next_order t |}, Some e)
      else (t, Some e)
  end.

(** A sequence of calls of [lookup_symbol], each given by its symbol,
    type and action. *)
Definition lookup_symbols (calls : list (cstring * symtype * Z))
    (t : symtable) : symtable :=
  fold_left (fun t c => fst (lookup_symbol t c.1.1 c.1.2 c.2)) calls t.

Definition hashed (name : cstring) : Prop :=
  (hash_string name < HASH_TABLE_SIZE)%nat.
End SymbolTable.

(** The table after the first loop of [init_symbols], before any symbol is
    allocated. *)
Definition empty_symbols : symtable :=
  {| symboltable := replicate HASH_TABLE_SIZE []; next_order := 0 |}.

(** The entries of the table, chain by chain. *)
Definition entries (t : symtable) : list symbolnode := concat (symboltable t).

(** The symbol and type of the entries of a chain, and the order of an
    entry. *)
Definition chain_keys (chain : list symbolnode) : list (cstring * symtype) :=
  map (fun e => (symbol e, sym_type (node e))) chain.

Definition order_of (e : symbolnode) : Z := order (node e).

(** What [lookup_symbol] keeps of a table after at most [n] calls: the
    orders given out are below the counter and differ, and no chain holds
    a symbol of a type twice. *)
Definition symbols_inv (n : Z) (t : symtable) : Prop :=
  length (symboltable t) = HASH_TABLE_SIZE /\
  0 <= next_order t <= n /\
  Forall (fun e => 0 <= order_of e < next_order t) (entries t) /\
  NoDup (map order_of (entries t)) /\
  Forall (fun chain => NoDup (chain_keys chain)) (symboltable t).

(** ** Escape sequences in strings (decode_char, decode_string)

    A string is the list of its characters in front of the terminating
    zero, a pointer into it an index; [char_at] reads the zero at the end. *)
Definition char_at (s : cstring) (i : nat) : Z :=
  default 0 ((s : list Z) !! i).

(** The value of a hexadecimal digit, [None] for any other character. *)
Definition hex_digit (c : Z) : option Z :=
  if (97 <=? c) && (c <=? 102) then Some (c - 97 + 10)
  else if (65 <=? c) && (c <=? 70) then Some (c - 65 + 10)
  else if (48 <=? c) && (c <=? 57) then Some (c - 48)
  else None.

(** [for (i = 0; i < 2; i++)] over hexadecimal digits: the pointer [value]
    and [chr] afterwards. *)
Fixpoint hex_code (n : nat) (s : cstring) (value : nat) (chr : Z) : nat * Z :=
  match n with
  | O => (value, chr)
  | S n' =>
      match hex_digit (char_at s value) with
      | Some digit => hex_code n' s (S value) (chr * 16 + digit)
      | None => (value, chr)
      end
  end.

(** [for (i = 0; i < 3; i++)] over octal digits; a digit that would take
    the code to 0xFF or beyond is given back. *)
Fixpoint octal_code (n : nat) (s : cstring) (value : nat) (chr : Z)
  : nat * Z :=
  match n with
  | O => (value, chr)
  | S n' =>
      let c := char_at s value in
      if (48 <=? c) && (c <=? 55) then
        let digit := c - 48 in
        if chr * 8 + digit <? 255
        then octal_code n' s (S value) (chr * 8 + digit)
        else (value, chr)
      else (value, chr)
  end.

(** The characters of the one-letter escapes: a, b, e, f, n, r, t, v. *)
Definition special_char (c : Z) : Z :=
  if c =? 97 then 7 else if c =? 98 then 8 else if c =? 101 then 27
  else if c =? 102 then 12 else if c =? 110 then 10 else if c =? 114 then 13
  else if c =? 116 then 9 else if c =? 118 then 11 else c.

(** [decode_char(&ccode)]: the character returned and the pointer
    afterwards. *)
Definition decode_char (s : cstring) (ccode : nat) : Z * nat :=
  if negb (char_at s ccode =? 92) then (char_at s ccode, S ccode)
  else
    let start := S ccode in
    let '(value, chr) :=
      if char_at s start =? 120 then hex_code 2 s (S start) 0
      else octal_code 3 s start 0 in
    if (0 <? chr) && (chr <=? 255) then (chr, value)
    else if char_at s start =? 0 then (92, start)
    else (special_char (char_at s start), S start).

(** [while (c = decode_char(&src)) *dst++ = c;] with [fuel] bounding the
    characters decoded; [None] when the fuel runs out. *)
Fixpoint decode_chars (fuel : nat) (s : cstring) (src : nat) (dst : cstring)
  : option cstring :=
  match fuel with
  | O => None
  | S fuel' =>
      let '(c, src') := decode_char s src in
      if c =? 0 then Some dst else decode_chars fuel' s src' (dst ++ [c])
  end.

(** [decode_string(src)]; the destination has room for [strlen(src)]
    characters. *)
Definition decode_string (src : cstring) : option cstring :=
  decode_chars (S (length src)) src 0 [].

(** A character of a string: a byte other than zero. *)
Definition is_char (c : Z) : Prop := 0 < c <= 255.

(** ** lalrgen.c: first sets (compute_first)

    [tables->first] has a cell for each token, from 1 on; [termtable] maps
    the number of a terminal to its symbol.  [init_lalrgen] leaves every
    set allocated and empty and no token nullable. *)
Record firstset : Type := {
  symbols  : symbolset;  (* symbols in set *)
  nullable : bool        (* true if set is nullable *)
}.

Definition null_first : firstset := {| symbols := dynfree; nullable := false |}.

Definition FIRST (first : list firstset) (token : nat) : firstset :=
  default null_first (first !! token).

Definition set_symbols (e : firstset) (s : symbolset) : firstset :=
  {| symbols := s; nullable := nullable e |}.

Definition set_nullable (e : firstset) (b : bool) : firstset :=
  {| symbols := symbols e; nullable := b |}.

Definition init_first (tables : generator) : list firstset :=
  replicate (S (Z.to_nat (termcount tables + nontermcount tables)))
    {| symbols := symbolset_alloc; nullable := false |}.

(** A symbol set that is allocated, with the invariant of the set
    functions. *)
Definition allocated (s : symbolset) : Prop :=
  exists a, array s = Some a /\ element s = sizeof_pointer /\
            increasing order a.

Section First.
Context (tables : generator) (termtable : list symbolentry).

Definition TERMINAL_AT (i : nat) : symbolentry :=
  default null_symbol (termtable !! i).

(** [tables->termtable[i]->value.value.flags & EMPTY] *)
Definition flagged_empty (s : symbolentry) : bool :=
  negb (Z.land (sym_flags s) EMPTY =? 0).

(** The body of the loop over the terminals. *)
Definition first_terminal (first : list firstset) (i : nat)
  : list firstset :=
  if flagged_empty (TERMINAL_AT i)
  then <[i := set_nullable (FIRST first i) true]> first
  else <[i := {| symbols :=
                   symbolset_insert (symbols (FIRST first i))
                     (TERMINAL_AT i);
                 nullable := false |}]> first.

(** [for (i = 1; i <= tables->termcount; i++)] *)
Definition first_terminals (first : list firstset) : list firstset :=
  fold_left first_terminal (seq 1 (Z.to_nat (termcount tables))) first.

(** [for (k = 0; k < PRODUCTION(j).length; k++)] from symbol [k] of the
    right hand side of [p] on, [n] symbols being left, for the left hand
    side token [lhs]: the sets, [changed], and whether the loop ran to
    its end ([k >= PRODUCTION(j).length]). *)
Fixpoint first_rhs (n lhs : nat) (p : production) (k : nat)
    (first : list firstset) (changed : bool)
  : list firstset * bool * bool :=
  match n with
  | O => (first, changed, true)
  | S n' =>
      let token := Z.to_nat (sym_token (RHSIDE p k)) in
      let current := symbols (FIRST first lhs) in
      let merge := symbolset_union current (symbols (FIRST first token)) in
      let '(first1, changed1) :=
        if symbolset_equal merge current then (first, changed)
        else (<[lhs := set_symbols (FIRST first lhs) merge]> first, true) in
      if negb (nullable (FIRST first1 token)) then (first1, changed1, false)
      else first_rhs n' lhs p (S k) first1 changed1
  end.

(** The body of the loop over the productions of a nonterminal. *)
Definition first_production (lhs j : nat) (first : list firstset)
    (changed : bool) : list firstset * bool :=
  let p := PRODUCTION (productions tables) j in
  let '(first1, changed1, whole) :=
    first_rhs (plength p) lhs p 0 first changed in
  if whole then
    (<[lhs := set_nullable (FIRST first1 lhs) true]> first1,
     changed1 || negb (nullable (FIRST first1 lhs)))
  else (first1, changed1).

(** [for (j = tables->lhsindex[i]; j < PRODCOUNT &&
    PRODUCTION(j).lhside->value.value.token == tables->termcount + i; j++)]
    from production [j] on, [n] bounding the productions left. *)
Fixpoint first_productions (n : nat) (token : Z) (j : nat)
    (first : list firstset) (changed : bool) : list firstset * bool :=
  match n with
  | O => (first, changed)
  | S n' =>
      if (j <? PRODCOUNT tables)%nat
         && (sym_token (lhside (PRODUCTION (productions tables) j)) =? token)
      then
        let '(first1, changed1) :=
          first_production (Z.to_nat token) j first changed in
        first_productions n' token (S j) first1 changed1
      else (first, changed)
  end.

(** The body of the loop over the nonterminals. *)
Definition first_nonterminal (state : list firstset * bool) (i : nat)
  : list firstset * bool :=
  first_productions (PRODCOUNT tables) (termcount tables + Z.of_nat i)
    (default O (lhsindex tables !! i)) (fst state) (snd state).

(** One pass of the loop [do ... while (changed)]. *)
Definition first_pass (first : list firstset) : list firstset * bool :=
  fold_left first_nonterminal (seq 1 (Z.to_nat (nontermcount tables)))
    (first, false).

Fixpoint first_passes (fuel : nat) (first : list firstset)
  : option (list firstset) :=
  match fuel with
  | O => None
  | S fuel' =>
      let '(first1, changed) := first_pass first in
      if changed then first_passes fuel' first1 else Some first1
  end.

(** [compute_first(tables)]; [None] when [fuel] passes do not reach the
    end of the loop. *)
Definition compute_first (fuel : nat) (first : list firstset)
  : option (list firstset) :=
  first_passes fuel (first_terminals first).

(** The number of a terminal or nonterminal. *)
Definition is_token (token : Z) : Prop :=
  1 <= token <= termcount tables + nontermcount tables.

(** The tokens that derive the empty string: a terminal flagged EMPTY,
    and a nonterminal with a production whose right hand side, up to its
    length, consists of such tokens. *)
Inductive derives_empty : Z -> Prop :=
| empty_terminal (i : nat) :
    (1 <= i)%nat -> Z.of_nat i <= termcount tables ->
    flagged_empty (TERMINAL_AT i) = true ->
    derives_empty (Z.of_nat i)
| empty_production (token : Z) (j : nat) :
    termcount tables < token <= termcount tables + nontermcount tables ->
    defines tables token j ->
    (forall k, (k < plength (PRODUCTION (productions tables) j))%nat ->
       derives_empty
         (sym_token (RHSIDE (PRODUCTION (productions tables) j) k))) ->
    derives_empty token.

(** The terminals a token can begin with: a terminal that is not flagged
    EMPTY begins with itself, a nonterminal with what a symbol of one of
    its right hand sides begins with when the symbols in front of it
    derive the empty string. *)
Inductive begins_with : Z -> symbolentry -> Prop :=
| begins_terminal (i : nat) :
    (1 <= i)%nat -> Z.of_nat i <= termcount tables ->
    flagged_empty (TERMINAL_AT i) = false ->
    begins_with (Z.of_nat i) (TERMINAL_AT i)
| begins_production (token : Z) (j k : nat) (x : symbolentry) :
    termcount tables < token <= termcount tables + nontermcount tables ->
    defines tables token j ->
    (k < plength (PRODUCTION (productions tables) j))%nat ->
    (forall m, (m < k)%nat ->
       derives_empty
         (sym_token (RHSIDE (PRODUCTION (productions tables) j) m))) ->
    begins_with (sym_token (RHSIDE (PRODUCTION (productions tables) j) k)) x ->
    begins_with token x.

(** What [compute_first] expects of the grammar: the terminals have
    symbols with different orders, and the symbols of the right hand
    sides are tokens. *)
Definition first_ok : Prop :=
  0 <= termcount tables /\ 0 <= nontermcount tables /\
  length termtable = S (Z.to_nat (termcount tables)) /\
  length (lhsindex tables) = S (Z.to_nat (nontermcount tables)) /\
  NoDup (map order (drop 1 termtable)) /\
  forall j k, (j < PRODCOUNT tables)%nat ->
    (k < plength (PRODUCTION (productions tables) j))%nat ->
    is_token (sym_token (RHSIDE (PRODUCTION (productions tables) j) k)).
End First.

(** ** The parsing tables from the generator to packtables

    A file is the sequence of the integers written to it with [fprintf]
    and read from it with [fscanf]; the numbers are always separated by a
    blank or a new line, and the layout of the lines is left out.  A row
    of [lrstates] has a cell for each token, from 1 on. *)

(** [for (length = 0, j = 1; j <= tokens; j++) if (lrstates[i][j])
    { limit = j; length++; }] from token [j] on, [n] tokens being left. *)
Fixpoint count_actions (n : nat) (row : list Z) (j : nat) (len limit : Z)
  : Z * Z :=
  match n with
  | O => (len, limit)
  | S n' =>
      if negb (aref row (Z.of_nat j) =? 0)
      then count_actions n' row (S j) (len + 1) (Z.of_nat j)
      else count_actions n' row (S j) len limit
  end.

(** [for (j = 1; j < limit; j++) if (lrstates[i][j]) fprintf(fp, "%*d %*d",
    width, j, width, lrstates[i][j]);] *)
Fixpoint write_actions (n : nat) (row : list Z) (j : nat) (out : list Z)
  : list Z :=
  match n with
  | O => out
  | S n' =>
      if negb (aref row (Z.of_nat j) =? 0)
      then write_actions n' row (S j)
             (out ++ [Z.of_nat j; aref row (Z.of_nat j)])
      else write_actions n' row (S j) out
  end.

(** The body of the loop of [write_parser] over the states: the output
    and [limit], which keeps its value from state to state. *)
Definition write_state (tokens : nat) (state : list Z * Z) (row : list Z)
  : list Z * Z :=
  let '(len, limit) := count_actions tokens row 1 0 (snd state) in
  let limit := limit + 1 in
  (write_actions (Z.to_nat (limit - 1)) row 1 (fst state ++ [len]), limit).

(** The parsing tables as [write_parser] writes them, for the states from
    1 on; [limit] is the value the variable happens to have. *)
Definition write_states (tokens : nat) (lrstates : list (list Z)) (limit : Z)
  : list Z :=
  fst (fold_left (write_state tokens) (drop 1 lrstates) ([], limit)).

(** The loop of [load_actions] over the actions of a state.  [None]
    stands for an input that [write_parser] does not produce, one that
    ends early or names a token outside the row: the C code does not test
    the result of [fscanf] and stores through the token it has read, so
    what it does there is not defined. *)
Fixpoint load_row (n tokens : nat) (input : list Z) (row : list Z)
  : option (list Z * list Z) :=
  match n with
  | O => Some (row, input)
  | S n' =>
      match input with
      | tkn :: next :: rest =>
          if (1 <=? tkn) && (tkn <=? Z.of_nat tokens)
          then load_row n' tokens rest (<[Z.to_nat (tkn - 1) := next]> row)
          else None
      | _ => None
      end
  end.

(** [load_actions(input, states, tokens, &count, &actions)]: the counts,
    the actions and the rest of the input. *)
Fixpoint load_actions (states tokens : nat) (input : list Z)
  : option (list Z * list (list Z) * list Z) :=
  match states with
  | O => Some ([], [], input)
  | S states' =>
      match input with
      | count :: rest =>
          match load_row (Z.to_nat count) tokens rest (replicate tokens 0) with
          | Some (row, rest') =>
              match load_actions states' tokens rest' with
              | Some (counts, actions, rest'') =>
                  Some (count :: counts, row :: actions, rest'')
              | None => None
              end
          | None => None
          end
      | [] => None
      end
  end.

(** The number of actions of a row, and whether it has one. *)
Definition action_count (row : list Z) : Z :=
  Z.of_nat (length (List.filter (fun v => negb (v =? 0)) (drop 1 row))).

Definition has_action (row : list Z) : Prop :=
  exists v, v ∈ drop 1 row /\ v <> 0.

(** The token and action of each action among the tokens [j .. j+n-1] of
    a row, and the number of these actions. *)
Definition action_pairs (row : list Z) (j n : nat) : list Z :=
  flat_map (fun j => if negb (aref row (Z.of_nat j) =? 0)
                     then [Z.of_nat j; aref row (Z.of_nat j)] else [])
    (seq j n).

Definition actions_from (row : list Z) (j n : nat) : nat :=
  length (List.filter (fun j => negb (aref row (Z.of_nat j) =? 0)) (seq j n)).

(** ** lalrgen.c: the gotos of the collection *)

(** The goto [g] of the state [c] leads to a state of [coll] whose kernel
    [itemset_equal] accepts for the goto kernel of [c] on the token. *)
Definition goto_target (tables : generator) (coll : list configuration)
    (c : configuration) (g : gotoentry) : Prop :=
  let knl := goto_kernel tables (itemset c) (goto_token g) in
  exists c', coll !! goto_state g = Some c' /\
    itemset_equal tables (itemset c') (kernel c') knl (length knl) = true.

(** ** lalrgen.c: the propagation of the lookahead sets

    The fields [follow] and [update] of the items are tables of their own
    here, indexed by state and item. *)

Definition FOLLOW (follow : list (list symbolset)) (i j : nat) : symbolset :=
  default dynfree (default [] (follow !! i) !! j).

Definition UPDATE (update : list (list (list target))) (i j : nat)
  : list target :=
  default [] (default [] (update !! i) !! j).

(** [SYMCOUNT(set) = 0] *)
Definition clear_set (s : symbolset) : symbolset :=
  {| array := match array s with Some _ => Some [] | None => None end;
     element := element s |}.

(** The lookahead set of item [j] of state [i] becomes its union with
    [src]. *)
Definition merge_lookahead (coll : list configuration) (i j : nat)
    (src : symbolset) : list configuration :=
  set_item coll i j
    (set_lookahead (ITEMSET coll i j)
       (symbolset_union (lookahead (ITEMSET coll i j)) src)).

(** [for (i = 1; i < COLLCOUNT; i++) for (j = 0; j < ITEMCOUNT(i); j++)] *)
Definition each_item
    (body : list configuration -> nat -> nat -> list configuration)
    (coll : list configuration) : list configuration :=
  fold_left
    (fun coll i =>
       fold_left (fun coll j => body coll i j)
         (seq 0 (length (itemset (COLLECTION coll i)))) coll)
    (seq 1 (length coll - 1)) coll.

(** Item [j] of state [i] is an item of the collection. *)
Definition in_items (coll : list configuration) (i j : nat) : Prop :=
  (1 <= i < length coll)%nat /\
  (j < length (itemset (COLLECTION coll i)))%nat.

Section Lookahead.
Context (follow : list (list symbolset))
        (update : list (list (list target))) (sentinel : symbolentry).

(** Clear all propagated lookahead sets. *)
Definition clear_lookahead (coll : list configuration) (i j : nat)
  : list configuration :=
  set_item coll i j
    (set_lookahead (ITEMSET coll i j)
       (clear_set (lookahead (ITEMSET coll i j)))).

(** Initialize the lookahead set of an item to its spontaneous follow
    set, and propagate that to the goto state. *)
Definition spontaneous (coll : list configuration) (i j : nat)
  : list configuration :=
  if (0 <? length (cells (FOLLOW follow i j)))%nat then
    let coll1 := merge_lookahead coll i j (FOLLOW follow i j) in
    let d := descendant (ITEMSET coll1 i j) in
    if negb (tg_state d =? 0)%nat
    then merge_lookahead coll1 (tg_state d) (tg_item d) (FOLLOW follow i j)
    else coll1
  else coll.

(** Give state 1 an end of file lookahead. *)
Definition end_of_file (coll : list configuration) : list configuration :=
  set_item coll 1 0
    (set_lookahead (ITEMSET coll 1 0)
       (symbolset_insert (lookahead (ITEMSET coll 1 0)) sentinel)).

(** The body of the loop over the items that kernel item [j] of state
    [i] updates. *)
Definition propagate_to (i j : nat) (state : list configuration * bool)
    (t : target) : list configuration * bool :=
  let coll := fst state in
  let dst := lookahead (ITEMSET coll (tg_state t) (tg_item t)) in
  let merge := symbolset_union dst (lookahead (ITEMSET coll i j)) in
  if symbolset_equal merge dst then state
  else (set_item coll (tg_state t) (tg_item t)
          (set_lookahead (ITEMSET coll (tg_state t) (tg_item t)) merge),
        true).

(** One pass of the loop [do ... while (changed)]. *)
Definition propagate_pass (coll : list configuration)
  : list configuration * bool :=
  fold_left
    (fun state i =>
       fold_left
         (fun state j => fold_left (propagate_to i j) (UPDATE update i j) state)
         (seq 0 (kernel (COLLECTION (fst state) i))) state)
    (seq 1 (length coll - 1)) (coll, false).

Fixpoint propagate_passes (fuel : nat) (coll : list configuration)
  : option (list configuration) :=
  match fuel with
  | O => None
  | S fuel' =>
      let '(coll1, changed) := propagate_pass coll in
      if changed then propagate_passes fuel' coll1 else Some coll1
  end.

(** [propagate_lookahead(tables)]; [None] when [fuel] passes do not
    reach the end of the loop. *)
Definition propagate_lookahead (fuel : nat) (coll : list configuration)
  : option (list configuration) :=
  propagate_passes fuel
    (end_of_file (each_item spontaneous (each_item clear_lookahead coll))).

(** The symbols an item looks ahead to: its spontaneous follow set and
    that of the item it descends from, the end of file for the first
    item of state 1, and what a kernel item that updates it looks ahead
    to. *)
Inductive looks_ahead (coll : list configuration)
  : nat -> nat -> symbolentry -> Prop :=
| look_follow i j x :
    in_items coll i j -> x ∈ cells (FOLLOW follow i j) ->
    looks_ahead coll i j x
| look_descendant i j x :
    in_items coll i j -> x ∈ cells (FOLLOW follow i j) ->
    tg_state (descendant (ITEMSET coll i j)) <> 0%nat ->
    looks_ahead coll (tg_state (descendant (ITEMSET coll i j)))
      (tg_item (descendant (ITEMSET coll i j))) x
| look_sentinel : looks_ahead coll 1 0 sentinel
| look_update i j t x :
    (1 <= i < length coll)%nat -> (j < kernel (COLLECTION coll i))%nat ->
    t ∈ UPDATE update i j -> looks_ahead coll i j x ->
    looks_ahead coll (tg_state t) (tg_item t) x.

(** What [propagate_lookahead] expects: the symbols of the follow sets
    and the end of file symbol are symbols of [universe] with different
    orders, the sets are allocated, and the descendants and the items
    updated are items of the collection. *)
Definition lookahead_ok (universe : list symbolentry)
    (coll : list configuration) : Prop :=
  NoDup (map order universe) /\ sentinel ∈ universe /\
  in_items coll 1 0 /\
  (forall i j, in_items coll i j ->
     allocated (FOLLOW follow i j) /\
     allocated (lookahead (ITEMSET coll i j)) /\
     (forall x, x ∈ cells (FOLLOW follow i j) -> x ∈ universe) /\
     (tg_state (descendant (ITEMSET coll i j)) <> 0%nat ->
      in_items coll (tg_state (descendant (ITEMSET coll i j)))
        (tg_item (descendant (ITEMSET coll i j))))) /\
  (forall i j, (1 <= i < length coll)%nat ->
     (j < kernel (COLLECTION coll i))%nat ->
     in_items coll i j /\
     forall t, t ∈ UPDATE update i j ->
               in_items coll (tg_state t) (tg_item t)).

(** The number of items of the collection. *)
Definition item_total (coll : list configuration) : nat :=
  foldr (fun c n => (length (itemset c) + n)%nat) 0%nat coll.
End Lookahead.

(** ** Sample tables for the examples *)

(** One state with base 0 over three tokens: the cell of token 1 holds
    [ACCEPT_OFFSET], the cell of token 2 is owned by state 1 and holds 0,
    the cell of token 3 belongs to nobody. *)
Definition accept_cell_tables : sdt_tables :=
  {| tnumber := 3; context := 0; defcost := 0;
     inscost := [0; 1; 1; 1]; delcost := [0; 1; 1; 1];
     lhsymbol := [0; 4]; rhslength := [0; 2]; semantics := [0; 0];
     repair := [0; 1];
     pbase := [0; 0];
     pcheck := [0; 1; 1; 0];
     pnext := [0; -10000; 0; 0] |}.

(** A driver snapshot: two delayed reduces are queued (production 2 with
    semantic number 7, then production 1 without one), the virtual state
    is 2, and state 2 shifts token 1 to state 3. *)
Definition driver_tables : sdt_tables :=
  {| tnumber := 2; context := 0; defcost := 0;
     inscost := [0; 1; 1]; delcost := [0; 1; 1];
     lhsymbol := [0; 3; 3]; rhslength := [0; 1; 0]; semantics := [0; 0; 7];
     repair := [0; 1; 1; 1];
     pbase := [0; 2; 0; 2];
     pcheck := [0; 2; 0; 0; 0];
     pnext := [0; 10003; 0; 0; 0] |}.

Definition driver_token : tokenentry :=
  {| tk_token := 1; tk_symbol := None;
     tk_locus := {| buffer := 0; offset := 0 |};
     tk_where := {| buffer := 0; offset := 5 |} |}.

Definition driver_state : pstate :=
  {| lst := {| chain := [[97; 98; 32; 97; 98; 99; 10]]; listing := false;
               lineno := 0; unwritten := {| buffer := 0; offset := 0 |};
               msgwritten := false; msgqueue := []; output := [] |};
     parstack :=
       [ {| pe_state := 1; pe_where := null_location; pe_token := 0;
            pe_symbol := None |};
         {| pe_state := 5; pe_where := {| buffer := 0; offset := 3 |};
            pe_token := 2; pe_symbol := Some [97; 98] |} ];
     redqueue := [ {| number := 2; pointer := 2; rd_state := 4 |};
                   {| number := 1; pointer := 1; rd_state := 2 |} ];
     tknqueue := [driver_token] |}.

(** Two sets of integers and two sets of symbols. *)
Definition ints_135 : intset := {| array := Some [1; 3; 5]; element := 4 |}.
Definition ints_34 : intset := {| array := Some [3; 4]; element := 4 |}.

Definition sample_symbol (ord tok : Z) (ty : symtype) (ins : Z) : symbolentry :=
  {| order := ord; sym_type := ty; sym_token := tok; sym_flags := 0;
     sym_precedence := 0; sym_insert := ins; sym_delete := 1 |}.

Definition sym_a : symbolentry := sample_symbol 10 1 TERMINAL 2.
Definition sym_b : symbolentry := sample_symbol 11 2 TERMINAL 3.
Definition sym_S : symbolentry := sample_symbol 12 4 NONTERMINAL 0.

Definition syms_ab : symbolset :=
  {| array := Some [sym_a; sym_b]; element := 8 |}.
Definition syms_bS : symbolset :=
  {| array := Some [sym_b; sym_S]; element := 8 |}.

(** A parser table of three states over four tokens, with the action
    counts of its rows. *)
Definition sample_actions : list (list Z) :=
  [ [10002; 0; 0; -10000];
    [0; 10003; 3; 0];
    [0; 0; -2; -2] ].

Definition sample_counts : list Z := [2; 2; 2].

(** A grammar over the terminals [a], [b] and the end of file:
    Goal -> S eof, S -> b, S -> a S b. *)
Definition tok_a : symbolentry := sample_symbol 1 1 TERMINAL 2.
Definition tok_b : symbolentry := sample_symbol 2 2 TERMINAL 3.
Definition tok_eof : symbolentry := sample_symbol 3 3 TERMINAL 1.
Definition sym_Goal : symbolentry := sample_symbol 4 4 NONTERMINAL 0.
Definition sym_List : symbolentry := sample_symbol 5 5 NONTERMINAL 0.

Definition keyed (p : production) (st ins : Z) : production :=
  {| lhside := lhside p; rhside := rhside p; plength := plength p;
     semantic := semantic p; steps := st; pinsert := ins |}.

Definition sample_productions : list production :=
  [ null_production;
    keyed (new_production sym_Goal [sym_List; tok_eof] 0) 2 4;
    keyed (new_production sym_List [tok_b] 1) 1 3;
    keyed (new_production sym_List [tok_a; sym_List; tok_b] 2) 2 8 ].

Definition sample_generator (opts : Z) : generator :=
  {| options := opts; termcount := 3; nontermcount := 2;
     productions := sample_productions; lhsindex := [0; 1; 2]%nat |}.

(** The states generated for the sample grammar with error repair and
    default shiftreduce actions selected. *)
Definition sample_tables : generator := sample_generator 3.

Definition sample_collection : list configuration :=
  goto_states sample_tables 8 1 (initial_collection sample_tables).

(** The same grammar without default shiftreduce actions. *)
Definition plain_tables : generator := sample_generator 1.

Definition plain_collection : list configuration :=
  goto_states plain_tables 8 1 (initial_collection plain_tables).

(** Parser tables for the grammar  Goal -> S eof,  S -> x A,
    A -> a | b | c  over the terminals x = 1, a = 2, b = 3, c = 4 and
    eof = 5, with Goal = 6, S = 7 and A = 8.  State 1 shifts x to state 2
    and S to state 3; state 2 has a shiftreduce for each of a, b, c and
    A; state 3 has the shiftreduce of eof.  State [s] owns the cells
    [8 * (s - 1) + token]. *)
Definition repair_tables (values : list Z) : sdt_tables :=
  {| tnumber := 5; context := 0; defcost := 0;
     inscost := [0; 9; 2; 2; 2; 9]; delcost := [0; 1; 1; 1; 1; 99];
     lhsymbol := [0; 6; 7; 8; 8; 8]; rhslength := [0; 2; 2; 1; 1; 1];
     semantics := [0; 0; 0; 0; 0; 0];
     repair := values;
     pbase := [0; 0; 8; 16];
     pcheck := [0; 1; 0; 0; 0; 0; 1; 1; 0;
                0; 2; 2; 2; 0; 0; 0; 2;
                0; 0; 0; 0; 3; 0; 0; 0];
     pnext := [0; 10002; 0; 0; 0; 0; -10000; 10003; 0;
               0; 3; 4; 5; 0; 0; 0; 2;
               0; 0; 0; 0; 1; 0; 0; 0] |}.

(** The repair values the generator selects: shift x, shift a, shift eof. *)
Definition tie_tables : sdt_tables := repair_tables [0; 1; 2; 5].

(** The input is the line  x  and the end of the file: x has been
    shifted and eof, found at the start of the second line, is the next
    token. *)
Definition at_token (tok line off : Z) : tokenentry :=
  {| tk_token := tok; tk_symbol := None;
     tk_locus := {| buffer := 0; offset := line |};
     tk_where := {| buffer := 0; offset := off |} |}.

Definition missing_operand : pstate :=
  {| lst := {| chain := [[120; 10]]; listing := false; lineno := 0;
               unwritten := {| buffer := 0; offset := 0 |};
               msgwritten := false; msgqueue := []; output := [] |};
     parstack :=
       [ {| pe_state := 1; pe_where := null_location; pe_token := 0;
            pe_symbol := None |};
         {| pe_state := 2; pe_where := {| buffer := 0; offset := 0 |};
            pe_token := 1; pe_symbol := None |} ];
     redqueue := [];
     tknqueue := [at_token 5 2 2] |}.



(** The same tables when the generator has found no repair value for
    state 3, and when it has found none for state 2. *)
Definition gap_tables : sdt_tables := repair_tables [0; 1; 2; 0].
Definition fatal_tables : sdt_tables := repair_tables [0; 1; 0; 5].

(** A grammar with one production, [Goal -> c c], whose terminal [c]
    costs 2000000000 to insert: the sum of the two costs is not an
    [int]. *)
Definition tok_dear : symbolentry := sample_symbol 1 1 TERMINAL 2000000000.

Definition dear_rules : list (symbolentry * list symbolentry * Z) :=
  [ (sym_Goal, [tok_dear; tok_dear], 0) ].

(** The sample grammar as it is read:
    Goal -> S eof, S -> a S b, S -> b. *)
Definition sample_rules : list (symbolentry * list symbolentry * Z) :=
  [ (sym_Goal, [sym_List; tok_eof], 0);
    (sym_List, [tok_a; sym_List; tok_b], 2);
    (sym_List, [tok_b], 1) ].

(** An ambiguous grammar over the terminals [x], [t], [y] and the end of
    file, [Goal -> S eof], [S -> x S t | x S | y], with default
    shiftreduce actions and the resolution of conflicts by precedence
    selected; [x] has the precedence 1 and [t] the precedence 2. *)
Definition ranked_symbol (ord tok : Z) (ty : symtype) (prec : Z)
  : symbolentry :=
  {| order := ord; sym_type := ty; sym_token := tok; sym_flags := 0;
     sym_precedence := prec; sym_insert := 1; sym_delete := 1 |}.

Definition tok_x : symbolentry := ranked_symbol 1 1 TERMINAL 1.
Definition tok_t : symbolentry := ranked_symbol 2 2 TERMINAL 2.
Definition tok_y : symbolentry := ranked_symbol 3 3 TERMINAL 0.
Definition tok_end : symbolentry := ranked_symbol 4 4 TERMINAL 0.
Definition sym_Top : symbolentry := ranked_symbol 5 5 NONTERMINAL 0.
Definition sym_Stmt : symbolentry := ranked_symbol 6 6 NONTERMINAL 0.

Definition choice_tables : generator :=
  {| options := 6; termcount := 4; nontermcount := 2;
     productions :=
       [ null_production;
         new_production sym_Top [sym_Stmt; tok_end] 0;
         new_production sym_Stmt [tok_x; sym_Stmt; tok_t] 1;
         new_production sym_Stmt [tok_x; sym_Stmt] 2;
         new_production sym_Stmt [tok_y] 3 ];
     lhsindex := [0; 1; 2]%nat |}.

Definition choice_collection : list configuration :=
  goto_states choice_tables 12 1 (initial_collection choice_tables).

(** * Samples for the further properties *)

(** A source of two lines in one buffer, with a message queued for each
    line. *)
Definition two_messages : listing_state :=
  {| chain := [[120; 10; 121; 10]]; listing := false; lineno := 0;
     unwritten := {| buffer := 0; offset := 0 |};
     msgwritten := false;
     msgqueue :=
       [ {| point := {| buffer := 0; offset := 0 |};
            last := {| buffer := 0; offset := 0 |}; message := None |};
         {| point := {| buffer := 0; offset := 2 |};
            last := {| buffer := 0; offset := 2 |};
            message := Some syntax_error |} ];
     output := [] |}.

(** A scanner of three states; the rows give the transitions on the
    first characters, every other transition is 0.  The arrays come from
    [dynalloc] with cells that hold 7. *)
Definition scan_actions : list (list Z) :=
  [ [2; 2; 3; 0]; [2; 2; 0; 0]; [0; 3; 3; 1] ].

Definition scan_index : list nat := [1; 0; 2]%nat.

Definition scan_packed : scanpack :=
  pack_scanner scan_actions scan_index 3
    (replicate MAPCOUNT 7) (replicate MAPCOUNT 7).

(** A grammar in which two states reach the same kernel in two orders:
    Goal -> S eof, S -> u A c | u B d | v B c | v A d, A -> x y, B -> x z,
    over the terminals u = 1, v = 2, x = 3, y = 4, z = 5, c = 6, d = 7 and
    eof = 8, with Goal = 9, S = 10, A = 11 and B = 12. *)
Definition cross_terminal (n : Z) : symbolentry := sample_symbol n n TERMINAL 1.
Definition cross_nonterminal (n : Z) : symbolentry :=
  sample_symbol n n NONTERMINAL 0.

Definition cross_productions : list production :=
  [ null_production;
    new_production (cross_nonterminal 9)
      [cross_nonterminal 10; cross_terminal 8] 0;
    new_production (cross_nonterminal 10)
      [cross_terminal 1; cross_nonterminal 11; cross_terminal 6] 0;
    new_production (cross_nonterminal 10)
      [cross_terminal 1; cross_nonterminal 12; cross_terminal 7] 0;
    new_production (cross_nonterminal 10)
      [cross_terminal 2; cross_nonterminal 12; cross_terminal 6] 0;
    new_production (cross_nonterminal 10)
      [cross_terminal 2; cross_nonterminal 11; cross_terminal 7] 0;
    new_production (cross_nonterminal 11)
      [cross_terminal 3; cross_terminal 4] 0;
    new_production (cross_nonterminal 12)
      [cross_terminal 3; cross_terminal 5] 0 ].

Definition cross_generator (opts : Z) : generator :=
  {| options := opts; termcount := 8; nontermcount := 4;
     productions := cross_productions; lhsindex := [0; 1; 2; 6; 7]%nat |}.

Definition cross_collection (opts : Z) : list configuration :=
  goto_states (cross_generator opts) 20 1
    (initial_collection (cross_generator opts)).

(** A hash function for the samples, and three calls of [lookup_symbol]:
    the symbols [ab] and [ba] share a chain. *)
Definition sample_hash (name : cstring) : nat :=
  Z.to_nat (fold_left Z.add name 0 mod 199).

Definition name_ab : cstring := [97; 98].
Definition name_ba : cstring := [98; 97].

Definition sample_calls : list (cstring * symtype * Z) :=
  [ (name_ab, TERMINAL, INSERT);
    (name_ba, TERMINAL, INSERT);
    (name_ab, NONTERMINAL, INSERT) ].

(** The string [a\x41\tb\] : a hexadecimal escape, a one-letter escape and
    a backslash at the end. *)
Definition escaped_string : cstring :=
  [97; 92; 120; 52; 49; 92; 116; 98; 92].

(** The symbols of the terminals of the sample grammar. *)
Definition sample_termtable : list symbolentry :=
  [null_symbol; tok_a; tok_b; tok_eof].

(** The parsing table of two states over three tokens, with the unused
    row and column 0. *)
Definition sample_lrstates : list (list Z) :=
  [ []; [0; 10002; 0; -1]; [0; 0; 3; 0] ].

(** A collection of two states for [propagate_lookahead]: the closure
    item of state 1 made the kernel item of state 2 and has [a] in its
    follow set; the kernel item of state 1 updates both; the item of
    state 2 holds a lookahead set of an earlier run. *)
Definition look_item (d : target) (s : symbolset) : itementry :=
  {| item_prod := 0; item_dot := 0; descendant := d; lookahead := s;
     ancestors := [] |}.

Definition look_set (l : list symbolentry) : symbolset :=
  {| array := Some l; element := sizeof_pointer |}.

Definition look_collection : list configuration :=
  [ null_configuration;
    {| itemset := [ look_item {| tg_state := 0; tg_item := 0 |} symbolset_alloc;
                    look_item {| tg_state := 2; tg_item := 0 |} symbolset_alloc ];
       kernel := 1; gotos := [] |};
    {| itemset := [ look_item {| tg_state := 0; tg_item := 0 |}
                      (look_set [tok_b]) ];
       kernel := 1; gotos := [] |} ].

Definition look_follows : list (list symbolset) :=
  [ []; [symbolset_alloc; look_set [tok_a]]; [symbolset_alloc] ].

Definition look_updates : list (list (list target)) :=
  [ [];
    [ [ {| tg_state := 1; tg_item := 1 |};
        {| tg_state := 2; tg_item := 0 |} ]; [] ];
    [ [] ] ].

(** * Decoding the compressed parser table *)

(** An [int] is stored as it is. *)
Lemma wrap_int_id v : INT_MIN <= v <= INT_MAX -> wrap_int v = v.
Proof.
  unfold INT_MIN, INT_MAX, wrap_int. intros H.
  rewrite Z.mod_small by lia. lia.
Qed.

(** Every [int] but [INT_MIN] has its negation. *)
Lemma wrap_int_opp v : INT_MIN < v <= INT_MAX -> wrap_int (- v) = - v.
Proof.
  intros H. apply wrap_int_id. unfold INT_MIN, INT_MAX in *. lia.
Qed.

Section Decode.
Variable tables : sdt_tables.
Variables state token : Z.

Let cell : Z := aref (pbase tables) state + token.
Let next : Z := aref (pnext tables) cell.

Lemma decode_action_invalid entry :
  aref (pcheck tables) cell <> state ->
  decode_action tables state token entry = (ERROR, entry).
Proof.
  intros Hne. unfold decode_action. fold cell.
  destruct (Z.eqb_spec (aref (pcheck tables) cell) state); [contradiction | reflexivity].
Qed.

Lemma decode_action_valid entry :
  aref (pcheck tables) cell = state ->
  decode_action tables state token entry =
    if next <? 0 then (REDUCE, wrap_int (- next))
    else if next >? SHIFT_OFFSET then (SHIFT, next - SHIFT_OFFSET)
    else (SHIFTREDUCE, next).
Proof.
  intros Heq. unfold decode_action. fold cell. fold next.
  rewrite Heq, Z.eqb_refl. reflexivity.
Qed.

Lemma decode_goto_cases :
  decode_goto tables state token =
    if next >? SHIFT_OFFSET then (SHIFT, next - SHIFT_OFFSET)
    else if next >? 0 then (SHIFTREDUCE, next)
    else (ACCEPT, 0).
Proof. reflexivity. Qed.
End Decode.

(** C3, as the code has it.  [decode_action] treats the entry of
    [(state, token)] as valid only when [pcheck[pbase[state]+token]] is
    [state] and reports [ERROR] otherwise, leaving the caller's entry
    alone.  A valid entry [next] is a shift to [next - SHIFT_OFFSET] when
    [next > SHIFT_OFFSET], a shift-reduce by [next] when
    [0 <= next <= SHIFT_OFFSET] and a reduce by [- next] for every
    negative [next] above [INT_MIN], [ACCEPT_OFFSET] included.  Accept is
    decoded by [decode_goto] alone, which answers it for every
    [next <= 0]. *)
Theorem decode_action_encoding (tables : sdt_tables) (state token entry : Z) :
  let cell := aref (pbase tables) state + token in
  let next := aref (pnext tables) cell in
  (aref (pcheck tables) cell <> state ->
     decode_action tables state token entry = (ERROR, entry)) /\
  (aref (pcheck tables) cell = state ->
     (next > SHIFT_OFFSET ->
        decode_action tables state token entry = (SHIFT, next - SHIFT_OFFSET)) /\
     (0 <= next <= SHIFT_OFFSET ->
        decode_action tables state token entry = (SHIFTREDUCE, next)) /\
     (INT_MIN < next < 0 ->
        decode_action tables state token entry = (REDUCE, - next))) /\
  (next <= 0 -> decode_goto tables state token = (ACCEPT, 0)).
Proof.
  intros cell next. split; [| split].
  - apply decode_action_invalid.
  - intros Hv. rewrite (decode_action_valid _ _ _ _ Hv).
    fold cell. fold next. unfold SHIFT_OFFSET.
    split; [|split]; intros H;
      destruct (Z.ltb_spec next 0); destruct (Z.gtb_spec next 10000);
      try (reflexivity || lia).
    all: rewrite wrap_int_opp by (unfold INT_MAX; lia); reflexivity.
  - intros H. rewrite decode_goto_cases. fold cell. fold next.
    unfold SHIFT_OFFSET.
    destruct (Z.gtb_spec next 10000); [lia |].
    destruct (Z.gtb_spec next 0); [lia | reflexivity].
Qed.

(** The entry [INT_MIN] has no negation in [int]: the production number
    decoded for it is [INT_MIN] itself. *)
Example decode_action_int_min :
  decode_action
    {| tnumber := 1; context := 0; defcost := 0; inscost := [];
       delcost := []; lhsymbol := []; rhslength := []; semantics := [];
       repair := []; pbase := [0; 0]; pcheck := [0; 1];
       pnext := [0; INT_MIN] |} 1 1 0
  = (REDUCE, INT_MIN).
Proof. reflexivity. Qed.

(** C3 as stated fails: on [accept_cell_tables] the cells of tokens 1 and 2
    are valid for state 1; the first holds [ACCEPT_OFFSET] and is decoded
    as a reduce by production 10000, the second holds 0 and is decoded as
    a shift-reduce by production 0. *)
Lemma decode_action_accept_counterexample :
  ~ (forall token entry,
       persisted_encoding decode_action accept_cell_tables 1 token entry).
Proof.
  intros H. destruct (H 1 0) as [_ Hv].
  destruct (Hv eq_refl) as (_ & _ & _ & Hacc & _).
  specialize (Hacc eq_refl). vm_compute in Hacc. discriminate Hacc.
Qed.

(** C9.  [decode_goto] never looks at [pcheck]: two tables that agree on
    [pbase] and [pnext] decode alike.  It answers shift above
    [SHIFT_OFFSET], shift-reduce for a positive entry up to
    [SHIFT_OFFSET] and accept for every entry that is zero or negative,
    so its answer is never [ERROR] or [REDUCE]; in particular a cell that
    [decode_action] rejects, or decodes as a reduce, is an accept for
    [decode_goto] whenever it is not positive. *)
Theorem decode_goto_never_fails (tables : sdt_tables) (state token : Z) :
  let next := aref (pnext tables) (aref (pbase tables) state + token) in
  (forall tables' : sdt_tables,
      pbase tables' = pbase tables -> pnext tables' = pnext tables ->
      decode_goto tables' state token = decode_goto tables state token) /\
  (next > SHIFT_OFFSET ->
     decode_goto tables state token = (SHIFT, next - SHIFT_OFFSET)) /\
  (0 < next <= SHIFT_OFFSET ->
     decode_goto tables state token = (SHIFTREDUCE, next)) /\
  (next <= 0 -> decode_goto tables state token = (ACCEPT, 0)) /\
  fst (decode_goto tables state token) <> ERROR /\
  fst (decode_goto tables state token) <> REDUCE /\
  (forall entry,
      next <= 0 ->
      fst (decode_action tables state token entry) = ERROR \/
      fst (decode_action tables state token entry) = REDUCE \/
      decode_action tables state token entry = (SHIFTREDUCE, 0)).
Proof.
  intros next.
  assert (Hc := decode_goto_cases tables state token). cbv zeta in Hc.
  fold next in Hc. unfold SHIFT_OFFSET in *.
  split; [| repeat split].
  - intros tables' Hb Hn. unfold decode_goto. rewrite Hb, Hn. reflexivity.
  - intros H. rewrite Hc. destruct (Z.gtb_spec next 10000); [reflexivity | lia].
  - intros H. rewrite Hc. destruct (Z.gtb_spec next 10000); [lia |].
    destruct (Z.gtb_spec next 0); [reflexivity | lia].
  - intros H. rewrite Hc. destruct (Z.gtb_spec next 10000); [lia |].
    destruct (Z.gtb_spec next 0); [lia | reflexivity].
  - rewrite Hc. destruct (next >? 10000); [discriminate |].
    destruct (next >? 0); discriminate.
  - rewrite Hc. destruct (next >? 10000); [discriminate |].
    destruct (next >? 0); discriminate.
  - intros entry H. unfold decode_action. fold next.
    destruct (aref (pcheck tables) (aref (pbase tables) state + token) =? state);
      [| left; reflexivity].
    destruct (Z.ltb_spec next 0); [right; left; reflexivity |].
    unfold SHIFT_OFFSET. destruct (Z.gtb_spec next 10000); [lia |].
    right; right. f_equal. lia.
Qed.

(** * Draining the queue of delayed reduces *)


Lemma top_of_nil {A : Type} : top_of (@nil A) = None.
Proof. reflexivity. Qed.







Section PerformReduces.
Variable tables : sdt_tables.
Variable w : location.

Let sem (r : reduceentry) : Z := aref (semantics tables) (number r).


End PerformReduces.





Example shift_drains_sample :
  fst (parse_shift driver_tables SHIFT 3 driver_state) =
    {| lst := {| chain := [[97; 98; 32; 97; 98; 99; 10]]; listing := false;
                 lineno := 0; unwritten := {| buffer := 0; offset := 0 |};
                 msgwritten := false; msgqueue := [];
                 output := [EvAction 7; EvFree [97; 98]] |};
       parstack :=
         [ {| pe_state := 1; pe_where := null_location; pe_token := 0;
              pe_symbol := None |};
           {| pe_state := 2; pe_where := {| buffer := 0; offset := 3 |};
              pe_token := 3; pe_symbol := None |};
           {| pe_state := 3; pe_where := {| buffer := 0; offset := 5 |};
              pe_token := 1; pe_symbol := None |} ];
       redqueue := []; tknqueue := [] |}.
Proof. reflexivity. Qed.

(** * The shifting insertion *)

Section ShiftInsertFacts.
Context {A : Type} (above : A -> bool).

Lemma insert_second (l : list A) (y c x : A) (rest : list A) :
  <[S (length l) := x]> (l ++ y :: c :: rest) = l ++ y :: x :: rest.
Proof. induction l as [| z l IH]; simpl; [reflexivity | f_equal; exact IH]. Qed.

(** One more cell in front of the stop: the loop either copies it up
    and goes on, or stops above it. *)
Lemma shift_up_step (l : list A) (y c : A) (rest : list A) :
  shift_up above (S (length l)) (l ++ y :: c :: rest) =
    if above y then shift_up above (length l) (l ++ y :: y :: rest)
    else (S (length l), l ++ y :: c :: rest).
Proof.
  simpl. rewrite list_lookup_middle by reflexivity.
  destruct (above y); [| reflexivity].
  rewrite insert_second. reflexivity.
Qed.

(** The array after the loop and the store, whatever the new cell held. *)
Lemma shift_up_store (x : A) (l : list A) (c : A) (rest : list A) :
  (let '(i, a') := shift_up above (length l) (l ++ c :: rest) in
   <[i := x]> a') = shift_insert above x l ++ rest.
Proof.
  revert c rest. induction l as [| y l IH] using rev_ind; intros c rest.
  - reflexivity.
  - unfold shift_insert.
    rewrite !length_app. cbn [length]. rewrite !Nat.add_1_r.
    rewrite <- !app_assoc. cbn [app].
    rewrite !shift_up_step.
    destruct (above y).
    + rewrite (IH y (y :: rest)).
      change [y; x] with ([y] ++ [x]).
      specialize (IH y [y]). simpl in IH.
      rewrite IH, <- app_assoc. reflexivity.
    + change [y; x] with (y :: x :: []).
      rewrite !insert_second, <- app_assoc. reflexivity.
Qed.

Lemma shift_insert_nil (x : A) : shift_insert above x [] = [x].
Proof. reflexivity. Qed.

(** The insertion point is found from the top: a cell that is above the
    new element moves up, the first one that is not ends the search. *)
Lemma shift_insert_snoc (x y : A) (l : list A) :
  shift_insert above x (l ++ [y]) =
    if above y then shift_insert above x l ++ [y] else l ++ [y; x].
Proof.
  unfold shift_insert at 1.
  rewrite length_app. cbn [length]. rewrite Nat.add_1_r, <- app_assoc.
  cbn [app]. rewrite shift_up_step.
  destruct (above y).
  - apply (shift_up_store x l y [y]).
  - apply insert_second.
Qed.

Lemma shift_insert_length (x : A) (l : list A) :
  length (shift_insert above x l) = S (length l).
Proof.
  induction l as [| y l IH] using rev_ind; [reflexivity |].
  rewrite shift_insert_snoc. destruct (above y).
  - rewrite !length_app, IH. simpl. lia.
  - rewrite !length_app. simpl. lia.
Qed.

Lemma shift_insert_elem_of (x z : A) (l : list A) :
  z ∈ shift_insert above x l <-> z = x \/ z ∈ l.
Proof.
  induction l as [| y l IH] using rev_ind.
  - rewrite shift_insert_nil, list_elem_of_singleton, elem_of_nil. tauto.
  - rewrite shift_insert_snoc. destruct (above y).
    + rewrite !elem_of_app, IH, list_elem_of_singleton. tauto.
    + change [y; x] with ([y] ++ [x]).
      rewrite !elem_of_app, !list_elem_of_singleton. tauto.
Qed.

Lemma shift_insert_perm (x : A) (l : list A) :
  shift_insert above x l ≡ₚ x :: l.
Proof.
  induction l as [| y l IH] using rev_ind; [reflexivity |].
  rewrite shift_insert_snoc. destruct (above y).
  - rewrite IH. simpl. rewrite (Permutation_app_comm l [y]). simpl.
    apply perm_swap || (rewrite perm_swap; reflexivity).
  - change [y; x] with ([y] ++ [x]). rewrite app_assoc.
    rewrite <- Permutation_cons_append. reflexivity.
Qed.
End ShiftInsertFacts.

(** * Ordered sets of integers and of symbols *)

Section OrderedSetFacts.
Context {A : Type} (key : A -> Z) (elsize : Z).

Local Abbreviation inc := (increasing key).

Lemma increasing_nil : inc [].
Proof. constructor. Qed.

Lemma increasing_cons (x : A) (l : list A) :
  inc (x :: l) <-> (forall z, z ∈ l -> key x < key z) /\ inc l.
Proof.
  unfold increasing. simpl. rewrite StronglySorted_cons, Forall_forall.
  split; intros [H1 H2]; (split; [| exact H2]).
  - intros z Hz. apply H1. apply list_elem_of_fmap. eauto.
  - intros k Hk. apply list_elem_of_fmap in Hk as (z & -> & Hz). auto.
Qed.

Lemma increasing_app (l1 l2 : list A) :
  inc (l1 ++ l2) <->
    (forall x y, x ∈ l1 -> y ∈ l2 -> key x < key y) /\ inc l1 /\ inc l2.
Proof.
  unfold increasing. rewrite map_app, StronglySorted_app.
  split; intros (H & H1 & H2); (split; [| split; assumption]).
  - intros x y Hx Hy. apply H; apply list_elem_of_fmap; eauto.
  - intros k1 k2 Hk1 Hk2.
    apply list_elem_of_fmap in Hk1 as (x & -> & Hx).
    apply list_elem_of_fmap in Hk2 as (y & -> & Hy). auto.
Qed.

Lemma increasing_snoc (l : list A) (y : A) :
  inc (l ++ [y]) <-> (forall z, z ∈ l -> key z < key y) /\ inc l.
Proof.
  rewrite increasing_app. split.
  - intros (H & H1 & _). split; [| exact H1].
    intros z Hz. apply H; [exact Hz | apply list_elem_of_singleton; reflexivity].
  - intros (H & H1). split; [| split; [exact H1 |]].
    + intros x z Hx Hz. apply list_elem_of_singleton in Hz as ->. auto.
    + apply increasing_cons. split; [| constructor].
      intros z Hz. inversion Hz.
Qed.

Lemma increasing_lookup (a : list A) (i j : nat) (x y : A) :
  inc a -> a !! i = Some x -> a !! j = Some y -> (i < j)%nat ->
  key x < key y.
Proof.
  intros Hinc Hi Hj Hlt.
  rewrite <- (take_drop j a) in Hinc.
  apply increasing_app in Hinc as (H & _ & _).
  apply H.
  - apply list_elem_of_lookup. exists i. rewrite lookup_take_lt by lia. exact Hi.
  - apply list_elem_of_lookup. exists 0%nat. rewrite lookup_drop, Nat.add_0_r.
    exact Hj.
Qed.

(** Keys identify the elements of a set. *)
Lemma increasing_key_inj (a : list A) (x y : A) :
  inc a -> x ∈ a -> y ∈ a -> key x = key y -> x = y.
Proof.
  intros Hinc Hx Hy Hk.
  apply list_elem_of_lookup in Hx as [i Hi].
  apply list_elem_of_lookup in Hy as [j Hj].
  destruct (lt_eq_lt_dec i j) as [[Hlt | ->] | Hlt].
  - pose proof (increasing_lookup a i j x y Hinc Hi Hj Hlt). lia.
  - congruence.
  - pose proof (increasing_lookup a j i y x Hinc Hj Hi Hlt). lia.
Qed.

(** ** The binary search *)

Lemma set_search_found fuel (a : list A) (v : Z) (lower upper i : nat) :
  set_search key fuel a v lower upper = Some i ->
  exists y, a !! i = Some y /\ key y = v.
Proof.
  revert lower upper.
  induction fuel as [| fuel IH]; intros lower upper; cbn [set_search].
  - discriminate.
  - destruct (lower <? upper)%nat; [| discriminate].
    destruct (a !! (lower + (upper - lower) / 2)%nat) as [y |] eqn:Ey;
      [| discriminate].
    destruct (Z.ltb_spec v (key y)); [apply IH |].
    destruct (Z.gtb_spec v (key y)); [apply IH |].
    intros [= <-]. exists y. split; [exact Ey | lia].
Qed.

Lemma set_search_none fuel (a : list A) (v : Z) (lower upper : nat) :
  inc a -> (upper <= length a)%nat -> (upper - lower < fuel)%nat ->
  (forall i y, a !! i = Some y -> (i < lower)%nat -> key y < v) ->
  (forall i y, a !! i = Some y -> (upper <= i)%nat -> v < key y) ->
  set_search key fuel a v lower upper = None ->
  forall y, y ∈ a -> key y <> v.
Proof.
  intros Hinc. revert lower upper.
  induction fuel as [| fuel IH]; intros lower upper Hup Hfuel Hlo Hhi; [lia |].
  cbn [set_search]. destruct (Nat.ltb_spec lower upper) as [Hlt | Hge].
  - set (i := (lower + (upper - lower) / 2)%nat).
    assert (Hi : (lower <= i < upper)%nat).
    { subst i. split; [lia |].
      assert ((upper - lower) / 2 < upper - lower)%nat by (apply Nat.div_lt; lia).
      lia. }
    destruct (lookup_lt_is_Some_2 a i) as [y Ey]; [lia |].
    rewrite Ey.
    destruct (Z.ltb_spec v (key y)) as [Hv | Hv].
    + apply IH; [lia | lia | exact Hlo |].
      intros j z Hj Hij. destruct (Nat.eq_dec j i) as [-> | Hne].
      * congruence.
      * pose proof (increasing_lookup a i j y z Hinc Ey Hj). lia.
    + destruct (Z.gtb_spec v (key y)) as [Hv' | Hv']; [| discriminate].
      apply IH; [lia | lia | | exact Hhi].
      intros j z Hj Hij. destruct (Nat.eq_dec j i) as [-> | Hne].
      * assert (z = y) by congruence. subst z. lia.
      * pose proof (increasing_lookup a j i z y Hinc Hj Ey). lia.
  - intros _ y Hy. apply list_elem_of_lookup in Hy as [j Hj].
    destruct (Nat.lt_ge_cases j lower) as [Hjl | Hjl].
    + pose proof (Hlo j y Hj Hjl). lia.
    + pose proof (Hhi j y Hj). lia.
Qed.

(** On a set the search finds the cell with the key exactly when there
    is one. *)
Lemma set_lookup_spec (a : list A) (v : Z) :
  inc a ->
  match set_lookup key a v with
  | Some i => exists y, a !! i = Some y /\ key y = v
  | None => forall y, y ∈ a -> key y <> v
  end.
Proof.
  intros Hinc. unfold set_lookup.
  destruct (set_search key (S (length a)) a v 0 (length a)) as [i |] eqn:E.
  - eapply set_search_found. exact E.
  - eapply set_search_none; try exact E; try exact Hinc; try lia.
    intros i y Hy Hi. apply lookup_lt_Some in Hy. lia.
Qed.

(** ** Insertion *)

Lemma shift_insert_increasing (x : A) (a : list A) :
  inc a -> (forall y, y ∈ a -> key y <> key x) ->
  inc (shift_insert (fun y => key y >? key x) x a).
Proof.
  induction a as [| y a IH] using rev_ind; intros Hinc Hnew.
  - rewrite shift_insert_nil. apply increasing_cons.
    split; [intros z Hz; inversion Hz | constructor].
  - apply increasing_snoc in Hinc as [Hy Hinc].
    assert (Hne : key y <> key x).
    { apply Hnew. apply elem_of_app. right. apply list_elem_of_singleton.
      reflexivity. }
    rewrite shift_insert_snoc. destruct (Z.gtb_spec (key y) (key x)) as [Hgt | Hle].
    + apply increasing_snoc. split.
      * intros z Hz. apply shift_insert_elem_of in Hz as [-> | Hz]; [lia | auto].
      * apply IH; [exact Hinc |].
        intros z Hz. apply Hnew. apply elem_of_app. left. exact Hz.
    + change [y; x] with ([y] ++ [x]). rewrite app_assoc.
      apply increasing_snoc. split.
      * intros z Hz. apply elem_of_app in Hz as [Hz | Hz].
        -- specialize (Hy z Hz). lia.
        -- apply list_elem_of_singleton in Hz as ->. lia.
      * apply increasing_snoc. split; assumption.
Qed.

(** [_insert] keeps the invariant; the set gains [x] unless an element
    with the key of [x] is in it already, and then it is unchanged. *)
Lemma set_insert_spec (s : dynarray A) (x : A) :
  set_inv key elsize s ->
  set_inv key elsize (set_insert key elsize s x) /\
  ((exists y, y ∈ cells s /\ key y = key x) ->
     set_insert key elsize s x = s) /\
  ((forall y, y ∈ cells s -> key y <> key x) ->
     forall z, z ∈ cells (set_insert key elsize s x) <->
               z = x \/ z ∈ cells s).
Proof.
  unfold set_inv, set_insert, cells.
  destruct (array s) as [a |] eqn:Ea.
  - intros [Hel Hinc].
    pose proof (set_lookup_spec a (key x) Hinc) as Hs.
    destruct (set_lookup key a (key x)) as [i |].
    + rewrite Ea. split; [split; assumption |]. split; [reflexivity |].
      intros Hnew. destruct Hs as (y & Hy & Hk).
      exfalso. apply (Hnew y); [| exact Hk].
      apply list_elem_of_lookup. eauto.
    + simpl. split; [split |]; [exact Hel | |].
      * apply shift_insert_increasing; assumption.
      * split.
        -- intros (y & Hy & Hk). exfalso. exact (Hs y Hy Hk).
        -- intros _ z. apply shift_insert_elem_of.
  - intros _. simpl.
    split; [split; [reflexivity |] |]; [| split].
    + apply increasing_cons. split; [intros z Hz; inversion Hz | constructor].
    + intros (y & Hy & _). inversion Hy.
    + intros _ z. rewrite list_elem_of_singleton, elem_of_nil. tauto.
Qed.

(** ** Deletion *)

Lemma last_default (l : list A) (a d d' : A) :
  List.last (a :: l) d = List.last (a :: l) d'.
Proof.
  revert a. induction l as [| b l IH]; intros a; [reflexivity |].
  change (List.last (b :: l) d = List.last (b :: l) d'). apply IH.
Qed.

Lemma shift_down_spec (n : nat) (pre : list A) (x : A) (suf : list A) :
  (length suf <= n)%nat ->
  shift_down n (length pre) (pre ++ x :: suf) =
    pre ++ suf ++ [List.last suf x].
Proof.
  revert n pre x. induction suf as [| y suf IH]; intros n pre x Hn.
  - destruct n; simpl.
    + reflexivity.
    + rewrite lookup_app_r by lia.
      replace (S (length pre) - length pre)%nat with 1%nat by lia. reflexivity.
  - destruct n as [| n]; [simpl in Hn; lia |].
    cbn [shift_down].
    rewrite lookup_app_r by lia.
    replace (S (length pre) - length pre)%nat with 1%nat by lia.
    cbn [lookup list_lookup].
    replace (length pre) with (length pre + 0)%nat at 2 by lia.
    rewrite insert_app_r. cbn [insert list_insert].
    replace (S (length pre)) with (length (pre ++ [y]))
      by (rewrite length_app; simpl; lia).
    rewrite (cons_middle y pre (y :: suf)), app_assoc.
    rewrite IH by (simpl in Hn; lia).
    rewrite <- app_assoc. simpl.
    destruct suf as [| b suf]; [reflexivity |].
    rewrite (last_default suf b y x). reflexivity.
Qed.

Lemma remove_cell (pre : list A) (x : A) (suf : list A) :
  take (length (pre ++ x :: suf) - 1)
       (shift_down (length (pre ++ x :: suf)) (length pre)
                   (pre ++ x :: suf)) = pre ++ suf.
Proof.
  rewrite shift_down_spec by (rewrite length_app; simpl; lia).
  rewrite app_assoc. apply take_app_length'.
  rewrite !length_app. simpl. lia.
Qed.

(** [_delete] keeps the invariant and removes exactly the element with
    the key; without one the set is unchanged. *)
Lemma set_delete_spec (s : dynarray A) (v : Z) :
  set_inv key elsize s ->
  set_inv key elsize (set_delete key s v) /\
  (forall z, z ∈ cells (set_delete key s v) <->
             z ∈ cells s /\ key z <> v).
Proof.
  unfold set_inv, set_delete, cells.
  destruct (array s) as [a |] eqn:Ea.
  - intros [Hel Hinc].
    pose proof (set_lookup_spec a v Hinc) as Hs.
    destruct (set_lookup key a v) as [i |].
    + destruct Hs as (x & Hx & Hk). simpl.
      pose proof (lookup_lt_Some _ _ _ Hx) as Hlt.
      assert (Ha : a = take i a ++ x :: drop (S i) a)
        by (symmetry; apply take_drop_middle; exact Hx).
      assert (Hi : i = length (take i a)) by (rewrite length_take; lia).
      revert Ha Hi. generalize (take i a) (drop (S i) a). intros pre suf -> ->.
      rewrite remove_cell.
      apply increasing_app in Hinc as (Hlow & Hi1 & Hi2).
      apply increasing_cons in Hi2 as (Hhigh & Hi2).
      split; [split; [exact Hel |] |].
      * apply increasing_app. split; [| split; assumption].
        intros y z Hy Hz. apply Z.lt_trans with (key x).
        -- apply Hlow; [exact Hy | constructor].
        -- apply Hhigh. exact Hz.
      * intros z. rewrite !elem_of_app, elem_of_cons. split.
        -- intros [Hz | Hz].
           ++ split; [auto |]. assert (key z < key x); [| lia].
              apply Hlow; [exact Hz | constructor].
           ++ split; [auto |]. assert (key x < key z); [| lia].
              apply Hhigh. exact Hz.
        -- intros [[Hz | [-> | Hz]] Hne]; [auto | contradiction | auto].
    + rewrite Ea. simpl. split; [split; assumption |].
      intros z. split; [| tauto].
      intros Hz. split; [exact Hz | apply Hs; exact Hz].
  - intros _. rewrite Ea. simpl. split; [exact I |].
    intros z. split; [intros Hz; inversion Hz | intros [Hz _]; exact Hz].
Qed.

(** ** Equality *)

Lemma cells_equal_spec (a b : list A) :
  length a = length b ->
  cells_equal key a b = true <-> map key a = map key b.
Proof.
  revert b. induction a as [| x a IH]; intros [| y b] Hlen;
    simpl in *; try discriminate; [tauto |].
  rewrite andb_true_iff, Z.eqb_eq, IH by lia.
  split; [intros [-> ->]; reflexivity | intros [= -> ->]; split; reflexivity].
Qed.

(** Two arrays of the same element size are equal sets exactly when
    their cells have the same keys one by one. *)
Lemma set_equal_spec (s1 s2 : dynarray A) :
  element s1 = element s2 ->
  set_equal key s1 s2 = true <-> map key (cells s1) = map key (cells s2).
Proof.
  intros Hel. unfold set_equal. rewrite Hel, Z.eqb_refl. simpl.
  rewrite orb_false_r.
  destruct (Nat.eqb_spec (length (cells s1)) (length (cells s2))) as [Hl | Hl];
    simpl.
  - apply cells_equal_spec. exact Hl.
  - split; [discriminate |]. intros Hm. exfalso. apply Hl.
    rewrite <- (length_map key (cells s1)), Hm, length_map. reflexivity.
Qed.

(** ** The merges *)

Lemma merge_union_nil_l (l2 : list A) : merge_union key [] l2 = l2.
Proof. destruct l2; reflexivity. Qed.

Lemma merge_union_nil_r (l1 : list A) : merge_union key l1 [] = l1.
Proof. destruct l1; reflexivity. Qed.

Lemma merge_union_cons (x : A) (l1 : list A) (y : A) (l2 : list A) :
  merge_union key (x :: l1) (y :: l2) =
    if key x <? key y then x :: merge_union key l1 (y :: l2)
    else if key x =? key y then x :: merge_union key l1 l2
    else y :: merge_union key (x :: l1) l2.
Proof. reflexivity. Qed.

Lemma merge_inter_nil_l (l2 : list A) : merge_inter key [] l2 = [].
Proof. destruct l2; reflexivity. Qed.

Lemma merge_inter_nil_r (l1 : list A) : merge_inter key l1 [] = [].
Proof. destruct l1; reflexivity. Qed.

Lemma merge_inter_cons (x : A) (l1 : list A) (y : A) (l2 : list A) :
  merge_inter key (x :: l1) (y :: l2) =
    if key x <? key y then merge_inter key l1 (y :: l2)
    else if key x =? key y then x :: merge_inter key l1 l2
    else merge_inter key (x :: l1) l2.
Proof. reflexivity. Qed.

Lemma merged_lower_l (copy : bool) (low rest : list A) (y : A) (l2 : list A) :
  Forall (fun z => key z < key y) low ->
  merged key copy (low ++ rest) (y :: l2) =
    (if copy then low else []) ++ merged key copy rest (y :: l2).
Proof.
  induction 1 as [| z low Hz _ IH]; [destruct copy; reflexivity |].
  unfold merged in *. rewrite <- app_comm_cons.
  destruct copy; [rewrite merge_union_cons | rewrite merge_inter_cons];
    destruct (Z.ltb_spec (key z) (key y)); try lia; rewrite IH; reflexivity.
Qed.

Lemma merged_lower_r (copy : bool) (x : A) (l1 low rest : list A) :
  Forall (fun z => key z < key x) low ->
  merged key copy (x :: l1) (low ++ rest) =
    (if copy then low else []) ++ merged key copy (x :: l1) rest.
Proof.
  induction 1 as [| z low Hz _ IH]; [destruct copy; reflexivity |].
  unfold merged in *. rewrite <- app_comm_cons.
  destruct copy; [rewrite merge_union_cons | rewrite merge_inter_cons];
    destruct (Z.ltb_spec (key x) (key z)); try lia;
    destruct (Z.eqb_spec (key x) (key z)); try lia; rewrite IH; reflexivity.
Qed.

Lemma merged_leftover (copy : bool) (l1 l2 : list A) :
  l1 = [] \/ l2 = [] -> leftover copy l1 l2 = merged key copy l1 l2.
Proof.
  unfold leftover, merged. intros [-> | ->]; destruct copy.
  - rewrite merge_union_nil_l. reflexivity.
  - rewrite merge_inter_nil_l. reflexivity.
  - rewrite merge_union_nil_r, app_nil_r. reflexivity.
  - rewrite merge_inter_nil_r. reflexivity.
Qed.

Lemma drop_lookup_None (src : list A) (i : nat) :
  src !! i = None -> drop i src = [].
Proof. intros H. apply drop_ge. apply lookup_ge_None. exact H. Qed.

Lemma drop_lookup_Some (src : list A) (i : nat) (y : A) :
  src !! i = Some y -> drop i src = y :: drop (S i) src.
Proof. intros H. apply drop_S. exact H. Qed.

Lemma copy_rest_spec (fuel : nat) (src : list A) (i : nat) (dst : list A) :
  (length src - i <= fuel)%nat ->
  copy_rest fuel src i dst = dst ++ drop i src.
Proof.
  revert i dst. induction fuel as [| fuel IH]; intros i dst Hf; simpl.
  - rewrite drop_ge by lia. rewrite app_nil_r. reflexivity.
  - destruct (src !! i) as [y |] eqn:Ey.
    + pose proof (lookup_lt_Some _ _ _ Ey).
      rewrite IH by lia. rewrite (drop_lookup_Some src i y Ey).
      rewrite <- app_assoc. reflexivity.
    + rewrite (drop_lookup_None src i Ey), app_nil_r. reflexivity.
Qed.

(** The inner loops pass over the cells below the bound and stop at
    the first cell that is not below it, or at the end. *)
Lemma pass_lower_spec (fuel : nat) (copy : bool) (src : list A) (bound : Z)
    (i : nat) (dst : list A) :
  (length src - i <= fuel)%nat ->
  exists low,
    pass_lower key fuel copy src bound i dst =
      ((i + length low)%nat, dst ++ (if copy then low else [])) /\
    drop i src = low ++ drop (i + length low) src /\
    Forall (fun z => key z < bound) low /\
    (forall y, src !! (i + length low)%nat = Some y -> bound <= key y).
Proof.
  assert (Hstop : forall (i : nat) (dst : list A) (r : nat * list A),
             r = (i, dst) ->
             (forall y, src !! i = Some y -> bound <= key y) ->
             exists low,
               r = ((i + length low)%nat, dst ++ (if copy then low else [])) /\
               drop i src = low ++ drop (i + length low) src /\
               Forall (fun z => key z < bound) low /\
               (forall y, src !! (i + length low)%nat = Some y ->
                          bound <= key y)).
  { intros j d r -> Hj. exists []. cbn [length app].
    rewrite Nat.add_0_r. split; [| split; [reflexivity | split; [constructor | exact Hj]]].
    destruct copy; rewrite app_nil_r; reflexivity. }
  revert i dst. induction fuel as [| fuel IH]; intros i dst Hf.
  - apply Hstop; [reflexivity |].
    intros y Hy. apply lookup_lt_Some in Hy. lia.
  - cbn [pass_lower]. destruct (src !! i) as [y |] eqn:Ey.
    + destruct (Z.ltb_spec (key y) bound) as [Hlt | Hge].
      * pose proof (lookup_lt_Some _ _ _ Ey).
        destruct (IH (S i) (if copy then dst ++ [y] else dst)) as
          (low & Hp & Hd & Hl & Hs); [lia |].
        exists (y :: low). cbn [length].
        replace (i + S (length low))%nat with (S i + length low)%nat by lia.
        rewrite Hp. split; [| split; [| split]].
        -- destruct copy; [rewrite <- app_assoc |]; reflexivity.
        -- rewrite (drop_lookup_Some src i y Ey), Hd at 1. reflexivity.
        -- constructor; assumption.
        -- exact Hs.
      * apply Hstop; [reflexivity |]. intros z Hz. congruence.
    + apply Hstop; [reflexivity |]. intros z Hz. congruence.
Qed.

(** The main loop produces the merge of the cells it has passed and
    stops with one of the arrays used up. *)
Lemma merge_loop_spec (copy : bool) (src1 src2 : list A) (fuel i1 i2 : nat)
    (dst : list A) :
  (length src1 - i1 + (length src2 - i2) < fuel)%nat ->
  exists i1' i2' m,
    merge_loop key fuel copy src1 src2 i1 i2 dst = (i1', i2', dst ++ m) /\
    m ++ leftover copy (drop i1' src1) (drop i2' src2) =
      merged key copy (drop i1 src1) (drop i2 src2).
Proof.
  revert i1 i2 dst. induction fuel as [| fuel IH]; intros i1 i2 dst Hf; [lia |].
  cbn [merge_loop].
  destruct (src1 !! i1) as [y1 |] eqn:E1;
    [destruct (src2 !! i2) as [y2 |] eqn:E2 |].
  - pose proof (lookup_lt_Some _ _ _ E1) as Hl1.
    pose proof (lookup_lt_Some _ _ _ E2) as Hl2.
    (* the cells of src1 below the current cell of src2 *)
    destruct (pass_lower_spec (length src1) copy src1 (key y2) i1 dst)
      as (lowa & Ha & Hda & Hfa & Hsa); [lia |].
    rewrite Ha.
    assert (Hba : (i1 + length lowa <= length src1)%nat).
    { apply (f_equal length) in Hda.
      rewrite length_app, !length_drop in Hda. lia. }
    set (i1a := (i1 + length lowa)%nat) in *.
    set (dsta := dst ++ (if copy then lowa else [])).
    (* equal keys: one cell of each *)
    set (step := match src1 !! i1a with
                 | Some y1' => if key y1' =? key y2
                               then (S i1a, S i2, dsta ++ [y1'])
                               else (i1a, i2, dsta)
                 | None => (i1a, i2, dsta)
                 end).
    assert (Hb : exists i1b i2b mb,
               step = (i1b, i2b, dsta ++ mb) /\
               (i1a <= i1b <= length src1)%nat /\
               (i2 <= i2b <= length src2)%nat /\
               mb ++ merged key copy (drop i1b src1) (drop i2b src2) =
                 merged key copy (drop i1a src1) (drop i2 src2) /\
               (i1a = i1 -> i1b = i1 ->
                src2 !! i2b = Some y2 /\ i2b = i2 /\ key y2 < key y1)).
    { subst step. rewrite (drop_lookup_Some src2 i2 y2 E2).
      destruct (src1 !! i1a) as [y1' |] eqn:E1a.
      - pose proof (lookup_lt_Some _ _ _ E1a).
        specialize (Hsa y1' eq_refl).
        destruct (Z.eqb_spec (key y1') (key y2)) as [Heq | Hne].
        + exists (S i1a), (S i2), [y1']. repeat split; try lia.
          rewrite (drop_lookup_Some src1 i1a y1' E1a).
          unfold merged. destruct copy;
            [rewrite merge_union_cons | rewrite merge_inter_cons];
            destruct (Z.ltb_spec (key y1') (key y2)); try lia;
            destruct (Z.eqb_spec (key y1') (key y2)); try lia; reflexivity.
        + exists i1a, i2, []. rewrite app_nil_r.
          repeat split; try lia; try assumption.
          * rewrite <- (drop_lookup_Some src2 i2 y2 E2). reflexivity.
          * assert (y1' = y1) by congruence. subst y1'. lia.
      - exists i1a, i2, []. rewrite app_nil_r.
        repeat split; try lia; try assumption.
        + rewrite <- (drop_lookup_Some src2 i2 y2 E2). reflexivity.
        + congruence. }
    destruct Hb as (i1b & i2b & mb & -> & Hi1b & Hi2b & Hmb & Hprog).
    (* the cells of src2 below the current cell of src1 *)
    assert (Hc : exists i2c mc,
               match src1 !! i1b with
               | Some y1' =>
                   pass_lower key (length src2) copy src2 (key y1') i2b
                     (dsta ++ mb)
               | None => (i2b, dsta ++ mb)
               end = (i2c, (dsta ++ mb) ++ mc) /\
               (i2b <= i2c <= length src2)%nat /\
               mc ++ merged key copy (drop i1b src1) (drop i2c src2) =
                 merged key copy (drop i1b src1) (drop i2b src2) /\
               (i1b = i1 -> i1a = i1 -> (i2 < i2c)%nat)).
    { destruct (src1 !! i1b) as [y1' |] eqn:E1b.
      - destruct (pass_lower_spec (length src2) copy src2 (key y1') i2b
                    (dsta ++ mb)) as (lowc & Hpc & Hdc & Hfc & Hsc); [lia |].
        assert ((i2b + length lowc <= length src2)%nat).
        { apply (f_equal length) in Hdc.
          rewrite length_app, !length_drop in Hdc. lia. }
        exists (i2b + length lowc)%nat, (if copy then lowc else []).
        rewrite Hpc. repeat split; try lia.
        + rewrite (drop_lookup_Some src1 i1b y1' E1b), Hdc.
          rewrite merged_lower_r by exact Hfc. reflexivity.
        + intros H1 H2. destruct (Hprog H2 H1) as (E2b & -> & Hlt).
          subst i1b. assert (y1' = y1) by congruence. subst y1'.
          destruct lowc as [| z lowc]; [| simpl; lia].
          simpl in Hsc. rewrite Nat.add_0_r in Hsc.
          specialize (Hsc y2 E2b). lia.
      - exists i2b, []. rewrite app_nil_r. repeat split; try lia.
        intros H1 H2. subst i1b. congruence. }
    destruct Hc as (i2c & mc & -> & Hi2c & Hmc & Hprog').
    destruct (IH i1b i2c ((dsta ++ mb) ++ mc)) as (i1' & i2' & m & Hm & Hres).
    { destruct (Nat.eq_dec i1b i1) as [H1 | H1].
      - assert (i1a = i1) by lia. specialize (Hprog' H1 H). lia.
      - lia. }
    exists i1', i2', ((if copy then lowa else []) ++ mb ++ mc ++ m).
    split.
    + rewrite Hm. subst dsta. rewrite <- !app_assoc. reflexivity.
    + rewrite <- !app_assoc, Hres, Hmc, Hmb.
      rewrite Hda, (drop_lookup_Some src2 i2 y2 E2).
      rewrite merged_lower_l by exact Hfa. reflexivity.
  - exists i1, i2, []. rewrite app_nil_r. split; [reflexivity |].
    apply merged_leftover. right. apply drop_lookup_None. exact E2.
  - exists i1, i2, []. rewrite app_nil_r. split; [reflexivity |].
    apply merged_leftover. left. apply drop_lookup_None. exact E1.
Qed.

(** [_union] and [_intersect] of two allocated arrays are the merges of
    their cells. *)
Lemma set_union_cells (s1 s2 : dynarray A) (a1 a2 : list A) :
  array s1 = Some a1 -> array s2 = Some a2 ->
  set_union key elsize s1 s2 =
    {| array := Some (merge_union key a1 a2); element := elsize |}.
Proof.
  intros E1 E2. unfold set_union. rewrite E1, E2.
  destruct (merge_loop_spec true a1 a2 (merge_fuel a1 a2) 0 0 [])
    as (i1 & i2 & m & Hm & Hres); [unfold merge_fuel; lia |].
  rewrite Hm. cbn [app]. f_equal. f_equal.
  rewrite !copy_rest_spec by lia.
  rewrite <- app_assoc. exact Hres.
Qed.

Lemma set_intersect_cells (s1 s2 : dynarray A) (a1 a2 : list A) :
  array s1 = Some a1 -> array s2 = Some a2 ->
  set_intersect key elsize s1 s2 =
    {| array := Some (merge_inter key a1 a2); element := elsize |}.
Proof.
  intros E1 E2. unfold set_intersect. rewrite E1, E2.
  destruct (merge_loop_spec false a1 a2 (merge_fuel a1 a2) 0 0 [])
    as (i1 & i2 & m & Hm & Hres); [unfold merge_fuel; lia |].
  rewrite Hm. cbn [app]. f_equal. f_equal.
  cbn [leftover] in Hres. rewrite app_nil_r in Hres. exact Hres.
Qed.

(** ** The merges of two sets *)

Lemma merge_union_elem_of (l1 l2 : list A) (z : A) :
  z ∈ merge_union key l1 l2 -> z ∈ l1 \/ z ∈ l2.
Proof.
  revert l2. induction l1 as [| x l1 IH1]; intros l2.
  - rewrite merge_union_nil_l. auto.
  - induction l2 as [| y l2 IH2].
    + rewrite merge_union_nil_r. auto.
    + rewrite merge_union_cons.
      destruct (key x <? key y); [| destruct (key x =? key y)];
        rewrite !elem_of_cons.
      * intros [-> | H]; [auto |]. apply IH1 in H.
        rewrite elem_of_cons in H. tauto.
      * intros [-> | H]; [auto |]. apply IH1 in H. tauto.
      * intros [-> | H]; [auto |]. apply IH2 in H.
        rewrite elem_of_cons in H. tauto.
Qed.

Lemma merge_union_keys (l1 l2 : list A) (z : A) :
  z ∈ l1 \/ z ∈ l2 ->
  exists z', z' ∈ merge_union key l1 l2 /\ key z' = key z.
Proof.
  revert l2. induction l1 as [| x l1 IH1]; intros l2.
  - rewrite merge_union_nil_l. intros [H | H]; [inversion H | eauto].
  - induction l2 as [| y l2 IH2].
    + rewrite merge_union_nil_r. intros [H | H]; [eauto | inversion H].
    + rewrite merge_union_cons. rewrite !elem_of_cons.
      destruct (Z.ltb_spec (key x) (key y)) as [Hlt | Hge];
        [| destruct (Z.eqb_spec (key x) (key y)) as [Heq | Hne]].
      * intros [[-> | H] | [-> | H]].
        -- exists x. split; [left |]; reflexivity.
        -- destruct (IH1 (y :: l2) (or_introl H)) as (z' & Hz' & Hk).
           exists z'. split; [right; exact Hz' | exact Hk].
        -- destruct (IH1 (y :: l2)) as (z' & Hz' & Hk).
           { right. left. }
           exists z'. split; [right; exact Hz' | exact Hk].
        -- destruct (IH1 (y :: l2)) as (z' & Hz' & Hk).
           { right. right. exact H. }
           exists z'. split; [right; exact Hz' | exact Hk].
      * intros [[-> | H] | [-> | H]].
        -- exists x. split; [left |]; reflexivity.
        -- destruct (IH1 l2 (or_introl H)) as (z' & Hz' & Hk).
           exists z'. split; [right; exact Hz' | exact Hk].
        -- exists x. split; [left; reflexivity | exact Heq].
        -- destruct (IH1 l2 (or_intror H)) as (z' & Hz' & Hk).
           exists z'. split; [right; exact Hz' | exact Hk].
      * intros [[-> | H] | [-> | H]].
        -- destruct IH2 as (z' & Hz' & Hk); [left; left |].
           exists z'. split; [right; exact Hz' | exact Hk].
        -- destruct IH2 as (z' & Hz' & Hk); [left; right; exact H |].
           exists z'. split; [right; exact Hz' | exact Hk].
        -- exists y. split; [left |]; reflexivity.
        -- destruct IH2 as (z' & Hz' & Hk); [right; exact H |].
           exists z'. split; [right; exact Hz' | exact Hk].
Qed.

Lemma merge_union_increasing (l1 l2 : list A) :
  inc l1 -> inc l2 -> inc (merge_union key l1 l2).
Proof.
  revert l2. induction l1 as [| x l1 IH1]; intros l2 H1.
  - rewrite merge_union_nil_l. auto.
  - induction l2 as [| y l2 IH2]; intros H2.
    + rewrite merge_union_nil_r. exact H1.
    + rewrite merge_union_cons.
      pose proof H1 as H1'. pose proof H2 as H2'.
      apply increasing_cons in H1' as [Hx H1'].
      apply increasing_cons in H2' as [Hy H2'].
      destruct (Z.ltb_spec (key x) (key y)) as [Hlt | Hge];
        [| destruct (Z.eqb_spec (key x) (key y)) as [Heq | Hne]].
      * apply increasing_cons. split; [| apply IH1; assumption].
        intros z Hz. apply merge_union_elem_of in Hz as [Hz | Hz]; [auto |].
        apply elem_of_cons in Hz as [-> | Hz]; [exact Hlt |].
        specialize (Hy z Hz). lia.
      * apply increasing_cons. split; [| apply IH1; assumption].
        intros z Hz. apply merge_union_elem_of in Hz as [Hz | Hz]; [auto |].
        specialize (Hy z Hz). lia.
      * apply increasing_cons. split; [| apply IH2; assumption].
        intros z Hz. apply merge_union_elem_of in Hz as [Hz | Hz]; [| auto].
        apply elem_of_cons in Hz as [-> | Hz]; [lia |].
        specialize (Hx z Hz). lia.
Qed.

Lemma merge_inter_elem_of (l1 l2 : list A) (z : A) :
  z ∈ merge_inter key l1 l2 ->
  z ∈ l1 /\ exists z', z' ∈ l2 /\ key z' = key z.
Proof.
  revert l2. induction l1 as [| x l1 IH1]; intros l2.
  - rewrite merge_inter_nil_l. intros H. inversion H.
  - induction l2 as [| y l2 IH2].
    + rewrite merge_inter_nil_r. intros H. inversion H.
    + rewrite merge_inter_cons.
      destruct (key x <? key y); [| destruct (Z.eqb_spec (key x) (key y))].
      * intros H. apply IH1 in H as [H1 H2]. split; [right; exact H1 | exact H2].
      * rewrite elem_of_cons. intros [-> | H].
        -- split; [left; reflexivity |]. exists y. split; [left; reflexivity | lia].
        -- apply IH1 in H as [H1 (z' & Hz' & Hk)].
           split; [right; exact H1 |]. exists z'. split; [right; exact Hz' | exact Hk].
      * intros H. apply IH2 in H as [H1 (z' & Hz' & Hk)].
        split; [exact H1 |]. exists z'. split; [right; exact Hz' | exact Hk].
Qed.

Lemma merge_inter_complete (l1 l2 : list A) (z z' : A) :
  inc l1 -> inc l2 -> z ∈ l1 -> z' ∈ l2 -> key z' = key z ->
  z ∈ merge_inter key l1 l2.
Proof.
  revert l2. induction l1 as [| x l1 IH1]; intros l2 H1.
  - intros _ H. inversion H.
  - induction l2 as [| y l2 IH2]; intros H2 Hz Hz' Hk.
    + inversion Hz'.
    + rewrite merge_inter_cons.
      pose proof H1 as H1'. pose proof H2 as H2'.
      apply increasing_cons in H1' as [Hx H1'].
      apply increasing_cons in H2' as [Hy H2'].
      apply elem_of_cons in Hz. apply elem_of_cons in Hz'.
      destruct (Z.ltb_spec (key x) (key y)) as [Hlt | Hge];
        [| destruct (Z.eqb_spec (key x) (key y)) as [Heq | Hne]].
      * apply IH1; [exact H1' | exact H2 | | apply elem_of_cons; exact Hz' | exact Hk].
        destruct Hz as [-> | Hz]; [| exact Hz]. exfalso.
        destruct Hz' as [-> | Hz']; [lia |]. specialize (Hy z' Hz'). lia.
      * destruct Hz as [-> | Hz]; [left |].
        right. apply IH1; [exact H1' | exact H2' | exact Hz | | exact Hk].
        destruct Hz' as [-> | Hz']; [| exact Hz']. exfalso.
        specialize (Hx z Hz). lia.
      * apply IH2; [exact H2' | apply elem_of_cons; exact Hz | | exact Hk].
        destruct Hz' as [-> | Hz']; [| exact Hz']. exfalso.
        destruct Hz as [-> | Hz]; [lia |]. specialize (Hx z Hz). lia.
Qed.

Lemma merge_inter_increasing (l1 l2 : list A) :
  inc l1 -> inc (merge_inter key l1 l2).
Proof.
  revert l2. induction l1 as [| x l1 IH1]; intros l2 H1.
  - rewrite merge_inter_nil_l. constructor.
  - induction l2 as [| y l2 IH2].
    + rewrite merge_inter_nil_r. constructor.
    + rewrite merge_inter_cons.
      pose proof H1 as H1'. apply increasing_cons in H1' as [Hx H1'].
      destruct (key x <? key y); [| destruct (key x =? key y)].
      * apply IH1. exact H1'.
      * apply increasing_cons. split; [| apply IH1; exact H1'].
        intros z Hz. apply merge_inter_elem_of in Hz as [Hz _]. auto.
      * exact IH2.
Qed.

Lemma key_elem_of (l : list A) (k : Z) :
  k ∈ map key l <-> exists z, z ∈ l /\ key z = k.
Proof.
  change (map key l) with (key <$> l). rewrite list_elem_of_fmap.
  split; intros (z & H1 & H2); exists z; auto.
Qed.

(** [_union] keeps the invariant; its elements are elements of the
    arguments and its keys are exactly the keys of either argument. *)
Lemma set_union_spec (s1 s2 : dynarray A) :
  set_inv key elsize s1 -> set_inv key elsize s2 ->
  set_inv key elsize (set_union key elsize s1 s2) /\
  (forall z, z ∈ cells (set_union key elsize s1 s2) ->
             z ∈ cells s1 \/ z ∈ cells s2) /\
  (forall k, k ∈ map key (cells (set_union key elsize s1 s2)) <->
             k ∈ map key (cells s1) \/ k ∈ map key (cells s2)).
Proof.
  intros H1 H2.
  destruct (array s1) as [a1 |] eqn:E1; destruct (array s2) as [a2 |] eqn:E2.
  - rewrite (set_union_cells s1 s2 a1 a2 E1 E2).
    unfold set_inv in *. unfold cells. rewrite E1, E2 in *. simpl.
    destruct H1 as [_ H1]. destruct H2 as [_ H2].
    split; [split; [reflexivity | apply merge_union_increasing; assumption] |].
    split; [intros z; apply merge_union_elem_of |].
    intros k. rewrite !key_elem_of. split.
    + intros (z & Hz & Hk). apply merge_union_elem_of in Hz as [Hz | Hz]; eauto.
    + intros [(z & Hz & <-) | (z & Hz & <-)].
      * apply (merge_union_keys a1 a2 z). left. exact Hz.
      * apply (merge_union_keys a1 a2 z). right. exact Hz.
  - unfold set_union, set_inv, cells, dyncopy in *. rewrite E1, E2 in *.
    simpl. unfold cells. rewrite E1. simpl.
    split; [exact H1 |]. split; [auto |].
    intros k. rewrite elem_of_nil. tauto.
  - unfold set_union, set_inv, cells, dyncopy in *. rewrite E1, E2 in *.
    simpl. unfold cells. rewrite E2. simpl.
    split; [exact H2 |]. split; [auto |].
    intros k. rewrite elem_of_nil. tauto.
  - unfold set_union, set_inv, cells, dynalloc in *. rewrite E1, E2 in *.
    simpl. split; [split; [reflexivity | constructor] |]. split; [auto |].
    intros k. rewrite elem_of_nil. tauto.
Qed.

(** [_intersect] keeps the invariant; its elements are the elements of
    the first argument whose key is a key of the second. *)
Lemma set_intersect_spec (s1 s2 : dynarray A) :
  set_inv key elsize s1 -> set_inv key elsize s2 ->
  set_inv key elsize (set_intersect key elsize s1 s2) /\
  (forall z, z ∈ cells (set_intersect key elsize s1 s2) <->
             z ∈ cells s1 /\ key z ∈ map key (cells s2)).
Proof.
  intros H1 H2.
  destruct (array s1) as [a1 |] eqn:E1;
    [destruct (array s2) as [a2 |] eqn:E2 |].
  - rewrite (set_intersect_cells s1 s2 a1 a2 E1 E2).
    unfold set_inv in *. unfold cells. rewrite E1, E2 in *. simpl.
    destruct H1 as [_ H1]. destruct H2 as [_ H2].
    split; [split; [reflexivity | apply merge_inter_increasing; assumption] |].
    intros z. rewrite key_elem_of. split.
    + apply merge_inter_elem_of.
    + intros [Hz (z' & Hz' & Hk)].
      apply (merge_inter_complete a1 a2 z z'); assumption.
  - unfold set_intersect, set_inv, cells, dynalloc in *. rewrite E1, E2 in *.
    simpl. split; [split; [reflexivity | constructor] |].
    intros z. rewrite !elem_of_nil. tauto.
  - unfold set_intersect, set_inv, cells, dynalloc in *. rewrite E1 in *.
    simpl. split; [split; [reflexivity | constructor] |].
    intros z. rewrite !elem_of_nil. tauto.
Qed.

Lemma classic_key_in (l : list A) (k : Z) :
  (exists y, y ∈ l /\ key y = k) \/ (forall y, y ∈ l -> key y <> k).
Proof.
  induction l as [| x l [(y & Hy & Hk) | IH]].
  - right. intros y Hy. inversion Hy.
  - left. exists y. split; [right; exact Hy | exact Hk].
  - destruct (Z.eq_dec (key x) k) as [Heq | Hne].
    + left. exists x. split; [left; reflexivity | exact Heq].
    + right. intros y Hy. apply elem_of_cons in Hy as [-> | Hy]; auto.
Qed.
End OrderedSetFacts.

Lemma int_key_cells (l : list Z) : map int_key l = l.
Proof. apply map_id. Qed.

Lemma set_inv_element {A : Type} (key : A -> Z) (elsize : Z)
    (s1 s2 : dynarray A) :
  set_inv key elsize s1 -> set_inv key elsize s2 ->
  is_Some (array s1) -> is_Some (array s2) -> element s1 = element s2.
Proof.
  unfold set_inv. intros H1 H2 [a1 E1] [a2 E2]. rewrite E1 in H1. rewrite E2 in H2.
  destruct H1 as [-> _]. destruct H2 as [-> _]. reflexivity.
Qed.

(** [_equal] compares the element sizes and then the cells. *)
Lemma set_equal_exact {A : Type} (key : A -> Z) (s1 s2 : dynarray A) :
  set_equal key s1 s2 = true <->
  element s1 = element s2 /\ map key (cells s1) = map key (cells s2).
Proof.
  destruct (Z.eq_dec (element s1) (element s2)) as [E|E].
  - rewrite (set_equal_spec key s1 s2 E). tauto.
  - unfold set_equal. destruct (Z.eqb_spec (element s1) (element s2)) as [|_];
      [contradiction|].
    cbn [negb]. rewrite orb_true_r. split; [discriminate | tauto].
Qed.

Lemma set_insert_keys {A : Type} (key : A -> Z) (elsize : Z)
    (s : dynarray A) (x : A) :
  set_inv key elsize s ->
  forall k, k ∈ map key (cells (set_insert key elsize s x)) <->
            k = key x \/ k ∈ map key (cells s).
Proof.
  intros Hinv k.
  destruct (set_insert_spec key elsize s x Hinv) as (_ & Hold & Hnew).
  destruct (classic_key_in key (cells s) (key x)) as [Hin | Hout].
  - rewrite (Hold Hin). destruct Hin as (y & Hy & Hk).
    split; [auto |]. intros [-> | H]; [| exact H].
    apply key_elem_of. eauto.
  - rewrite !key_elem_of. split.
    + intros (z & Hz & <-). apply (Hnew Hout) in Hz as [-> | Hz]; [auto |].
      right. eauto.
    + intros [-> | (z & Hz & <-)].
      * exists x. split; [apply (Hnew Hout); auto | reflexivity].
      * exists z. split; [apply (Hnew Hout); auto | reflexivity].
Qed.

(** C8 (as amended).  For sets of integers and sets of symbols whose
    arrays hold strictly increasing keys (the value of an integer, the
    order of a symbol): insert, delete, union and intersect return such a
    set again; insert adds the key and delete removes it; the union holds
    exactly the keys of either argument and the intersection exactly the
    elements of the first argument whose key is in the second; and two
    sets are equal exactly when they have the same element size and their
    cells agree one by one, so that two allocated sets are equal exactly
    when their cells agree. *)
Theorem sorted_vector_sets
    (s1 s2 : intset) (v : Z) (t1 t2 : symbolset) (x : symbolentry) :
  set_inv int_key sizeof_int s1 -> set_inv int_key sizeof_int s2 ->
  set_inv order sizeof_pointer t1 -> set_inv order sizeof_pointer t2 ->
  (set_inv int_key sizeof_int (intset_insert s1 v) /\
   set_inv int_key sizeof_int (intset_delete s1 v) /\
   set_inv int_key sizeof_int (intset_union s1 s2) /\
   set_inv int_key sizeof_int (intset_intersect s1 s2) /\
   (forall z, z ∈ cells (intset_insert s1 v) <-> z = v \/ z ∈ cells s1) /\
   (forall z, z ∈ cells (intset_delete s1 v) <-> z ∈ cells s1 /\ z <> v) /\
   (forall z, z ∈ cells (intset_union s1 s2) <->
              z ∈ cells s1 \/ z ∈ cells s2) /\
   (forall z, z ∈ cells (intset_intersect s1 s2) <->
              z ∈ cells s1 /\ z ∈ cells s2) /\
   (intset_equal s1 s2 = true <->
    element s1 = element s2 /\ cells s1 = cells s2) /\
   (is_Some (array s1) -> is_Some (array s2) ->
    (intset_equal s1 s2 = true <-> cells s1 = cells s2))) /\
  (set_inv order sizeof_pointer (symbolset_insert t1 x) /\
   set_inv order sizeof_pointer (symbolset_delete t1 x) /\
   set_inv order sizeof_pointer (symbolset_union t1 t2) /\
   set_inv order sizeof_pointer (symbolset_intersect t1 t2) /\
   (forall k, k ∈ map order (cells (symbolset_insert t1 x)) <->
              k = order x \/ k ∈ map order (cells t1)) /\
   (forall z, z ∈ cells (symbolset_delete t1 x) <->
              z ∈ cells t1 /\ order z <> order x) /\
   (forall z, z ∈ cells (symbolset_union t1 t2) ->
              z ∈ cells t1 \/ z ∈ cells t2) /\
   (forall k, k ∈ map order (cells (symbolset_union t1 t2)) <->
              k ∈ map order (cells t1) \/ k ∈ map order (cells t2)) /\
   (forall z, z ∈ cells (symbolset_intersect t1 t2) <->
              z ∈ cells t1 /\ order z ∈ map order (cells t2)) /\
   (symbolset_equal t1 t2 = true <->
    element t1 = element t2 /\
    map order (cells t1) = map order (cells t2)) /\
   (is_Some (array t1) -> is_Some (array t2) ->
    (symbolset_equal t1 t2 = true <->
     map order (cells t1) = map order (cells t2)))).
Proof.
  intros Hs1 Hs2 Ht1 Ht2.
  unfold intset_insert, intset_delete, intset_union, intset_intersect,
    intset_equal, symbolset_insert, symbolset_delete, symbolset_union,
    symbolset_intersect, symbolset_equal.
  destruct (set_insert_spec int_key sizeof_int s1 v Hs1) as (Hi1 & _ & _).
  destruct (set_delete_spec int_key sizeof_int s1 v Hs1) as (Hd1 & Hd2).
  destruct (set_union_spec int_key sizeof_int s1 s2 Hs1 Hs2) as (Hu1 & _ & Hu3).
  destruct (set_intersect_spec int_key sizeof_int s1 s2 Hs1 Hs2) as (Hn1 & Hn2).
  destruct (set_insert_spec order sizeof_pointer t1 x Ht1) as (Ji1 & _ & _).
  destruct (set_delete_spec order sizeof_pointer t1 (order x) Ht1) as (Jd1 & Jd2).
  destruct (set_union_spec order sizeof_pointer t1 t2 Ht1 Ht2) as (Ju1 & Ju2 & Ju3).
  destruct (set_intersect_spec order sizeof_pointer t1 t2 Ht1 Ht2) as (Jn1 & Jn2).
  split.
  - repeat (split; [assumption |]).
    split; [| split; [| split; [| split; [| split]]]].
    + intros z. pose proof (set_insert_keys int_key sizeof_int s1 v Hs1 z) as H.
      rewrite !int_key_cells in H. exact H.
    + exact Hd2.
    + intros z. specialize (Hu3 z). rewrite !int_key_cells in Hu3. exact Hu3.
    + intros z. specialize (Hn2 z). rewrite int_key_cells in Hn2. exact Hn2.
    + rewrite (set_equal_exact int_key s1 s2), !int_key_cells. reflexivity.
    + intros A1 A2.
      rewrite (set_equal_spec int_key s1 s2), !int_key_cells; [reflexivity |].
      exact (set_inv_element int_key sizeof_int s1 s2 Hs1 Hs2 A1 A2).
  - repeat (split; [assumption |]).
    split; [| split; [| split; [| split; [| split; [| split]]]]].
    + apply set_insert_keys. exact Ht1.
    + exact Jd2.
    + exact Ju2.
    + exact Ju3.
    + exact Jn2.
    + apply set_equal_exact.
    + intros A1 A2. apply set_equal_spec.
      exact (set_inv_element order sizeof_pointer t1 t2 Ht1 Ht2 A1 A2).
Qed.

Lemma sorted_vector_sets_witness :
  set_inv int_key sizeof_int ints_135 /\
  set_inv int_key sizeof_int ints_34 /\
  set_inv order sizeof_pointer syms_ab /\
  set_inv order sizeof_pointer syms_bS /\
  set_inv int_key sizeof_int (intset_union ints_135 ints_34) /\
  set_inv order sizeof_pointer (symbolset_intersect syms_ab syms_bS) /\
  (intset_equal ints_135 ints_34 = true <->
   element ints_135 = element ints_34 /\ cells ints_135 = cells ints_34).
Proof.
  assert (H1 : set_inv int_key sizeof_int ints_135).
  { split; [reflexivity |]. repeat constructor. }
  assert (H2 : set_inv int_key sizeof_int ints_34).
  { split; [reflexivity |]. repeat constructor. }
  assert (H3 : set_inv order sizeof_pointer syms_ab).
  { split; [reflexivity |]. repeat constructor. }
  assert (H4 : set_inv order sizeof_pointer syms_bS).
  { split; [reflexivity |]. repeat constructor. }
  destruct (sorted_vector_sets ints_135 ints_34 4 syms_ab syms_bS sym_S
              H1 H2 H3 H4)
    as [(_ & _ & Hu & _ & _ & _ & _ & _ & He & _) (_ & _ & _ & Hn & _)].
  repeat (split; [assumption |]).
  exact He.
Defined.

(** C8 as stated fails: a set that was never allocated and an allocated
    empty set are both sorted vectors, with no cells, and element-wise
    equal; [intset_equal] compares their element sizes, 0 and
    [sizeof(int)], and answers that they differ. *)
Lemma set_equality_counterexample :
  ~ (forall s1 s2 : intset,
       set_inv int_key sizeof_int s1 -> set_inv int_key sizeof_int s2 ->
       (intset_equal s1 s2 = true <-> cells s1 = cells s2)).
Proof.
  intros H.
  assert (H1 : set_inv int_key sizeof_int (@dynfree Z)) by exact I.
  assert (H2 : set_inv int_key sizeof_int intset_alloc)
    by (split; [reflexivity | constructor]).
  destruct (H dynfree intset_alloc H1 H2) as [_ Heq].
  specialize (Heq eq_refl). vm_compute in Heq. discriminate Heq.
Qed.

Example intset_operations_sample :
  cells (intset_insert ints_135 4) = [1; 3; 4; 5] /\
  cells (intset_insert ints_135 3) = [1; 3; 5] /\
  cells (intset_delete ints_135 3) = [1; 5] /\
  cells (intset_union ints_135 ints_34) = [1; 3; 4; 5] /\
  cells (intset_intersect ints_135 ints_34) = [3] /\
  intset_find ints_135 5 = 2 /\ intset_find ints_135 2 = -1 /\
  intset_equal ints_135 ints_34 = false /\
  intset_equal (intset_union ints_135 ints_34) (intset_insert ints_135 4) = true.
Proof. repeat split; reflexivity. Qed.

Example symbolset_operations_sample :
  cells (symbolset_union syms_ab syms_bS) = [sym_a; sym_b; sym_S] /\
  cells (symbolset_intersect syms_ab syms_bS) = [sym_b] /\
  cells (symbolset_delete syms_ab sym_a) = [sym_b] /\
  cells (symbolset_insert syms_bS sym_a) = [sym_a; sym_b; sym_S].
Proof. repeat split; reflexivity. Qed.

(** An unallocated set and an allocated empty set both have no cells, but
    their element sizes differ and [intset_equal] tells them apart. *)
Example intset_equal_unallocated :
  cells (@dynfree Z) = cells intset_alloc /\
  intset_equal dynfree intset_alloc = false.
Proof. split; reflexivity. Qed.

(** * First-fit compression of the parser table *)

Lemma cell_insert_eq (a : list Z) (i : nat) (v : Z) :
  (i < length a)%nat -> cell (<[i := v]> a) i = v.
Proof. intros H. unfold cell. rewrite list_lookup_insert_eq by exact H. reflexivity. Qed.

Lemma cell_insert_ne (a : list Z) (i k : nat) (v : Z) :
  i <> k -> cell (<[i := v]> a) k = cell a k.
Proof. intros H. unfold cell. rewrite list_lookup_insert_ne by exact H. reflexivity. Qed.

Lemma cell_ge (a : list Z) (k : nat) : (length a <= k)%nat -> cell a k = 0.
Proof. intros H. unfold cell. rewrite lookup_ge_None_2 by exact H. reflexivity. Qed.

Lemma cell_replicate (n k : nat) : cell (replicate n 0) k = 0.
Proof.
  unfold cell. destruct (replicate n 0 !! k) as [v |] eqn:E; [| reflexivity].
  apply lookup_replicate in E as [-> _]. reflexivity.
Qed.

Lemma cell_app_zeros (a : list Z) (n k : nat) :
  cell (a ++ replicate n 0) k = cell a k.
Proof.
  destruct (le_lt_dec (length a) k) as [Hge | Hlt].
  - rewrite (cell_ge a k Hge). unfold cell.
    rewrite lookup_app_r by exact Hge.
    apply (cell_replicate n (k - length a)).
  - unfold cell. rewrite lookup_app_l by exact Hlt. reflexivity.
Qed.

Lemma cell_take (a : list Z) (n k : nat) :
  (k < n)%nat -> cell (take n a) k = cell a k.
Proof. intros H. unfold cell. rewrite lookup_take_lt by exact H. reflexivity. Qed.

(** ** Making room *)

Lemma grow_tables_spec (fuel tokens : nat) (t : packed) :
  (1 <= length (tcheck t))%nat ->
  length (tnext t) = length (tcheck t) ->
  (tcount t + tokens < length (tcheck t) + fuel)%nat ->
  let t' := grow_tables fuel tokens t in
  tbase t' = tbase t /\ tcount t' = tcount t /\
  length (tnext t') = length (tcheck t') /\
  (length (tcheck t) <= length (tcheck t'))%nat /\
  (tcount t' + tokens <= length (tcheck t'))%nat /\
  (forall k, cell (tcheck t') k = cell (tcheck t) k) /\
  (forall k, cell (tnext t') k = cell (tnext t) k).
Proof.
  revert t. induction fuel as [| fuel IH]; intros t Hpos Hlen Hfuel; cbn zeta.
  - simpl. repeat split; auto; lia.
  - cbn [grow_tables].
    destruct (Nat.ltb_spec (length (tcheck t)) (tcount t + tokens)) as [Hlt | Hge].
    + set (t1 := {| tbase := tbase t;
                    tcheck := tcheck t ++ replicate (length (tcheck t)) 0;
                    tnext := tnext t ++ replicate (length (tcheck t)) 0;
                    tcount := tcount t |}).
      assert (Hl1 : length (tcheck t1) = (2 * length (tcheck t))%nat).
      { simpl. rewrite length_app, length_replicate. lia. }
      destruct (IH t1) as (H1 & H2 & H3 & H4 & H5 & H6 & H7).
      * lia.
      * simpl. rewrite !length_app, !length_replicate. lia.
      * rewrite Hl1. simpl. lia.
      * repeat split; try assumption.
        -- lia.
        -- intros k. rewrite H6. apply cell_app_zeros.
        -- intros k. rewrite H7. apply cell_app_zeros.
    + repeat split; auto; lia.
Qed.

(** ** Looking for a base *)

Lemma row_fits_spec (n j : nat) (row check : list Z) (i : nat) :
  row_fits n j row check i = true <->
  forall j', (j <= j' < j + n)%nat ->
             cell row j' = 0 \/ cell check (i + j') = 0.
Proof.
  revert j. induction n as [| n IH]; intros j; cbn [row_fits].
  - split; [intros _ j' Hj'; lia | reflexivity].
  - destruct (Z.eqb_spec (cell row j) 0) as [Hr | Hr];
      [| destruct (Z.eqb_spec (cell check (i + j)) 0) as [Hc | Hc]]; simpl.
    + rewrite IH. split; intros H j' Hj'.
      * destruct (Nat.eq_dec j' j) as [-> | Hne]; [auto | apply H; lia].
      * apply H. lia.
    + rewrite IH. split; intros H j' Hj'.
      * destruct (Nat.eq_dec j' j) as [-> | Hne]; [auto | apply H; lia].
      * apply H. lia.
    + split; [discriminate |]. intros H.
      destruct (H j) as [H0 | H0]; [lia | contradiction | contradiction].
Qed.

Lemma find_base_spec (n i tokens : nat) (row check : list Z) :
  let b := find_base n i tokens row check in
  (i <= b <= i + n)%nat /\
  ((b < i + n)%nat -> row_fits tokens 0 row check b = true).
Proof.
  revert i. induction n as [| n IH]; intros i; cbn [find_base]; cbn zeta.
  - split; lia.
  - destruct (row_fits tokens 0 row check i) eqn:E.
    + split; [lia | auto].
    + destruct (IH (S i)) as [H1 H2]. split; [lia |].
      intros H. apply H2. lia.
Qed.

(** ** Storing the row *)

Lemma store_row_spec (n j : nat) (row : list Z) (i : nat) (owner : Z)
    (check next : list Z) :
  (i + j + n <= length check)%nat -> length next = length check ->
  let r := store_row n j row i owner check next in
  length (fst r) = length check /\ length (snd r) = length check /\
  (forall j', (j <= j' < j + n)%nat -> cell row j' <> 0 ->
              cell (fst r) (i + j') = owner /\
              cell (snd r) (i + j') = cell row j') /\
  (forall k, (forall j', (j <= j' < j + n)%nat -> cell row j' <> 0 ->
                         k <> (i + j')%nat) ->
             cell (fst r) k = cell check k /\ cell (snd r) k = cell next k).
Proof.
  revert j check next. induction n as [| n IH]; intros j check next Hb Hl;
    cbn [store_row]; cbn zeta.
  - simpl. split; [reflexivity |]. split; [exact Hl |].
    split; [intros j' Hj'; lia | intros k _; auto].
  - destruct (Z.eqb_spec (cell row j) 0) as [Hr | Hr].
    + destruct (IH (S j) check next) as (H1 & H2 & H3 & H4); [lia | exact Hl |].
      split; [exact H1 |]. split; [exact H2 |]. split.
      * intros j' Hj' Hn. destruct (Nat.eq_dec j' j) as [E | Hne].
        -- rewrite E in Hn. contradiction.
        -- apply H3; [lia | exact Hn].
      * intros k Hk. apply H4. intros q Hq Hn. apply Hk; [lia | exact Hn].
    + destruct (IH (S j) (<[(i + j)%nat := owner]> check)
                  (<[(i + j)%nat := cell row j]> next))
        as (H1 & H2 & H3 & H4).
      { rewrite length_insert. lia. }
      { rewrite !length_insert. exact Hl. }
      rewrite !length_insert in *.
      split; [exact H1 |]. split; [exact H2 |]. split.
      * intros j' Hj' Hn. destruct (Nat.eq_dec j' j) as [E | Hne].
        -- rewrite E. destruct (H4 (i + j)%nat) as [E1 E2].
           { intros q Hq _. lia. }
           rewrite E1, E2. rewrite !cell_insert_eq by lia. auto.
        -- apply H3; [lia | exact Hn].
      * intros k Hk. destruct (H4 k) as [E1 E2].
        { intros q Hq Hn. apply Hk; [lia | exact Hn]. }
        rewrite E1, E2.
        assert ((i + j)%nat <> k).
        { intros E. symmetry in E. revert E. apply Hk; [lia | exact Hr]. }
        rewrite !cell_insert_ne by assumption. auto.
Qed.

(** ** One state more *)

Section PackStep.
Variable actions : list (list Z).
Variable tokens : nat.

Lemma pack_inv_ext (P Q : nat -> Prop) (t : packed) :
  (forall s, P s <-> Q s) ->
  pack_inv actions tokens P t -> pack_inv actions tokens Q t.
Proof.
  intros HPQ (H1 & H2 & H3 & H4 & H5 & H6 & H7).
  unfold pack_inv. repeat (split; [assumption |]).
  split; [| split].
  - intros k Hk. destruct (H5 k Hk) as (s & j & Hs & Hr).
    exists s, j. split; [apply HPQ; exact Hs | exact Hr].
  - intros s j Hs. apply H6. apply HPQ. exact Hs.
  - intros s Hs. apply H7. apply HPQ. exact Hs.
Qed.

Lemma base_of_insert (t : list nat) (st i s : nat) (c n : list Z) (k : nat) :
  (st < length t)%nat ->
  base_of {| tbase := <[st := i]> t; tcheck := c; tnext := n; tcount := k |} s =
    if decide (s = st) then i
    else base_of {| tbase := t; tcheck := c; tnext := n; tcount := k |} s.
Proof.
  intros Hst. unfold base_of. simpl. destruct (decide (s = st)) as [-> | Hne].
  - rewrite list_lookup_insert_eq by exact Hst. reflexivity.
  - rewrite list_lookup_insert_ne by auto. reflexivity.
Qed.

(** Inserting a state that is not in the tables yet keeps the
    invariant, with that state added. *)
Lemma compress_parser_inv (done : nat -> Prop) (t : packed) (st : nat) :
  pack_inv actions tokens done t ->
  ~ done st -> (st < length (tbase t))%nat ->
  pack_inv actions tokens (fun s => s = st \/ done s)
    (compress_parser actions st tokens t) /\
  length (tbase (compress_parser actions st tokens t)) = length (tbase t).
Proof.
  intros (H1 & H2 & H3 & H4 & H5 & H6 & H7) Hnew Hst.
  unfold compress_parser.
  set (row := default [] (actions !! st)).
  destruct (grow_tables_spec (S (tcount t + tokens)) tokens t H1 H2)
    as (G1 & G2 & G3 & G4 & G5 & G6 & G7); [lia |].
  set (t1 := grow_tables (S (tcount t + tokens)) tokens t) in *.
  destruct (find_base_spec (tcount t1) 0 tokens row (tcheck t1)) as [B1 B2].
  set (i := find_base (tcount t1) 0 tokens row (tcheck t1)) in *.
  assert (Hfit : forall j, (j < tokens)%nat -> cell row j <> 0 ->
                           cell (tcheck t1) (i + j) = 0).
  { intros j Hj Hn. destruct (Nat.eq_dec i (tcount t1)) as [E | E].
    - rewrite G6. apply H4. lia.
    - assert (Hf : row_fits tokens 0 row (tcheck t1) i = true)
        by (apply B2; lia).
      rewrite row_fits_spec in Hf. destruct (Hf j) as [F | F];
        [lia | contradiction | exact F]. }
  destruct (store_row_spec tokens 0 row i (Z.of_nat st + 1)
              (tcheck t1) (tnext t1)) as (S1 & S2 & S3 & S4);
    [lia | exact G3 |].
  destruct (store_row tokens 0 row i (Z.of_nat st + 1) (tcheck t1) (tnext t1))
    as [check next] eqn:Es.
  cbn [fst snd] in S1, S2, S3, S4.
  set (cnt := if (tcount t1 <? i + tokens)%nat then (i + tokens)%nat
              else tcount t1).
  assert (Hcnt : (tcount t1 <= cnt /\ i + tokens <= cnt /\
                  cnt <= length (tcheck t1))%nat).
  { subst cnt. destruct (Nat.ltb_spec (tcount t1) (i + tokens)); lia. }
  (* a cell is either one of the new entries or as it was *)
  assert (Hcell : forall k,
             (exists j, (j < tokens)%nat /\ cell row j <> 0 /\
                        k = (i + j)%nat /\
                        cell check k = Z.of_nat st + 1 /\
                        cell next k = cell row j /\
                        cell (tcheck t) k = 0) \/
             (cell check k = cell (tcheck t) k /\
              cell next k = cell (tnext t) k /\
              forall j, (j < tokens)%nat -> cell row j <> 0 ->
                        k <> (i + j)%nat)).
  { intros k.
    destruct (le_lt_dec i k) as [Hik | Hik];
      [destruct (le_lt_dec (i + tokens) k) as [Hik' | Hik'] |].
    - right. destruct (S4 k) as [E1 E2]; [intros j Hj _; lia |].
      rewrite E1, E2, G6, G7. repeat split; auto. intros j Hj _. lia.
    - destruct (Z.eq_dec (cell row (k - i)) 0) as [Hz | Hnz].
      + right. destruct (S4 k) as [E1 E2].
        { intros j Hj Hn ->. apply Hn.
          replace (i + j - i)%nat with j in Hz by lia. exact Hz. }
        rewrite E1, E2, G6, G7. repeat split; auto.
        intros j Hj Hn ->. apply Hn.
        replace (i + j - i)%nat with j in Hz by lia. exact Hz.
      + left. exists (k - i)%nat.
        destruct (S3 (k - i)%nat) as [E1 E2]; [lia | exact Hnz |].
        replace (i + (k - i))%nat with k in * by lia.
        repeat split; try assumption; try lia.
        rewrite <- G6. replace k with (i + (k - i))%nat by lia.
        apply Hfit; [lia | exact Hnz].
    - right. destruct (S4 k) as [E1 E2]; [intros j Hj _; lia |].
      rewrite E1, E2, G6, G7. repeat split; auto. intros j Hj _. lia. }
  split; [| simpl; rewrite length_insert, G1; reflexivity].
  unfold pack_inv. cbn [tbase tcheck tnext tcount].
  rewrite S1, S2.
  assert (Hbase : forall s,
             base_of {| tbase := <[st := i]> (tbase t1); tcheck := check;
                        tnext := next; tcount := cnt |} s =
             if decide (s = st) then i else base_of t s).
  { intros s. rewrite base_of_insert by (rewrite G1; exact Hst).
    destruct (decide (s = st)); [reflexivity |].
    unfold base_of. simpl. rewrite G1. reflexivity. }
  split; [lia |]. split; [reflexivity |]. split; [lia |].
  split; [| split; [| split]].
  - intros k Hk. destruct (Hcell k) as [(j & Hj & _ & -> & _) | (E & _ & _)].
    + lia.
    + rewrite E. apply H4. lia.
  - intros k Hk. destruct (Hcell k) as [(j & Hj & Hn & -> & E & _) | (E & _ & _)].
    + exists st, j. rewrite Hbase. destruct (decide (st = st)); [| congruence].
      repeat split; auto.
    + rewrite E in Hk. destruct (H5 k Hk) as (s & j & Hs & Hj & -> & Hn & Hc).
      exists s, j. rewrite Hbase.
      destruct (decide (s = st)) as [-> | Hne]; [contradiction |].
      rewrite E. repeat split; auto.
  - intros s j [-> | Hs] Hj Hn; rewrite Hbase.
    + destruct (decide (st = st)); [| congruence].
      apply S3; [lia | exact Hn].
    + destruct (decide (s = st)) as [-> | Hne]; [contradiction |].
      destruct (H6 s j Hs Hj Hn) as [C1 C2].
      destruct (Hcell (base_of t s + j)%nat)
        as [(j' & _ & _ & _ & _ & _ & Hz) | (E1 & E2 & _)].
      * rewrite C1 in Hz. lia.
      * rewrite E1, E2. auto.
  - intros s [-> | Hs]; rewrite Hbase.
    + destruct (decide (st = st)); [lia | congruence].
    + destruct (decide (s = st)) as [-> | Hne]; [contradiction |].
      specialize (H7 s Hs). lia.
Qed.
End PackStep.

(** ** The order of insertion *)

Lemma sort_from_perm (n i : nat) (count : list Z) (index : list nat) :
  sort_from n i count index ≡ₚ index.
Proof.
  revert i index. induction n as [| n IH]; intros i index; cbn [sort_from];
    [reflexivity |].
  destruct (index !! i) as [save |] eqn:E; [| reflexivity].
  rewrite IH, shift_insert_perm. cbn [app].
  rewrite Permutation_middle, (take_drop_middle index i save E). reflexivity.
Qed.

Lemma sort_parser_perm (count : list Z) (states : nat) :
  sort_parser count states ≡ₚ seq 0 states.
Proof. apply sort_from_perm. Qed.

(** ** All states *)

Section PackAll.
Variable actions : list (list Z).
Variable tokens : nat.

Let step (t : packed) (state : nat) : packed :=
  compress_parser actions state tokens t.

Lemma pack_fold (l : list nat) (done : nat -> Prop) (t : packed) :
  NoDup l ->
  (forall s, s ∈ l -> ~ done s /\ (s < length (tbase t))%nat) ->
  pack_inv actions tokens done t ->
  pack_inv actions tokens (fun s => s ∈ l \/ done s) (fold_left step l t) /\
  length (tbase (fold_left step l t)) = length (tbase t).
Proof.
  revert done t. induction l as [| st l IH]; intros done t Hnd Hl Hinv.
  - simpl. split; [| reflexivity].
    apply (pack_inv_ext actions tokens done); [| exact Hinv].
    intros s. rewrite elem_of_nil. tauto.
  - apply NoDup_cons in Hnd as [Hst Hnd].
    destruct (Hl st) as [Hnew Hlt]; [left |].
    destruct (compress_parser_inv actions tokens done t st Hinv Hnew Hlt)
      as [Hinv' Hlen'].
    cbn [fold_left]. fold (step t st).
    destruct (IH (fun s => s = st \/ done s) (step t st) Hnd) as [Hres Hlen].
    + intros s Hs. unfold step. rewrite Hlen'.
      destruct (Hl s) as [Hd Hb]; [right; exact Hs |].
      split; [| exact Hb]. intros [-> | Hd']; contradiction.
    + exact Hinv'.
    + split; [| rewrite Hlen; exact Hlen'].
      apply (pack_inv_ext actions tokens
               (fun s => s ∈ l \/ (s = st \/ done s))); [| exact Hres].
      intros s. rewrite elem_of_cons. tauto.
Qed.

Lemma pack_parser_inv (count : list Z) (states : nat) :
  (1 <= tokens)%nat ->
  pack_inv actions tokens (fun s => (s < states)%nat)
    (pack_parser actions count states tokens) /\
  length (tbase (pack_parser actions count states tokens)) = states.
Proof.
  intros Htok. unfold pack_parser.
  pose proof (sort_parser_perm count states) as Hperm.
  set (init := {| tbase := replicate states 0%nat;
                  tcheck := replicate tokens 0; tnext := replicate tokens 0;
                  tcount := 0 |}).
  destruct (pack_fold (sort_parser count states) (fun _ => False) init)
    as [Hinv Hlen].
  - rewrite Hperm. apply NoDup_seq.
  - intros s Hs. rewrite Hperm in Hs. apply elem_of_seq in Hs.
    split; [tauto |]. simpl. rewrite length_replicate. lia.
  - unfold pack_inv, init. cbn [tbase tcheck tnext tcount].
    rewrite !length_replicate.
    split; [lia |]. split; [reflexivity |]. split; [lia |].
    split; [intros k _; apply cell_replicate |].
    split; [intros k Hk; rewrite cell_replicate in Hk; contradiction |].
    split; intros; contradiction.
  - split.
    + apply (pack_inv_ext actions tokens
               (fun s => s ∈ sort_parser count states \/ False));
        [| exact Hinv].
      intros s. rewrite Hperm, elem_of_seq. split; [intros [H | []]; lia | left; lia].
    + transitivity (length (tbase init)); [exact Hlen |].
      simpl. apply length_replicate.
Qed.
End PackAll.

Lemma aref_filler (a : list Z) (i : nat) :
  aref (0 :: a) (Z.of_nat i + 1) = cell a i.
Proof.
  unfold aref, cell.
  destruct (Z.ltb_spec (Z.of_nat i + 1) 0); [lia |].
  replace (Z.to_nat (Z.of_nat i + 1)) with (S i) by lia. reflexivity.
Qed.

(** C1.  After [packtables] has inserted every state of the action
    matrix, the packed tables give the matrix back: for a state and a
    token with a non-zero action the cell [tbase[state] + token] is
    checked for that state and holds the action, for a zero action the
    cell is not checked for that state, and so decoding returns
    [actions[state][token]] for every pair.  The same holds of the base-1
    tables that [tableformat] makes of them, which are the [pbase],
    [pcheck] and [pnext] of the parser. *)
Theorem compress_parser_round_trip
    (actions : list (list Z)) (count : list Z) (states tokens : nat)
    (other : sdt_tables) (s j : nat) :
  (s < states)%nat -> (j < tokens)%nat ->
  let t := pack_parser actions count states tokens in
  let tables := formatted other t in
  let k := (base_of t s + j)%nat in
  let state := Z.of_nat s + 1 in
  let token := Z.of_nat j + 1 in
  (action_at actions s j <> 0 ->
     cell (tcheck t) k = state /\ cell (tnext t) k = action_at actions s j) /\
  (action_at actions s j = 0 -> cell (tcheck t) k <> state) /\
  unpack t s j = action_at actions s j /\
  (action_at actions s j <> 0 ->
     aref (pcheck tables) (aref (pbase tables) state + token) = state /\
     aref (pnext tables) (aref (pbase tables) state + token) =
       action_at actions s j) /\
  (action_at actions s j = 0 ->
     aref (pcheck tables) (aref (pbase tables) state + token) <> state).
Proof.
  intros Hs Hj t tables k state token.
  destruct (pack_parser_inv actions tokens count states) as [Hinv Hlen]; [lia |].
  fold t in Hinv, Hlen.
  destruct Hinv as (H1 & H2 & H3 & H4 & H5 & H6 & H7).
  assert (Hnz : action_at actions s j <> 0 ->
                cell (tcheck t) k = state /\
                cell (tnext t) k = action_at actions s j).
  { intros Hn. apply H6; assumption. }
  assert (Hz : action_at actions s j = 0 -> cell (tcheck t) k <> state).
  { intros Hzero Hc.
    destruct (H5 k) as (s' & j' & Hs' & Hj' & Hk & Hn & Hc'); [subst state; lia |].
    rewrite Hc in Hc'. assert (s' = s) by (subst state; lia). subst s'.
    assert (j' = j) by (subst k; lia). subst j'. contradiction. }
  assert (Hrun : aref (pcheck tables) (aref (pbase tables) state + token) =
                   cell (tcheck t) k /\
                 aref (pnext tables) (aref (pbase tables) state + token) =
                   cell (tnext t) k).
  { subst tables state token. cbn [formatted pbase pcheck pnext].
    rewrite (aref_filler (map Z.of_nat (tbase t)) s).
    destruct (lookup_lt_is_Some_2 (tbase t) s) as [b Hb]; [lia |].
    assert (Hcb : cell (map Z.of_nat (tbase t)) s = Z.of_nat b).
    { unfold cell. change (map Z.of_nat (tbase t)) with (Z.of_nat <$> tbase t).
      rewrite list_lookup_fmap, Hb. reflexivity. }
    rewrite Hcb.
    assert (Hk : k = (b + j)%nat)
      by (subst k; unfold base_of; rewrite Hb; reflexivity).
    replace (Z.of_nat b + (Z.of_nat j + 1)) with (Z.of_nat k + 1) by lia.
    rewrite (aref_filler (take (tcount t) (tcheck t)) k).
    rewrite (aref_filler (take (tcount t) (tnext t)) k).
    specialize (H7 s Hs). unfold base_of in H7. rewrite Hb in H7. simpl in H7.
    rewrite !cell_take by lia. auto. }
  destruct Hrun as [R1 R2]. rewrite R1, R2.
  repeat split; try (apply Hnz; assumption); try (apply Hz; assumption).
  unfold unpack. fold (base_of t s). fold k. fold state.
  destruct (Z.eq_dec (action_at actions s j) 0) as [E | E].
  - destruct (Z.eqb_spec (cell (tcheck t) k) state) as [C | C].
    + exfalso. exact (Hz E C).
    + symmetry. exact E.
  - destruct (Hnz E) as [C1 C2]. rewrite C1, Z.eqb_refl. exact C2.
Qed.

Lemma compress_parser_round_trip_witness :
  (1 < 3)%nat /\ (2 < 4)%nat /\
  unpack (pack_parser sample_actions sample_counts 3 4) 1 2 =
    action_at sample_actions 1 2.
Proof.
  assert (H1 : (1 < 3)%nat) by lia.
  assert (H2 : (2 < 4)%nat) by lia.
  split; [exact H1 |]. split; [exact H2 |].
  destruct (compress_parser_round_trip sample_actions sample_counts 3 4
              accept_cell_tables 1 2 H1 H2) as (_ & _ & H & _).
  exact H.
Defined.

Example pack_parser_sample :
  pack_parser sample_actions sample_counts 3 4 =
    {| tbase := [0; 0; 2]%nat;
       tcheck := [1; 2; 2; 1; 3; 3; 0; 0];
       tnext := [10002; 10003; 3; -10000; -2; -2; 0; 0];
       tcount := 6 |}.
Proof. reflexivity. Qed.

(** ** Error repair values of the states (build_repair) *)

Section RepairValue.
Context (tables : generator).

Lemma complete_past_end it :
  complete tables it = true <-> past_end tables it.
Proof. unfold complete, past_end. apply Nat.leb_le. Qed.

Lemma complete_false it :
  complete tables it = false <->
  (item_dot it < plength (item_production tables it))%nat.
Proof. unfold complete. apply Nat.leb_gt. Qed.

Lemma symtype_eqb_eq a b : symtype_eqb a b = true <-> a = b.
Proof. destruct a, b; simpl; split; congruence. Qed.

Lemma terminal_before it :
  complete tables it = false ->
  symtype_eqb (sym_type (item_symbol tables it)) TERMINAL = true <->
  before_terminal tables it.
Proof.
  intros Hc. unfold before_terminal. rewrite symtype_eqb_eq.
  apply complete_false in Hc. tauto.
Qed.

Lemma not_before_terminal it :
  symtype_eqb (sym_type (item_symbol tables it)) TERMINAL = false ->
  ~ before_terminal tables it.
Proof.
  intros Hf [_ Ht]. apply symtype_eqb_eq in Ht. congruence.
Qed.

(** The scan stops at the first closure item that is complete or has
    the dot before a terminal. *)
Lemma scan_closure_first pre it rest :
  (forall x, x ∈ pre -> ~ past_end tables x /\ ~ before_terminal tables x) ->
  (past_end tables it ->
     scan_closure tables (pre ++ it :: rest) = - Z.of_nat (item_prod it)) /\
  (before_terminal tables it ->
     scan_closure tables (pre ++ it :: rest)
     = sym_token (item_symbol tables it)).
Proof.
  induction pre as [|x pre IH]; intros Hpre.
  - cbn [app scan_closure]. split.
    + intros Hp. apply complete_past_end in Hp. now rewrite Hp.
    + intros Hb. destruct (complete tables it) eqn:Hc.
      * apply complete_past_end in Hc. destruct Hb as [Hlt _].
        unfold past_end in Hc. lia.
      * apply (terminal_before _ Hc) in Hb. now rewrite Hb.
  - cbn [app scan_closure].
    destruct (Hpre x) as [Hx1 Hx2]; [left|].
    destruct (complete tables x) eqn:Hc.
    { apply complete_past_end in Hc. contradiction. }
    destruct (symtype_eqb (sym_type (item_symbol tables x)) TERMINAL) eqn:Ht.
    { apply (terminal_before _ Hc) in Ht. contradiction. }
    apply IH. intros y Hy. apply Hpre. now right.
Qed.

Lemma scan_closure_none items :
  (forall x, x ∈ items -> ~ past_end tables x /\ ~ before_terminal tables x) ->
  scan_closure tables items = 0.
Proof.
  induction items as [|x items IH]; intros Hall; [reflexivity|].
  cbn [scan_closure].
  destruct (Hall x) as [Hx1 Hx2]; [left|].
  destruct (complete tables x) eqn:Hc.
  { apply complete_past_end in Hc. contradiction. }
  destruct (symtype_eqb (sym_type (item_symbol tables x)) TERMINAL) eqn:Ht.
  { apply (terminal_before _ Hc) in Ht. contradiction. }
  apply IH. intros y Hy. apply Hall. now right.
Qed.

Lemma build_repair_cell coll i c :
  option_set (options tables) ERRORREPAIR = true ->
  (0 < i)%nat -> coll !! i = Some c ->
  errortoken_at (build_repair tables coll) i = repair_value tables c.
Proof.
  intros Ho Hi Hc. unfold errortoken_at, build_repair, aref. rewrite Ho.
  destruct (Z.of_nat i <? 0) eqn:Hneg; [lia|].
  rewrite Nat2Z.id.
  rewrite lookup_app_l
    by (rewrite length_imap; eapply lookup_lt_Some; eassumption).
  rewrite list_lookup_imap, Hc. cbn.
  destruct (i =? 0)%nat eqn:Hz; [apply Nat.eqb_eq in Hz; lia|reflexivity].
Qed.

Lemma build_repair_disabled coll i :
  option_set (options tables) ERRORREPAIR = false ->
  errortoken_at (build_repair tables coll) i = 0.
Proof.
  intros Ho. unfold errortoken_at, build_repair, aref. rewrite Ho.
  destruct (Z.of_nat i <? 0); [reflexivity|].
  destruct (replicate (S (length coll)) 0 !! Z.to_nat (Z.of_nat i)) eqn:E;
    [|reflexivity].
  apply lookup_replicate in E. cbn. tauto.
Qed.

End RepairValue.

(** C4.  With error repair selected, the error repair value of a state is
    decided by its first item: the negated production number when the dot
    of that item is at or past the effective length of its production, the
    token of the terminal when the dot is immediately before a terminal,
    and otherwise the value of the first item of the closure of the
    state, in order, that is complete (its negated production number) or
    has the dot before a terminal (the token of that terminal); the value
    is 0 when the closure has no such item. *)
Theorem build_repair_first_item :
  forall (tables : generator) (coll : list configuration) (i : nat)
         (c : configuration) (first : itementry),
    option_set (options tables) ERRORREPAIR = true ->
    (0 < i)%nat ->
    coll !! i = Some c ->
    itemset c !! 0%nat = Some first ->
    let value := errortoken_at (build_repair tables coll) i in
    (past_end tables first -> value = - Z.of_nat (item_prod first)) /\
    (before_terminal tables first ->
       value = sym_token (item_symbol tables first)) /\
    (~ past_end tables first -> ~ before_terminal tables first ->
       (forall pre it rest,
          drop (kernel c) (itemset c) = pre ++ it :: rest ->
          (forall x, x ∈ pre ->
             ~ past_end tables x /\ ~ before_terminal tables x) ->
          (past_end tables it -> value = - Z.of_nat (item_prod it)) /\
          (before_terminal tables it ->
             value = sym_token (item_symbol tables it))) /\
       ((forall x, x ∈ drop (kernel c) (itemset c) ->
           ~ past_end tables x /\ ~ before_terminal tables x) ->
        value = 0)).
Proof.
  intros tables coll i c first Ho Hi Hc Hfirst value.
  assert (Hv : value = repair_value tables c)
    by (apply build_repair_cell; assumption).
  unfold repair_value, item_at in Hv. rewrite Hfirst in Hv. cbn in Hv.
  split; [|split].
  - intros Hp. apply complete_past_end in Hp. now rewrite Hp in Hv.
  - intros Hb. destruct (complete tables first) eqn:Hcf.
    + apply complete_past_end in Hcf. destruct Hb as [Hlt _].
      unfold past_end in Hcf. lia.
    + apply (terminal_before _ _ Hcf) in Hb. now rewrite Hb in Hv.
  - intros Hnp Hnb.
    destruct (complete tables first) eqn:Hcf.
    { apply complete_past_end in Hcf. contradiction. }
    destruct (symtype_eqb (sym_type (item_symbol tables first)) TERMINAL)
      eqn:Ht.
    { apply (terminal_before _ _ Hcf) in Ht. contradiction. }
    split.
    + intros pre it rest Hd Hpre. rewrite Hv, Hd.
      apply scan_closure_first. exact Hpre.
    + intros Hall. rewrite Hv. apply scan_closure_none. exact Hall.
Qed.

Lemma build_repair_first_item_witness :
  option_set (options sample_tables) ERRORREPAIR = true /\
  ~ past_end sample_tables (ITEMSET sample_collection 1 0) /\
  ~ before_terminal sample_tables (ITEMSET sample_collection 1 0) /\
  before_terminal sample_tables (ITEMSET sample_collection 1 1) /\
  errortoken_at (build_repair sample_tables sample_collection) 1 = 2.
Proof.
  assert (Ho : option_set (options sample_tables) ERRORREPAIR = true)
    by reflexivity.
  assert (Hi : (0 < 1)%nat) by lia.
  assert (Hc : sample_collection !! 1%nat
               = Some (COLLECTION sample_collection 1)) by reflexivity.
  assert (Hf : itemset (COLLECTION sample_collection 1) !! 0%nat
               = Some (ITEMSET sample_collection 1 0)) by reflexivity.
  assert (Hnp : ~ past_end sample_tables (ITEMSET sample_collection 1 0))
    by (vm_compute; lia).
  assert (Hnb : ~ before_terminal sample_tables (ITEMSET sample_collection 1 0))
    by (intros [_ Ht]; vm_compute in Ht; discriminate).
  assert (Hb : before_terminal sample_tables (ITEMSET sample_collection 1 1))
    by (split; [vm_compute; lia | reflexivity]).
  split; [exact Ho |]. split; [exact Hnp |]. split; [exact Hnb |].
  split; [exact Hb |].
  destruct (build_repair_first_item sample_tables sample_collection 1
              (COLLECTION sample_collection 1)
              (ITEMSET sample_collection 1 0) Ho Hi Hc Hf)
    as (_ & _ & H).
  destruct (H Hnp Hnb) as [Hscan _].
  destruct (Hscan [] (ITEMSET sample_collection 1 1)
              [ITEMSET sample_collection 1 2] eq_refl) as [_ Hv].
  - intros x Hx. inversion Hx.
  - exact (Hv Hb).
Defined.

Example build_repair_sample :
  build_repair sample_tables sample_collection = [0; 2; 2; 3; 2; 0].
Proof. reflexivity. Qed.

Example build_repair_not_selected :
  build_repair (sample_generator 2) sample_collection = [0; 0; 0; 0; 0; 0].
Proof. reflexivity. Qed.

(** ** Default shiftreduce actions (generate_parser, build_table) *)

Section GotoLoop.
Context (tables : generator).

(** *** What the loop reads of an item *)

Lemma complete_key x y :
  item_key x = item_key y -> complete tables x = complete tables y.
Proof.
  unfold item_key, complete, item_production. intros H.
  injection H as Hp Hd. now rewrite Hp, Hd.
Qed.

Lemma item_symbol_key x y :
  item_key x = item_key y -> item_symbol tables x = item_symbol tables y.
Proof.
  unfold item_key, item_symbol, item_production. intros H.
  injection H as Hp Hd. now rewrite Hp, Hd.
Qed.

Lemma before_token_key t x y :
  item_key x = item_key y -> before_token tables t x = before_token tables t y.
Proof.
  intros H. unfold before_token.
  now rewrite (complete_key x y H), (item_symbol_key x y H).
Qed.

Lemma count_token_key items items' t :
  map item_key items = map item_key items' ->
  forall j count found,
    count_token tables items t j count found
    = count_token tables items' t j count found.
Proof.
  revert items'. induction items as [|x items IH]; intros [|y items'] H;
    try discriminate; [reflexivity|].
  cbn [map] in H.
  assert (Hxy : item_key x = item_key y) by congruence.
  assert (Hrest : map item_key items = map item_key items') by congruence.
  intros j count found. cbn [count_token].
  rewrite (before_token_key t x y Hxy).
  destruct (before_token tables t y); now apply IH.
Qed.

Lemma item_at_key items items' j :
  map item_key items = map item_key items' ->
  item_key (item_at items j) = item_key (item_at items' j).
Proof.
  intros H. unfold item_at.
  assert (E : map item_key items !! j = map item_key items' !! j)
    by now rewrite H.
  rewrite !list_lookup_fmap in E.
  destruct (items !! j), (items' !! j); cbn in E;
    try discriminate; [| reflexivity].
  apply (inj Some) in E. exact E.
Qed.

Lemma shortcut_key items items' t :
  map item_key items = map item_key items' ->
  shortcut tables items t = shortcut tables items' t.
Proof.
  intros H. unfold shortcut.
  rewrite (count_token_key items items' t H).
  destruct (count_token tables items' t 0 0 0) as [count found].
  pose proof (item_at_key items items' found H) as Hk.
  unfold item_production. injection Hk as Hp Hd. now rewrite Hp, Hd.
Qed.

(** *** Counting the items before a token *)

Lemma count_token_none pre l t j count found :
  (forall x, x ∈ pre -> before_token tables t x = false) ->
  count_token tables (pre ++ l) t j count found
  = count_token tables l t (j + length pre) count found.
Proof.
  revert j. induction pre as [|x pre IH]; intros j Hpre.
  - cbn. now rewrite Nat.add_0_r.
  - cbn [app count_token length]. rewrite (Hpre x) by left.
    rewrite IH by (intros y Hy; apply Hpre; now right).
    f_equal. lia.
Qed.

Lemma count_token_only items t it :
  only_item_before tables items t it ->
  exists found,
    count_token tables items t 0 0 0 = (1%nat, found) /\
    item_at items found = it.
Proof.
  intros (pre & rest & -> & Hit & Hoth).
  exists (length pre). split.
  - rewrite count_token_none
      by (intros x Hx; apply Hoth; apply elem_of_app; now left).
    cbn [count_token]. rewrite Hit.
    replace rest with (rest ++ []) by apply app_nil_r.
    rewrite count_token_none
      by (intros x Hx; apply Hoth; apply elem_of_app; now right).
    reflexivity.
  - unfold item_at. now rewrite list_lookup_middle.
Qed.

Lemma shortcut_only items t it :
  option_set (options tables) DEFAULTREDUCE = true ->
  only_item_before tables items t it ->
  dot_before_last tables it ->
  shortcut tables items t = true.
Proof.
  intros Ho Honly Hlast.
  destruct (count_token_only items t it Honly) as (found & Hc & Hf).
  unfold shortcut. rewrite Hc, Hf, Ho. cbn.
  apply Z.eqb_eq. unfold dot_before_last in Hlast. lia.
Qed.

(** The body of the goto loop does nothing for a default shiftreduce. *)
Lemma goto_step_shortcut coll i t :
  shortcut tables (itemset (COLLECTION coll i)) t = true ->
  goto_step tables coll i t = coll.
Proof.
  unfold shortcut, goto_step.
  destruct (count_token tables (itemset (COLLECTION coll i)) t 0 0 0)
    as [count found].
  now intros ->.
Qed.

Lemma count_token_found items t :
  forall j count found,
    let r := count_token tables items t j count found in
    (fst r = count -> snd r = found) /\
    (count <= fst r)%nat /\
    (fst r <> count ->
       exists x, items !! (snd r - j)%nat = Some x /\ (j <= snd r)%nat /\
                 before_token tables t x = true).
Proof.
  induction items as [|x items IH]; intros j count found; cbn zeta.
  - cbn. split; [tauto|]. split; [lia|]. intros H. now contradiction H.
  - cbn [count_token].
    destruct (before_token tables t x) eqn:Hx.
    + destruct (IH (S j) (S count) j) as (H1 & H2 & H3). cbn zeta in *.
      split; [intros E; lia|]. split; [lia|].
      intros _.
      destruct (Nat.eq_dec
                  (fst (count_token tables items t (S j) (S count) j))
                  (S count)) as [E|E].
      * rewrite (H1 E), Nat.sub_diag. exists x. cbn. auto.
      * destruct (H3 E) as (y & Hy & Hle & Hb). exists y.
        split; [|split; [lia | exact Hb]].
        replace (snd (count_token tables items t (S j) (S count) j) - j)%nat
          with (S (snd (count_token tables items t (S j) (S count) j) - S j))
          by lia.
        exact Hy.
    + destruct (IH (S j) count found) as (H1 & H2 & H3). cbn zeta in *.
      split; [exact H1|]. split; [exact H2|].
      intros E. destruct (H3 E) as (y & Hy & Hle & Hb). exists y.
      split; [|split; [lia | exact Hb]].
      replace (snd (count_token tables items t (S j) count found) - j)%nat
        with (S (snd (count_token tables items t (S j) count found) - S j))
        by lia.
      exact Hy.
Qed.

(** When some item has the dot before [t], the item found has. *)
Lemma count_token_positive items t count found :
  count_token tables items t 0 0 0 = (count, found) ->
  (0 < count)%nat ->
  before_token tables t (item_at items found) = true.
Proof.
  intros E Hpos.
  destruct (count_token_found items t 0 0 0) as (_ & _ & H3).
  cbn zeta in H3. rewrite E in H3. cbn [fst snd] in H3.
  destruct H3 as (x & Hx & _ & Hb); [lia|].
  rewrite Nat.sub_0_r in Hx. unfold item_at. now rewrite Hx.
Qed.

(** *** The states generated by the goto loop *)

Local Abbreviation unlinked :=
  (fun x : itementry => tg_state (descendant x) = 0%nat).

Lemma apply_closure_unlinked fuel :
  (forall knl items i,
     Forall unlinked items ->
     Forall unlinked (apply_closure tables fuel knl items i)) /\
  (forall knl items token j,
     Forall unlinked items ->
     Forall unlinked (add_definitions tables fuel knl items token j)).
Proof.
  induction fuel as [|fuel [IHc IHd]]; [split; intros; assumption|].
  split.
  - intros knl items i H. cbn [apply_closure].
    destruct (items !! i) as [it|]; [|assumption].
    apply IHc.
    destruct (negb (complete tables it)
              && symtype_eqb (sym_type (item_symbol tables it)) NONTERMINAL);
      [now apply IHd | assumption].
  - intros knl items token j H. cbn [add_definitions].
    destruct ((j <? PRODCOUNT tables)%nat
              && (sym_token (lhside (PRODUCTION (productions tables) j))
                  =? token)); [|assumption].
    apply IHd.
    destruct (in_closure knl items j); [assumption|].
    assert (Hadd : Forall unlinked
              (items ++ [fresh_item j
                 (skip_epsilon
                    (rhside (PRODUCTION (productions tables) j)) 0)])).
    { apply Forall_app. split; [assumption|].
      apply Forall_singleton. reflexivity. }
    destruct (option_set (options tables) ERRORREPAIR);
      [now apply IHc | assumption].
Qed.

Lemma state_ok_unlinked items knl :
  Forall unlinked items ->
  state_ok tables {| itemset := items; kernel := knl; gotos := [] |}.
Proof.
  intros H. split; cbn.
  - intros x Hx Hd. rewrite Forall_forall in H. now specialize (H x Hx).
  - intros g Hg. inversion Hg.
Qed.

Lemma state_ok_null : state_ok tables null_configuration.
Proof. apply state_ok_unlinked. constructor. Qed.

Lemma COLLECTION_ok coll i :
  Forall (state_ok tables) coll -> state_ok tables (COLLECTION coll i).
Proof.
  intros H. unfold COLLECTION.
  destruct (coll !! i) as [c|] eqn:E; cbn; [|apply state_ok_null].
  eapply Forall_lookup_1; eassumption.
Qed.

Lemma insert_keys (items : list itementry) j it' :
  item_key it' = item_key (item_at items j) ->
  map item_key (<[j := it']> items) = map item_key items.
Proof.
  intros Hk. rewrite list_fmap_insert.
  destruct (items !! j) as [x|] eqn:E.
  - apply list_insert_id. rewrite list_lookup_fmap, E. cbn.
    unfold item_at in Hk. rewrite E in Hk. cbn in Hk. now rewrite Hk.
  - apply list_insert_ge. rewrite length_map.
    now apply lookup_ge_None.
Qed.

Lemma COLLECTION_set_item coll i j it' s :
  COLLECTION (set_item coll i j it') s =
  if decide (s = i /\ (i < length coll)%nat)
  then {| itemset := <[j := it']> (itemset (COLLECTION coll i));
          kernel := kernel (COLLECTION coll i);
          gotos := gotos (COLLECTION coll i) |}
  else COLLECTION coll s.
Proof.
  unfold set_item. destruct (decide (s = i /\ (i < length coll)%nat)) as [[-> Hlt]|Hn].
  - unfold COLLECTION at 1. rewrite list_lookup_insert_eq by exact Hlt.
    reflexivity.
  - unfold COLLECTION at 1 4.
    destruct (decide (s = i)) as [->|Hne].
    + rewrite list_insert_ge by lia. reflexivity.
    + rewrite list_lookup_insert_ne by congruence. reflexivity.
Qed.

Lemma set_item_keys coll i j it' s :
  item_key it' = item_key (ITEMSET coll i j) ->
  map item_key (itemset (COLLECTION (set_item coll i j it') s))
  = map item_key (itemset (COLLECTION coll s)).
Proof.
  intros Hk. rewrite COLLECTION_set_item.
  destruct (decide (s = i /\ (i < length coll)%nat)) as [[-> Hlt]|Hn];
    [|reflexivity].
  cbn. now apply insert_keys.
Qed.

Lemma set_item_ok coll i j it' :
  Forall (state_ok tables) coll ->
  item_key it' = item_key (ITEMSET coll i j) ->
  (tg_state (descendant it') <> 0%nat ->
     tg_state (descendant (ITEMSET coll i j)) <> 0%nat \/
     (complete tables it' = false /\
      shortcut tables (itemset (COLLECTION coll i))
        (sym_token (item_symbol tables it')) = false)) ->
  Forall (state_ok tables) (set_item coll i j it').
Proof.
  intros Hok Hk Hd. unfold set_item. apply Forall_insert; [exact Hok|].
  pose proof (COLLECTION_ok coll i Hok) as [Hitems Hgotos].
  set (c := COLLECTION coll i) in *.
  assert (Hkeys : map item_key (<[j := it']> (itemset c))
                  = map item_key (itemset c))
    by (apply insert_keys; exact Hk).
  split; cbn.
  - intros x Hx Hdx.
    rewrite (shortcut_key _ _ _ Hkeys).
    apply list_elem_of_lookup in Hx as [k Hx].
    destruct (decide (k = j)) as [->|Hne].
    + destruct (itemset c !! j) as [y|] eqn:Ey.
      * rewrite list_lookup_insert_eq in Hx
          by (eapply lookup_lt_Some; eassumption).
        injection Hx as <-.
        assert (Hy : ITEMSET coll i j = y)
          by (unfold ITEMSET; fold c; now rewrite Ey).
        rewrite Hy in Hd, Hk.
        destruct (Hd Hdx) as [Hold|Hnew]; [|exact Hnew].
        rewrite (complete_key _ _ Hk), (item_symbol_key _ _ Hk).
        apply Hitems; [|exact Hold].
        apply list_elem_of_lookup. now exists j.
      * rewrite list_insert_ge in Hx by (now apply lookup_ge_None).
        congruence.
    + rewrite list_lookup_insert_ne in Hx by congruence.
      apply Hitems; [|exact Hdx].
      apply list_elem_of_lookup. now exists k.
  - intros g Hg. rewrite (shortcut_key _ _ _ Hkeys). now apply Hgotos.
Qed.

Lemma set_item_length coll i j it' :
  length (set_item coll i j it') = length coll.
Proof. unfold set_item. apply length_insert. Qed.

Lemma before_token_symbol t x :
  before_token tables t x = true ->
  complete tables x = false /\ sym_token (item_symbol tables x) = t.
Proof.
  unfold before_token. intros H. apply andb_true_iff in H as [Hc Ht].
  apply negb_true_iff in Hc. apply Z.eqb_eq in Ht. now split.
Qed.

Lemma link_items_keys n : forall j k state token i coll s,
  map item_key (itemset (COLLECTION (link_items tables n j k state token i coll) s))
  = map item_key (itemset (COLLECTION coll s)).
Proof.
  induction n as [|n IH]; intros j k state token i coll s; [reflexivity|].
  cbn [link_items].
  destruct (before_token tables token (ITEMSET coll state j)); [|apply IH].
  rewrite IH. rewrite !set_item_keys; reflexivity.
Qed.

Lemma link_items_length n : forall j k state token i coll,
  length (link_items tables n j k state token i coll) = length coll.
Proof.
  induction n as [|n IH]; intros j k state token i coll; [reflexivity|].
  cbn [link_items].
  destruct (before_token tables token (ITEMSET coll state j)); [|apply IH].
  now rewrite IH, !set_item_length.
Qed.

Lemma link_items_ok n : forall j k state token i coll,
  Forall (state_ok tables) coll ->
  shortcut tables (itemset (COLLECTION coll state)) token = false ->
  Forall (state_ok tables) (link_items tables n j k state token i coll).
Proof.
  induction n as [|n IH]; intros j k state token i coll Hok Hs;
    [exact Hok|].
  cbn [link_items].
  destruct (before_token tables token (ITEMSET coll state j)) eqn:Hb;
    [|now apply IH].
  apply before_token_symbol in Hb as [Hc Ht].
  apply IH.
  - apply set_item_ok.
    + apply set_item_ok; [exact Hok | reflexivity |].
      intros _. right. split; [exact Hc|]. cbn.
      change (item_symbol tables
                (set_descendant (ITEMSET coll state j)
                   {| tg_state := i; tg_item := k |}))
        with (item_symbol tables (ITEMSET coll state j)).
      now rewrite Ht.
    + reflexivity.
    + intros Hd. now left.
  - erewrite shortcut_key; [| apply set_item_keys; reflexivity].
    erewrite shortcut_key; [| apply set_item_keys; reflexivity].
    exact Hs.
Qed.

Lemma COLLECTION_app_l coll c s :
  (s < length coll)%nat -> COLLECTION (coll ++ [c]) s = COLLECTION coll s.
Proof. intros H. unfold COLLECTION. now rewrite lookup_app_l. Qed.

Lemma lookup_goto_length coll state token :
  (length coll <= length (fst (lookup_goto tables coll state token)))%nat.
Proof.
  unfold lookup_goto. cbn [fst]. rewrite link_items_length.
  destruct (length coll <=? _)%nat; [rewrite length_app; lia | lia].
Qed.

Lemma lookup_goto_keys coll state token s :
  (s < length coll)%nat ->
  map item_key (itemset (COLLECTION (fst (lookup_goto tables coll state token)) s))
  = map item_key (itemset (COLLECTION coll s)).
Proof.
  intros Hs. unfold lookup_goto. cbn [fst]. rewrite link_items_keys.
  destruct (length coll <=? _)%nat; [|reflexivity].
  now rewrite COLLECTION_app_l.
Qed.

Lemma lookup_goto_ok coll state token :
  Forall (state_ok tables) coll ->
  (state < length coll)%nat ->
  shortcut tables (itemset (COLLECTION coll state)) token = false ->
  Forall (state_ok tables) (fst (lookup_goto tables coll state token)).
Proof.
  intros Hok Hlt Hs. unfold lookup_goto. cbn [fst].
  apply link_items_ok.
  - destruct (length coll <=? _)%nat; [|exact Hok].
    apply Forall_app. split; [exact Hok|]. apply Forall_singleton.
    apply state_ok_unlinked.
    apply (proj1 (apply_closure_unlinked _)).
    unfold goto_kernel. apply Forall_fmap, Forall_forall.
    intros x _. reflexivity.
  - destruct (length coll <=? _)%nat; [|exact Hs].
    now rewrite COLLECTION_app_l.
Qed.

Lemma add_goto_ok coll i g :
  Forall (state_ok tables) coll ->
  shortcut tables (itemset (COLLECTION coll i)) (goto_token g) = false ->
  Forall (state_ok tables) (add_goto coll i g).
Proof.
  intros Hok Hs. unfold add_goto. apply Forall_insert; [exact Hok|].
  pose proof (COLLECTION_ok coll i Hok) as [Hitems Hgotos].
  split; cbn; [exact Hitems|].
  intros h Hh. apply elem_of_app in Hh as [Hh|Hh]; [now apply Hgotos|].
  apply list_elem_of_singleton in Hh. now subst h.
Qed.

Lemma goto_step_length coll i token :
  (length coll <= length (goto_step tables coll i token))%nat.
Proof.
  unfold goto_step.
  destruct (count_token tables _ token 0 0 0) as [count found].
  destruct (_ && _ && _); [lia|].
  destruct (0 <? count)%nat; [|lia].
  pose proof (lookup_goto_length coll i token) as H.
  destruct (lookup_goto tables coll i token) as [coll1 st]. cbn [fst] in H.
  unfold add_goto. rewrite length_insert. exact H.
Qed.

Lemma goto_step_ok coll i token :
  Forall (state_ok tables) coll ->
  (i < length coll)%nat ->
  Forall (state_ok tables) (goto_step tables coll i token).
Proof.
  intros Hok Hlt.
  pose proof (lookup_goto_ok coll i token Hok Hlt) as Hl.
  pose proof (lookup_goto_keys coll i token i Hlt) as Hk.
  unfold goto_step. unfold shortcut in Hl.
  destruct (count_token tables (itemset (COLLECTION coll i)) token 0 0 0)
    as [count found] eqn:Ec.
  destruct (_ && _ && _) eqn:Hs; [exact Hok|].
  destruct (0 <? count)%nat eqn:Hpos; [|exact Hok].
  apply Nat.ltb_lt in Hpos.
  destruct (lookup_goto tables coll i token) as [coll1 st]. cbn [fst] in *.
  apply add_goto_ok; [now apply Hl|]. cbn [goto_token].
  apply (count_token_positive _ _ _ _ Ec) in Hpos.
  apply before_token_symbol in Hpos as [_ ->].
  rewrite (shortcut_key _ _ _ Hk). unfold shortcut. now rewrite Ec.
Qed.

Lemma goto_tokens_ok n : forall token i coll,
  Forall (state_ok tables) coll ->
  (i < length coll)%nat ->
  Forall (state_ok tables) (goto_tokens tables n token i coll).
Proof.
  induction n as [|n IH]; intros token i coll Hok Hlt; [exact Hok|].
  cbn [goto_tokens]. apply IH; [now apply goto_step_ok|].
  pose proof (goto_step_length coll i token). lia.
Qed.

Lemma goto_states_ok fuel : forall i coll,
  Forall (state_ok tables) coll ->
  Forall (state_ok tables) (goto_states tables fuel i coll).
Proof.
  induction fuel as [|fuel IH]; intros i coll Hok; [exact Hok|].
  cbn [goto_states].
  destruct (i <? length coll)%nat eqn:Hlt; [|exact Hok].
  apply Nat.ltb_lt in Hlt. apply IH. now apply goto_tokens_ok.
Qed.

Lemma initial_collection_ok :
  Forall (state_ok tables) (initial_collection tables).
Proof.
  unfold initial_collection.
  apply Forall_cons. split; [apply state_ok_null|].
  apply Forall_singleton. apply state_ok_unlinked.
  apply (proj1 (apply_closure_unlinked _)).
  apply Forall_singleton. reflexivity.
Qed.

End GotoLoop.

(** *** The row of a state in the action table *)

Section ActionRow.
Context (tables : generator).

Lemma set_action_length row token a :
  length (fst (set_action row token a)) = length row.
Proof.
  unfold set_action.
  destruct (negb (aref row token =? 0) && negb (aref row token =? a));
    cbn [fst]; [reflexivity | apply length_insert].
Qed.

Lemma aref_insert_ne row (k : nat) a t :
  0 <= t -> k <> Z.to_nat t -> aref (<[k := a]> row) t = aref row t.
Proof.
  intros Ht Hne. unfold aref.
  destruct (t <? 0); [reflexivity|].
  now rewrite list_lookup_insert_ne.
Qed.

Lemma aref_insert_eq row a t :
  0 <= t -> (Z.to_nat t < length row)%nat ->
  aref (<[Z.to_nat t := a]> row) t = a.
Proof.
  intros Ht Hlt. unfold aref.
  destruct (t <? 0) eqn:E; [lia|].
  now rewrite list_lookup_insert_eq.
Qed.

(** [set_action] leaves the entries of the other tokens alone. *)
Lemma set_action_other row token a t :
  0 < t -> token <> t ->
  aref (fst (set_action row token a)) t = aref row t.
Proof.
  intros Ht Hne. unfold set_action.
  destruct (negb (aref row token =? 0) && negb (aref row token =? a));
    cbn [fst]; [reflexivity|].
  apply aref_insert_ne; lia.
Qed.

(** [set_action] never replaces an entry that is set. *)
Lemma set_action_keeps row token a t :
  0 < t -> aref row t <> 0 ->
  aref (fst (set_action row token a)) t = aref row t.
Proof.
  intros Ht Hnz.
  destruct (Z.eq_dec token t) as [->|Hne];
    [|now apply set_action_other].
  unfold set_action.
  destruct (aref row t =? 0) eqn:E0; [apply Z.eqb_eq in E0; contradiction|].
  destruct (aref row t =? a) eqn:Ea; cbn [negb andb fst]; [|reflexivity].
  apply Z.eqb_eq in Ea.
  destruct (decide (Z.to_nat t < length row)%nat) as [Hlt|Hge].
  - rewrite aref_insert_eq by lia. congruence.
  - now rewrite list_insert_ge by lia.
Qed.

Lemma set_action_free row a t :
  0 < t -> (Z.to_nat t < length row)%nat -> aref row t = 0 ->
  aref (fst (set_action row t a)) t = a.
Proof.
  intros Ht Hlt Hz. unfold set_action. rewrite Hz. cbn [Z.eqb negb andb fst].
  apply aref_insert_eq; lia.
Qed.

Lemma shift_item_length row x :
  length (shift_item tables row x) = length row.
Proof.
  unfold shift_item.
  destruct (negb _); [apply set_action_length|].
  destruct (negb _); [apply set_action_length | reflexivity].
Qed.

Lemma shift_item_keeps row x t :
  0 < t -> aref row t <> 0 ->
  aref (shift_item tables row x) t = aref row t.
Proof.
  intros Ht Hnz. unfold shift_item.
  destruct (negb _); [now apply set_action_keeps|].
  destruct (negb _); [now apply set_action_keeps | reflexivity].
Qed.

(** An item with the dot elsewhere does not write the entry of [t]. *)
Lemma shift_item_other row x t :
  0 < t ->
  (tg_state (descendant x) <> 0%nat -> complete tables x = false) ->
  before_token tables t x = false ->
  aref (shift_item tables row x) t = aref row t.
Proof.
  intros Ht Hd Hb. unfold shift_item, before_token in *.
  destruct (tg_state (descendant x) =? 0)%nat eqn:E; cbn [negb].
  - destruct (complete tables x) eqn:Hc; cbn [negb] in *; [reflexivity|].
    apply set_action_other; [exact Ht|].
    apply Z.eqb_neq. exact Hb.
  - apply Nat.eqb_neq in E. rewrite (Hd E) in Hb. cbn [negb andb] in Hb.
    apply set_action_other; [exact Ht|]. now apply Z.eqb_neq.
Qed.

Lemma shift_pass_length items : forall row,
  length (fold_left (shift_item tables) items row) = length row.
Proof.
  induction items as [|x items IH]; intros row; [reflexivity|].
  cbn [fold_left]. now rewrite IH, shift_item_length.
Qed.

Lemma shift_pass_keeps items t : forall row,
  0 < t -> aref row t <> 0 ->
  aref (fold_left (shift_item tables) items row) t = aref row t.
Proof.
  induction items as [|x items IH]; intros row Ht Hnz; [reflexivity|].
  cbn [fold_left].
  rewrite IH; [now apply shift_item_keeps | exact Ht |].
  now rewrite shift_item_keeps.
Qed.

Lemma shift_pass_other items t : forall row,
  0 < t ->
  (forall x, x ∈ items ->
     (tg_state (descendant x) <> 0%nat -> complete tables x = false) /\
     before_token tables t x = false) ->
  aref (fold_left (shift_item tables) items row) t = aref row t.
Proof.
  induction items as [|x items IH]; intros row Ht Hall; [reflexivity|].
  cbn [fold_left].
  rewrite IH; [| exact Ht | intros y Hy; apply Hall; now right].
  destruct (Hall x) as [Hd Hb]; [left|].
  now apply shift_item_other.
Qed.

Lemma reduce_item_keeps x t : forall acc,
  0 < t -> aref (fst acc) t <> 0 ->
  aref (fst (reduce_item tables acc x)) t = aref (fst acc) t.
Proof.
  intros acc Ht Hnz. unfold reduce_item.
  destruct (complete tables x); [|reflexivity].
  revert acc Hnz.
  induction (cells (lookahead x)) as [|sym syms IH]; intros acc Hnz;
    [reflexivity|].
  cbn [fold_left].
  destruct (set_action (fst acc) (sym_token sym) (- Z.of_nat (item_prod x)))
    as [row r] eqn:E.
  assert (Hrow : aref row t = aref (fst acc) t).
  { change row with (fst (row, r)). rewrite <- E.
    now apply set_action_keeps. }
  rewrite IH; cbn [fst]; [exact Hrow | now rewrite Hrow].
Qed.

Lemma reduce_pass_keeps items t : forall acc,
  0 < t -> aref (fst acc) t <> 0 ->
  aref (fst (fold_left (reduce_item tables) items acc)) t = aref (fst acc) t.
Proof.
  induction items as [|x items IH]; intros acc Ht Hnz; [reflexivity|].
  cbn [fold_left].
  rewrite IH; [now apply reduce_item_keeps | exact Ht |].
  now rewrite reduce_item_keeps.
Qed.

Lemma aref_replicate n t : aref (replicate n 0) t = 0.
Proof.
  unfold aref. destruct (t <? 0); [reflexivity|].
  destruct (replicate n 0 !! Z.to_nat t) eqn:E; [|reflexivity].
  apply lookup_replicate in E. cbn. tauto.
Qed.

(** The entry of a default shiftreduce in the row of its state. *)
Lemma build_row_shiftreduce goal i c t it pre rest :
  1 <= t <= termcount tables -> termcount tables < goal ->
  0 <= nontermcount tables ->
  (0 < item_prod it)%nat ->
  itemset c = pre ++ it :: rest ->
  before_token tables t it = true ->
  tg_state (descendant it) = 0%nat ->
  (forall x, x ∈ pre ->
     (tg_state (descendant x) <> 0%nat -> complete tables x = false) /\
     before_token tables t x = false) ->
  row_entry (build_row tables goal i c) t = Z.of_nat (item_prod it).
Proof.
  intros Ht Hgoal Hn Hprod Hitems Hb Hd Hpre.
  unfold row_entry, build_row.
  set (row0 := replicate (S (token_count tables)) 0).
  set (row1 := if (i =? 1)%nat then fst (set_action row0 goal ACCEPT_OFFSET)
               else row0).
  assert (Hlen1 : length row1 = S (token_count tables)).
  { unfold row1. destruct (i =? 1)%nat.
    - rewrite set_action_length. apply length_replicate.
    - apply length_replicate. }
  assert (Hz1 : aref row1 t = 0).
  { unfold row1. destruct (i =? 1)%nat.
    - rewrite set_action_other by lia. apply aref_replicate.
    - apply aref_replicate. }
  assert (Hshift : aref (fold_left (shift_item tables) (itemset c) row1) t
                   = Z.of_nat (item_prod it)).
  { rewrite Hitems, fold_left_app. cbn [fold_left].
    set (rowp := fold_left (shift_item tables) pre row1).
    assert (Hzp : aref rowp t = 0)
      by (unfold rowp; rewrite shift_pass_other by (lia || exact Hpre);
          exact Hz1).
    assert (Hlenp : length rowp = S (token_count tables))
      by (unfold rowp; now rewrite shift_pass_length).
    assert (Hit : aref (shift_item tables rowp it) t
                  = Z.of_nat (item_prod it)).
    { apply before_token_symbol in Hb as [Hc Hs].
      unfold shift_item. rewrite Hd, Hc, Hs. cbn [Nat.eqb negb].
      apply set_action_free; [lia | | exact Hzp].
      rewrite Hlenp. unfold token_count. lia. }
    rewrite shift_pass_keeps; [exact Hit | lia |].
    rewrite Hit. lia. }
  rewrite reduce_pass_keeps; cbn [fst]; [exact Hshift | lia |].
  rewrite Hshift. lia.
Qed.

Lemma reduce_item_length x : forall acc,
  length (fst (reduce_item tables acc x)) = length (fst acc).
Proof.
  intros acc. unfold reduce_item.
  destruct (complete tables x); [|reflexivity].
  revert acc.
  induction (cells (lookahead x)) as [|sym syms IH]; intros acc;
    [reflexivity|].
  cbn [fold_left].
  destruct (set_action (fst acc) (sym_token sym) (- Z.of_nat (item_prod x)))
    as [row r] eqn:E.
  rewrite IH. cbn [fst]. change row with (fst (row, r)). rewrite <- E.
  apply set_action_length.
Qed.

Lemma reduce_pass_length items : forall acc,
  length (fst (fold_left (reduce_item tables) items acc))
  = length (fst acc).
Proof.
  induction items as [|x items IH]; intros acc; [reflexivity|].
  cbn [fold_left]. now rewrite IH, reduce_item_length.
Qed.

Lemma build_row_length goal i c :
  length (fst (build_row tables goal i c)) = S (token_count tables).
Proof.
  unfold build_row.
  set (row1 := if (i =? 1)%nat then _ else _).
  assert (Hlen1 : length row1 = S (token_count tables)).
  { unfold row1. destruct (i =? 1)%nat.
    - rewrite set_action_length. apply length_replicate.
    - apply length_replicate. }
  rewrite reduce_pass_length. cbn [fst].
  now rewrite shift_pass_length.
Qed.

(** *** The resolution of shift-reduce conflicts *)

Lemma find_before_token items t x :
  List.find (before_token tables t) items = Some x ->
  sym_token (item_symbol tables x) = t.
Proof.
  intros H. apply find_some in H as [_ H].
  now apply before_token_symbol in H as [_ H].
Qed.

(** [set_ambiguity] writes the entry of its token only, and writes the
    reduce by its item there. *)
Lemma set_ambiguity_spec items row it token rp sp assoc t :
  0 < t -> (Z.to_nat t < length row)%nat ->
  let row' := set_ambiguity tables items row it token rp sp assoc in
  length row' = length row /\
  (aref row' t = aref row t \/
   (token = t /\ aref row' t = - Z.of_nat (item_prod it))).
Proof.
  intros Ht Hlen row'. unfold row', set_ambiguity.
  destruct (List.find (before_token tables token) items) as [x|] eqn:E;
    [|now split; [|left]].
  apply find_before_token in E. rewrite E.
  destruct (sp <? rp); [now split; [|left]|].
  destruct ((rp <? sp) || (assoc =? LEFT)); [|now split; [|left]].
  split; [apply length_insert|].
  destruct (Z.eq_dec token t) as [->|Hne].
  - right. split; [reflexivity|]. apply aref_insert_eq; [lia | exact Hlen].
  - left. apply aref_insert_ne; lia.
Qed.

(** The entry of [t] in the row of a state after [resolve_ambiguity] is
    the entry before it, or the reduce by a complete item of the state
    that has [t] in its lookahead set. *)
Lemma resolve_symbols_spec items x t v rp syms : forall acc,
  0 < t -> (Z.to_nat t < length (fst acc))%nat -> x ∈ items ->
  complete tables x = true ->
  (forall s, s ∈ syms -> s ∈ cells (lookahead x)) ->
  (aref (fst acc) t = v \/
   exists y, reduce_on tables items t y /\
             aref (fst acc) t = - Z.of_nat (item_prod y)) ->
  let acc' :=
    fold_left
      (fun (a : list Z * bool) (s : symbolentry) =>
         let '(shiftprec, associativity) :=
           shift_precedence tables items (sym_token s) in
         (set_ambiguity tables items (fst a) x (sym_token s) rp
            shiftprec associativity,
          snd a || ((rp =? shiftprec) && (associativity =? NONE))))
      syms acc in
  length (fst acc') = length (fst acc) /\
  (aref (fst acc') t = v \/
   exists y, reduce_on tables items t y /\
             aref (fst acc') t = - Z.of_nat (item_prod y)).
Proof.
  induction syms as [|s syms IH]; intros acc Ht Hlen Hx Hc Hsyms Hv;
    [split; [reflexivity | exact Hv]|].
  cbn [fold_left].
  destruct (shift_precedence tables items (sym_token s)) as [sp assoc].
  destruct (set_ambiguity_spec items (fst acc) x (sym_token s) rp sp assoc
              t Ht Hlen) as [Hl Hr].
  cbv zeta in Hl, Hr.
  match goal with
  | |- context [fold_left ?f syms ?a] =>
      destruct (IH a Ht) as [Hl' Hr']
  end.
  - cbn [fst]. now rewrite Hl.
  - exact Hx.
  - exact Hc.
  - intros s' Hs'. apply Hsyms. now right.
  - cbn [fst]. destruct Hr as [E|[Et E]].
    + rewrite E. exact Hv.
    + right. exists x. split; [|exact E].
      split; [exact Hx|]. split; [exact Hc|].
      exists s. split; [apply Hsyms; left | exact Et].
  - split; [|exact Hr']. rewrite Hl'. cbn [fst]. exact Hl.
Qed.

Lemma resolve_item_spec items x t v : forall acc,
  0 < t -> (Z.to_nat t < length (fst acc))%nat -> x ∈ items ->
  (aref (fst acc) t = v \/
   exists y, reduce_on tables items t y /\
             aref (fst acc) t = - Z.of_nat (item_prod y)) ->
  let acc' := resolve_item tables items acc x in
  length (fst acc') = length (fst acc) /\
  (aref (fst acc') t = v \/
   exists y, reduce_on tables items t y /\
             aref (fst acc') t = - Z.of_nat (item_prod y)).
Proof.
  intros acc Ht Hlen Hx Hv acc'. unfold acc', resolve_item. clear acc'.
  destruct (complete tables x) eqn:Hc; cbn [andb]; [|now split].
  destruct (collides (fst acc) x); [|now split].
  destruct (0 <=? reduce_precedence tables x); [|now split].
  apply (resolve_symbols_spec items x t v); auto.
Qed.

Lemma resolve_ambiguity_spec items row t :
  0 < t -> (Z.to_nat t < length row)%nat ->
  aref (fst (resolve_ambiguity tables items row)) t = aref row t \/
  exists y, reduce_on tables items t y /\
            aref (fst (resolve_ambiguity tables items row)) t
            = - Z.of_nat (item_prod y).
Proof.
  intros Ht Hlen. unfold resolve_ambiguity.
  destruct (option_set (options tables) AMBIGUOUS); [|now left].
  assert (H : forall l acc,
            (forall x, x ∈ l -> x ∈ items) ->
            (Z.to_nat t < length (fst acc))%nat ->
            (aref (fst acc) t = aref row t \/
             exists y, reduce_on tables items t y /\
                       aref (fst acc) t = - Z.of_nat (item_prod y)) ->
            let acc' := fold_left (resolve_item tables items) l acc in
            aref (fst acc') t = aref row t \/
            exists y, reduce_on tables items t y /\
                      aref (fst acc') t = - Z.of_nat (item_prod y)).
  { induction l as [|x l IH]; intros acc Hl Hlen' Hv; [exact Hv|].
    cbn [fold_left].
    destruct (resolve_item_spec items x t (aref row t) acc Ht Hlen'
                ltac:(apply Hl; left) Hv) as [Hl1 Hv1].
    cbv zeta in Hl1, Hv1.
    apply IH; [intros y Hy; apply Hl; now right | now rewrite Hl1 |
               exact Hv1]. }
  specialize (H items (row, false) ltac:(auto) Hlen ltac:(now left)).
  cbv zeta in H.
  destruct (fold_left (resolve_item tables items) items (row, false))
    as [row' failure].
  exact H.
Qed.

(** The entry of a token that no reduce is in conflict on is the one
    of the shift and reduce passes. *)
Lemma table_row_spec goal i c t :
  0 < t <= termcount tables -> 0 <= nontermcount tables ->
  row_entry (table_row tables goal i c) t
  = row_entry (build_row tables goal i c) t \/
  exists y, reduce_on tables (itemset c) t y /\
            row_entry (table_row tables goal i c) t
            = - Z.of_nat (item_prod y).
Proof.
  intros Ht Hn. unfold table_row, row_entry.
  pose proof (build_row_length goal i c) as Hlen.
  destruct (build_row tables goal i c) as [row result].
  cbn [fst] in *.
  destruct (negb (Z.land result SHIFT_REDUCE_ERROR =? 0)); [|now left].
  apply resolve_ambiguity_spec; [lia|].
  rewrite Hlen. unfold token_count. lia.
Qed.
End ActionRow.

(** ** Items with other lookahead sets *)

(** The production, the dot and the descendant of an item: what the goto
    loop and the shift pass read of it. *)
Lemma set_lookaheads_keys items : forall ls,
  Forall2 (fun x y => item_key y = item_key x /\ descendant y = descendant x)
    items (set_lookaheads items ls).
Proof.
  induction items as [|x items IH]; intros ls; [constructor|].
  destruct ls as [|l ls]; cbn [set_lookaheads].
  - apply Forall2_same_length_lookup. split; [reflexivity|].
    intros i a b Ha Hb. rewrite Ha in Hb. injection Hb as <-. now split.
  - constructor; [now split | apply IH].
Qed.

Lemma same_key_before tables t x y :
  item_key y = item_key x ->
  before_token tables t y = before_token tables t x /\
  complete tables y = complete tables x /\ item_prod y = item_prod x.
Proof.
  unfold item_key. intros E. injection E as Ep Ed.
  unfold before_token, complete, item_symbol, item_production.
  now rewrite Ep, Ed.
Qed.

(** C6 (as amended).  With default shiftreduce actions selected, consider
    any state of the collection the goto loop has generated, with any
    lookahead sets for its items, and a terminal [t] such that exactly
    one item of the state has the dot immediately before [t], at the
    effective length of its production minus one.  Then the goto loop
    generates nothing for the state and [t], no goto on [t] is recorded
    for the state, the item has no descendant, and the shift and reduce
    passes of [build_table] leave the production number, the code of a
    shiftreduce, in the entry of the state for [t].  The entry is still
    there when the loop of [build_table] is done with the state, unless a
    complete item of the state has a symbol of token [t] in its lookahead
    set: then [resolve_ambiguity] may have put the reduce by such an item
    in its place. *)
Theorem default_shiftreduce_selected :
  forall (tables : generator) (fuel : nat) (goal : Z) (i : nat)
         (c : configuration) (ls : list symbolset) (t : Z) (it : itementry),
    option_set (options tables) DEFAULTREDUCE = true ->
    goto_states tables fuel 1 (initial_collection tables) !! i = Some c ->
    1 <= t <= termcount tables -> termcount tables < goal ->
    0 <= nontermcount tables ->
    (0 < item_prod it)%nat ->
    only_item_before tables (itemset c) t it ->
    dot_before_last tables it ->
    let state := with_lookaheads c ls in
    goto_step tables (goto_states tables fuel 1 (initial_collection tables)) i t
    = goto_states tables fuel 1 (initial_collection tables) /\
    (forall g, g ∈ gotos state -> goto_token g <> t) /\
    tg_state (descendant it) = 0%nat /\
    row_entry (build_row tables goal i state) t = Z.of_nat (item_prod it) /\
    ((forall x, ~ reduce_on tables (itemset state) t x) ->
     row_entry (table_row tables goal i state) t = Z.of_nat (item_prod it)) /\
    (row_entry (table_row tables goal i state) t = Z.of_nat (item_prod it) \/
     exists x, reduce_on tables (itemset state) t x /\
               row_entry (table_row tables goal i state) t
               = - Z.of_nat (item_prod x)).
Proof.
  intros tables fuel goal i c ls t it Ho Hc Ht Hgoal Hn Hprod Honly Hlast
         state.
  set (coll := goto_states tables fuel 1 (initial_collection tables)) in *.
  assert (Hok : Forall (state_ok tables) coll)
    by (apply goto_states_ok, initial_collection_ok).
  assert (Hcok : state_ok tables c)
    by (eapply Forall_lookup_1; eassumption).
  pose proof (shortcut_only tables _ _ _ Ho Honly Hlast) as Hs.
  destruct Hcok as [Hitems Hgotos].
  destruct Honly as (pre & rest & Hsplit & Hb & Hoth).
  assert (Hin : it ∈ itemset c)
    by (rewrite Hsplit; apply elem_of_app; right; left).
  assert (Hd : tg_state (descendant it) = 0%nat).
  { destruct (Nat.eq_dec (tg_state (descendant it)) 0%nat) as [E|E]; [exact E|].
    destruct (Hitems it Hin E) as [_ Hf].
    apply (before_token_symbol tables) in Hb as [_ Hsym].
    rewrite Hsym in Hf. congruence. }
  assert (Hrow : row_entry (build_row tables goal i state) t
                 = Z.of_nat (item_prod it)).
  { pose proof (set_lookaheads_keys (itemset c) ls) as Hkeys.
    rewrite Hsplit in Hkeys at 1.
    apply Forall2_app_inv_l in Hkeys as (pre' & k2 & Hpre & Hk2 & Esplit).
    apply Forall2_cons_inv_l in Hk2 as (it' & rest' & [Kit Dit] & Hrest & ->).
    destruct (same_key_before tables t it it' Kit) as (Bit & _ & Pit).
    rewrite <- Pit.
    apply (build_row_shiftreduce tables goal i state t it' pre' rest');
      try assumption.
    - lia.
    - now rewrite Bit.
    - now rewrite Dit.
    - intros x' Hx'. apply list_elem_of_lookup in Hx' as [k Hk].
      destruct (Forall2_lookup_r _ _ _ _ _ Hpre Hk) as (x & Hx & Kx & Dx).
      destruct (same_key_before tables t x x' Kx) as (Bx & Cx & _).
      assert (Hxin : x ∈ itemset c).
      { rewrite Hsplit. apply elem_of_app. left.
        apply list_elem_of_lookup. eauto. }
      rewrite Bx, Cx, Dx. split.
      + intros E. now destruct (Hitems x Hxin E).
      + apply Hoth. apply elem_of_app. left.
        apply list_elem_of_lookup. eauto. }
  split; [|split; [|split; [|split; [|split]]]].
  - apply goto_step_shortcut.
    assert (E : COLLECTION coll i = c) by (unfold COLLECTION; now rewrite Hc).
    now rewrite E.
  - intros g Hg Heq. specialize (Hgotos g Hg). rewrite Heq in Hgotos.
    congruence.
  - exact Hd.
  - exact Hrow.
  - intros Hnone.
    destruct (table_row_spec tables goal i state t ltac:(lia) Hn)
      as [E|(y & Hy & _)]; [now rewrite E | now destruct (Hnone y)].
  - destruct (table_row_spec tables goal i state t ltac:(lia) Hn)
      as [E|(y & Hy & E)]; [left; now rewrite E | right; now exists y].
Qed.

Lemma sample_only_item_before (tables : generator) (coll : list configuration) :
  forall a b c : itementry,
    itemset (COLLECTION coll 1) = [a; b; c] ->
    before_token tables 2 a = false ->
    before_token tables 2 b = true ->
    before_token tables 2 c = false ->
    only_item_before tables (itemset (COLLECTION coll 1)) 2 b.
Proof.
  intros a b c E Ha Hb Hc. exists [a], [c]. split; [exact E|].
  split; [exact Hb|].
  intros x Hx. apply list_elem_of_In in Hx.
  destruct Hx as [<-|[<-|[]]]; assumption.
Qed.

Lemma default_shiftreduce_selected_witness :
  option_set (options sample_tables) DEFAULTREDUCE = true /\
  only_item_before sample_tables (itemset (COLLECTION sample_collection 1)) 2
    (ITEMSET sample_collection 1 1) /\
  dot_before_last sample_tables (ITEMSET sample_collection 1 1) /\
  (forall g, g ∈ gotos (COLLECTION sample_collection 1) -> goto_token g <> 2) /\
  row_entry (build_row sample_tables 4 1
               (with_lookaheads (COLLECTION sample_collection 1)
                  [syms_ab; syms_ab; syms_ab])) 2
  = 2.
Proof.
  assert (Ho : option_set (options sample_tables) DEFAULTREDUCE = true)
    by reflexivity.
  assert (Honly : only_item_before sample_tables
                    (itemset (COLLECTION sample_collection 1)) 2
                    (ITEMSET sample_collection 1 1)).
  { apply (sample_only_item_before sample_tables sample_collection
             (ITEMSET sample_collection 1 0) _
             (ITEMSET sample_collection 1 2)); reflexivity. }
  assert (Hlast : dot_before_last sample_tables (ITEMSET sample_collection 1 1))
    by reflexivity.
  split; [exact Ho|]. split; [exact Honly|]. split; [exact Hlast|].
  destruct (default_shiftreduce_selected sample_tables 8%nat 4 1%nat
              (COLLECTION sample_collection 1) [syms_ab; syms_ab; syms_ab] 2
              (ITEMSET sample_collection 1 1) Ho)
    as (_ & Hg & _ & Hrow & _);
    [reflexivity | change (1 <= 2 <= 3); lia | change (3 < 4); lia
    | change (0 <= 2); lia | change (0 < 2)%nat; lia
    | exact Honly | exact Hlast |].
  split; [exact Hg | exact Hrow].
Defined.

(** C6 as stated fails twice.  Without the option a goto state is
    generated for the state and the terminal.  With the option, in state
    4 of the grammar [S -> x S t | x S | y] the item [S -> x S . t] is
    the only one with the dot before [t], but [t] is in the lookahead set
    of the complete item [S -> x S .], the precedence of [x] is higher
    than that of [t], and [resolve_ambiguity] replaces the shiftreduce by
    production 2 with the reduce by production 3. *)
Lemma default_shiftreduce_counterexample :
  ~ default_shiftreduce plain_tables /\
  option_set (options choice_tables) DEFAULTREDUCE = true /\
  ~ default_shiftreduce choice_tables.
Proof.
  split; [|split; [reflexivity|]].
  - intros H.
    destruct (H 8%nat 4 1%nat (COLLECTION plain_collection 1) [] 2
                (ITEMSET plain_collection 1 1))
      as (_ & Hg & _ & _).
    + reflexivity.
    + change (1 <= 2 <= 3); lia.
    + change (3 < 4); lia.
    + change (0 <= 2); lia.
    + change (0 < 2)%nat; lia.
    + apply (sample_only_item_before plain_tables plain_collection
               (ITEMSET plain_collection 1 0) _
               (ITEMSET plain_collection 1 2)); reflexivity.
    + reflexivity.
    + apply (Hg {| goto_token := 2; goto_state := 3 |}); [|reflexivity].
      vm_compute. right. left.
  - intros H.
    destruct (H 12%nat 5 4%nat (COLLECTION choice_collection 4)
                [symbolset_alloc;
                 {| array := Some [tok_t; tok_end];
                    element := sizeof_pointer |}]
                2 (ITEMSET choice_collection 4 0))
      as (_ & _ & _ & Hrow).
    + reflexivity.
    + change (1 <= 2 <= 4); lia.
    + change (4 < 5); lia.
    + change (0 <= 2); lia.
    + change (0 < 2)%nat; lia.
    + exists [], [ITEMSET choice_collection 4 1].
      split; [reflexivity|]. split; [reflexivity|].
      intros x Hx. apply list_elem_of_In in Hx.
      destruct Hx as [<-|[]]. reflexivity.
    + reflexivity.
    + vm_compute in Hrow. discriminate Hrow.
Qed.

Example default_shiftreduce_sample :
  map (fun c => map (fun g => (goto_token g, goto_state g)) (gotos c))
    sample_collection
  = [ []; [(1, 2%nat); (5, 3%nat)]; [(1, 2%nat); (5, 4%nat)]; []; [] ] /\
  imap (fun i c => fst (build_row sample_tables 4 i c)) sample_collection
  = [ [0; 0; 0; 0; 0; 0]; [0; 10002; 2; 0; -10000; 10003];
      [0; 10002; 2; 0; 0; 10004]; [0; 0; 0; 1; 0; 0]; [0; 0; 3; 0; 0; 0] ].
Proof. split; reflexivity. Qed.

Example plain_goto_sample :
  map (fun c => map (fun g => (goto_token g, goto_state g)) (gotos c))
    plain_collection
  = [ []; [(1, 2%nat); (2, 3%nat); (5, 4%nat)];
      [(1, 2%nat); (2, 3%nat); (5, 5%nat)]; []; [(3, 6%nat)]; [(2, 7%nat)];
      []; [] ] /\
  row_entry (build_row plain_tables 4 1 (COLLECTION plain_collection 1)) 2
  = 10003.
Proof. split; reflexivity. Qed.

(** The rows of state 4 of the ambiguous grammar: the reduce pass finds
    the entry of [t] taken by the shiftreduce and reports the conflict,
    and [resolve_ambiguity] puts the reduce there. *)
Example resolve_ambiguity_sample :
  let state :=
    with_lookaheads (COLLECTION choice_collection 4)
      [symbolset_alloc;
       {| array := Some [tok_t; tok_end]; element := sizeof_pointer |}] in
  build_row choice_tables 5 4 state
  = ([0; 0; 2; 0; -3; 0; 0], SHIFT_REDUCE_ERROR) /\
  table_row choice_tables 5 4 state = ([0; 0; -3; 0; -3; 0; 0], true).
Proof. split; reflexivity. Qed.

(** ** The search for the least cost repair (repair_error) *)

Section Cheapest.
Context (fuel : nat) (tables : sdt_tables) (rs : repairstate)
        (q : list tokenentry) (del : Z).

Local Abbreviation cost_of := (insert_cost fuel tables rs q del).
Local Abbreviation cheapest := (cheapest_insert fuel tables rs q del).

(** A candidate replaces the cheapest insertion found so far only when
    it is strictly cheaper. *)
Lemma cheapest_insert_step n token ins cost :
  cost_of token = Some (Some cost) ->
  (cost < er_cost ins ->
     cheapest (S n) token ins
     = cheapest n (token + 1)
         {| er_token := token; er_prefix := er_prefix ins;
            er_cost := cost |}) /\
  (er_cost ins <= cost ->
     cheapest (S n) token ins = cheapest n (token + 1) ins).
Proof.
  intros Hc. cbn [cheapest_insert]. rewrite Hc. split; intros H.
  - apply Z.ltb_lt in H. now rewrite H.
  - apply Z.ltb_ge in H. now rewrite H.
Qed.


End Cheapest.





Example repair_error_tie_sample :
  match repair_error 20 tie_tables missing_operand with
  | Returned (rs, st) =>
      choice st = {| er_token := 3; er_prefix := -1; er_cost := 2 |} /\
      followset rs = [-1; -1; 0; 0; 0; 1] /\
      map in_token (insertion rs) = [0; 2; 5]
  | _ => False
  end.
Proof. vm_compute. repeat split. Qed.

(** ** The listing loop terminates *)

Section Listing.
Context (c : bufferchain).
Hypothesis filled : buffers_filled c.

Local Abbreviation total := (Z.of_nat (length (concat c))).
Local Abbreviation buffers := (Z.of_nat (length c)).

Lemma bcount_nat (b : nat) :
  bcount c (Z.of_nat b) = Z.of_nat (length (default [] (c !! b))).
Proof.
  unfold bcount. destruct (Z.of_nat b <? 0) eqn:E; [apply Z.ltb_lt in E; lia|].
  now rewrite Nat2Z.id.
Qed.

Lemma bcount_nonneg b : 0 <= bcount c b.
Proof. unfold bcount. destruct (b <? 0); lia. Qed.

Lemma chars_before_S (b : nat) :
  chars_before c (S b) = chars_before c b + bcount c (Z.of_nat b).
Proof.
  rewrite bcount_nat. unfold chars_before.
  destruct (c !! b) as [x|] eqn:E.
  - rewrite (take_S_r _ _ _ E), concat_app, length_app. cbn.
    rewrite app_nil_r. lia.
  - apply lookup_ge_None in E.
    rewrite !take_ge by lia. cbn. lia.
Qed.

Lemma chars_before_le (b k : nat) :
  chars_before c b <= chars_before c (b + k).
Proof.
  induction k as [|k IH]; [rewrite Nat.add_0_r; lia|].
  rewrite Nat.add_succ_r, chars_before_S.
  pose proof (bcount_nonneg (Z.of_nat (b + k))). lia.
Qed.

Lemma chars_before_mono (b b' : nat) :
  (b <= b')%nat -> chars_before c b <= chars_before c b'.
Proof.
  intros H. replace b' with (b + (b' - b))%nat by lia.
  apply chars_before_le.
Qed.

Lemma chars_before_total (b : nat) : chars_before c b <= total.
Proof.
  pose proof (chars_before_mono b (b + length c)) as H.
  unfold chars_before in *. rewrite (take_ge c (b + length c)) in H by lia.
  apply H. lia.
Qed.

Lemma chars_before_next (b : Z) :
  0 <= b ->
  chars_before c (Z.to_nat (b + 1)) = chars_before c (Z.to_nat b) + bcount c b.
Proof.
  intros Hb. replace (Z.to_nat (b + 1)) with (S (Z.to_nat b)) by lia.
  rewrite chars_before_S. now rewrite Z2Nat.id.
Qed.

(** The rank of a position that is in the chain is at most the number
    of characters. *)
Lemma rank_in_chain w : in_chain c w -> rank c w <= total.
Proof.
  intros [[Hb1 Hb2] [Ho1 Ho2]]. unfold rank.
  pose proof (chars_before_next (buffer w) Hb1).
  pose proof (chars_before_total (Z.to_nat (buffer w + 1))). lia.
Qed.

(** Up to a target in the chain the rank follows the order of the
    positions. *)
Lemma rank_upto u t :
  line_position c u -> in_chain c t -> loc_upto u t = true ->
  rank c u <= rank c t.
Proof.
  intros (Hub & Huo & Hu) [Htb Hto] H. unfold loc_upto in H.
  apply orb_true_iff in H as [H|H].
  - apply Z.ltb_lt in H. unfold rank.
    assert (offset u < bcount c (buffer u)) by lia.
    pose proof (chars_before_next (buffer u) (proj1 Hub)).
    pose proof (chars_before_mono (Z.to_nat (buffer u + 1))
                  (Z.to_nat (buffer t))).
    lia.
  - apply andb_true_iff in H as [Hb Ho].
    apply Z.eqb_eq in Hb. apply Z.leb_le in Ho. unfold rank.
    rewrite Hb. lia.
Qed.

Lemma has_next_true b : has_next c b = true <-> 0 <= b /\ b + 1 < buffers.
Proof.
  unfold has_next. rewrite andb_true_iff, Z.leb_le, Z.ltb_lt. tauto.
Qed.

Lemma has_next_false b : has_next c b = false -> 0 <= b -> buffers <= b + 1.
Proof.
  unfold has_next. intros H Hb. apply andb_false_iff in H as [H|H].
  - apply Z.leb_gt in H. lia.
  - apply Z.ltb_ge in H. lia.
Qed.

Lemma read_buffer_next w :
  has_next c (buffer w) = true ->
  read_buffer c w
  = ({| buffer := buffer w + 1; offset := 0 |},
     0 <? bcount c (buffer w + 1)).
Proof. intros H. unfold read_buffer. now rewrite H. Qed.

Lemma read_buffer_last w :
  has_next c (buffer w) = false ->
  read_buffer c w = (w, offset w <? bcount c (buffer w)).
Proof. intros H. unfold read_buffer. now rewrite H. Qed.

(** The start of a buffer that [read_buffer] steps to. *)
Lemma next_buffer_position b :
  0 <= b -> b + 1 < buffers ->
  line_position c {| buffer := b + 1; offset := 0 |}.
Proof.
  intros Hb Hn. unfold line_position. cbn.
  split; [lia|]. split; [lia|].
  destruct (Z_lt_dec (b + 2) buffers) as [Hmore|Hlast]; [|right; lia].
  left. apply filled; lia.
Qed.

(** [scan_line] stops at a position [unwritten] can take, past the
    characters it has scanned. *)
Lemma scan_line_spec fuel : forall nl,
  in_chain c nl ->
  (total - rank c nl) + (buffers - 1 - buffer nl) < Z.of_nat fuel ->
  let r := scan_line fuel c nl in
  line_position c r /\ rank c nl <= rank c r /\
  (offset nl < bcount c (buffer nl) -> rank c nl < rank c r).
Proof.
  induction fuel as [|fuel IH]; intros nl Hin Hfuel.
  { pose proof (rank_in_chain nl Hin). destruct Hin as [Hb Ho]. lia. }
  pose proof (rank_in_chain nl Hin) as Hrank.
  destruct Hin as [[Hb1 Hb2] [Ho1 Ho2]].
  cbn [scan_line]. cbv zeta.
  (* the position of the next character, if there is one *)
  assert (Hstep : forall nl1,
            in_chain c nl1 -> offset nl1 < bcount c (buffer nl1) ->
            rank c nl <= rank c nl1 ->
            (total - rank c nl1) + (buffers - 1 - buffer nl1)
            < Z.of_nat (S fuel) ->
            let nl2 := {| buffer := buffer nl1; offset := offset nl1 + 1 |} in
            let r := if bchar c nl1 =? newline
                     then if offset nl2 >=? bcount c (buffer nl2)
                          then fst (read_buffer c nl2) else nl2
                     else scan_line fuel c nl2 in
            line_position c r /\ rank c nl < rank c r).
  { intros nl1 [[Hc1 Hc2] [Hp1 Hp2]] Hlt Hle Hf. cbv zeta.
    cbn [buffer offset].
    assert (Hr2 : rank c {| buffer := buffer nl1; offset := offset nl1 + 1 |}
                  = rank c nl1 + 1) by (unfold rank; cbn; lia).
    assert (Hin2 : in_chain c
                     {| buffer := buffer nl1; offset := offset nl1 + 1 |})
      by (unfold in_chain; cbn; lia).
    destruct (bchar c nl1 =? newline).
    - destruct (offset nl1 + 1 >=? bcount c (buffer nl1)) eqn:Eend.
      + destruct (has_next c (buffer nl1)) eqn:En.
        * rewrite read_buffer_next by exact En. cbn [fst buffer].
          apply has_next_true in En as [En1 En2].
          split; [apply next_buffer_position; lia|].
          unfold rank in *. cbn [buffer offset] in *.
          rewrite chars_before_next by lia.
          apply Z.geb_le in Eend. lia.
        * rewrite read_buffer_last by exact En. cbn [fst].
          apply has_next_false in En; [|lia].
          split; [|lia].
          unfold line_position. cbn. split; [lia|]. split; [lia|].
          right. lia.
      + split; [|lia].
        rewrite Z.geb_leb in Eend; apply Z.leb_gt in Eend.
        unfold line_position. cbn. split; [lia|]. split; [lia|]. left. lia.
    - destruct (IH _ Hin2) as (R1 & R2 & _).
      { rewrite Hr2. cbn [buffer]. lia. }
      split; [exact R1 | lia]. }
  destruct (offset nl >=? bcount c (buffer nl)) eqn:Eend.
  - apply Z.geb_le in Eend.
    destruct (has_next c (buffer nl)) eqn:En.
    + rewrite read_buffer_next by exact En.
      apply has_next_true in En as [En1 En2].
      set (nl1 := {| buffer := buffer nl + 1; offset := 0 |}).
      assert (Hr1 : rank c nl1 = rank c nl).
      { unfold rank, nl1. cbn [buffer offset].
        rewrite chars_before_next by lia. lia. }
      destruct (0 <? bcount c (buffer nl + 1)) eqn:Emore; cbn [negb].
      * apply Z.ltb_lt in Emore.
        destruct (Hstep nl1) as [S1 S2].
        -- unfold in_chain, nl1. cbn. lia.
        -- exact Emore.
        -- lia.
        -- rewrite Hr1. unfold nl1. cbn [buffer]. lia.
        -- split; [exact S1|]. split; [lia|]. intros. lia.
      * split; [apply next_buffer_position; lia|].
        split; [lia|]. intros. lia.
    + rewrite read_buffer_last by exact En.
      apply has_next_false in En; [|lia].
      assert (Hm : (offset nl <? bcount c (buffer nl)) = false)
        by (apply Z.ltb_ge; lia).
      rewrite Hm. cbn [negb].
      split; [|split; [lia | intros; lia]].
      unfold line_position. split; [lia|]. split; [lia|]. right. lia.
  - rewrite Z.geb_leb in Eend; apply Z.leb_gt in Eend. cbn [negb].
    destruct (Hstep nl) as [S1 S2].
    + unfold in_chain. lia.
    + exact Eend.
    + lia.
    + exact Hfuel.
    + split; [exact S1|]. split; [lia|]. intros. exact S2.
Qed.

Lemma chain_fuel_enough nl :
  in_chain c nl ->
  (total - rank c nl) + (buffers - 1 - buffer nl) < Z.of_nat (chain_fuel c).
Proof.
  intros [[Hb1 Hb2] [Ho1 Ho2]]. unfold chain_fuel, rank.
  pose proof (chars_before_mono 0 (Z.to_nat (buffer nl))) as H.
  unfold chars_before at 1 in H. cbn in H. lia.
Qed.

(** [write_line] moves [unwritten] forward while it is not past a target
    in the chain. *)
Lemma write_line_progress s t :
  chain s = c ->
  line_position c (unwritten s) -> in_chain c t ->
  loc_upto (unwritten s) t = true ->
  line_position c (unwritten (write_line s)) /\
  rank c (unwritten s) < rank c (unwritten (write_line s)).
Proof.
  intros Hc Hu Ht Hupto.
  pose proof (rank_upto _ _ Hu Ht Hupto) as Hrank.
  destruct Hu as (Hub & Huo & Hu). destruct Ht as [Htb Hto].
  set (u := unwritten s) in *.
  assert (Hnl :
    let nl := if offset u >=? bcount c (buffer u)
              then {| buffer := buffer u; offset := bcount c (buffer u) + 1 |}
              else scan_line (chain_fuel c) c u in
    let nl' := if offset u <? bcount c (buffer u) then nl
               else {| buffer := buffer nl; offset := offset nl + 1 |} in
    (line_position c nl /\ rank c u < rank c nl) /\
    (line_position c nl' /\ rank c u < rank c nl')).
  { cbv zeta. destruct (offset u >=? bcount c (buffer u)) eqn:Eend.
    - apply Z.geb_le in Eend.
      assert (Hlast : buffer u + 1 = buffers) by lia.
      assert (Hsame : buffer u = buffer t /\ offset u <= offset t).
      { unfold loc_upto in Hupto. apply orb_true_iff in Hupto as [H|H].
        - apply Z.ltb_lt in H. lia.
        - apply andb_true_iff in H as [H1 H2].
          apply Z.eqb_eq in H1. apply Z.leb_le in H2. lia. }
      assert (Hm : (offset u <? bcount c (buffer u)) = false)
        by (apply Z.ltb_ge; lia).
      rewrite Hm.
      destruct Hsame as [Hsb Hso]. rewrite <- Hsb in Hto.
      unfold line_position, rank. cbn [buffer offset].
      repeat split; try lia; right; lia.
    - rewrite Z.geb_leb in Eend; apply Z.leb_gt in Eend.
      assert (Hm : (offset u <? bcount c (buffer u)) = true)
        by (apply Z.ltb_lt; lia).
      rewrite Hm.
      destruct (scan_line_spec (chain_fuel c) u) as (S1 & S2 & S3).
      + unfold in_chain. lia.
      + apply chain_fuel_enough. unfold in_chain. lia.
      + specialize (S3 Eend). tauto. }
  cbv zeta in Hnl. destruct Hnl as [Hskip Hshow].
  unfold write_line. rewrite Hc. fold u.
  destruct (listing s || head_before (msgqueue s) _).
  - destruct (flush_messages _ (msgqueue s)) as [shown rest].
    cbn [unwritten]. exact Hshow.
  - cbn [unwritten]. exact Hskip.
Qed.

Lemma write_line_chain s : chain (write_line s) = chain s.
Proof.
  unfold write_line.
  destruct (listing s || head_before (msgqueue s) _); [|reflexivity].
  now destruct (flush_messages _ (msgqueue s)).
Qed.

(** The loop that writes the lines up to a target in the chain comes to
    its end within the fuel. *)
Lemma write_lines_finish (incl : bool) (t : location) (fuel : nat) : forall s,
  chain s = c ->
  line_position c (unwritten s) -> in_chain c t ->
  total + 1 - rank c (unwritten s) < Z.of_nat fuel ->
  (if incl then loc_upto else loc_before)
    (unwritten (write_lines fuel incl t s)) t = false.
Proof.
  assert (Hcond : forall u,
            (if incl then loc_upto else loc_before) u t = true ->
            loc_upto u t = true).
  { intros u. destruct incl; [tauto|].
    unfold loc_before, loc_upto. intros H.
    apply orb_true_iff in H as [H|H]; [now rewrite H|].
    apply andb_true_iff in H as [H1 H2]. apply Z.ltb_lt in H2.
    rewrite H1. cbn. apply orb_true_iff. right. apply Z.leb_le. lia. }
  induction fuel as [|fuel IH]; intros s Hc Hu Ht Hfuel.
  - cbn [write_lines].
    destruct ((if incl then loc_upto else loc_before) (unwritten s) t)
      eqn:E; [|reflexivity].
    pose proof (rank_upto _ _ Hu Ht (Hcond _ E)).
    pose proof (rank_in_chain t Ht). lia.
  - cbn [write_lines].
    destruct ((if incl then loc_upto else loc_before) (unwritten s) t)
      eqn:E; [|exact E].
    destruct (write_line_progress s t Hc Hu Ht (Hcond _ E)) as [P1 P2].
    apply IH; [now rewrite write_line_chain | exact P1 | exact Ht | lia].
Qed.

Lemma lines_fuel_enough s :
  line_position c (unwritten s) ->
  total + 1 - rank c (unwritten s) < Z.of_nat (lines_fuel c).
Proof.
  intros (Hb & Ho & _). unfold lines_fuel, chain_fuel, rank.
  pose proof (chars_before_mono 0 (Z.to_nat (buffer (unwritten s)))) as H.
  unfold chars_before at 1 in H. cbn in H. lia.
Qed.

End Listing.

(** ** Fatal syntax errors (error_value, repair_error) *)





Section Fatal.
Context (tables : sdt_tables) (l : listing_state) (tk : tokenentry).
Hypothesis filled : buffers_filled (chain l).
Hypothesis start : line_position (chain l) (unwritten l).
Hypothesis locus : in_chain (chain l) (tk_locus tk).

Local Abbreviation written :=
  (write_lines (lines_fuel (chain l)) true (tk_locus tk)
     (record_error (tk_where tk) (Some syntax_error) l)).







End Fatal.

(** ** The lines that are written *)





Section FatalLines.
Context (l : listing_state) (tk : tokenentry).
Hypothesis filled : buffers_filled (chain l).
Hypothesis start : line_position (chain l) (unwritten l).
Hypothesis locus : in_chain (chain l) (tk_locus tk).

Local Abbreviation recorded :=
  (record_error (tk_where tk) (Some syntax_error) l).
Local Abbreviation written :=
  (write_lines (lines_fuel (chain l)) true (tk_locus tk) recorded).


End FatalLines.




Example fatal_listing_sample :
  repair_error 20 fatal_tables missing_operand
  = Exited 1
      {| chain := [[120; 10]]; listing := false; lineno := 2;
         unwritten := {| buffer := 0; offset := 4 |};
         msgwritten := true; msgqueue := [];
         output :=
           [ EvLine 2 {| buffer := 0; offset := 2 |};
             EvMessage (syntax_error_at (at_token 5 2 2)) ] |}.
Proof. vm_compute. reflexivity. Qed.

Example gap_listing_sample :
  repair_error 20 gap_tables missing_operand
  = repair_error 20 fatal_tables missing_operand.
Proof. vm_compute. reflexivity. Qed.

(** ** The sort keys of the productions (compute_sortkeys, with the sums checked) *)

Lemma INT_MAX_pos : 0 < INT_MAX.
Proof. reflexivity. Qed.

(** *** Minima and sums *)

Lemma least_nil f : least f [] = INT_MAX.
Proof. reflexivity. Qed.

Lemma least_cons f q l : least f (q :: l) = Z.min (f q) (least f l).
Proof. reflexivity. Qed.

Lemma sum_list_nil : sum_list [] = 0.
Proof. reflexivity. Qed.

Lemma sum_list_cons x l : sum_list (x :: l) = x + sum_list l.
Proof. reflexivity. Qed.

Lemma least_le_max f l : least f l <= INT_MAX.
Proof.
  induction l as [|q l IH]; [rewrite least_nil | rewrite least_cons]; lia.
Qed.

Lemma least_lower f l lo :
  lo <= INT_MAX -> (forall q, q ∈ l -> lo <= f q) -> lo <= least f l.
Proof.
  intros Hlo. induction l as [|q l IH]; intros H; [exact Hlo|].
  assert (lo <= f q) by (apply H; left).
  assert (lo <= least f l) by (apply IH; intros x Hx; apply H; now right).
  rewrite least_cons. lia.
Qed.

Lemma least_elem f l q : q ∈ l -> least f l <= f q.
Proof.
  induction l as [|x l IH]; intros H; [inversion H|].
  rewrite least_cons.
  apply elem_of_cons in H as [->|H]; [lia|].
  specialize (IH H). lia.
Qed.

Lemma least_mono f l l' :
  Forall2 (fun a b => f a <= f b) l l' -> least f l <= least f l'.
Proof.
  induction 1; [lia|]. rewrite !least_cons. lia.
Qed.

Lemma least_app f l l' :
  least f (l ++ l') = Z.min (least f l) (least f l').
Proof.
  induction l as [|q l IH]; cbn [app].
  - rewrite least_nil. pose proof (least_le_max f l'). lia.
  - rewrite !least_cons, IH. lia.
Qed.

Lemma sum_list_app l l' : sum_list (l ++ l') = sum_list l + sum_list l'.
Proof.
  induction l as [|x l IH]; cbn [app]; [reflexivity|].
  rewrite !sum_list_cons, IH. lia.
Qed.

Lemma sum_list_nonneg l : Forall (fun v => 0 <= v) l -> 0 <= sum_list l.
Proof.
  induction 1; [rewrite sum_list_nil | rewrite sum_list_cons]; lia.
Qed.

Lemma elem_of_drop_list {A : Type} (x : A) (n : nat) (l : list A) :
  x ∈ drop n l -> x ∈ l.
Proof.
  intros H. rewrite <- (take_drop n l). apply elem_of_app. now right.
Qed.

(** *** The loop over the alternatives *)

Lemma min_keys_run alts sym : forall ms mi,
  ms <= INT_MAX -> mi <= INT_MAX ->
  min_keys alts sym ms mi
  = (Z.min ms (least steps (run_of sym alts)),
     Z.min mi (least pinsert (run_of sym alts))).
Proof.
  induction alts as [|p alts IH]; intros ms mi Hms Hmi;
    cbn [min_keys run_of].
  - rewrite !least_nil. f_equal; lia.
  - destruct (same_symbol (lhside p) sym).
    + rewrite !least_cons.
      destruct (steps p <? ms) eqn:E1; destruct (pinsert p <? mi) eqn:E2;
        (apply Z.ltb_lt in E1 || apply Z.ltb_ge in E1);
        (apply Z.ltb_lt in E2 || apply Z.ltb_ge in E2);
        rewrite IH by lia; f_equal; lia.
    + rewrite !least_nil. f_equal; lia.
Qed.

Lemma min_keys_least alts sym :
  min_keys alts sym INT_MAX INT_MAX
  = (least steps (run_of sym alts), least pinsert (run_of sym alts)).
Proof.
  rewrite min_keys_run by lia.
  pose proof (least_le_max steps (run_of sym alts)).
  pose proof (least_le_max pinsert (run_of sym alts)).
  f_equal; lia.
Qed.

Lemma run_of_elem sym alts q : q ∈ run_of sym alts -> q ∈ alts.
Proof.
  induction alts as [|p alts IH]; cbn; [tauto|].
  destruct (same_symbol (lhside p) sym); [|intros H; inversion H].
  intros H. apply elem_of_cons in H as [->|H]; [left | right; auto].
Qed.

Lemma run_of_below sym X Y :
  Forall2 below X Y -> Forall2 below (run_of sym X) (run_of sym Y).
Proof.
  induction 1 as [|x y X Y Hxy HXY IH]; cbn; [constructor|].
  destruct Hxy as [[Hl Hs] Hk]. rewrite Hl.
  destruct (same_symbol (lhside y) sym); [|constructor].
  constructor; [|exact IH]. split; [split|]; assumption.
Qed.

Lemma below_refl p : below p p.
Proof. unfold below, same_shape. repeat split; lia. Qed.

Lemma below_trans a b c : below a b -> below b c -> below a c.
Proof.
  unfold below, same_shape.
  intros ((A1 & A2 & A3 & A4) & A5 & A6) ((B1 & B2 & B3 & B4) & B5 & B6).
  repeat split; try congruence; lia.
Qed.

Lemma below_list_refl X : Forall2 below X X.
Proof. induction X; constructor; [apply below_refl | assumption]. Qed.

Lemma below_list_trans X Y Z :
  Forall2 below X Y -> Forall2 below Y Z -> Forall2 below X Z.
Proof.
  intros H. revert Z. induction H as [|x y X Y Hxy _ IH]; intros Z HZ.
  - inversion HZ. constructor.
  - inversion HZ as [|y' z Y' Z' Hyz HYZ]; subst.
    constructor; [eapply below_trans; eassumption | now apply IH].
Qed.

(** *** The loop over a right hand side *)

Section Keys.
Context (termcount : Z) (lhsindex : list nat).

Local Abbreviation start := (lhs_start termcount lhsindex).
Local Abbreviation keys_of := (checked_rhs_keys termcount lhsindex).

Local Abbreviation run_steps := (run_steps termcount lhsindex).
Local Abbreviation run_insert := (run_insert termcount lhsindex).

Lemma run_steps_mono X Y sym :
  Forall2 below X Y -> run_steps X sym <= run_steps Y sym.
Proof.
  intros H. apply least_mono.
  eapply Forall2_impl; [apply run_of_below, Forall2_drop, H|].
  intros a b (_ & Hs & _). exact Hs.
Qed.

Lemma run_insert_mono X Y sym :
  Forall2 below X Y -> run_insert X sym <= run_insert Y sym.
Proof.
  intros H. apply least_mono.
  eapply Forall2_impl; [apply run_of_below, Forall2_drop, H|].
  intros a b (_ & _ & Hi). exact Hi.
Qed.

Lemma run_steps_range prods sym :
  Forall in_range prods -> 0 <= run_steps prods sym <= INT_MAX.
Proof.
  intros H. split; [|apply least_le_max].
  apply least_lower; [pose proof INT_MAX_pos; lia|].
  intros q Hq. apply run_of_elem, elem_of_drop_list in Hq.
  rewrite Forall_forall in H. apply H in Hq. unfold in_range in Hq. lia.
Qed.

Lemma run_insert_range prods sym :
  Forall in_range prods -> 0 <= run_insert prods sym <= INT_MAX.
Proof.
  intros H. split; [|apply least_le_max].
  apply least_lower; [pose proof INT_MAX_pos; lia|].
  intros q Hq. apply run_of_elem, elem_of_drop_list in Hq.
  rewrite Forall_forall in H. apply H in Hq. unfold in_range in Hq. lia.
Qed.

Lemma checked_some v r : checked v = Some r -> r = v /\ v <= INT_MAX.
Proof.
  unfold checked. destruct (_ && _) eqn:E; [|discriminate].
  intros H. injection H as <-. apply andb_true_iff in E as [_ E].
  apply Z.leb_le in E. now split.
Qed.

Lemma add_key_some a m r :
  checked_add_key a m = Some r ->
  (a < INT_MAX /\ m < INT_MAX /\ r = a + m /\ a + m <= INT_MAX) \/
  ((INT_MAX <= a \/ INT_MAX <= m) /\ r = INT_MAX).
Proof.
  unfold checked_add_key. destruct (_ && _) eqn:E.
  - apply andb_true_iff in E as [E1 E2].
    apply Z.ltb_lt in E1. apply Z.ltb_lt in E2.
    intros H. apply checked_some in H as [-> H]. left. lia.
  - intros H. injection H as <-. right.
    apply andb_false_iff in E as [E|E]; apply Z.ltb_ge in E; lia.
Qed.

Lemma add_cost_some a c r :
  checked_add_cost a c = Some r ->
  (a < INT_MAX /\ r = a + c /\ a + c <= INT_MAX) \/ (INT_MAX <= a /\ r = a).
Proof.
  unfold checked_add_cost. destruct (a <? INT_MAX) eqn:E.
  - apply Z.ltb_lt in E. intros H. apply checked_some in H as [-> H].
    left. lia.
  - apply Z.ltb_ge in E. intros H. injection H as <-. right. lia.
Qed.

(** The equation of [checked_rhs_keys] for each kind of symbol. *)
Lemma rhs_keys_nonterminal prods sym rest st ins :
  is_nonterminal sym = true ->
  keys_of prods (sym :: rest) st ins
  = match checked_add_key st (run_steps prods sym),
          checked_add_key ins (run_insert prods sym) with
    | Some st', Some ins' => keys_of prods rest st' ins'
    | _, _ => None
    end.
Proof.
  intros H. cbn [checked_rhs_keys]. unfold is_nonterminal in H. rewrite H.
  now rewrite min_keys_least.
Qed.

Lemma rhs_keys_costed prods sym rest st ins :
  is_costed sym = true ->
  keys_of prods (sym :: rest) st ins
  = match checked_add_cost ins (sym_insert sym) with
    | Some ins' => keys_of prods rest st ins'
    | None => None
    end.
Proof.
  intros H. cbn [checked_rhs_keys]. unfold is_costed, is_nonterminal in H.
  apply andb_true_iff in H as [H1 H2]. apply negb_true_iff in H1.
  now rewrite H1, H2.
Qed.

Lemma rhs_keys_epsilon prods sym rest st ins :
  is_nonterminal sym = false -> is_costed sym = false ->
  keys_of prods (sym :: rest) st ins = keys_of prods rest st ins.
Proof.
  intros H1 H2. cbn [checked_rhs_keys]. unfold is_costed in H2.
  rewrite H1 in H2. unfold is_nonterminal in H1. rewrite H1.
  cbn [negb andb] in H2. now rewrite H2.
Qed.

Lemma symbol_kind sym :
  (is_nonterminal sym = true /\ is_costed sym = false) \/
  (is_nonterminal sym = false /\ is_costed sym = true) \/
  (is_nonterminal sym = false /\ is_costed sym = false).
Proof.
  unfold is_costed. destruct (is_nonterminal sym); cbn; [tauto|].
  destruct (negb _); tauto.
Qed.

(** With lower keys the sums are not greater. *)
Lemma rhs_keys_mono X Y rhs : forall a b a' b' st ins st' ins',
  Forall2 below X Y ->
  keys_of X rhs a b = Some (st, ins) ->
  keys_of Y rhs a' b' = Some (st', ins') ->
  a <= a' -> b <= b' ->
  st <= st' /\ ins <= ins'.
Proof.
  induction rhs as [|sym rest IH];
    intros a b a' b' st ins st' ins' HXY HX HY Ha Hb.
  - cbn in HX, HY. injection HX as <- <-. injection HY as <- <-. lia.
  - destruct (symbol_kind sym) as [[Hn Hc]|[[Hn Hc]|[Hn Hc]]].
    + rewrite rhs_keys_nonterminal in HX, HY by exact Hn.
      pose proof (run_steps_mono X Y sym HXY) as Hms.
      pose proof (run_insert_mono X Y sym HXY) as Hmi.
      destruct (checked_add_key a (run_steps X sym)) as [a1|] eqn:E1;
        [|discriminate].
      destruct (checked_add_key b (run_insert X sym)) as [b1|] eqn:E2;
        [|discriminate].
      destruct (checked_add_key a' (run_steps Y sym)) as [a1'|] eqn:E3;
        [|discriminate].
      destruct (checked_add_key b' (run_insert Y sym)) as [b1'|] eqn:E4;
        [|discriminate].
      apply add_key_some in E1, E2, E3, E4.
      eapply IH; [exact HXY | exact HX | exact HY | lia | lia].
    + rewrite rhs_keys_costed in HX, HY by exact Hc.
      destruct (checked_add_cost b (sym_insert sym)) as [b1|] eqn:E1;
        [|discriminate].
      destruct (checked_add_cost b' (sym_insert sym)) as [b1'|] eqn:E2;
        [|discriminate].
      apply add_cost_some in E1, E2.
      eapply IH; [exact HXY | exact HX | exact HY | lia | lia].
    + rewrite rhs_keys_epsilon in HX, HY by assumption.
      eapply IH; eassumption.
Qed.

(** The sums the loop has computed, saturated at [INT_MAX]. *)
Lemma rhs_keys_sums prods rhs :
  Forall in_range prods ->
  forall a b st ins,
  Forall (fun s => 0 <= sym_insert s) rhs ->
  0 <= a <= INT_MAX -> 0 <= b <= INT_MAX ->
  keys_of prods rhs a b = Some (st, ins) ->
  st = saturate
         (a + sum_list (map (run_steps prods)
                          (List.filter is_nonterminal rhs))) /\
  ins = saturate
          (b + sum_list (map (run_insert prods)
                           (List.filter is_nonterminal rhs))
             + sum_list (map sym_insert (List.filter is_costed rhs))).
Proof.
  intros Hr. unfold saturate.
  induction rhs as [|sym rest IH]; intros a b st ins Hc Ha Hb H.
  - cbn in *. injection H as <- <-. lia.
  - inversion Hc as [|? ? Hsym Hrest]; subst.
    assert (Hs1 : 0 <= sum_list (map (run_steps prods)
                                   (List.filter is_nonterminal rest))).
    { apply sum_list_nonneg, Forall_forall. intros v Hv.
      apply list_elem_of_fmap in Hv as (s & -> & _).
      apply run_steps_range, Hr. }
    assert (Hs2 : 0 <= sum_list (map (run_insert prods)
                                   (List.filter is_nonterminal rest))).
    { apply sum_list_nonneg, Forall_forall. intros v Hv.
      apply list_elem_of_fmap in Hv as (s & -> & _).
      apply run_insert_range, Hr. }
    assert (Hs3 : 0 <= sum_list (map sym_insert
                                   (List.filter is_costed rest))).
    { apply sum_list_nonneg, Forall_forall. intros v Hv.
      apply list_elem_of_fmap in Hv as (s & -> & Hs).
      apply list_elem_of_In, filter_In in Hs as [Hs _].
      rewrite Forall_forall in Hrest. apply Hrest.
      now apply list_elem_of_In. }
    pose proof (run_steps_range prods sym Hr) as Hms.
    pose proof (run_insert_range prods sym Hr) as Hmi.
    destruct (symbol_kind sym) as [[Hn Hk]|[[Hn Hk]|[Hn Hk]]];
      cbn [List.filter]; rewrite Hn, Hk; cbn [map sum_list fold_right].
    + rewrite rhs_keys_nonterminal in H by exact Hn.
      destruct (checked_add_key a (run_steps prods sym)) as [a1|] eqn:E1;
        [|discriminate].
      destruct (checked_add_key b (run_insert prods sym)) as [b1|] eqn:E2;
        [|discriminate].
      apply add_key_some in E1, E2.
      destruct (IH a1 b1 st ins Hrest) as [-> ->]; [lia | lia | exact H|].
      fold (sum_list (map (run_steps prods)
                        (List.filter is_nonterminal rest))).
      fold (sum_list (map (run_insert prods)
                        (List.filter is_nonterminal rest))).
      split; lia.
    + rewrite rhs_keys_costed in H by exact Hk.
      destruct (checked_add_cost b (sym_insert sym)) as [b1|] eqn:E1;
        [|discriminate].
      apply add_cost_some in E1.
      destruct (IH a b1 st ins Hrest) as [-> ->]; [lia | lia | exact H|].
      fold (sum_list (map sym_insert (List.filter is_costed rest))).
      split; lia.
    + rewrite rhs_keys_epsilon in H by assumption.
      now apply IH.
Qed.

End Keys.

(** *** One production, one pass, the fixpoint *)

Lemma key_sum_insert prods i p p' :
  prods !! i = Some p ->
  key_sum (<[i := p']> prods)
  = key_sum prods - (steps p + pinsert p) + (steps p' + pinsert p').
Proof.
  intros H.
  assert (G : forall pre suf,
            key_sum (pre ++ p' :: suf)
            = key_sum (pre ++ p :: suf) - (steps p + pinsert p)
              + (steps p' + pinsert p')).
  { intros pre suf. unfold key_sum.
    rewrite !map_app, !sum_list_app. cbn [map].
    rewrite !sum_list_cons. lia. }
  rewrite insert_take_drop by (eapply lookup_lt_Some; eassumption).
  rewrite G. now rewrite (take_drop_middle prods i p H).
Qed.

Lemma key_sum_nonneg prods : Forall in_range prods -> 0 <= key_sum prods.
Proof.
  intros H. apply sum_list_nonneg, Forall_forall. intros v Hv.
  apply list_elem_of_fmap in Hv as (p & -> & Hp).
  rewrite Forall_forall in H. apply H in Hp. unfold in_range in Hp. lia.
Qed.

Section KeysFixpoint.
Context (termcount : Z) (lhsindex : list nat) (prods0 : list production).

Local Abbreviation keys_of := (checked_rhs_keys termcount lhsindex).
Local Abbreviation update := (checked_update_keys termcount lhsindex).
Local Abbreviation pass := (checked_pass termcount lhsindex).
Local Abbreviation inv := (keys_inv termcount lhsindex prods0).

Lemma update_keys_eq prods i p :
  prods !! i = Some p ->
  update prods i
  = match keys_of prods (take (plength p) (rhside p)) 0 0 with
    | None => None
    | Some (st, ins) =>
        Some (<[i := updated p st ins]> prods, lowered p st ins)
    end.
Proof.
  intros H. unfold checked_update_keys, PRODUCTION. rewrite H. cbn [default].
  destruct (keys_of prods _ 0 0) as [[st ins]|]; reflexivity.
Qed.

Lemma updated_facts p st ins :
  let q := updated p st ins in
  same_shape q p /\
  steps q <= steps p /\ pinsert q <= pinsert p /\
  (lowered p st ins = true ->
     steps q + pinsert q < steps p + pinsert p) /\
  (lowered p st ins = false ->
     q = p /\ (st < INT_MAX -> steps p <= st + 1) /\ pinsert p <= ins) /\
  (steps q = steps p \/ (steps q = st + 1 /\ st < INT_MAX)) /\
  (pinsert q = pinsert p \/ pinsert q = ins).
Proof.
  unfold updated, lowered, same_shape.
  destruct (st <? INT_MAX) eqn:E1;
    [apply Z.ltb_lt in E1 | apply Z.ltb_ge in E1];
    (destruct (st + 1 <? steps p) eqn:E2;
     [apply Z.ltb_lt in E2 | apply Z.ltb_ge in E2]);
    (destruct (ins <? pinsert p) eqn:E3;
     [apply Z.ltb_lt in E3 | apply Z.ltb_ge in E3]);
    cbn [andb orb set_steps set_pinsert steps pinsert lhside rhside
         plength semantic];
    repeat split; try reflexivity; try lia; try discriminate;
    try (intros _; lia); try (left; lia); try (right; lia);
    try (left; reflexivity); try (right; split; [reflexivity | lia]);
    try (right; reflexivity).
Qed.

(** The invariant is kept by the update of a production. *)
Lemma update_keys_inv prods i prods' c :
  inv prods -> (i < length prods)%nat ->
  update prods i = Some (prods', c) ->
  inv prods' /\ Forall2 below prods' prods /\
  key_sum prods' <= key_sum prods /\
  (c = true -> key_sum prods' < key_sum prods) /\
  (c = false -> prods' = prods).
Proof.
  intros [Hbelow Hrange Hcosts Hbound] Hi H.
  destruct (lookup_lt_is_Some_2 prods i Hi) as [p Hp].
  rewrite (update_keys_eq prods i p Hp) in H.
  destruct (keys_of prods (take (plength p) (rhside p)) 0 0)
    as [[st ins]|] eqn:Hkeys; [|discriminate].
  injection H as <- <-.
  destruct (updated_facts p st ins) as (F1 & F2 & F3 & F4 & F5 & F6 & F7).
  cbv zeta in *.
  set (q := updated p st ins) in *.
  assert (Hp_range : in_range p)
    by (rewrite Forall_forall in Hrange; apply Hrange;
        apply list_elem_of_lookup; eauto).
  assert (Hp_costs : costs_ok p)
    by (rewrite Forall_forall in Hcosts; apply Hcosts;
        apply list_elem_of_lookup; eauto).
  assert (Htake : Forall (fun s => 0 <= sym_insert s)
                    (take (plength p) (rhside p)))
    by (apply Forall_take; exact Hp_costs).
  pose proof INT_MAX_pos as Hmax.
  destruct (rhs_keys_sums termcount lhsindex prods _ Hrange 0 0 st ins
              Htake ltac:(lia) ltac:(lia) Hkeys) as [Hst Hins].
  assert (Hst_range : 0 <= st <= INT_MAX).
  { rewrite Hst. unfold saturate.
    assert (0 <= sum_list (map (run_steps termcount lhsindex prods)
                             (List.filter is_nonterminal
                                (take (plength p) (rhside p))))).
    { apply sum_list_nonneg, Forall_forall. intros v Hv.
      apply list_elem_of_fmap in Hv as (s & -> & _).
      apply run_steps_range, Hrange. }
    lia. }
  assert (Hins_range : 0 <= ins <= INT_MAX).
  { rewrite Hins. unfold saturate.
    assert (0 <= sum_list (map (run_insert termcount lhsindex prods)
                             (List.filter is_nonterminal
                                (take (plength p) (rhside p))))).
    { apply sum_list_nonneg, Forall_forall. intros v Hv.
      apply list_elem_of_fmap in Hv as (s & -> & _).
      apply run_insert_range, Hrange. }
    assert (0 <= sum_list (map sym_insert
                             (List.filter is_costed
                                (take (plength p) (rhside p))))).
    { apply sum_list_nonneg, Forall_forall. intros v Hv.
      apply list_elem_of_fmap in Hv as (s & -> & Hs).
      apply list_elem_of_In, filter_In in Hs as [Hs _].
      rewrite Forall_forall in Htake. apply Htake.
      now apply list_elem_of_In. }
    lia. }
  assert (Hq_below : below q p) by (unfold below; tauto).
  assert (Hlist : Forall2 below (<[i := q]> prods) prods).
  { rewrite <- (list_insert_id prods i p Hp) at 2.
    apply Forall2_insert; [apply below_list_refl | exact Hq_below]. }
  split; [|split; [exact Hlist | split; [|split]]].
  - split.
    + eapply below_list_trans; eassumption.
    + apply Forall_insert; [exact Hrange|].
      unfold in_range in *. lia.
    + apply Forall_insert; [exact Hcosts|].
      unfold costs_ok. destruct F1 as (_ & -> & _). exact Hp_costs.
    + intros k pk X st' ins' Hk Hpk HX Hsums.
      assert (HXp : Forall2 below X prods)
        by (eapply below_list_trans; eassumption).
      destruct (decide (k = i)) as [->|Hne].
      * rewrite list_lookup_insert_eq in Hpk by exact Hi.
        injection Hpk as <-.
        destruct F1 as (_ & Hrhs & Hlen & _). rewrite Hrhs, Hlen in Hsums.
        destruct (Hbound i p X st' ins' Hk Hp HXp Hsums) as [B1 B2].
        destruct (rhs_keys_mono termcount lhsindex X prods _ 0 0 0 0
                    st' ins' st ins HXp Hsums Hkeys ltac:(lia)
                    ltac:(lia)) as [M1 M2].
        unfold saturate in *. split; lia.
      * rewrite list_lookup_insert_ne in Hpk by congruence.
        exact (Hbound k pk X st' ins' Hk Hpk HXp Hsums).
  - rewrite (key_sum_insert prods i p q Hp). lia.
  - intros Hc. rewrite (key_sum_insert prods i p q Hp).
    specialize (F4 Hc). lia.
  - intros Hc. destruct (F5 Hc) as [-> _].
    now apply list_insert_id.
Qed.

Lemma update_length prods i prods' c :
  update prods i = Some (prods', c) -> length prods' = length prods.
Proof.
  unfold checked_update_keys.
  destruct (keys_of prods _ 0 0) as [[st ins]|]; [|discriminate].
  intros H. injection H as <- <-. apply length_insert.
Qed.

(** One pass over the productions from [i] on. *)
Lemma sortkeys_pass_inv n : forall i prods changed prods' changed',
  inv prods -> (i + n <= length prods)%nat ->
  pass n i prods changed = Some (prods', changed') ->
  inv prods' /\ length prods' = length prods /\
  key_sum prods' <= key_sum prods /\
  (changed' = true -> changed = true \/ key_sum prods' < key_sum prods) /\
  (changed' = false ->
     changed = false /\ prods' = prods /\
     forall k, (i <= k < i + n)%nat -> update prods k = Some (prods, false)).
Proof.
  induction n as [|n IH]; intros i prods changed prods' changed' Hinv Hn H.
  - cbn in H. injection H as <- <-.
    split; [exact Hinv|]. split; [reflexivity|]. split; [lia|].
    split; [tauto|]. intros ->. split; [reflexivity|].
    split; [reflexivity|]. intros k Hk. lia.
  - cbn [checked_pass] in H.
    destruct (update prods i) as [[prods1 c]|] eqn:Hu; [|discriminate].
    destruct (update_keys_inv prods i prods1 c Hinv ltac:(lia) Hu)
      as (I1 & _ & I3 & I4 & I5).
    pose proof (update_length _ _ _ _ Hu) as Hlen.
    destruct (IH (S i) prods1 (changed || c) prods' changed' I1
                ltac:(lia) H) as (J1 & J2 & J3 & J4 & J5).
    split; [exact J1|]. split; [lia|]. split; [lia|]. split.
    + intros Hc. destruct (J4 Hc) as [Hor|Hlt]; [|right; lia].
      apply orb_true_iff in Hor as [Hch|Hcc]; [now left|].
      right. specialize (I4 Hcc). lia.
    + intros Hc. destruct (J5 Hc) as (Hor & -> & Hall).
      apply orb_false_iff in Hor as [-> ->].
      specialize (I5 eq_refl). subst prods1.
      split; [reflexivity|]. split; [reflexivity|].
      intros k Hk. destruct (decide (k = i)) as [->|Hne]; [exact Hu|].
      apply Hall. lia.
Qed.

(** With enough fuel the loop stops: at a fixpoint of the keys, unless
    a sum has left the range of [int]. *)
Lemma compute_sortkeys_inv fuel : forall prods,
  inv prods -> key_sum prods < Z.of_nat fuel ->
  match checked_sortkeys termcount lhsindex fuel prods with
  | Timeout => False
  | Overflow => True
  | Value r => inv r /\ keys_fixed termcount lhsindex r
  end.
Proof.
  induction fuel as [|fuel IH]; intros prods Hinv Hfuel.
  - pose proof (key_sum_nonneg prods (inv_range _ _ _ _ Hinv)). lia.
  - cbn [checked_sortkeys].
    destruct (Nat.eq_dec (length prods) 0%nat) as [Hz|Hnz].
    { rewrite Hz. cbn. split; [exact Hinv|]. intros k Hk. lia. }
    destruct (pass (length prods - 1) 1 prods false)
      as [[prods' changed]|] eqn:Hp; [|exact I].
    assert (Hlen : (1 + (length prods - 1) <= length prods)%nat) by lia.
    destruct (sortkeys_pass_inv _ _ _ _ _ _ Hinv Hlen Hp)
      as (J1 & J2 & J3 & J4 & J5).
    destruct changed.
    + apply IH; [exact J1|].
      destruct (J4 eq_refl) as [Hf|Hlt]; [discriminate | lia].
    + destruct (J5 eq_refl) as (_ & -> & Hall).
      split; [exact Hinv|]. intros k Hk. apply Hall. lia.
Qed.

End KeysFixpoint.

(** *** The effective length of a right hand side *)

Lemma is_epsilon_kind s :
  is_epsilon s = true -> is_nonterminal s = false /\ is_costed s = false.
Proof.
  unfold is_epsilon, is_costed, is_nonterminal. intros H.
  apply andb_true_iff in H as [Ht He].
  destruct (sym_type s); try discriminate. cbn. rewrite He. auto.
Qed.

Lemma effective_length_spec rhs : forall count len,
  (len <= count)%nat ->
  (len <= effective_length rhs count len)%nat /\
  forall j s, rhs !! j = Some s ->
              (effective_length rhs count len <= count + j)%nat ->
              is_epsilon s = true.
Proof.
  induction rhs as [|x rhs IH]; intros count len Hle; cbn [effective_length].
  - split; [lia|]. intros j s H. discriminate.
  - destruct (IH (S count) (if is_epsilon x then len else S count))
      as [I1 I2]; [destruct (is_epsilon x); lia|].
    split; [destruct (is_epsilon x); lia|].
    intros [|j] s Hs He.
    + cbn in Hs. injection Hs as <-.
      destruct (is_epsilon x); [reflexivity | lia].
    + cbn in Hs. apply (I2 j s Hs). lia.
Qed.

Lemma filter_nil_forall {A : Type} (P : A -> bool) (l : list A) :
  (forall x, x ∈ l -> P x = false) -> List.filter P l = [].
Proof.
  induction l as [|x l IH]; intros H; [reflexivity|]. cbn.
  rewrite (H x) by left. apply IH. intros y Hy. apply H. now right.
Qed.

(** The symbols after the effective length count for nothing. *)
Lemma filter_effective (P : symbolentry -> bool) rhs :
  (forall s, is_epsilon s = true -> P s = false) ->
  List.filter P (take (effective_length rhs 0 0) rhs) = List.filter P rhs.
Proof.
  intros HP. set (e := effective_length rhs 0 0).
  rewrite <- (take_drop e rhs) at 2. rewrite List.filter_app.
  rewrite (filter_nil_forall P (drop e rhs)); [now rewrite app_nil_r|].
  intros s Hs. apply HP.
  apply list_elem_of_lookup in Hs as [j Hj]. rewrite lookup_drop in Hj.
  destruct (effective_length_spec rhs 0 0 (Nat.le_refl 0)) as [_ H].
  apply (H (e + j)%nat s Hj). fold e. lia.
Qed.

(** *** The run of a nonterminal and its alternatives *)

Local Abbreviation same_lhs :=
  (fun a b : production => lhside a = lhside b).

Lemma filter_length_lhs sym X Y :
  Forall2 same_lhs X Y ->
  length (List.filter (fun q => same_symbol (lhside q) sym) X)
  = length (List.filter (fun q => same_symbol (lhside q) sym) Y).
Proof.
  induction 1 as [|x y X Y Hxy _ IH]; [reflexivity|]. cbn.
  rewrite Hxy. destruct (same_symbol (lhside y) sym); cbn; lia.
Qed.

Lemma run_of_length_lhs sym X Y :
  Forall2 same_lhs X Y -> length (run_of sym X) = length (run_of sym Y).
Proof.
  induction 1 as [|x y X Y Hxy _ IH]; [reflexivity|]. cbn.
  rewrite Hxy. destruct (same_symbol (lhside y) sym); cbn; lia.
Qed.

Lemma filter_run_split sym l :
  exists rest,
    List.filter (fun q => same_symbol (lhside q) sym) l
    = run_of sym l ++ rest.
Proof.
  induction l as [|p l [rest IH]]; [now exists []|]. cbn.
  destruct (same_symbol (lhside p) sym).
  - exists rest. now rewrite IH.
  - eexists. reflexivity.
Qed.

(** The run that starts at index [k] holds all the alternatives as soon
    as it holds as many productions as there are alternatives. *)
Lemma alternatives_run sym l k :
  (1 <= k)%nat ->
  length (alternatives l sym) = length (run_of sym (drop k l)) ->
  alternatives l sym = run_of sym (drop k l).
Proof.
  intros Hk Hlen. unfold alternatives in *.
  assert (E : drop 1 l = take (k - 1) (drop 1 l) ++ drop k l).
  { rewrite <- (take_drop (k - 1) (drop 1 l)) at 1. f_equal.
    rewrite drop_drop. f_equal. lia. }
  rewrite E in *. rewrite List.filter_app in *.
  destruct (filter_run_split sym (drop k l)) as [rest Hrest].
  rewrite Hrest in *. rewrite !length_app in Hlen.
  assert (Hpre : List.filter (fun q => same_symbol (lhside q) sym)
                   (take (k - 1) (drop 1 l)) = [])
    by (apply length_zero_iff_nil; lia).
  assert (Hnil : rest = []) by (apply length_zero_iff_nil; lia).
  rewrite Hpre, Hnil. cbn. apply app_nil_r.
Qed.

Lemma below_same_lhs X Y : Forall2 below X Y -> Forall2 same_lhs X Y.
Proof.
  intros H. eapply Forall2_impl; [exact H|].
  intros a b [[Hl _] _]. exact Hl.
Qed.

Lemma alternatives_run_shape sym X Y k :
  Forall2 same_lhs X Y -> (1 <= k)%nat ->
  alternatives Y sym = run_of sym (drop k Y) ->
  alternatives X sym = run_of sym (drop k X).
Proof.
  intros HXY Hk HY. apply alternatives_run; [exact Hk|].
  unfold alternatives in *.
  rewrite (filter_length_lhs sym (drop 1 X) (drop 1 Y))
    by (apply Forall2_drop, HXY).
  rewrite (run_of_length_lhs sym (drop k X) (drop k Y))
    by (apply Forall2_drop, HXY).
  now rewrite HY.
Qed.

(** *** The keys at the fixpoint *)

Lemma rhs_keys_le_max termcount lhsindex X rhs : forall a b st ins,
  a <= INT_MAX -> b <= INT_MAX ->
  checked_rhs_keys termcount lhsindex X rhs a b = Some (st, ins) ->
  st <= INT_MAX /\ ins <= INT_MAX.
Proof.
  induction rhs as [|sym rest IH]; intros a b st ins Ha Hb H.
  - cbn in H. injection H as <- <-. lia.
  - destruct (symbol_kind sym) as [[Hn Hc]|[[Hn Hc]|[Hn Hc]]].
    + rewrite rhs_keys_nonterminal in H by exact Hn.
      destruct (checked_add_key a _) as [a1|] eqn:E1; [|discriminate].
      destruct (checked_add_key b _) as [b1|] eqn:E2; [|discriminate].
      apply add_key_some in E1, E2.
      apply (IH a1 b1); [lia | lia | exact H].
    + rewrite rhs_keys_costed in H by exact Hc.
      destruct (checked_add_cost b _) as [b1|] eqn:E1; [|discriminate].
      apply add_cost_some in E1.
      apply (IH a b1); [lia | lia | exact H].
    + rewrite rhs_keys_epsilon in H by assumption.
      now apply (IH a b).
Qed.

Section Equations.
Context (termcount nontermcount : Z) (lhsindex : list nat)
        (rules : list (symbolentry * list symbolentry * Z)).

Local Abbreviation prods0 := (initial_productions rules).
Hypothesis grammar : grammar_ok termcount nontermcount lhsindex prods0.

Lemma initial_production i p :
  (1 <= i)%nat -> prods0 !! i = Some p ->
  plength p = effective_length (rhside p) 0 0 /\
  steps p = INT_MAX /\ pinsert p = INT_MAX.
Proof.
  intros Hi Hp. unfold initial_productions in Hp.
  destruct i as [|i]; [lia|].
  change (map (fun r => new_production (fst (fst r)) (snd (fst r)) (snd r))
            rules !! i = Some p) in Hp.
  rewrite list_lookup_fmap in Hp.
  destruct (rules !! i) as [r|]; [|discriminate].
  cbn in Hp. injection Hp as <-. cbn. auto.
Qed.

(** The invariant holds when [compute_sortkeys] starts. *)
Lemma initial_inv : keys_inv termcount lhsindex prods0 prods0.
Proof.
  split.
  - apply below_list_refl.
  - apply Forall_lookup. intros i p Hp.
    destruct i as [|i].
    + cbn in Hp. injection Hp as <-. unfold in_range. cbn.
      pose proof INT_MAX_pos. lia.
    + unfold in_range.
      destruct (initial_production (S i) p) as (_ & -> & ->);
        [lia | exact Hp|].
      pose proof INT_MAX_pos. lia.
  - apply Forall_forall. intros p Hp. unfold costs_ok.
    apply Forall_forall. intros s Hs.
    exact (ok_costs _ _ _ _ grammar p s Hp Hs).
  - intros i p X st ins Hi Hp HX Hsums.
    destruct (initial_production i p Hi Hp) as (_ & -> & ->).
    destruct (rhs_keys_le_max _ _ _ _ 0 0 st ins
                ltac:(pose proof INT_MAX_pos; lia)
                ltac:(pose proof INT_MAX_pos; lia) Hsums) as [_ Hins].
    unfold saturate. split; [lia | exact Hins].
Qed.

(** At a fixpoint the keys are the sums of the specification. *)
Lemma fixed_keys r i p :
  keys_inv termcount lhsindex prods0 r ->
  keys_fixed termcount lhsindex r ->
  (1 <= i)%nat -> r !! i = Some p ->
  steps p = spec_steps r p /\ pinsert p = spec_insert r p.
Proof.
  intros [Hbelow Hrange Hcosts Hbound] Hfixed Hi Hp.
  pose proof INT_MAX_pos as Hmax.
  assert (Hlt : (i < length r)%nat) by (eapply lookup_lt_Some; eassumption).
  pose proof (Hfixed i ltac:(lia)) as Hu.
  rewrite (update_keys_eq termcount lhsindex r i p Hp) in Hu.
  destruct (checked_rhs_keys termcount lhsindex r (take (plength p) (rhside p)) 0 0)
    as [[st ins]|] eqn:Hkeys; [|discriminate].
  injection Hu as _ Hlow.
  destruct (updated_facts p st ins) as (_ & _ & _ & _ & F5 & _).
  destruct (F5 Hlow) as (_ & L1 & L2).
  destruct (Hbound i p r st ins Hi Hp (below_list_refl r) Hkeys)
    as [B1 B2].
  assert (Hp_range : in_range p)
    by (rewrite Forall_forall in Hrange; apply Hrange;
        apply list_elem_of_lookup; eauto).
  assert (Hp_costs : costs_ok p)
    by (rewrite Forall_forall in Hcosts; apply Hcosts;
        apply list_elem_of_lookup; eauto).
  destruct (rhs_keys_sums termcount lhsindex r _ Hrange 0 0 st ins
              (Forall_take _ _ _ Hp_costs) ltac:(lia) ltac:(lia) Hkeys)
    as [Hst Hins].
  (* the production as it was read *)
  destruct (Forall2_lookup_l _ _ _ _ _ Hbelow Hp)
    as (p0 & Hp0 & (Hl & Hrhs & Hlen & _) & _).
  destruct (initial_production i p0 Hi Hp0) as (Heff & _ & _).
  assert (Hplen : plength p = effective_length (rhside p) 0 0)
    by congruence.
  rewrite Hplen in Hst, Hins.
  rewrite (filter_effective is_nonterminal) in Hst, Hins
    by (intros s Hs; apply is_epsilon_kind in Hs; tauto).
  rewrite (filter_effective is_costed) in Hins
    by (intros s Hs; apply is_epsilon_kind in Hs; tauto).
  (* the runs are the alternatives *)
  assert (Hruns : forall s, s ∈ List.filter is_nonterminal (rhside p) ->
            run_steps termcount lhsindex r s = least steps (alternatives r s)
            /\ run_insert termcount lhsindex r s
               = least pinsert (alternatives r s)).
  { intros s Hs. apply list_elem_of_In, filter_In in Hs as [Hs Hn].
    apply list_elem_of_In in Hs.
    assert (Hp0in : p0 ∈ prods0) by (apply list_elem_of_lookup; eauto).
    rewrite Hrhs in Hs.
    pose proof (ok_runs _ _ _ _ grammar p0 s Hp0in Hs Hn) as Hrun.
    unfold run_steps, run_insert.
    rewrite (alternatives_run_shape s r prods0
               (lhs_start termcount lhsindex s)
               (below_same_lhs _ _ Hbelow)
               (ok_start _ _ _ _ grammar p0 s Hp0in Hs Hn) Hrun).
    auto. }
  assert (Hmap1 : map (run_steps termcount lhsindex r)
                    (List.filter is_nonterminal (rhside p))
                  = map (fun n => least steps (alternatives r n))
                      (List.filter is_nonterminal (rhside p))).
  { apply map_ext_in. intros s Hs. apply list_elem_of_In in Hs.
    now destruct (Hruns s Hs). }
  assert (Hmap2 : map (run_insert termcount lhsindex r)
                    (List.filter is_nonterminal (rhside p))
                  = map (fun n => least pinsert (alternatives r n))
                      (List.filter is_nonterminal (rhside p))).
  { apply map_ext_in. intros s Hs. apply list_elem_of_In in Hs.
    now destruct (Hruns s Hs). }
  rewrite Hmap1 in Hst. rewrite Hmap2 in Hins.
  unfold spec_steps, spec_insert.
  assert (Hsum : 0 <= sum_list
                        (map (fun n => least steps (alternatives r n))
                           (List.filter is_nonterminal (rhside p)))).
  { rewrite <- Hmap1. apply sum_list_nonneg, Forall_forall. intros v Hv.
    apply list_elem_of_fmap in Hv as (s & -> & _).
    apply run_steps_range, Hrange. }
  unfold in_range in Hp_range. unfold saturate in *.
  split; lia.
Qed.

End Equations.

(** * The sums of the sort keys within the range of [int] *)

Lemma key_bound_nonneg len cost k :
  0 <= len -> 0 <= cost -> 0 <= key_bound len cost k.
Proof.
  intros Hl Hc. induction k as [|k IH]; cbn [key_bound]; [lia|].
  pose proof (Z.mul_nonneg_nonneg len (key_bound len cost k) Hl IH). lia.
Qed.

Lemma key_bound_step len cost k :
  0 <= len -> 0 <= cost ->
  key_bound len cost k <= key_bound len cost (S k).
Proof.
  intros Hl Hc. induction k as [|k IH].
  - cbn [key_bound]. lia.
  - change (key_bound len cost (S (S k)))
      with (cost + len * key_bound len cost (S k)).
    change (key_bound len cost (S k)) with (cost + len * key_bound len cost k)
      at 1.
    apply Z.add_le_mono_l, Z.mul_le_mono_nonneg_l; assumption.
Qed.

Lemma key_bound_mono len cost j k :
  0 <= len -> 0 <= cost -> (j <= k)%nat ->
  key_bound len cost j <= key_bound len cost k.
Proof.
  intros Hl Hc. induction 1 as [|k _ IH]; [lia|].
  pose proof (key_bound_step len cost k Hl Hc). lia.
Qed.

(** The least key of a list is infinite or the finite key of one of its
    productions. *)
Lemma least_cases f l :
  least f l = INT_MAX \/ exists q, q ∈ l /\ least f l = f q /\ f q < INT_MAX.
Proof.
  induction l as [|p l IH]; [left; apply least_nil|].
  rewrite least_cons. pose proof (least_le_max f l) as Hle.
  destruct (Z.le_gt_cases (f p) (least f l)) as [H|H].
  - rewrite Z.min_l by exact H.
    destruct (Z.eq_dec (f p) INT_MAX) as [E|E]; [now left|].
    right. exists p. split; [left|]. split; [reflexivity | lia].
  - rewrite Z.min_r by lia. destruct IH as [E|(q & Hq & E & Hlt)].
    + now left.
    + right. exists q. split; [now right | now split].
Qed.

Lemma filter_count_insert (P : production -> bool) (l : list production) :
  forall i p q, l !! i = Some p ->
    (length (List.filter P (<[i := q]> l)) + (if P p then 1 else 0)
     = length (List.filter P l) + (if P q then 1 else 0))%nat.
Proof.
  induction l as [|x l IH]; intros i p q Hp; [discriminate|].
  destruct i as [|i].
  - injection Hp as ->. cbn [list_insert List.filter].
    change (<[0%nat := q]> (p :: l)) with (q :: l). cbn [List.filter].
    destruct (P p), (P q); cbn [length]; lia.
  - change (<[S i := q]> (x :: l)) with (x :: <[i := q]> l).
    change ((x :: l) !! S i) with (l !! i) in Hp.
    specialize (IH i p q Hp). cbn [List.filter].
    destruct (P x); cbn [length]; lia.
Qed.

Lemma finite_keys_length f l : (finite_keys f l <= length l)%nat.
Proof.
  unfold finite_keys. induction l as [|x l IH]; [cbn; lia|].
  cbn [List.filter]. destruct (f x <? INT_MAX); cbn [length]; lia.
Qed.

Lemma checked_add_key_fits a m x w :
  (a = INT_MAX \/ 0 <= a <= x) -> (m = INT_MAX \/ 0 <= m <= w) ->
  x + w < INT_MAX ->
  exists r, checked_add_key a m = Some r /\
            (r = INT_MAX \/ 0 <= r <= x + w).
Proof.
  intros Ha Hm Hx. unfold checked_add_key, checked, INT_MIN.
  destruct (Z.ltb_spec a INT_MAX); destruct (Z.ltb_spec m INT_MAX);
    cbn [andb]; try (exists INT_MAX; split; [reflexivity | now left]).
  destruct (Z.leb_spec (- INT_MAX - 1) (a + m)); [|lia].
  destruct (Z.leb_spec (a + m) INT_MAX); [|lia].
  cbn [andb]. exists (a + m). split; [reflexivity | right; lia].
Qed.

Lemma checked_add_cost_fits a c x :
  (a = INT_MAX \/ 0 <= a <= x) -> 0 <= c -> x + c < INT_MAX ->
  exists r, checked_add_cost a c = Some r /\
            (r = INT_MAX \/ 0 <= r <= x + c).
Proof.
  intros Ha Hc Hx. unfold checked_add_cost, checked, INT_MIN.
  destruct (Z.ltb_spec a INT_MAX);
    [|exists a; split; [reflexivity | left; lia]].
  destruct (Z.leb_spec (- INT_MAX - 1) (a + c)); [|lia].
  destruct (Z.leb_spec (a + c) INT_MAX); [|lia].
  cbn [andb]. exists (a + c). split; [reflexivity | right; lia].
Qed.

Section NoWrap.
Context (termcount : Z) (lhsindex : list nat) (len cost : Z).
Hypothesis Hlen : 0 <= len.
Hypothesis Hcost : 1 <= cost.

Local Abbreviation W := (key_bound len cost).

(** A lowered key of one production keeps the finite keys within the
    bound. *)
Lemma capped_insert f l i p q :
  l !! i = Some p -> capped len cost f l ->
  f q = f p \/ (f q < f p /\ f q <= W (S (finite_keys f l))) ->
  capped len cost f (<[i := q]> l).
Proof.
  intros Hp Hcap Hq r Hr Hfin.
  pose proof (filter_count_insert (fun p => f p <? INT_MAX) l i p q Hp)
    as Hcnt.
  fold (finite_keys f (<[i := q]> l)) in Hcnt. fold (finite_keys f l) in Hcnt.
  assert (Hpin : p ∈ l) by (apply list_elem_of_lookup; eauto).
  assert (Hmono : forall j k, (j <= k)%nat -> W j <= W k)
    by (intros j k; apply key_bound_mono; lia).
  assert (Hcases : r = q \/ r ∈ l).
  { apply list_elem_of_lookup in Hr as [k Hk].
    destruct (decide (k = i)) as [->|Hne].
    - rewrite list_lookup_insert_eq in Hk
        by (eapply lookup_lt_Some; eassumption).
      left. congruence.
    - rewrite list_lookup_insert_ne in Hk by congruence.
      right. apply list_elem_of_lookup. eauto. }
  cbv beta in Hcnt. revert Hcnt.
  destruct (Z.ltb_spec (f p) INT_MAX) as [Fp|Fp];
    destruct (Z.ltb_spec (f q) INT_MAX) as [Fq|Fq]; intros Hcnt;
    destruct Hq as [E|[Hlt Hb]]; try lia.
  - assert (En : finite_keys f (<[i := q]> l) = finite_keys f l) by lia.
    rewrite En. destruct Hcases as [->|Hin]; [|now apply Hcap].
    rewrite E. now apply Hcap.
  - assert (En : finite_keys f (<[i := q]> l) = finite_keys f l) by lia.
    rewrite En. destruct Hcases as [->|Hin]; [|now apply Hcap].
    specialize (Hcap p Hpin Fp). lia.
  - assert (En : finite_keys f (<[i := q]> l) = S (finite_keys f l)) by lia.
    rewrite En. destruct Hcases as [->|Hin]; [exact Hb|].
    specialize (Hcap r Hin Hfin).
    specialize (Hmono (finite_keys f l) (S (finite_keys f l)) ltac:(lia)).
    lia.
  - assert (En : finite_keys f (<[i := q]> l) = finite_keys f l) by lia.
    rewrite En. destruct Hcases as [->|Hin]; [lia | now apply Hcap].
  - assert (En : finite_keys f (<[i := q]> l) = finite_keys f l) by lia.
    rewrite En. destruct Hcases as [->|Hin]; [lia | now apply Hcap].
Qed.

(** The least key of a run is infinite or within the bound. *)
Lemma run_least_capped f prods sym :
  Forall in_range prods -> capped len cost f prods ->
  (f = steps \/ f = pinsert) ->
  let m := least f (run_of sym (drop (lhs_start termcount lhsindex sym)
                                  prods)) in
  m = INT_MAX \/ 0 <= m <= W (finite_keys f prods).
Proof.
  intros Hr Hcap Hf m.
  destruct (least_cases f (run_of sym
              (drop (lhs_start termcount lhsindex sym) prods)))
    as [E|(q & Hq & E & Hlt)]; [now left|].
  right. apply run_of_elem, elem_of_drop_list in Hq.
  fold m in E. rewrite E. split; [|now apply Hcap].
  rewrite Forall_forall in Hr. specialize (Hr q Hq).
  unfold in_range in Hr. destruct Hf as [-> | ->]; lia.
Qed.

(** Within the bound no sum of the loop over a right hand side leaves
    the range of [int]. *)
Lemma checked_rhs_keys_fits prods rhs :
  Forall in_range prods ->
  capped len cost steps prods -> capped len cost pinsert prods ->
  Forall (fun s => 0 <= sym_insert s) rhs ->
  forall st ins a b,
    (st = INT_MAX \/ 0 <= st <= a) -> (ins = INT_MAX \/ 0 <= ins <= b) ->
    a + Z.of_nat (length rhs) * W (finite_keys steps prods) < INT_MAX ->
    b + sum_list (map sym_insert (List.filter is_costed rhs))
      + Z.of_nat (length rhs) * W (finite_keys pinsert prods) < INT_MAX ->
    exists st' ins',
      checked_rhs_keys termcount lhsindex prods rhs st ins
      = Some (st', ins') /\
      (st' = INT_MAX \/
       0 <= st' <= a + Z.of_nat (length rhs)
                        * W (finite_keys steps prods)) /\
      (ins' = INT_MAX \/
       0 <= ins' <= b + sum_list (map sym_insert
                                    (List.filter is_costed rhs))
                      + Z.of_nat (length rhs)
                        * W (finite_keys pinsert prods)).
Proof.
  intros Hr Hcs Hci.
  set (Ws := W (finite_keys steps prods)).
  set (Wi := W (finite_keys pinsert prods)).
  assert (HWs : 0 <= Ws) by (apply key_bound_nonneg; lia).
  assert (HWi : 0 <= Wi) by (apply key_bound_nonneg; lia).
  pose proof INT_MAX_pos as Hmax.
  induction rhs as [|sym rest IH]; intros Hc st ins a b Hst Hins Ha Hb.
  - exists st, ins. cbn [checked_rhs_keys length List.filter map sum_list
                           fold_right] in *.
    split; [reflexivity|]. split; [lia|].
    change (sum_list []) with 0 in *. lia.
  - inversion Hc as [|? ? Hsym Hrest]; subst.
    specialize (IH Hrest).
    assert (Hcrest : 0 <= sum_list (map sym_insert
                                      (List.filter is_costed rest))).
    { apply sum_list_nonneg, Forall_forall. intros v Hv.
      apply list_elem_of_fmap in Hv as (s & -> & Hs).
      apply list_elem_of_In, filter_In in Hs as [Hs _].
      rewrite Forall_forall in Hrest. apply Hrest.
      now apply list_elem_of_In. }
    rewrite length_cons, Nat2Z.inj_succ in *.
    destruct (symbol_kind sym) as [[K1 K2]|[[K1 K2]|[K1 K2]]].
    + rewrite (rhs_keys_nonterminal termcount lhsindex prods sym rest st ins
                 K1).
      cbn [List.filter] in *. rewrite K2 in *.
      destruct (run_least_capped steps prods sym Hr Hcs ltac:(now left))
        as [Ms|Ms];
        destruct (run_least_capped pinsert prods sym Hr Hci
                    ltac:(now right)) as [Mi|Mi];
        cbv zeta in Ms, Mi; fold Ws in Ms; fold Wi in Mi;
        unfold run_steps, run_insert.
      all: set (ms := least steps _) in *; set (mi := least pinsert _) in *.
      all: destruct (checked_add_key_fits st ms a Ws Hst ltac:(lia)
                       ltac:(lia)) as (st1 & Es & Hst1).
      all: destruct (checked_add_key_fits ins mi b Wi Hins ltac:(lia)
                       ltac:(lia)) as (ins1 & Ei & Hins1).
      all: rewrite Es, Ei.
      all: destruct (IH st1 ins1 (a + Ws) (b + Wi) Hst1 Hins1
                       ltac:(lia) ltac:(lia)) as (st' & ins' & E & B1 & B2).
      all: exists st', ins'; split; [exact E|]; split; lia.
    + rewrite (rhs_keys_costed termcount lhsindex prods sym rest st ins K2).
      cbn [List.filter map] in *. rewrite K2 in *.
      cbn [map] in *. rewrite sum_list_cons in *.
      assert (0 <= Z.of_nat (length rest) * Wi) by nia.
      destruct (checked_add_cost_fits ins (sym_insert sym) b Hins Hsym
                  ltac:(lia)) as (ins1 & Ei & Hins1).
      rewrite Ei.
      assert (0 <= Z.of_nat (length rest) * Ws) by nia.
      destruct (IH st ins1 a (b + sym_insert sym) Hst Hins1
                  ltac:(lia) ltac:(lia)) as (st' & ins' & E & B1 & B2).
      exists st', ins'. split; [exact E|]. split; lia.
    + rewrite (rhs_keys_epsilon termcount lhsindex prods sym rest st ins
                 K1 K2).
      cbn [List.filter] in *. rewrite K2 in *.
      assert (0 <= Z.of_nat (length rest) * Ws) by nia.
      assert (0 <= Z.of_nat (length rest) * Wi) by nia.
      destruct (IH st ins a b Hst Hins ltac:(lia) ltac:(lia))
        as (st' & ins' & E & B1 & B2).
      exists st', ins'. split; [exact E|]. split; lia.
Qed.
(** The costs of a prefix of a right hand side. *)
Lemma take_cost rhs : forall n,
  Forall (fun s => 0 <= sym_insert s) rhs ->
  0 <= sum_list (map sym_insert (List.filter is_costed (take n rhs)))
    <= sum_list (map sym_insert (List.filter is_costed rhs)).
Proof.
  induction rhs as [|x rhs IH]; intros n Hc.
  - rewrite take_nil. cbn. lia.
  - inversion Hc as [|? ? Hx Hrest]; subst.
    assert (Hall : 0 <= sum_list (map sym_insert
                                    (List.filter is_costed (x :: rhs)))).
    { apply sum_list_nonneg, Forall_forall. intros v Hv.
      apply list_elem_of_fmap in Hv as (s & -> & Hs).
      apply list_elem_of_In, filter_In in Hs as [Hs _].
      rewrite Forall_forall in Hc. apply Hc. now apply list_elem_of_In. }
    destruct n as [|n].
    { change (take 0 (x :: rhs)) with (@nil symbolentry).
      change (sum_list (map sym_insert (List.filter is_costed []))) with 0.
      lia. }
    change (take (S n) (x :: rhs)) with (x :: take n rhs).
    clear Hall. cbn [List.filter]. specialize (IH n Hrest).
    destruct (is_costed x); cbn [map]; rewrite ?sum_list_cons; lia.
Qed.

(** The update of a production within the bound: no sum leaves the
    range of [int], and the lowered keys are within the bound again. *)
Lemma checked_update_fits prods0 prods i :
  keys_inv termcount lhsindex prods0 prods ->
  rhs_within len cost prods ->
  capped len cost steps prods -> capped len cost pinsert prods ->
  W (S (length prods)) < INT_MAX ->
  (i < length prods)%nat ->
  exists prods' c,
    checked_update_keys termcount lhsindex prods i = Some (prods', c) /\
    rhs_within len cost prods' /\
    capped len cost steps prods' /\ capped len cost pinsert prods'.
Proof.
  intros Hinv Hrhs Hcs Hci Hfit Hi.
  pose proof Hinv as [Hbelow Hrange Hcosts Hbound].
  destruct (lookup_lt_is_Some_2 prods i Hi) as [p Hp].
  assert (Hpin : p ∈ prods) by (apply list_elem_of_lookup; eauto).
  rewrite (update_keys_eq termcount lhsindex prods i p Hp).
  assert (Hp_range : in_range p)
    by (rewrite Forall_forall in Hrange; now apply Hrange).
  assert (Hp_costs : costs_ok p)
    by (rewrite Forall_forall in Hcosts; now apply Hcosts).
  destruct (Hrhs p Hpin) as [Hplen Hpcost].
  set (rhs := take (plength p) (rhside p)).
  assert (Htake : Forall (fun s => 0 <= sym_insert s) rhs)
    by (apply Forall_take; exact Hp_costs).
  destruct (take_cost (rhside p) (plength p) Hp_costs) as [Hc0 Hc1].
  fold rhs in Hc0, Hc1. unfold rhs_cost in Hpcost.
  set (ns := finite_keys steps prods) in *.
  set (ni := finite_keys pinsert prods) in *.
  assert (Hns : (ns <= length prods)%nat) by apply finite_keys_length.
  assert (Hni : (ni <= length prods)%nat) by apply finite_keys_length.
  assert (HWs : 0 <= W ns) by (apply key_bound_nonneg; lia).
  assert (HWi : 0 <= W ni) by (apply key_bound_nonneg; lia).
  assert (HSs : W (S ns) < INT_MAX).
  { pose proof (key_bound_mono len cost (S ns) (S (length prods))
                  Hlen ltac:(lia) ltac:(lia)). lia. }
  assert (HSi : W (S ni) < INT_MAX).
  { pose proof (key_bound_mono len cost (S ni) (S (length prods))
                  Hlen ltac:(lia) ltac:(lia)). lia. }
  change (W (S ns)) with (cost + len * W ns) in HSs.
  change (W (S ni)) with (cost + len * W ni) in HSi.
  assert (Hrl : Z.of_nat (length rhs) <= len).
  { unfold rhs. rewrite length_take. lia. }
  assert (Hms : Z.of_nat (length rhs) * W ns <= len * W ns)
    by (apply Z.mul_le_mono_nonneg_r; lia).
  assert (Hmi : Z.of_nat (length rhs) * W ni <= len * W ni)
    by (apply Z.mul_le_mono_nonneg_r; lia).
  destruct (checked_rhs_keys_fits prods rhs Hrange Hcs Hci Htake 0 0 0 0
              ltac:(right; lia) ltac:(right; lia) ltac:(fold ns; lia)
              ltac:(fold ni; lia)) as (st & ins & E & Bs & Bi).
  fold ns in Bs. fold ni in Bi. rewrite E.
  eexists _, _. split; [reflexivity|].
  destruct (updated_facts p st ins) as (F1 & F2 & F3 & _ & _ & F6 & F7).
  cbv zeta in *. set (q := updated p st ins) in *.
  split; [|split].
  - intros r Hr. apply list_elem_of_lookup in Hr as [k Hk].
    destruct (decide (k = i)) as [->|Hne].
    + rewrite list_lookup_insert_eq in Hk by exact Hi. injection Hk as <-.
      destruct F1 as (_ & Er & _). unfold rhs_cost. rewrite Er.
      split; [exact Hplen | exact Hpcost].
    + rewrite list_lookup_insert_ne in Hk by congruence.
      apply Hrhs. apply list_elem_of_lookup. eauto.
  - apply (capped_insert steps prods i p q Hp Hcs). fold ns.
    change (W (S ns)) with (cost + len * W ns).
    destruct F6 as [E6|[E6 Hfin]]; [now left|].
    destruct (Z.eq_dec (steps q) (steps p)) as [Eq|Eq]; [now left|].
    right. split; lia.
  - apply (capped_insert pinsert prods i p q Hp Hci). fold ni.
    change (W (S ni)) with (cost + len * W ni).
    destruct F7 as [E7|E7]; [now left|].
    destruct (Z.eq_dec (pinsert q) (pinsert p)) as [Eq|Eq]; [now left|].
    right. unfold in_range in Hp_range. split; lia.
Qed.

(** A pass within the bound. *)
Lemma checked_pass_fits prods0 n : forall i prods changed,
  keys_inv termcount lhsindex prods0 prods ->
  rhs_within len cost prods ->
  capped len cost steps prods -> capped len cost pinsert prods ->
  W (S (length prods)) < INT_MAX ->
  (i + n <= length prods)%nat ->
  exists prods' changed',
    checked_pass termcount lhsindex n i prods changed
    = Some (prods', changed') /\
    rhs_within len cost prods' /\
    capped len cost steps prods' /\ capped len cost pinsert prods'.
Proof.
  induction n as [|n IH]; intros i prods changed Hinv Hrhs Hcs Hci Hfit Hn.
  - exists prods, changed. cbn. auto.
  - cbn [checked_pass].
    destruct (checked_update_fits prods0 prods i Hinv Hrhs Hcs Hci Hfit
                ltac:(lia)) as (prods1 & c & E & R1 & C1 & C2).
    rewrite E.
    destruct (update_keys_inv termcount lhsindex prods0 prods i prods1 c
                Hinv ltac:(lia) E) as (I1 & _).
    pose proof (update_length termcount lhsindex _ _ _ _ E) as Hl.
    apply IH; try assumption; rewrite Hl; [exact Hfit | lia].
Qed.

(** Within the bound [checked_sortkeys] never meets a sum outside the
    range of [int]. *)
Lemma checked_sortkeys_fits prods0 fuel : forall prods,
  keys_inv termcount lhsindex prods0 prods ->
  rhs_within len cost prods ->
  capped len cost steps prods -> capped len cost pinsert prods ->
  W (S (length prods)) < INT_MAX ->
  checked_sortkeys termcount lhsindex fuel prods <> Overflow.
Proof.
  induction fuel as [|fuel IH]; intros prods Hinv Hrhs Hcs Hci Hfit;
    [discriminate|].
  cbn [checked_sortkeys].
  destruct (Nat.eq_dec (length prods) 0%nat) as [Hz|Hnz].
  { rewrite Hz. cbn. discriminate. }
  destruct (checked_pass_fits prods0 (length prods - 1) 1 prods false
              Hinv Hrhs Hcs Hci Hfit ltac:(lia))
    as (prods' & changed & E & R1 & C1 & C2).
  rewrite E.
  destruct (sortkeys_pass_inv termcount lhsindex prods0
              (length prods - 1)%nat 1%nat prods false prods' changed Hinv
              ltac:(lia) E) as (J1 & J2 & _).
  destruct changed; [|discriminate].
  apply IH; try assumption. now rewrite J2.
Qed.
End NoWrap.

(** ** The loops of [compute_sortkeys] and the checked ones agree *)

Lemma checked_wrap v r : checked v = Some r -> wrap_int v = r.
Proof.
  unfold checked. destruct (_ && _) eqn:E; [|discriminate].
  intros H. injection H as <-. apply andb_true_iff in E as [E1 E2].
  apply Z.leb_le in E1. apply Z.leb_le in E2. apply wrap_int_id. lia.
Qed.

Lemma checked_add_key_eq a m r :
  checked_add_key a m = Some r -> add_key a m = r.
Proof.
  unfold checked_add_key, add_key. destruct (_ && _).
  - apply checked_wrap.
  - congruence.
Qed.

Lemma checked_add_cost_eq a c r :
  checked_add_cost a c = Some r -> add_cost a c = r.
Proof.
  unfold checked_add_cost, add_cost. destruct (a <? INT_MAX).
  - apply checked_wrap.
  - congruence.
Qed.

Section Agree.
Context (termcount : Z) (lhsindex : list nat).

Lemma checked_rhs_keys_eq prods rhs : forall st ins r,
  checked_rhs_keys termcount lhsindex prods rhs st ins = Some r ->
  rhs_keys termcount lhsindex prods rhs st ins = r.
Proof.
  induction rhs as [|sym rest IH]; intros st ins r H.
  - cbn in *. congruence.
  - cbn [checked_rhs_keys rhs_keys] in *.
    destruct (symtype_eqb (sym_type sym) NONTERMINAL).
    + destruct (min_keys _ _ _ _) as [ms mi].
      destruct (checked_add_key st ms) as [st'|] eqn:E1; [|discriminate].
      destruct (checked_add_key ins mi) as [ins'|] eqn:E2; [|discriminate].
      rewrite (checked_add_key_eq _ _ _ E1), (checked_add_key_eq _ _ _ E2).
      now apply IH.
    + destruct (negb _).
      * destruct (checked_add_cost ins (sym_insert sym)) as [ins'|] eqn:E;
          [|discriminate].
        rewrite (checked_add_cost_eq _ _ _ E). now apply IH.
      * now apply IH.
Qed.

Lemma checked_update_keys_eq prods i r :
  checked_update_keys termcount lhsindex prods i = Some r ->
  update_keys termcount lhsindex prods i = r.
Proof.
  unfold checked_update_keys, update_keys.
  destruct (checked_rhs_keys _ _ _ _ _ _) as [[st ins]|] eqn:E;
    [|discriminate].
  rewrite (checked_rhs_keys_eq _ _ _ _ _ E). congruence.
Qed.

Lemma checked_pass_eq n : forall i prods changed r,
  checked_pass termcount lhsindex n i prods changed = Some r ->
  sortkeys_pass termcount lhsindex n i prods changed = r.
Proof.
  induction n as [|n IH]; intros i prods changed r H.
  - cbn in *. congruence.
  - cbn [checked_pass sortkeys_pass] in *.
    destruct (checked_update_keys _ _ _ _) as [[prods' c]|] eqn:E;
      [|discriminate].
    rewrite (checked_update_keys_eq _ _ _ E). now apply IH.
Qed.

Lemma checked_sortkeys_eq fuel : forall prods r,
  checked_sortkeys termcount lhsindex fuel prods = Value r ->
  compute_sortkeys termcount lhsindex fuel prods = Some r.
Proof.
  induction fuel as [|fuel IH]; intros prods r H; [discriminate|].
  cbn [checked_sortkeys compute_sortkeys] in *.
  destruct (checked_pass _ _ _ _ _ _) as [[prods' changed]|] eqn:E;
    [|discriminate].
  rewrite (checked_pass_eq _ _ _ _ _ E).
  destruct changed; [now apply IH | congruence].
Qed.

(** More passes than the loop needs change nothing. *)
Lemma compute_sortkeys_more fuel : forall prods r fuel',
  compute_sortkeys termcount lhsindex fuel prods = Some r ->
  (fuel <= fuel')%nat ->
  compute_sortkeys termcount lhsindex fuel' prods = Some r.
Proof.
  induction fuel as [|fuel IH]; intros prods r fuel' H Hle; [discriminate|].
  destruct fuel' as [|fuel']; [lia|].
  cbn [compute_sortkeys] in *.
  destruct (sortkeys_pass _ _ _ _ _ _) as [prods' changed].
  destruct changed; [|exact H]. apply (IH _ _ _ H). lia.
Qed.
End Agree.

(** ** The order of the alternatives (sort_productions) *)

Lemma key_less_false a b : key_less a b = false -> key_le b a.
Proof.
  unfold key_less, key_le. intros H.
  apply orb_false_iff in H as [H1 H2]. apply Z.ltb_ge in H1.
  apply andb_false_iff in H2 as [H2|H2];
    [apply Z.eqb_neq in H2 | apply Z.ltb_ge in H2]; lia.
Qed.

Lemma key_less_true a b : key_less a b = true -> key_le a b.
Proof.
  unfold key_less, key_le. intros H.
  apply orb_true_iff in H as [H|H]; [apply Z.ltb_lt in H; lia|].
  apply andb_true_iff in H as [H1 H2].
  apply Z.eqb_eq in H1. apply Z.ltb_lt in H2. lia.
Qed.

Lemma key_le_refl a : key_le a a.
Proof. unfold key_le. lia. Qed.

Lemma key_le_trans a b c : key_le a b -> key_le b c -> key_le a c.
Proof. unfold key_le. lia. Qed.

Lemma PRODUCTION_lookup prods i p :
  prods !! i = Some p -> PRODUCTION prods i = p.
Proof. intros H. unfold PRODUCTION. now rewrite H. Qed.

Lemma tokens_lookup (prods : list production) i :
  map lhs_token prods !! i = lhs_token <$> prods !! i.
Proof. apply list_lookup_fmap. Qed.

(** Every index starts a run, which may be empty. *)
Lemma run_exists (tokens : list Z) t : forall n j,
  (length tokens - j <= n)%nat -> exists e, is_run tokens t j e.
Proof.
  induction n as [|n IH]; intros j Hn.
  - exists j. split; [lia|]. split; [intros m Hm; lia|].
    rewrite lookup_ge_None_2 by lia. discriminate.
  - destruct (decide (tokens !! j = Some t)) as [Hj|Hj].
    + assert (j < length tokens)%nat by (eapply lookup_lt_Some; eassumption).
      destruct (IH (S j) ltac:(lia)) as (e & He & Hrun & Hend).
      exists e. split; [lia|]. split; [|exact Hend].
      intros m Hm. destruct (decide (m = j)) as [->|Hne]; [exact Hj|].
      apply Hrun. lia.
    + exists j. split; [lia|]. split; [intros m Hm; lia | exact Hj].
Qed.

Section SortRun.
Context (t : Z) (j e : nat).

(** The search for the smallest alternative in the run. *)
Lemma find_min_spec prods n : forall k min,
  is_run (map lhs_token prods) t j e ->
  (j <= min < k)%nat -> (k <= e)%nat ->
  (forall c pc, (j <= c < k)%nat -> prods !! c = Some pc ->
                key_le (PRODUCTION prods min) pc) ->
  (e - k < n)%nat ->
  let m := find_min prods t n k min in
  (j <= m < e)%nat /\
  forall c pc, (j <= c < e)%nat -> prods !! c = Some pc ->
               key_le (PRODUCTION prods m) pc.
Proof.
  induction n as [|n IH]; intros k min Hrun Hmin Hk Hinv Hn; [lia|].
  destruct Hrun as (Hje & Hin & Hend). cbn [find_min].
  destruct (prods !! k) as [p|] eqn:Hp.
  - destruct (lhs_token p =? t) eqn:Ht.
    + apply Z.eqb_eq in Ht.
      assert (Hke : (k < e)%nat).
      { destruct (decide (k = e)) as [->|Hne]; [|lia].
        exfalso. apply Hend. rewrite tokens_lookup, Hp. cbn. now rewrite Ht. }
      apply IH; [repeat split; assumption | | lia | | lia].
      * destruct (key_less p (PRODUCTION prods min)); lia.
      * intros c pc Hc Hpc.
        destruct (key_less p (PRODUCTION prods min)) eqn:Hless.
        -- rewrite (PRODUCTION_lookup prods k p Hp).
           destruct (decide (c = k)) as [->|Hne].
           ++ assert (pc = p) by congruence. subst pc. apply key_le_refl.
           ++ eapply key_le_trans; [apply key_less_true, Hless|].
              apply (Hinv c pc); [lia | exact Hpc].
        -- destruct (decide (c = k)) as [->|Hne].
           ++ assert (pc = p) by congruence. subst pc.
              now apply key_less_false.
           ++ apply (Hinv c pc); [lia | exact Hpc].
    + apply Z.eqb_neq in Ht.
      assert (Hke : k = e).
      { destruct (decide (k = e)) as [->|Hne]; [reflexivity|].
        exfalso. assert (Hlt : (j <= k < e)%nat) by lia.
        specialize (Hin k Hlt). rewrite tokens_lookup, Hp in Hin.
        cbn in Hin. congruence. }
      subst k. split; [lia | exact Hinv].
  - assert (Hke : k = e).
    { destruct (decide (k = e)) as [->|Hne]; [reflexivity|].
      exfalso. assert (Hlt : (j <= k < e)%nat) by lia.
      specialize (Hin k Hlt). rewrite tokens_lookup, Hp in Hin.
      discriminate. }
    subst k. split; [lia | exact Hinv].
Qed.

End SortRun.

(** The swap of two alternatives of the same nonterminal. *)
Lemma swap_productions_spec prods j m pj pm :
  prods !! j = Some pj -> prods !! m = Some pm ->
  lhs_token pj = lhs_token pm ->
  let r := swap_productions prods j m in
  length r = length prods /\
  map lhs_token r = map lhs_token prods /\
  r ≡ₚ prods /\
  r !! j = Some pm /\ r !! m = Some pj /\
  forall c, c <> j -> c <> m -> r !! c = prods !! c.
Proof.
  intros Hj Hm Htok. unfold swap_productions.
  destruct (j =? m)%nat eqn:E.
  - apply Nat.eqb_eq in E. subst m.
    assert (pm = pj) by congruence. subst pm.
    repeat split; auto.
  - apply Nat.eqb_neq in E.
    rewrite (PRODUCTION_lookup prods j pj Hj),
            (PRODUCTION_lookup prods m pm Hm).
    assert (Hjl : (j < length prods)%nat)
      by (eapply lookup_lt_Some; eassumption).
    assert (Hml : (m < length prods)%nat)
      by (eapply lookup_lt_Some; eassumption).
    split; [now rewrite !length_insert|]. split.
    { change (lhs_token <$> <[m:=pj]> (<[j:=pm]> prods) = lhs_token <$> prods).
      rewrite !list_fmap_insert.
      rewrite (list_insert_id (lhs_token <$> prods) j (lhs_token pm))
        by (rewrite list_lookup_fmap, Hj; cbn; now rewrite Htok).
      apply list_insert_id. rewrite list_lookup_fmap, Hm. cbn.
      now rewrite Htok. }
    split; [now apply Permutation_insert_swap|]. split.
    { rewrite list_lookup_insert_ne by congruence.
      apply list_lookup_insert_eq. exact Hjl. }
    split.
    { apply list_lookup_insert_eq. now rewrite length_insert. }
    intros c Hcj Hcm.
    now rewrite !list_lookup_insert_ne by congruence.
Qed.

(** The loop over the alternatives of a nonterminal sorts its run and
    leaves the other productions where they are. *)
Lemma sort_alternatives_spec t e n : forall j prods,
  is_run (map lhs_token prods) t j e ->
  (e - j <= n)%nat ->
  let r := sort_alternatives n j t prods in
  length r = length prods /\
  map lhs_token r = map lhs_token prods /\
  r ≡ₚ prods /\
  (forall c, (c < j \/ e <= c)%nat -> r !! c = prods !! c) /\
  (forall b pb, (j <= b < e)%nat -> r !! b = Some pb ->
     exists c, (j <= c < e)%nat /\ prods !! c = Some pb) /\
  (forall a b pa pb, (j <= a <= b)%nat -> (b < e)%nat ->
     r !! a = Some pa -> r !! b = Some pb -> key_le pa pb).
Proof.
  induction n as [|n IH]; intros j prods Hrun Hn.
  - destruct Hrun as (Hje & _ & _). cbn.
    repeat split; auto. intros b pb Hb. lia. intros a b pa pb Hab Hb. lia.
  - pose proof Hrun as (Hje & Hin & Hend). cbn [sort_alternatives].
    assert (Hstop : j = e ->
              let r := prods in
              length r = length prods /\
              map lhs_token r = map lhs_token prods /\
              r ≡ₚ prods /\
              (forall c, (c < j \/ e <= c)%nat -> r !! c = prods !! c) /\
              (forall b pb, (j <= b < e)%nat -> r !! b = Some pb ->
                 exists c, (j <= c < e)%nat /\ prods !! c = Some pb) /\
              (forall a b pa pb, (j <= a <= b)%nat -> (b < e)%nat ->
                 r !! a = Some pa -> r !! b = Some pb -> key_le pa pb)).
    { intros ->. cbn. repeat split; auto.
      intros b pb Hb. lia. intros a b pa pb Hab Hb. lia. }
    destruct (prods !! j) as [p|] eqn:Hp.
    + destruct (lhs_token p =? t) eqn:Ht.
      * apply Z.eqb_eq in Ht.
        assert (Hjlt : (j < e)%nat).
        { destruct (decide (j = e)) as [->|Hne]; [|lia].
          exfalso. apply Hend. rewrite tokens_lookup, Hp. cbn. now rewrite Ht. }
        assert (He_len : (e <= length prods)%nat).
        { destruct (decide (e <= length prods)%nat) as [H|H]; [exact H|].
          exfalso. assert (Hm : (j <= length prods < e)%nat).
          { apply lookup_lt_Some in Hp. lia. }
          specialize (Hin _ Hm).
          rewrite lookup_ge_None_2 in Hin by (rewrite length_map; lia).
          discriminate. }
        rewrite Ht.
        (* the smallest of the remaining alternatives *)
        destruct (find_min_spec t j e prods (length prods) (S j) j Hrun)
          as [Hm Hmin]; [lia | lia | | apply lookup_lt_Some in Hp; lia |].
        { intros c pc Hc Hpc. assert (c = j) by lia. subst c.
          rewrite (PRODUCTION_lookup prods j p Hp).
          assert (pc = p) by congruence. subst pc. apply key_le_refl. }
        cbv zeta in Hm, Hmin.
        set (m := find_min prods t (length prods) (S j) j) in *.
        destruct (lookup_lt_is_Some_2 prods m ltac:(lia)) as [pm Hpm].
        assert (Htm : lhs_token pm = t).
        { assert (Hmr : (j <= m < e)%nat) by lia.
          specialize (Hin m Hmr). rewrite tokens_lookup, Hpm in Hin.
          cbn in Hin. congruence. }
        destruct (swap_productions_spec prods j m p pm Hp Hpm
                    ltac:(congruence))
          as (S1 & S2 & S3 & S4 & S5 & S6).
        cbv zeta in *.
        set (prods1 := swap_productions prods j m) in *.
        assert (Hrun1 : is_run (map lhs_token prods1) t (S j) e).
        { rewrite S2. split; [lia|]. split; [|exact Hend].
          intros c Hc. apply Hin. lia. }
        destruct (IH (S j) prods1 Hrun1 ltac:(lia))
          as (R1 & R2 & R3 & R4 & R5 & R6).
        cbv zeta in *.
        set (r := sort_alternatives n (S j) t prods1) in *.
        (* where the cells of the run come from *)
        assert (Hfrom1 : forall c pc, (j <= c < e)%nat ->
                  prods1 !! c = Some pc ->
                  exists d, (j <= d < e)%nat /\ prods !! d = Some pc).
        { intros c pc Hc Hpc.
          destruct (decide (c = j)) as [->|Hcj].
          - exists m. split; [lia | congruence].
          - destruct (decide (c = m)) as [->|Hcm].
            + exists j. split; [lia | congruence].
            + exists c. split; [lia|]. now rewrite <- S6. }
        assert (Hrj : r !! j = Some pm)
          by (rewrite R4 by lia; exact S4).
        split; [congruence|]. split; [congruence|].
        split; [etransitivity; eassumption|]. split; [|split].
        -- intros c Hc. rewrite R4 by lia. apply S6; lia.
        -- intros b pb Hb Hpb.
           destruct (decide (b = j)) as [->|Hbj].
           ++ exists m. split; [lia | congruence].
           ++ destruct (R5 b pb ltac:(lia) Hpb) as (c & Hc & Hpc).
              apply (Hfrom1 c pb); [lia | exact Hpc].
        -- intros a b pa pb Hab Hb Hpa Hpb.
           destruct (decide (a = j)) as [->|Haj].
           ++ assert (pa = pm) by congruence. subst pa.
              destruct (decide (b = j)) as [->|Hbj].
              ** assert (pb = pm) by congruence. subst pb. apply key_le_refl.
              ** destruct (R5 b pb ltac:(lia) Hpb) as (c & Hc & Hpc).
                 destruct (Hfrom1 c pb ltac:(lia) Hpc) as (d & Hd & Hpd).
                 rewrite <- (PRODUCTION_lookup prods m pm Hpm).
                 apply (Hmin d pb Hd Hpd).
           ++ apply (R6 a b pa pb); [lia | exact Hb | exact Hpa | exact Hpb].
      * apply Z.eqb_neq in Ht. apply Hstop.
        destruct (decide (j = e)) as [H|H]; [exact H|]. exfalso.
        assert (Hjr : (j <= j < e)%nat) by lia.
        specialize (Hin j Hjr). rewrite tokens_lookup, Hp in Hin.
        cbn in Hin. congruence.
    + apply Hstop.
      destruct (decide (j = e)) as [H|H]; [exact H|]. exfalso.
      assert (Hjr : (j <= j < e)%nat) by lia.
      specialize (Hin j Hjr). rewrite tokens_lookup, Hp in Hin.
      discriminate.
Qed.

Lemma run_length (tokens : list Z) t j e :
  is_run tokens t j e -> (e - j <= length tokens)%nat.
Proof.
  intros (Hje & Hin & _).
  destruct (decide (e <= length tokens)%nat) as [H|H]; [lia|].
  destruct (decide (e <= j)%nat) as [H'|H']; [lia|].
  exfalso.
  assert (Hm : (j <= Nat.max j (length tokens) < e)%nat) by lia.
  specialize (Hin _ Hm).
  rewrite lookup_ge_None_2 in Hin by lia. discriminate.
Qed.

Section SortNonterminals.
Context (termcount nontermcount : Z) (lhsindex : list nat).

Local Abbreviation layout := (token_layout termcount nontermcount lhsindex).
Local Abbreviation start i := (default O (lhsindex !! i)).

(** All the productions of a nonterminal are in its run. *)
Lemma layout_positions (tokens : list Z) i e k :
  layout tokens ->
  is_run tokens (termcount + Z.of_nat i) (start i) e ->
  (1 <= k)%nat -> tokens !! k = Some (termcount + Z.of_nat i) ->
  (start i <= k < e)%nat.
Proof.
  intros [_ Hlay] (Hse & Hin & Hend) Hk Htok.
  destruct (Hlay k _ Hk Htok) as (i' & Hi' & _ & Hstart & Hall).
  assert (i' = i) by lia. subst i'.
  split; [exact Hstart|].
  destruct (decide (k < e)%nat) as [H|H]; [exact H|].
  exfalso. apply Hend. apply Hall. lia.
Qed.

Lemma sort_nonterminals_spec n : forall i prods,
  (1 <= i)%nat -> (i + n = S (Z.to_nat nontermcount))%nat ->
  layout (map lhs_token prods) ->
  sorted_upto termcount prods i ->
  let r := sort_nonterminals termcount lhsindex n i prods in
  map lhs_token r = map lhs_token prods /\
  r ≡ₚ prods /\
  r !! 0%nat = prods !! 0%nat /\
  sorted_upto termcount r (i + n).
Proof.
  induction n as [|n IH]; intros i prods Hi Hn Hlay Hsorted.
  - cbn. rewrite Nat.add_0_r. auto.
  - cbn [sort_nonterminals].
    set (s := start i). set (t := termcount + Z.of_nat i).
    destruct (run_exists (map lhs_token prods) t
                (length (map lhs_token prods)) s ltac:(lia))
      as [e Hrun].
    pose proof (run_length _ _ _ _ Hrun) as Hlen.
    rewrite length_map in Hlen.
    destruct (sort_alternatives_spec t e (length prods) s prods Hrun Hlen)
      as (A1 & A2 & A3 & A4 & A5 & A6).
    cbv zeta in *.
    set (prods1 := sort_alternatives (length prods) s t prods) in *.
    assert (Hs1 : (1 <= s)%nat) by (apply (proj1 Hlay); lia).
    assert (Hsorted1 : sorted_upto termcount prods1 (S i)).
    { intros a b pa pb Hab Ha Hb Htok Hlt.
      assert (Hta : map lhs_token prods !! a = Some (lhs_token pa))
        by (rewrite <- A2, tokens_lookup, Ha; reflexivity).
      assert (Htb : map lhs_token prods !! b = Some (lhs_token pa))
        by (rewrite <- A2, tokens_lookup, Hb; cbn; now rewrite Htok).
      destruct (decide (lhs_token pa = t)) as [Het|Hne].
      - rewrite Het in Hta, Htb.
        pose proof (layout_positions _ i e a Hlay Hrun ltac:(lia) Hta).
        pose proof (layout_positions _ i e b Hlay Hrun ltac:(lia) Htb).
        apply (A6 a b pa pb); [fold s in H; lia | lia | exact Ha | exact Hb].
      - assert (Hout : forall c, map lhs_token prods !! c
                                 = Some (lhs_token pa) ->
                                 (c < s \/ e <= c)%nat).
        { intros c Hc.
          destruct (decide (s <= c < e)%nat) as [Hin|Hin]; [|lia].
          exfalso. destruct Hrun as (_ & Hall & _).
          specialize (Hall c Hin). congruence. }
        rewrite (A4 a (Hout a Hta)) in Ha.
        rewrite (A4 b (Hout b Htb)) in Hb.
        apply (Hsorted a b pa pb Hab Ha Hb Htok). unfold t in Hne. lia. }
    destruct (IH (S i) prods1 ltac:(lia) ltac:(lia)
                ltac:(rewrite A2; exact Hlay) Hsorted1)
      as (R1 & R2 & R3 & R4).
    cbv zeta in *.
    split; [congruence|]. split; [etransitivity; eassumption|].
    split; [rewrite R3; apply A4; lia|].
    replace (i + S n)%nat with (S i + n)%nat by lia. exact R4.
Qed.

(** [sort_productions] keeps the productions and their runs and orders
    the alternatives of every nonterminal by the keys. *)
Lemma sort_productions_spec prods :
  layout (map lhs_token prods) ->
  let r := sort_productions termcount lhsindex nontermcount prods in
  map lhs_token r = map lhs_token prods /\
  r ≡ₚ prods /\
  r !! 0%nat = prods !! 0%nat /\
  forall a b pa pb,
    (1 <= a <= b)%nat -> r !! a = Some pa -> r !! b = Some pb ->
    lhs_token pa = lhs_token pb -> key_le pa pb.
Proof.
  intros Hlay. unfold sort_productions.
  destruct (sort_nonterminals_spec (Z.to_nat nontermcount) 1 prods
              ltac:(lia) ltac:(lia) Hlay) as (R1 & R2 & R3 & R4).
  { intros a b pa pb Hab Ha Hb Htok Hlt. exfalso.
    destruct Hlay as [_ Hlay].
    destruct (Hlay a (lhs_token pa) ltac:(lia)) as (i & Hi & Hr & _).
    - rewrite tokens_lookup, Ha. reflexivity.
    - lia. }
  cbv zeta in *.
  split; [exact R1|]. split; [exact R2|]. split; [exact R3|].
  intros a b pa pb Hab Ha Hb Htok.
  apply (R4 a b pa pb Hab Ha Hb Htok).
  destruct Hlay as [_ Hlay].
  destruct (Hlay a (lhs_token pa) ltac:(lia)) as (i & Hi & Hr & _).
  - rewrite <- R1, tokens_lookup, Ha. reflexivity.
  - lia.
Qed.

End SortNonterminals.

(** *** The keys do not depend on the order of the productions *)

Lemma least_perm f (l l' : list production) :
  l ≡ₚ l' -> least f l = least f l'.
Proof.
  induction 1 as [|x l l' _ IH|x y l|l l' l'' _ IH1 _ IH2].
  - reflexivity.
  - rewrite !least_cons, IH. reflexivity.
  - rewrite !least_cons. lia.
  - congruence.
Qed.

Lemma filter_perm (f : production -> bool) (l l' : list production) :
  l ≡ₚ l' -> List.filter f l ≡ₚ List.filter f l'.
Proof.
  induction 1 as [|x l l' _ IH|x y l|l l' l'' _ IH1 _ IH2]; cbn.
  - reflexivity.
  - destruct (f x); [constructor|]; exact IH.
  - destruct (f x), (f y); try reflexivity. apply perm_swap.
  - etransitivity; eassumption.
Qed.

Lemma drop_perm (r r' : list production) :
  r ≡ₚ r' -> r !! 0%nat = r' !! 0%nat -> drop 1 r ≡ₚ drop 1 r'.
Proof.
  intros Hperm Hzero.
  destruct r as [|x r], r' as [|x' r']; cbn in *.
  - reflexivity.
  - discriminate.
  - discriminate.
  - injection Hzero as <-. eapply Permutation_cons_inv. exact Hperm.
Qed.

Lemma alternatives_perm (r r' : list production) n :
  r ≡ₚ r' -> r !! 0%nat = r' !! 0%nat ->
  alternatives r n ≡ₚ alternatives r' n.
Proof.
  intros Hperm Hzero. unfold alternatives.
  apply filter_perm, drop_perm; assumption.
Qed.

Lemma spec_keys_perm (r r' : list production) p :
  r ≡ₚ r' -> r !! 0%nat = r' !! 0%nat ->
  spec_steps r p = spec_steps r' p /\ spec_insert r p = spec_insert r' p.
Proof.
  intros Hperm Hzero. unfold spec_steps, spec_insert.
  rewrite (map_ext (fun n => least steps (alternatives r n))
             (fun n => least steps (alternatives r' n)))
    by (intros n; apply least_perm, alternatives_perm; assumption).
  rewrite (map_ext (fun n => least pinsert (alternatives r n))
             (fun n => least pinsert (alternatives r' n)))
    by (intros n; apply least_perm, alternatives_perm; assumption).
  split; reflexivity.
Qed.

Lemma shape_tokens (r prods : list production) :
  Forall2 below r prods -> map lhs_token r = map lhs_token prods.
Proof.
  induction 1 as [|a b r prods [[Hl _] _] _ IH]; [reflexivity|].
  cbn. unfold lhs_token at 1 3. rewrite Hl. f_equal. exact IH.
Qed.

Lemma grammar_layout termcount nontermcount lhsindex prods :
  grammar_ok termcount nontermcount lhsindex prods ->
  token_layout termcount nontermcount lhsindex (map lhs_token prods).
Proof.
  intros G. split; [apply (ok_index _ _ _ _ G)|].
  intros k t Hk Ht. rewrite tokens_lookup in Ht.
  destruct (prods !! k) as [p|] eqn:Hp; [|discriminate].
  cbn in Ht. injection Ht as <-.
  destruct (ok_tokens _ _ _ _ G k p Hk Hp) as (i & Hi & Hr & Hs & Hall).
  exists i. split; [exact Hi|]. split; [exact Hr|]. split; [exact (proj2 Hs)|].
  intros m Hm. rewrite tokens_lookup.
  assert (Hml : (m < length prods)%nat)
    by (apply lookup_lt_Some in Hp; lia).
  destruct (lookup_lt_is_Some_2 prods m Hml) as [q Hq].
  rewrite Hq. cbn. f_equal. apply (Hall m q Hm Hq).
Qed.

(** The sample grammar [Goal -> List eof], [List -> a List b | b]. *)
Lemma sample_grammar_ok :
  grammar_ok 3 2 [0; 1; 2]%nat (initial_productions sample_rules).
Proof.
  assert (Hcases : forall p, p ∈ initial_productions sample_rules ->
            forall s, s ∈ rhside p ->
            s = sym_List \/ s = tok_eof \/ s = tok_a \/ s = tok_b).
  { intros p Hp s Hs. apply list_elem_of_In in Hp.
    apply list_elem_of_In in Hs.
    unfold initial_productions, sample_rules in Hp. cbn in Hp.
    repeat (destruct Hp as [<-|Hp]); try destruct Hp;
      cbn in Hs; intuition auto. }
  split.
  - intros p s Hp Hs.
    destruct (Hcases p Hp s Hs) as [-> | [-> | [-> | ->]]]; cbn; lia.
  - intros p s Hp Hs Hn.
    destruct (Hcases p Hp s Hs) as [-> | [-> | [-> | ->]]];
      try discriminate Hn. vm_compute. lia.
  - intros p s Hp Hs Hn.
    destruct (Hcases p Hp s Hs) as [-> | [-> | [-> | ->]]];
      try discriminate Hn. vm_compute. reflexivity.
  - intros i Hi. change (Z.to_nat 2) with 2%nat in Hi.
    assert (i = 1 \/ i = 2)%nat as [->| ->] by lia; cbn; lia.
  - intros k p Hk Hp.
    destruct k as [|[|[|[|k]]]]; [lia| | | |discriminate Hp];
      cbn in Hp; injection Hp as <-.
    + exists 1%nat. split; [reflexivity|].
      change (Z.to_nat 2) with 2%nat. cbn [lookup list_lookup default].
      split; [lia|]. split; [cbn; lia|].
      intros m q Hm Hq. cbn in Hm. assert (m = 1)%nat by lia. subst m.
      cbn in Hq. injection Hq as <-. reflexivity.
    + exists 2%nat. split; [reflexivity|].
      change (Z.to_nat 2) with 2%nat. split; [lia|]. split; [cbn; lia|].
      intros m q Hm Hq. cbn in Hm. assert (m = 2)%nat by lia. subst m.
      cbn in Hq. injection Hq as <-. reflexivity.
    + exists 2%nat. split; [reflexivity|].
      change (Z.to_nat 2) with 2%nat. split; [lia|]. split; [cbn; lia|].
      intros m q Hm Hq. cbn in Hm.
      assert (m = 2 \/ m = 3)%nat as [->| ->] by lia;
        cbn in Hq; injection Hq as <-; reflexivity.
Qed.

Lemma initial_capped rules len cost f :
  0 <= len -> 0 <= cost -> (f = steps \/ f = pinsert) ->
  capped len cost f (initial_productions rules).
Proof.
  intros Hl Hc Hf p Hp Hfin.
  apply list_elem_of_lookup in Hp as [i Hi].
  destruct i as [|i].
  - cbn in Hi. injection Hi as <-.
    pose proof (key_bound_nonneg len cost
                  (finite_keys f (initial_productions rules)) Hl Hc).
    destruct Hf as [-> | ->];
      [change (steps null_production) with 0
      |change (pinsert null_production) with 0]; lia.
  - destruct (initial_production rules (S i) p ltac:(lia) Hi)
      as (_ & Es & Ei).
    destruct Hf as [-> | ->]; lia.
Qed.

(** In a grammar within the bound of [sums_fit] no addition of
    [compute_sortkeys] leaves the range of [int]. *)
Lemma sums_fit_in_range termcount nontermcount lhsindex rules len cost :
  grammar_ok termcount nontermcount lhsindex (initial_productions rules) ->
  sums_fit len cost (initial_productions rules) ->
  sums_in_range termcount lhsindex (initial_productions rules).
Proof.
  intros G [Hrhs Hfit] fuel.
  assert (Hnull : null_production ∈ initial_productions rules) by left.
  destruct (Hrhs _ Hnull) as [Hlen Hcost].
  change (Z.of_nat (length (rhside null_production))) with 0 in Hlen.
  change (rhs_cost null_production) with 0 in Hcost.
  apply (checked_sortkeys_fits termcount lhsindex len cost Hlen ltac:(lia)
           (initial_productions rules) fuel (initial_productions rules)).
  - exact (initial_inv termcount nontermcount lhsindex rules G).
  - exact Hrhs.
  - apply initial_capped; [lia | lia | now left].
  - apply initial_capped; [lia | lia | now right].
  - exact Hfit.
Qed.

(** C5 (as amended): when no sum leaves the range of [int],
    [compute_sortkeys] reaches a fixpoint, given enough passes, at which
    every production has [steps] equal to 1 plus the sum of the least
    [steps] of the alternatives of the nonterminals of its right hand
    side and [insert] equal to the sum of their least [insert] plus the
    insert costs of its terminals that are not empty, both saturated at
    [INT_MAX]; [sort_productions] then permutes the productions, keeps
    these equations and leaves the alternatives of every nonterminal in
    ascending order of [(steps, insert)]. *)
Theorem sort_keys_fixpoint termcount nontermcount lhsindex rules :
  grammar_ok termcount nontermcount lhsindex (initial_productions rules) ->
  sums_in_range termcount lhsindex (initial_productions rules) ->
  sort_keys_spec termcount nontermcount lhsindex rules.
Proof.
  intros G Hnone.
  exists (S (Z.to_nat (key_sum (initial_productions rules)))).
  intros fuel Hfuel.
  pose proof (initial_inv termcount nontermcount lhsindex rules G) as Hinit.
  pose proof (compute_sortkeys_inv termcount lhsindex
                (initial_productions rules) fuel (initial_productions rules)
                Hinit ltac:(lia)) as Hrun.
  specialize (Hnone fuel).
  destruct (checked_sortkeys termcount lhsindex fuel
              (initial_productions rules)) as [keyed| |] eqn:Hck;
    [|congruence|contradiction].
  exists keyed.
  split; [now apply checked_sortkeys_eq|].
  destruct Hrun as [Hinv Hfixed]. cbv zeta.
  pose proof (fixed_keys termcount nontermcount lhsindex rules G keyed)
    as Hkeys.
  assert (Hlay : token_layout termcount nontermcount lhsindex
                   (map lhs_token keyed)).
  { rewrite (shape_tokens _ _ (inv_below _ _ _ _ Hinv)).
    now apply grammar_layout. }
  destruct (sort_productions_spec termcount nontermcount lhsindex keyed Hlay)
    as (R1 & R2 & R3 & R4).
  cbv zeta in *.
  set (sorted := sort_productions termcount lhsindex nontermcount keyed) in *.
  split; [exact (inv_below _ _ _ _ Hinv)|].
  split; [intros i p Hi Hp; now apply (Hkeys i p Hinv Hfixed)|].
  split; [exact R2|]. split; [|exact R4].
  intros i p Hi Hp.
  destruct (spec_keys_perm sorted keyed p R2 R3) as [-> ->].
  assert (Hin : p ∈ drop 1 keyed).
  { rewrite <- (drop_perm sorted keyed R2 R3).
    apply list_elem_of_lookup. exists (i - 1)%nat.
    rewrite lookup_drop. replace (1 + (i - 1))%nat with i by lia. exact Hp. }
  apply list_elem_of_lookup in Hin as [k Hk]. rewrite lookup_drop in Hk.
  apply (Hkeys (1 + k)%nat p Hinv Hfixed); [lia | exact Hk].
Qed.

Lemma sample_sums_fit : sums_fit 3 6 (initial_productions sample_rules).
Proof.
  split; [|vm_compute; reflexivity].
  intros p Hp. apply list_elem_of_In in Hp.
  unfold initial_productions, sample_rules in Hp. cbn in Hp.
  repeat (destruct Hp as [<-|Hp]); try destruct Hp;
    vm_compute; split; discriminate.
Qed.

Lemma sort_keys_fixpoint_witness :
  grammar_ok 3 2 [0; 1; 2]%nat (initial_productions sample_rules) /\
  sums_in_range 3 [0; 1; 2]%nat (initial_productions sample_rules) /\
  sort_keys_spec 3 2 [0; 1; 2]%nat sample_rules.
Proof.
  assert (H : sums_in_range 3 [0; 1; 2]%nat (initial_productions sample_rules))
    by exact (sums_fit_in_range 3 2 [0; 1; 2]%nat sample_rules 3 6
                sample_grammar_ok sample_sums_fit).
  split; [exact sample_grammar_ok|]. split; [exact H|].
  exact (sort_keys_fixpoint 3 2 [0; 1; 2]%nat sample_rules
           sample_grammar_ok H).
Defined.

(** C5 as stated fails: the one production of [dear_rules] is a
    well-formed grammar, and the sum of the insert costs of its two
    terminals, 4000000000, wraps to the [int] -294967296, which
    [compute_sortkeys] stores as the insert key of the production. *)
Lemma sort_keys_overflow_counterexample :
  grammar_ok 3 1 [0; 1]%nat (initial_productions dear_rules) /\
  ~ sort_keys_spec 3 1 [0; 1]%nat dear_rules.
Proof.
  split.
  - assert (Hcases : forall p, p ∈ initial_productions dear_rules ->
              forall s, s ∈ rhside p -> s = tok_dear).
    { intros p Hp s Hs. apply list_elem_of_In in Hp.
      apply list_elem_of_In in Hs.
      unfold initial_productions, dear_rules in Hp. cbn in Hp.
      repeat (destruct Hp as [<-|Hp]); try destruct Hp;
        cbn in Hs; intuition auto. }
    split.
    + intros p s Hp Hs. rewrite (Hcases p Hp s Hs). vm_compute. discriminate.
    + intros p s Hp Hs Hn. rewrite (Hcases p Hp s Hs) in Hn. discriminate Hn.
    + intros p s Hp Hs Hn. rewrite (Hcases p Hp s Hs) in Hn. discriminate Hn.
    + intros i Hi. change (Z.to_nat 1) with 1%nat in Hi.
      assert (i = 1)%nat as -> by lia. cbn. lia.
    + intros k p Hk Hp.
      destruct k as [|[|k]]; [lia| |discriminate Hp].
      cbn in Hp. injection Hp as <-.
      exists 1%nat. split; [reflexivity|].
      change (Z.to_nat 1) with 1%nat. split; [lia|]. split; [cbn; lia|].
      intros m q Hm Hq. cbn in Hm. assert (m = 1)%nat by lia. subst m.
      cbn in Hq. injection Hq as <-. reflexivity.
  - intros (passes & H).
    destruct (H (Nat.max passes 2) ltac:(lia))
      as (result & Hrun & _ & Heq & _).
    assert (Hk : compute_sortkeys 3 [0; 1]%nat 2
                   (initial_productions dear_rules)
                 = Some [null_production;
                         keyed (new_production sym_Goal
                                  [tok_dear; tok_dear] 0) 1 (-294967296)])
      by (vm_compute; reflexivity).
    rewrite (compute_sortkeys_more 3 [0; 1]%nat 2 _ _ (Nat.max passes 2) Hk
               ltac:(lia)) in Hrun.
    injection Hrun as <-.
    destruct (Heq 1%nat _ ltac:(lia) eq_refl) as [_ Hins].
    vm_compute in Hins. discriminate Hins.
Qed.

(** On the sample grammar three passes are enough; the keys are
    [(2, 4)] for [Goal -> List eof], [(2, 8)] for [List -> a List b] and
    [(1, 3)] for [List -> b], and the sort moves [List -> b] in front of
    [List -> a List b]. *)
Example sort_keys_sample :
  match compute_sortkeys 3 [0; 1; 2]%nat 3
          (initial_productions sample_rules) with
  | Some keyed =>
      map (fun p => (steps p, pinsert p)) keyed
      = [(0, 0); (2, 4); (2, 8); (1, 3)] /\
      sort_productions 3 [0; 1; 2]%nat 2 keyed = sample_productions
  | None => False
  end.
Proof. vm_compute. split; reflexivity. Qed.

(** * Further properties of the ordered sets *)

Section FindFacts.
Context {A : Type} (key : A -> Z) (elsize : Z).

(** [_find] returns the index of the cell with the key, and [-1] when
    there is none (also for an unallocated set). *)
Lemma set_find_spec (s : dynarray A) (v : Z) :
  set_inv key elsize s ->
  (forall y, y ∈ cells s -> key y = v ->
     0 <= set_find key s v /\
     cells s !! Z.to_nat (set_find key s v) = Some y) /\
  ((forall y, y ∈ cells s -> key y <> v) -> set_find key s v = -1).
Proof.
  unfold set_inv, set_find, cells. destruct (array s) as [a|] eqn:Ea.
  - intros [_ Hinc]. cbn [from_option id].
    pose proof (set_lookup_spec key a v Hinc) as Hs.
    destruct (set_lookup key a v) as [i|].
    + destruct Hs as (y' & Hy' & Hk). split.
      * intros y Hy Hky. split; [lia|]. rewrite Nat2Z.id.
        rewrite Hy'. f_equal.
        apply (increasing_key_inj key a y' y Hinc); [|exact Hy|congruence].
        apply list_elem_of_lookup. eauto.
      * intros Hnone. exfalso. apply (Hnone y'); [|exact Hk].
        apply list_elem_of_lookup. eauto.
    + split; [|reflexivity]. intros y Hy Hky. exfalso. exact (Hs y Hy Hky).
  - intros _. cbn. split; [|reflexivity]. intros y Hy. inversion Hy.
Qed.
End FindFacts.

(** Two strictly increasing lists with the same elements are equal. *)
Lemma increasing_ext (a b : list Z) :
  StronglySorted Z.lt a -> StronglySorted Z.lt b ->
  (forall z, z ∈ a <-> z ∈ b) -> a = b.
Proof.
  revert b. induction a as [|x a IH]; intros b Ha Hb Hab.
  - destruct b as [|y b]; [reflexivity|].
    exfalso. assert (H : y ∈ @nil Z) by (apply Hab; left). inversion H.
  - destruct b as [|y b].
    { exfalso. assert (H : x ∈ @nil Z) by (apply Hab; left). inversion H. }
    apply StronglySorted_inv in Ha as [Ha Hxa].
    apply StronglySorted_inv in Hb as [Hb Hyb].
    rewrite Forall_forall in Hxa, Hyb.
    assert (Hxy : x = y).
    { assert (Hx : x ∈ y :: b) by (apply Hab; left).
      assert (Hy : y ∈ x :: a) by (apply Hab; left).
      apply elem_of_cons in Hx as [Hx|Hx]; [exact Hx|].
      apply elem_of_cons in Hy as [Hy|Hy]; [congruence|].
      pose proof (Hxa y Hy). pose proof (Hyb x Hx). lia. }
    subst y. f_equal. apply IH; [exact Ha | exact Hb |].
    intros z. split; intros Hz.
    + assert (Hz' : z ∈ x :: b) by (apply Hab; right; exact Hz).
      apply elem_of_cons in Hz' as [->|Hz']; [|exact Hz'].
      pose proof (Hxa x Hz). lia.
    + assert (Hz' : z ∈ x :: a) by (apply Hab; right; exact Hz).
      apply elem_of_cons in Hz' as [->|Hz']; [|exact Hz'].
      pose proof (Hyb x Hz). lia.
Qed.

Lemma intset_increasing (s : intset) :
  set_inv int_key sizeof_int s -> StronglySorted Z.lt (cells s).
Proof.
  unfold set_inv, cells. destruct (array s) as [a|]; cbn.
  - intros [_ H]. unfold increasing in H. now rewrite int_key_cells in H.
  - intros _. constructor.
Qed.

(** Sets of integers with the same elements have the same cells. *)
Lemma intset_ext (s1 s2 : intset) :
  set_inv int_key sizeof_int s1 -> set_inv int_key sizeof_int s2 ->
  (forall z, z ∈ cells s1 <-> z ∈ cells s2) -> cells s1 = cells s2.
Proof.
  intros H1 H2. apply increasing_ext; now apply intset_increasing.
Qed.

Lemma ints_135_inv : set_inv int_key sizeof_int ints_135.
Proof. split; [reflexivity|]. repeat constructor. Qed.

Lemma ints_34_inv : set_inv int_key sizeof_int ints_34.
Proof. split; [reflexivity|]. repeat constructor. Qed.

Lemma syms_ab_inv : set_inv order sizeof_pointer syms_ab.
Proof. split; [reflexivity|]. repeat constructor. Qed.

(** The operations on sets of integers in terms of their cells. *)
Lemma intset_ops (s1 s2 : intset) (v : Z) :
  set_inv int_key sizeof_int s1 -> set_inv int_key sizeof_int s2 ->
  set_inv int_key sizeof_int (intset_insert s1 v) /\
  set_inv int_key sizeof_int (intset_delete s1 v) /\
  set_inv int_key sizeof_int (intset_union s1 s2) /\
  set_inv int_key sizeof_int (intset_intersect s1 s2) /\
  (forall z, z ∈ cells (intset_insert s1 v) <-> z = v \/ z ∈ cells s1) /\
  (forall z, z ∈ cells (intset_delete s1 v) <-> z ∈ cells s1 /\ z <> v) /\
  (forall z, z ∈ cells (intset_union s1 s2) <->
             z ∈ cells s1 \/ z ∈ cells s2) /\
  (forall z, z ∈ cells (intset_intersect s1 s2) <->
             z ∈ cells s1 /\ z ∈ cells s2).
Proof.
  intros Hs1 Hs2.
  unfold intset_insert, intset_delete, intset_union, intset_intersect.
  destruct (set_insert_spec int_key sizeof_int s1 v Hs1) as (Hi1 & _ & _).
  destruct (set_delete_spec int_key sizeof_int s1 v Hs1) as (Hd1 & Hd2).
  destruct (set_union_spec int_key sizeof_int s1 s2 Hs1 Hs2) as (Hu1 & _ & Hu3).
  destruct (set_intersect_spec int_key sizeof_int s1 s2 Hs1 Hs2) as (Hn1 & Hn2).
  repeat (split; [assumption|]).
  split; [|split; [|split]].
  - intros z. pose proof (set_insert_keys int_key sizeof_int s1 v Hs1 z) as H.
    rewrite !int_key_cells in H. exact H.
  - exact Hd2.
  - intros z. specialize (Hu3 z). rewrite !int_key_cells in Hu3. exact Hu3.
  - intros z. specialize (Hn2 z). rewrite int_key_cells in Hn2. exact Hn2.
Qed.

(** [intset_union] always allocates its result. *)
Lemma intset_union_allocated (s1 s2 : intset) :
  is_Some (array (intset_union s1 s2)).
Proof.
  unfold intset_union, set_union.
  destruct (array s1) as [a1|], (array s2) as [a2|]; try (eexists; reflexivity).
  destruct (merge_loop int_key (merge_fuel a1 a2) true a1 a2 0 0 [])
    as [[i1 i2] dst].
  eexists; reflexivity.
Qed.

(** X1: on a set with strictly increasing keys the binary search of
    [intset_find] and [symbolset_find] returns the index of the cell that
    holds the value (the symbol with the same order), and [-1] exactly
    when the set does not hold it. *)
Theorem set_find_index (s : intset) (v : Z) (t : symbolset) (x : symbolentry) :
  set_inv int_key sizeof_int s -> set_inv order sizeof_pointer t ->
  ((v ∈ cells s ->
      0 <= intset_find s v /\
      cells s !! Z.to_nat (intset_find s v) = Some v) /\
   (v ∉ cells s -> intset_find s v = -1)) /\
  ((forall y, y ∈ cells t -> order y = order x ->
      0 <= symbolset_find t x /\
      cells t !! Z.to_nat (symbolset_find t x) = Some y) /\
   ((forall y, y ∈ cells t -> order y <> order x) ->
      symbolset_find t x = -1)).
Proof.
  intros Hs Ht.
  destruct (set_find_spec int_key sizeof_int s v Hs) as [S1 S2].
  destruct (set_find_spec order sizeof_pointer t (order x) Ht) as [T1 T2].
  split; split.
  - intros Hv. apply (S1 v Hv). reflexivity.
  - intros Hv. apply S2. intros y Hy Hk. apply Hv.
    unfold int_key in Hk. now subst y.
  - exact T1.
  - exact T2.
Qed.

Lemma set_find_index_witness :
  set_inv int_key sizeof_int ints_135 /\
  set_inv order sizeof_pointer syms_ab /\
  (5 ∈ cells ints_135 ->
     0 <= intset_find ints_135 5 /\
     cells ints_135 !! Z.to_nat (intset_find ints_135 5) = Some 5) /\
  (2 ∉ cells ints_135 -> intset_find ints_135 2 = -1).
Proof.
  split; [exact ints_135_inv|]. split; [exact syms_ab_inv|].
  split.
  - exact (proj1 (proj1 (set_find_index ints_135 5 syms_ab sym_a
                           ints_135_inv syms_ab_inv))).
  - exact (proj2 (proj1 (set_find_index ints_135 2 syms_ab sym_a
                           ints_135_inv syms_ab_inv))).
Defined.

(** X2: insertion, deletion and search of a set of integers fit
    together: a value is found after its insertion and not found after
    its deletion; deleting a value that was inserted into a set without
    it, or inserting again a value that was deleted, gives back the cells
    of the set. *)
Theorem intset_insert_delete (s : intset) (v : Z) :
  set_inv int_key sizeof_int s ->
  0 <= intset_find (intset_insert s v) v /\
  intset_find (intset_delete s v) v = -1 /\
  (v ∉ cells s -> cells (intset_delete (intset_insert s v) v) = cells s) /\
  (v ∈ cells s -> cells (intset_insert (intset_delete s v) v) = cells s).
Proof.
  intros Hs.
  destruct (intset_ops s s v Hs Hs) as (Hi & Hd & _ & _ & Hin & Hdel & _).
  destruct (intset_ops (intset_insert s v) s v Hi Hs)
    as (_ & Hdi & _ & _ & _ & Hdel' & _).
  destruct (intset_ops (intset_delete s v) s v Hd Hs)
    as (Hid & _ & _ & _ & Hin' & _).
  split; [|split; [|split]].
  - apply (proj1 (set_find_spec int_key sizeof_int (intset_insert s v) v Hi) v);
      [|reflexivity].
    apply Hin. now left.
  - apply (proj2 (set_find_spec int_key sizeof_int (intset_delete s v) v Hd)).
    intros y Hy Hk. apply Hdel in Hy as [_ Hne]. unfold int_key in Hk.
    congruence.
  - intros Hv. apply intset_ext; [exact Hdi | exact Hs |].
    intros z. rewrite Hdel', Hin. split.
    + intros [[->|Hz] Hne]; [congruence | exact Hz].
    + intros Hz. split; [now right|]. intros ->. exact (Hv Hz).
  - intros Hv. apply intset_ext; [exact Hid | exact Hs |].
    intros z. rewrite Hin', Hdel. split.
    + intros [->|[Hz _]]; assumption.
    + intros Hz. destruct (Z.eq_dec z v) as [->|Hne]; [now left|].
      right. split; assumption.
Qed.

Lemma intset_insert_delete_witness :
  set_inv int_key sizeof_int ints_135 /\
  0 <= intset_find (intset_insert ints_135 4) 4 /\
  intset_find (intset_delete ints_135 4) 4 = -1.
Proof.
  split; [exact ints_135_inv|].
  destruct (intset_insert_delete ints_135 4 ints_135_inv) as (H1 & H2 & _).
  split; assumption.
Defined.

(** X3: on sets of integers [intset_union] and [intset_intersect] are
    commutative and idempotent, the union is associative, and the
    intersection of a set with its union with another set is the set
    again; [intset_equal] accepts the two orders of a union. *)
Theorem intset_union_laws (s1 s2 s3 : intset) :
  set_inv int_key sizeof_int s1 -> set_inv int_key sizeof_int s2 ->
  set_inv int_key sizeof_int s3 ->
  cells (intset_union s1 s2) = cells (intset_union s2 s1) /\
  cells (intset_intersect s1 s2) = cells (intset_intersect s2 s1) /\
  cells (intset_union s1 s1) = cells s1 /\
  cells (intset_intersect s1 s1) = cells s1 /\
  cells (intset_union (intset_union s1 s2) s3)
  = cells (intset_union s1 (intset_union s2 s3)) /\
  cells (intset_intersect s1 (intset_union s1 s2)) = cells s1 /\
  intset_equal (intset_union s1 s2) (intset_union s2 s1) = true.
Proof.
  intros H1 H2 H3.
  assert (Hops : forall a b, set_inv int_key sizeof_int a ->
            set_inv int_key sizeof_int b ->
            set_inv int_key sizeof_int (intset_union a b) /\
            set_inv int_key sizeof_int (intset_intersect a b) /\
            (forall z, z ∈ cells (intset_union a b) <->
                       z ∈ cells a \/ z ∈ cells b) /\
            (forall z, z ∈ cells (intset_intersect a b) <->
                       z ∈ cells a /\ z ∈ cells b)).
  { intros a b Ha Hb.
    destruct (intset_ops a b 0 Ha Hb) as (_ & _ & Hu & Hn & _ & _ & Hue & Hne).
    split; [exact Hu|]. split; [exact Hn|]. split; [exact Hue | exact Hne]. }
  destruct (Hops s1 s2 H1 H2) as (U12 & N12 & EU12 & EN12).
  destruct (Hops s2 s1 H2 H1) as (U21 & N21 & EU21 & EN21).
  destruct (Hops s1 s1 H1 H1) as (U11 & N11 & EU11 & EN11).
  destruct (Hops s2 s3 H2 H3) as (U23 & _ & EU23 & _).
  destruct (Hops (intset_union s1 s2) s3 U12 H3) as (Ua & _ & EUa & _).
  destruct (Hops s1 (intset_union s2 s3) H1 U23) as (Ub & _ & EUb & _).
  destruct (Hops s1 (intset_union s1 s2) H1 U12) as (_ & Nc & _ & ENc).
  assert (Hcomm : cells (intset_union s1 s2) = cells (intset_union s2 s1)).
  { apply intset_ext; [assumption..|]. intros z. rewrite EU12, EU21. tauto. }
  split; [exact Hcomm|].
  split; [apply intset_ext; [assumption..|]; intros z; rewrite EN12, EN21; tauto|].
  split; [apply intset_ext; [assumption..|]; intros z; rewrite EU11; tauto|].
  split; [apply intset_ext; [assumption..|]; intros z; rewrite EN11; tauto|].
  split; [apply intset_ext; [assumption..|]; intros z;
          rewrite EUa, EUb, EU12, EU23; tauto|].
  split; [apply intset_ext; [assumption..|]; intros z; rewrite ENc, EU12; tauto|].
  unfold intset_equal.
  rewrite (set_equal_spec int_key), !int_key_cells; [exact Hcomm|].
  apply (set_inv_element int_key sizeof_int _ _ U12 U21).
  - apply intset_union_allocated.
  - apply intset_union_allocated.
Qed.

Lemma intset_union_laws_witness :
  set_inv int_key sizeof_int ints_135 /\ set_inv int_key sizeof_int ints_34 /\
  cells (intset_union ints_135 ints_34) = cells (intset_union ints_34 ints_135).
Proof.
  split; [exact ints_135_inv|]. split; [exact ints_34_inv|].
  exact (proj1 (intset_union_laws ints_135 ints_34 ints_135
                  ints_135_inv ints_34_inv ints_135_inv)).
Defined.

(** * Insertion into a sorted array *)

Section ShiftSorted.
Context {A : Type} (R : A -> A -> Prop) (above : A -> bool).

(** The shifting insertion keeps an array sorted when the cells the
    loop passes over belong behind the new element, the others in front
    of it, and the cells to pass over are at the end. *)
Lemma shift_insert_sorted (x : A) (l : list A) :
  StronglySorted R l ->
  (forall y, y ∈ l -> if above y then R x y else R y x) ->
  (forall y z, R y z -> above y = true -> above z = true) ->
  StronglySorted R (shift_insert above x l).
Proof.
  intros Hsorted Hside Hmono. revert Hsorted Hside.
  induction l as [|y l IH] using rev_ind; intros Hsorted Hside.
  - rewrite shift_insert_nil. repeat constructor.
  - apply StronglySorted_app in Hsorted as (Hly & Hl & _).
    assert (Hy : y ∈ l ++ [y])
      by (apply elem_of_app; right; apply list_elem_of_singleton;
          reflexivity).
    rewrite shift_insert_snoc. destruct (above y) eqn:Ey.
    + apply StronglySorted_app. split; [|split].
      * intros a b Ha Hb. apply list_elem_of_singleton in Hb as ->.
        apply shift_insert_elem_of in Ha as [->|Ha].
        -- specialize (Hside y Hy). now rewrite Ey in Hside.
        -- apply Hly; [exact Ha|]. apply list_elem_of_singleton.
           reflexivity.
      * apply IH; [exact Hl|]. intros z Hz. apply Hside.
        apply elem_of_app. now left.
      * repeat constructor.
    + change (l ++ [y; x]) with (l ++ [y] ++ [x]). rewrite app_assoc.
      apply StronglySorted_app. split; [|split].
      * intros a b Ha Hb. apply list_elem_of_singleton in Hb as ->.
        pose proof (Hside a Ha) as Hs.
        destruct (above a) eqn:Ea; [|exact Hs].
        exfalso. apply elem_of_app in Ha as [Ha|Ha].
        -- assert (above y = true); [|congruence].
           apply (Hmono a y); [|exact Ea].
           apply Hly; [exact Ha|]. apply list_elem_of_singleton.
           reflexivity.
        -- apply list_elem_of_singleton in Ha as ->. congruence.
      * apply StronglySorted_app. split; [exact Hly|]. split; [exact Hl|].
        repeat constructor.
      * repeat constructor.
Qed.

(** In a sorted array an earlier cell is related to a later one. *)
Lemma sorted_lookup (l : list A) (i j : nat) (x y : A) :
  StronglySorted R l -> l !! i = Some x -> l !! j = Some y -> (i < j)%nat ->
  R x y.
Proof.
  intros Hs Hi Hj Hlt.
  rewrite <- (take_drop j l) in Hs.
  apply StronglySorted_app in Hs as (H & _ & _).
  apply H.
  - apply list_elem_of_lookup. exists i. rewrite lookup_take_lt by lia.
    exact Hi.
  - apply list_elem_of_lookup. exists 0%nat.
    rewrite lookup_drop, Nat.add_0_r. exact Hj.
Qed.
End ShiftSorted.

(** * Further properties of the packing of the parser table *)

(** ** The order in which the states are packed *)

Lemma sort_from_sorted (count : list Z) (n : nat) : forall i pre,
  StronglySorted (packed_before count) pre ->
  (forall y, y ∈ pre -> (y < i)%nat) -> length pre = i ->
  StronglySorted (packed_before count)
    (sort_from n i count (pre ++ seq i n)).
Proof.
  induction n as [|n IH]; intros i pre Hs Hlt Hlen.
  - cbn. now rewrite app_nil_r.
  - cbn [sort_from].
    assert (Hi : (pre ++ seq i (S n)) !! i = Some i).
    { rewrite lookup_app_r by lia.
      replace (i - length pre)%nat with 0%nat by lia. reflexivity. }
    rewrite Hi.
    assert (Htake : take i (pre ++ seq i (S n)) = pre).
    { rewrite take_app_length' by (symmetry; exact Hlen). reflexivity. }
    assert (Hdrop : drop (S i) (pre ++ seq i (S n)) = seq (S i) n).
    { rewrite drop_app_ge by lia.
      replace (S i - length pre)%nat with 1%nat by lia. reflexivity. }
    rewrite Htake, Hdrop.
    apply IH.
    + apply shift_insert_sorted.
      * exact Hs.
      * intros y Hy. specialize (Hlt y Hy). unfold packed_before.
        destruct (Z.ltb_spec (cell count y) (cell count i)); lia.
      * intros y z Hyz Hy. apply Z.ltb_lt in Hy. apply Z.ltb_lt.
        unfold packed_before in Hyz. lia.
    + intros y Hy. apply shift_insert_elem_of in Hy as [->|Hy]; [lia|].
      specialize (Hlt y Hy). lia.
    + rewrite shift_insert_length. lia.
Qed.

(** X4: [sort_parser] returns the states [0 .. states-1], each once, in
    the order of decreasing number of actions; states with the same
    number of actions stay in the order of their numbers. *)
Theorem sort_parser_order (count : list Z) (states : nat) :
  sort_parser count states ≡ₚ seq 0 states /\
  forall a b x y, (a < b)%nat ->
    sort_parser count states !! a = Some x ->
    sort_parser count states !! b = Some y ->
    cell count y <= cell count x /\
    (cell count x = cell count y -> (x < y)%nat).
Proof.
  split; [apply sort_from_perm|].
  assert (Hs : StronglySorted (packed_before count) (sort_parser count states)).
  { unfold sort_parser. destruct states as [|k]; [constructor|].
    replace (S k - 1)%nat with k by lia.
    change (seq 0 (S k)) with ([0%nat] ++ seq 1 k).
    apply sort_from_sorted.
    - repeat constructor.
    - intros y Hy. apply list_elem_of_singleton in Hy as ->. lia.
    - reflexivity. }
  intros a b x y Hab Ha Hb.
  pose proof (sorted_lookup _ _ a b x y Hs Ha Hb Hab) as H.
  unfold packed_before in H. lia.
Qed.

(** ** First fit *)

Lemma row_fits_false (n : nat) : forall j row check i,
  row_fits n j row check i = false ->
  exists j', (j <= j' < j + n)%nat /\ cell row j' <> 0 /\
             cell check (i + j') <> 0.
Proof.
  induction n as [|n IH]; intros j row check i H; [discriminate|].
  cbn [row_fits] in H.
  destruct ((cell row j =? 0) || (cell check (i + j) =? 0)) eqn:E.
  - destruct (IH _ _ _ _ H) as (j' & Hj & H1 & H2).
    exists j'. split; [lia|]. split; assumption.
  - apply orb_false_iff in E as [E1 E2].
    apply Z.eqb_neq in E1, E2. exists j. split; [lia|]. split; assumption.
Qed.

Lemma find_base_first (n : nat) : forall i tokens row check i',
  (i <= i' < find_base n i tokens row check)%nat ->
  row_fits tokens 0 row check i' = false.
Proof.
  induction n as [|n IH]; intros i tokens row check i' Hi; cbn in Hi; [lia|].
  destruct (row_fits tokens 0 row check i) eqn:E; [lia|].
  destruct (decide (i' = i)) as [->|Hne]; [exact E|].
  apply (IH (S i)). lia.
Qed.

Section FirstFit.
Variable actions : list (list Z).
Variable tokens : nat.

(** The base is at most the count, which grows by at most one row. *)
Lemma compress_parser_count (done : nat -> Prop) (t : packed) (st : nat) :
  pack_inv actions tokens done t -> (st < length (tbase t))%nat ->
  (tcount (compress_parser actions st tokens t) <= tcount t + tokens)%nat.
Proof.
  intros (H1 & H2 & H3 & H4 & H5 & H6 & H7) Hst.
  unfold compress_parser.
  set (row := default [] (actions !! st)).
  destruct (grow_tables_spec (S (tcount t + tokens)) tokens t H1 H2)
    as (G1 & G2 & G3 & G4 & G5 & G6 & G7); [lia|].
  set (t1 := grow_tables (S (tcount t + tokens)) tokens t) in *.
  destruct (find_base_spec (tcount t1) 0 tokens row (tcheck t1)) as [B1 B2].
  set (i := find_base (tcount t1) 0 tokens row (tcheck t1)) in *.
  destruct (store_row tokens 0 row i (Z.of_nat st + 1) (tcheck t1) (tnext t1))
    as [check next] eqn:Es.
  cbn [tcount]. rewrite G2 in *.
  destruct (Nat.ltb_spec (tcount t) (i + tokens)); lia.
Qed.

(** The count grows by at most one row for each state. *)
Lemma pack_fold_count (l : list nat) : forall (done : nat -> Prop) t,
  NoDup l ->
  (forall s, s ∈ l -> ~ done s /\ (s < length (tbase t))%nat) ->
  pack_inv actions tokens done t ->
  (tcount (fold_left (fun t state => compress_parser actions state tokens t)
             l t)
   <= tcount t + length l * tokens)%nat.
Proof.
  induction l as [|st l IH]; intros done t Hnd Hl Hinv; [cbn; lia|].
  apply NoDup_cons in Hnd as [Hst Hnd].
  destruct (Hl st) as [Hnew Hlt]; [left|].
  destruct (compress_parser_inv actions tokens done t st Hinv Hnew Hlt)
    as [Hinv' Hlen'].
  pose proof (compress_parser_count done t st Hinv Hlt) as Hc.
  cbn [fold_left length].
  specialize (IH (fun s => s = st \/ done s)
                (compress_parser actions st tokens t) Hnd).
  etransitivity; [apply IH|].
  - intros s Hs. rewrite Hlen'.
    destruct (Hl s) as [Hd Hbnd]; [right; exact Hs|].
    split; [|exact Hbnd]. intros [->|Hd']; contradiction.
  - exact Hinv'.
  - lia.
Qed.
End FirstFit.

(** The invariant holds before the first state is packed. *)
Lemma pack_inv_initial (actions : list (list Z)) (states tokens : nat) :
  (1 <= tokens)%nat ->
  pack_inv actions tokens (fun _ => False)
    {| tbase := replicate states 0%nat;
       tcheck := replicate tokens 0; tnext := replicate tokens 0;
       tcount := 0 |}.
Proof.
  intros Htok. unfold pack_inv. cbn [tbase tcheck tnext tcount].
  rewrite !length_replicate.
  split; [lia|]. split; [reflexivity|]. split; [lia|].
  split; [intros k _; apply cell_replicate|].
  split; [intros k Hk; rewrite cell_replicate in Hk; contradiction|].
  split; intros; contradiction.
Qed.

(** X5: [compress_parser] is a first fit: the base it gives a state is at
    most the count of the tables, the non-zero entries of the state fall
    on free cells there, at every smaller base one of them falls on a cell
    in use, and the count becomes the end of the row if that is beyond
    it. *)
Theorem compress_parser_first_fit
    (actions : list (list Z)) (tokens : nat) (done : nat -> Prop)
    (t : packed) (st : nat) :
  pack_inv actions tokens done t -> (st < length (tbase t))%nat ->
  let t' := compress_parser actions st tokens t in
  let b := base_of t' st in
  (b <= tcount t)%nat /\
  (forall i, (i < b)%nat ->
     exists j, (j < tokens)%nat /\ action_at actions st j <> 0 /\
               cell (tcheck t) (i + j) <> 0) /\
  (forall j, (j < tokens)%nat -> action_at actions st j <> 0 ->
     cell (tcheck t) (b + j) = 0) /\
  tcount t' = Nat.max (tcount t) (b + tokens).
Proof.
  intros (H1 & H2 & H3 & H4 & H5 & H6 & H7) Hst.
  unfold compress_parser.
  set (row := default [] (actions !! st)).
  destruct (grow_tables_spec (S (tcount t + tokens)) tokens t H1 H2)
    as (G1 & G2 & G3 & G4 & G5 & G6 & G7); [lia|].
  set (t1 := grow_tables (S (tcount t + tokens)) tokens t) in *.
  destruct (find_base_spec (tcount t1) 0 tokens row (tcheck t1)) as [B1 B2].
  pose proof (find_base_first (tcount t1) 0 tokens row (tcheck t1)) as B3.
  set (i := find_base (tcount t1) 0 tokens row (tcheck t1)) in *.
  destruct (store_row tokens 0 row i (Z.of_nat st + 1) (tcheck t1) (tnext t1))
    as [check next] eqn:Es.
  cbv zeta. unfold base_of. cbn [tbase tcount].
  rewrite G1, list_lookup_insert_eq by exact Hst. cbn [from_option id].
  rewrite G2 in *.
  split; [lia|]. split; [|split].
  - intros i' Hi'.
    destruct (row_fits_false tokens 0 row (tcheck t1) i' (B3 i' ltac:(lia)))
      as (j & Hj & Hr & Hc).
    exists j. split; [lia|]. split; [exact Hr|]. now rewrite <- G6.
  - intros j Hj Hr.
    destruct (decide (i < tcount t)%nat) as [Hlt|Hge].
    + specialize (B2 ltac:(lia)).
      apply (proj1 (row_fits_spec tokens 0 row (tcheck t1) i)) with (j' := j)
        in B2; [|lia].
      rewrite G6 in B2. destruct B2 as [B2|B2]; [contradiction | exact B2].
    + apply H4. lia.
  - destruct (Nat.ltb_spec (tcount t) (i + tokens)); lia.
Qed.

Lemma compress_parser_first_fit_witness :
  let t0 := {| tbase := replicate 3 0%nat; tcheck := replicate 4 0;
               tnext := replicate 4 0; tcount := 0 |} in
  pack_inv sample_actions 4 (fun _ => False) t0 /\
  (1 < length (tbase t0))%nat /\
  (base_of (compress_parser sample_actions 1 4 t0) 1 <= tcount t0)%nat.
Proof.
  cbv zeta.
  assert (H : pack_inv sample_actions 4 (fun _ => False)
                {| tbase := replicate 3 0%nat; tcheck := replicate 4 0;
                   tnext := replicate 4 0; tcount := 0 |})
    by (apply pack_inv_initial; lia).
  split; [exact H|]. split; [cbn; lia|].
  exact (proj1 (compress_parser_first_fit sample_actions 4 (fun _ => False)
                  _ 1%nat H ltac:(cbn; lia))).
Defined.

(** X6: the packed check and next tables are never longer than the
    uncompressed matrix: their count is at most [states * tokens]. *)
Theorem pack_parser_size
    (actions : list (list Z)) (count : list Z) (states tokens : nat) :
  (1 <= tokens)%nat ->
  (tcount (pack_parser actions count states tokens) <= states * tokens)%nat.
Proof.
  intros Htok. unfold pack_parser.
  pose proof (sort_parser_perm count states) as Hperm.
  etransitivity;
    [apply (pack_fold_count actions tokens (sort_parser count states)
              (fun _ => False))|].
  - rewrite Hperm. apply NoDup_seq.
  - intros s Hs. rewrite Hperm in Hs. apply elem_of_seq in Hs.
    split; [tauto|]. cbn. rewrite length_replicate. lia.
  - now apply pack_inv_initial.
  - cbn [tcount]. rewrite Hperm, length_seq. lia.
Qed.

Lemma pack_parser_size_witness :
  (1 <= 4)%nat /\
  (tcount (pack_parser sample_actions sample_counts 3 4) <= 3 * 4)%nat.
Proof.
  split; [lia|]. apply (pack_parser_size sample_actions sample_counts 3 4). lia.
Defined.

(** * The message queue and the listing *)

Lemma loc_before_lt (a b : location) :
  loc_before a b = true <->
  buffer a < buffer b \/ (buffer a = buffer b /\ offset a < offset b).
Proof.
  unfold loc_before.
  rewrite orb_true_iff, andb_true_iff, !Z.ltb_lt, Z.eqb_eq. reflexivity.
Qed.

Lemma loc_before_ge (a b : location) :
  loc_before a b = false <->
  buffer b < buffer a \/ (buffer a = buffer b /\ offset b <= offset a).
Proof.
  destruct (loc_before a b) eqn:E.
  - apply loc_before_lt in E. split; [discriminate | lia].
  - split; [intros _ | reflexivity].
    destruct (Z.lt_total (buffer a) (buffer b)) as [H|[H|H]].
    + assert (loc_before a b = true) by (apply loc_before_lt; lia).
      congruence.
    + destruct (Z.lt_ge_cases (offset a) (offset b)) as [H'|H']; [|lia].
      assert (loc_before a b = true) by (apply loc_before_lt; lia).
      congruence.
    + lia.
Qed.

Lemma loc_upto_gt (a b : location) :
  loc_upto a b = false <->
  buffer b < buffer a \/ (buffer a = buffer b /\ offset b < offset a).
Proof.
  unfold loc_upto.
  rewrite orb_false_iff, andb_false_iff, Z.ltb_ge, Z.eqb_neq, Z.leb_gt. lia.
Qed.

(** ** [enqueue_error] *)


Section Insertion.
Context (pt : location).

Local Abbreviation above := (fun e : errorentry => loc_before pt (point e)).

End Insertion.



(** ** [write_line] *)

Lemma messages_of_app (a b : list event) :
  messages_of (a ++ b) = messages_of a ++ messages_of b.
Proof. apply omap_app. Qed.

Lemma messages_of_shown (l : list errorentry) :
  messages_of (map EvMessage l) = l.
Proof.
  induction l as [|e l IH]; [reflexivity|].
  cbn. unfold messages_of in IH. cbn in IH. now rewrite IH.
Qed.

Lemma flush_messages_spec (nl : location) (q : list errorentry) :
  q = fst (flush_messages nl q) ++ snd (flush_messages nl q) /\
  Forall (fun e => loc_before (point e) nl = true)
    (fst (flush_messages nl q)) /\
  head_before (snd (flush_messages nl q)) nl = false.
Proof.
  induction q as [|e q IH]; cbn.
  - repeat split; constructor.
  - destruct (loc_before (point e) nl) eqn:E.
    + destruct (flush_messages nl q) as [shown rest]. cbn in *.
      destruct IH as (H1 & H2 & H3).
      split; [now f_equal|]. split; [constructor; assumption | exact H3].
    + cbn. rewrite E. repeat split; constructor.
Qed.

(** In an ordered queue no message is before a position the first
    message is not before. *)
Lemma head_before_all (q : list errorentry) (nl : location) :
  StronglySorted point_order q -> head_before q nl = false ->
  Forall (fun e => loc_before (point e) nl = false) q.
Proof.
  intros Hs Hh. destruct q as [|e q]; [constructor|].
  cbn in Hh. apply StronglySorted_inv in Hs as [_ He].
  constructor; [exact Hh|].
  rewrite Forall_forall in He. apply Forall_forall. intros x Hx.
  specialize (He x Hx). unfold point_order in He.
  apply loc_before_ge in He, Hh. apply loc_before_ge. lia.
Qed.

Lemma sorted_suffix (a b : list errorentry) :
  StronglySorted point_order (a ++ b) -> StronglySorted point_order b.
Proof. intros H. apply StronglySorted_app in H. tauto. Qed.

(** One line: the messages shown are taken from the front of the queue,
    and no message before the new first unwritten line stays queued. *)
Lemma write_line_messages (s : listing_state) :
  StronglySorted point_order (msgqueue s) ->
  exists shown,
    msgqueue s = shown ++ msgqueue (write_line s) /\
    messages_of (output (write_line s)) = messages_of (output s) ++ shown /\
    Forall (fun e => loc_before (point e) (unwritten (write_line s)) = false)
      (msgqueue (write_line s)).
Proof.
  intros Hs. unfold write_line.
  set (c := chain s). set (u := unwritten s).
  set (nl := if offset u >=? bcount c (buffer u) then _ else _).
  cbv zeta.
  destruct (listing s || head_before (msgqueue s) nl) eqn:Eshow.
  - set (nl' := if offset u <? bcount c (buffer u) then nl else _).
    destruct (flush_messages_spec nl' (msgqueue s)) as (F1 & F2 & F3).
    destruct (flush_messages nl' (msgqueue s)) as [shown rest].
    cbn [fst snd] in *. cbn [msgqueue output unwritten].
    exists shown. split; [exact F1|]. split.
    + rewrite messages_of_app. cbn.
      change (omap _ (map EvMessage shown)) with
        (messages_of (map EvMessage shown)).
      now rewrite messages_of_shown.
    + apply head_before_all; [|exact F3].
      rewrite F1 in Hs. now apply sorted_suffix in Hs.
  - cbn [msgqueue output unwritten].
    exists []. split; [reflexivity|]. split; [now rewrite app_nil_r|].
    apply orb_false_iff in Eshow as [_ Eh].
    now apply head_before_all.
Qed.

Lemma write_lines_messages (incl : bool) (t : location) (fuel : nat) :
  forall s,
  StronglySorted point_order (msgqueue s) ->
  Forall (fun e => loc_before (point e) (unwritten s) = false) (msgqueue s) ->
  let s' := write_lines fuel incl t s in
  exists shown,
    msgqueue s = shown ++ msgqueue s' /\
    messages_of (output s') = messages_of (output s) ++ shown /\
    Forall (fun e => loc_before (point e) (unwritten s') = false)
      (msgqueue s').
Proof.
  induction fuel as [|fuel IH]; intros s Hs Hu; cbn [write_lines].
  - exists []. split; [reflexivity|]. split; [now rewrite app_nil_r|exact Hu].
  - destruct ((if incl then loc_upto else loc_before) (unwritten s) t).
    + destruct (write_line_messages s Hs) as (shown1 & A1 & A2 & A3).
      destruct (IH (write_line s)) as (shown2 & B1 & B2 & B3).
      * rewrite A1 in Hs. now apply sorted_suffix in Hs.
      * exact A3.
      * exists (shown1 ++ shown2). split; [|split; [|exact B3]].
        -- rewrite A1 at 1. rewrite B1 at 1. now rewrite app_assoc.
        -- rewrite B2, A2. now rewrite app_assoc.
    + exists []. split; [reflexivity|].
      split; [now rewrite app_nil_r|exact Hu].
Qed.

(** X8: when the lines up to and including the line of a position are
    written, the loop ends with the first unwritten line behind that
    position; the messages it prints are taken from the front of the
    ordered queue in their order, and every message that stays queued is
    located behind the position. *)
Theorem write_lines_flushes (s : listing_state) (t : location) :
  buffers_filled (chain s) ->
  line_position (chain s) (unwritten s) -> in_chain (chain s) t ->
  StronglySorted point_order (msgqueue s) ->
  Forall (fun e => loc_before (point e) (unwritten s) = false) (msgqueue s) ->
  let s' := write_lines (lines_fuel (chain s)) true t s in
  loc_upto (unwritten s') t = false /\
  exists shown,
    msgqueue s = shown ++ msgqueue s' /\
    messages_of (output s') = messages_of (output s) ++ shown /\
    Forall (fun e => loc_upto (point e) t = false) (msgqueue s').
Proof.
  intros Hfilled Hpos Ht Hs Hu s'.
  assert (Hend : loc_upto (unwritten s') t = false).
  { apply (write_lines_finish (chain s) Hfilled true t (lines_fuel (chain s)) s
             eq_refl Hpos Ht).
    now apply lines_fuel_enough. }
  split; [exact Hend|].
  destruct (write_lines_messages true t (lines_fuel (chain s)) s Hs Hu)
    as (shown & A1 & A2 & A3).
  exists shown. split; [exact A1|]. split; [exact A2|].
  fold s' in A3. apply loc_upto_gt in Hend.
  eapply Forall_impl; [exact A3|]. intros e He. cbv beta in He.
  apply loc_before_ge in He. apply loc_upto_gt. lia.
Qed.

Lemma write_lines_flushes_witness :
  let t := {| buffer := 0; offset := 0 |} in
  let s' := write_lines (lines_fuel (chain two_messages)) true t two_messages in
  buffers_filled (chain two_messages) /\
  line_position (chain two_messages) (unwritten two_messages) /\
  in_chain (chain two_messages) t /\
  StronglySorted point_order (msgqueue two_messages) /\
  Forall (fun e => loc_before (point e) (unwritten two_messages) = false)
    (msgqueue two_messages) /\
  loc_upto (unwritten s') t = false.
Proof.
  cbv zeta.
  assert (H1 : buffers_filled (chain two_messages))
    by (intros b Hb Hlt; cbn in Hlt; lia).
  assert (H2 : line_position (chain two_messages) (unwritten two_messages))
    by (unfold line_position; cbn; lia).
  assert (H3 : in_chain (chain two_messages) {| buffer := 0; offset := 0 |})
    by (unfold in_chain; cbn; lia).
  assert (H4 : StronglySorted point_order (msgqueue two_messages))
    by (repeat constructor).
  assert (H5 : Forall (fun e => loc_before (point e) (unwritten two_messages)
                                = false) (msgqueue two_messages))
    by (repeat constructor).
  repeat (split; [assumption|]).
  exact (proj1 (write_lines_flushes two_messages _ H1 H2 H3 H4 H5)).
Defined.

(** The first line of the sample is written with the scanner error that
    is queued for it; the message for the second line stays queued. *)
Example write_lines_sample :
  let s' := write_lines (lines_fuel (chain two_messages)) true
              {| buffer := 0; offset := 0 |} two_messages in
  unwritten s' = {| buffer := 0; offset := 2 |} /\
  length (messages_of (output s')) = 1%nat /\
  length (msgqueue s') = 1%nat.
Proof. vm_compute. repeat split. Qed.

(** * The compression of the scanner table *)

Lemma base_of_set (tb : list nat) (c n : list Z) (k st i s : nat) :
  (st < length tb)%nat ->
  base_of {| tbase := <[st := i]> tb; tcheck := c; tnext := n; tcount := k |} s
  = if decide (s = st) then i else default 0%nat (tb !! s).
Proof.
  intros Hst. unfold base_of. cbn [tbase].
  destruct (decide (s = st)) as [->|Hne].
  - now rewrite list_lookup_insert_eq.
  - now rewrite list_lookup_insert_ne by congruence.
Qed.

(** ** Storing a row *)

Lemma store_needed_spec (n : nat) (row : list Z) (need : nat -> bool)
    (i : nat) (owner : Z) : forall j check next,
  (i + j + n <= length check)%nat -> length next = length check ->
  let r := store_needed n j row need i owner check next in
  length (fst r) = length check /\ length (snd r) = length check /\
  (forall j', (j <= j' < j + n)%nat -> need j' = true ->
              cell (fst r) (i + j') = owner /\
              cell (snd r) (i + j') = cell row j') /\
  (forall k, (forall j', (j <= j' < j + n)%nat -> need j' = true ->
                         k <> (i + j')%nat) ->
             cell (fst r) k = cell check k /\ cell (snd r) k = cell next k).
Proof.
  induction n as [|n IH]; intros j check next Hb Hl;
    cbn [store_needed]; cbn zeta.
  - cbn. split; [reflexivity|]. split; [exact Hl|].
    split; [intros j' Hj'; lia | intros k _; auto].
  - destruct (need j) eqn:Hr.
    + destruct (IH (S j) (<[(i + j)%nat := owner]> check)
                  (<[(i + j)%nat := cell row j]> next))
        as (H1 & H2 & H3 & H4).
      { rewrite length_insert. lia. }
      { rewrite !length_insert. exact Hl. }
      rewrite !length_insert in *.
      split; [exact H1|]. split; [exact H2|]. split.
      * intros j' Hj' Hn. destruct (Nat.eq_dec j' j) as [E|Hne].
        -- rewrite E. destruct (H4 (i + j)%nat) as [E1 E2].
           { intros q Hq _. lia. }
           rewrite E1, E2. rewrite !cell_insert_eq by lia. auto.
        -- apply H3; [lia | exact Hn].
      * intros k Hk. destruct (H4 k) as [E1 E2].
        { intros q Hq Hn. apply Hk; [lia | exact Hn]. }
        rewrite E1, E2.
        assert ((i + j)%nat <> k).
        { intros E. symmetry in E. revert E. apply Hk; [lia | exact Hr]. }
        rewrite !cell_insert_ne by assumption. auto.
    + destruct (IH (S j) check next) as (H1 & H2 & H3 & H4); [lia | exact Hl|].
      split; [exact H1|]. split; [exact H2|]. split.
      * intros j' Hj' Hn. destruct (Nat.eq_dec j' j) as [E|Hne].
        -- rewrite E in Hn. congruence.
        -- apply H3; [lia | exact Hn].
      * intros k Hk. apply H4. intros q Hq Hn. apply Hk; [lia | exact Hn].
Qed.

(** A cell is one of the entries stored or as it was. *)
Lemma store_needed_cell (n : nat) (row : list Z) (need : nat -> bool)
    (i : nat) (owner : Z) (check next : list Z) :
  (i + n <= length check)%nat -> length next = length check ->
  let r := store_needed n 0 row need i owner check next in
  length (fst r) = length check /\ length (snd r) = length check /\
  forall k,
    (exists j, (j < n)%nat /\ need j = true /\ k = (i + j)%nat /\
               cell (fst r) k = owner /\ cell (snd r) k = cell row j) \/
    (cell (fst r) k = cell check k /\ cell (snd r) k = cell next k /\
     forall j, (j < n)%nat -> need j = true -> k <> (i + j)%nat).
Proof.
  intros Hb Hl.
  destruct (store_needed_spec n row need i owner 0 check next)
    as (S1 & S2 & S3 & S4); [lia | exact Hl|].
  cbv zeta. split; [exact S1|]. split; [exact S2|]. intros k.
  destruct (le_lt_dec i k) as [Hik|Hik];
    [destruct (le_lt_dec (i + n) k) as [Hik'|Hik']|].
  - right. destruct (S4 k) as [E1 E2]; [intros j Hj _; lia|].
    repeat split; auto. intros j Hj _. lia.
  - destruct (need (k - i)%nat) eqn:Hn.
    + left. exists (k - i)%nat.
      destruct (S3 (k - i)%nat) as [E1 E2]; [lia | exact Hn|].
      replace (i + (k - i))%nat with k in * by lia.
      repeat split; try assumption; lia.
    + right. destruct (S4 k) as [E1 E2].
      { intros j Hj Hj' ->. replace (i + j - i)%nat with j in Hn by lia.
        congruence. }
      repeat split; auto. intros j Hj Hj' ->.
      replace (i + j - i)%nat with j in Hn by lia. congruence.
  - right. destruct (S4 k) as [E1 E2]; [intros j Hj _; lia|].
    repeat split; auto. intros j Hj _. lia.
Qed.

(** ** Looking for a base *)

Lemma diff_fits_spec (n : nat) (diff : nat -> bool) (check : list Z) (i : nat) :
  forall j,
  diff_fits n j diff check i = true <->
  forall j', (j <= j' < j + n)%nat ->
             diff j' = false \/ cell check (i + j') = 0.
Proof.
  induction n as [|n IH]; intros j; cbn [diff_fits].
  - split; [intros _ j' Hj'; lia | reflexivity].
  - destruct (diff j) eqn:Hd;
      [destruct (Z.eqb_spec (cell check (i + j)) 0) as [Hc|Hc]|]; cbn.
    + rewrite IH. split; intros H j' Hj'.
      * destruct (Nat.eq_dec j' j) as [->|Hne]; [auto | apply H; lia].
      * apply H. lia.
    + split; [discriminate|]. intros H.
      destruct (H j) as [H0|H0]; [lia | congruence | contradiction].
    + rewrite IH. split; intros H j' Hj'.
      * destruct (Nat.eq_dec j' j) as [->|Hne]; [auto | apply H; lia].
      * apply H. lia.
Qed.

Lemma find_diff_base_spec (n : nat) (diff : nat -> bool) (check : list Z) :
  forall i,
  let b := find_diff_base n i diff check in
  (i <= b <= i + n)%nat /\
  ((b < i + n)%nat -> diff_fits MAPCOUNT 0 diff check b = true).
Proof.
  induction n as [|n IH]; intros i; cbn [find_diff_base]; cbn zeta.
  - split; lia.
  - destruct (diff_fits MAPCOUNT 0 diff check i) eqn:E.
    + split; [lia | auto].
    + destruct (IH (S i)) as [H1 H2]. split; [lia|].
      intros H. apply H2. lia.
Qed.

(** ** The default state *)

Lemma closest_range (compare : list (list Z)) (index : list nat) (entry : nat)
    (n : nat) : forall i value min,
  let r := closest compare index entry n i value min in
  r = min \/ (i <= r < i + n)%nat.
Proof.
  induction n as [|n IH]; intros i value min; cbn [closest]; cbn zeta;
    [now left|].
  destruct (_ <? value).
  - destruct (IH (S i) (compare_at compare (index_at index entry)
                          (index_at index i)) i) as [H|H]; right; lia.
  - destruct (IH (S i) value min) as [H|H]; [now left | right; lia].
Qed.

(** ** The invariant *)

Section ScanStep.
Variable actions : list (list Z).

Lemma scan_inv_ext (P Q : nat -> Prop) (t : scanpack) :
  (forall s, P s <-> Q s) ->
  scan_inv actions P t -> scan_inv actions Q t.
Proof.
  intros HPQ (H1 & H2 & H3 & H4 & H5 & H6).
  unfold scan_inv. cbv zeta.
  split; [exact H1|]. split; [exact H2|]. split; [exact H3|].
  split; [exact H4|]. split.
  - intros k Hk. destruct (H5 k Hk) as (s & j & Hs & Hrest).
    exists s, j. split; [now apply HPQ | exact Hrest].
  - intros s Hs. apply HPQ in Hs.
    destruct (H6 s Hs) as (A & B & [C|(d & D1 & D2 & D3)]).
    + split; [exact A|]. split; [exact B|]. now left.
    + split; [exact A|]. split; [exact B|]. right.
      exists d. split; [exact D1|]. split; [now apply HPQ | exact D3].
Qed.

(** The first state. *)
Lemma insert_scanner_inv (states idx : nat) (check0 next0 : list Z) :
  length check0 = MAPCOUNT -> length next0 = MAPCOUNT ->
  (idx < states)%nat ->
  let t := insert_scanner actions states idx
             {| tdefault := replicate states 0; chainlen := [];
                spacked := {| tbase := replicate states 0%nat;
                              tcheck := check0; tnext := next0;
                              tcount := 0 |} |} in
  scan_inv actions (fun s => s = idx) t /\ sized t states.
Proof.
  intros Hc Hn Hidx. unfold insert_scanner.
  cbn [spacked tcheck tnext tcount tbase tdefault].
  rewrite Hc, Nat.add_0_l, Nat.ltb_irrefl.
  cbn [tcheck tnext tcount tbase].
  destruct (store_needed_cell MAPCOUNT (default [] (actions !! idx))
              (fun _ => true) 0 (Z.of_nat idx + 1) check0 next0)
    as (S1 & S2 & S3); [lia | congruence|].
  destruct (store_needed MAPCOUNT 0 (default [] (actions !! idx))
              (fun _ => true) 0 (Z.of_nat idx + 1) check0 next0)
    as [check next].
  cbn [fst snd] in S1, S2, S3. cbv zeta.
  assert (Hpos : (1 <= MAPCOUNT)%nat) by (unfold MAPCOUNT; lia).
  assert (Hbase : forall s c n k,
            base_of {| tbase := <[idx := 0%nat]> (replicate states 0%nat);
                       tcheck := c; tnext := n; tcount := k |} s = 0%nat).
  { intros s c n k. rewrite base_of_set by (rewrite length_replicate; lia).
    destruct (decide (s = idx)); [reflexivity|].
    destruct (replicate states 0%nat !! s) as [v|] eqn:E; [|reflexivity].
    apply lookup_replicate in E as [-> _]. reflexivity. }
  assert (Hall : forall k, (k < MAPCOUNT)%nat ->
            cell check k = Z.of_nat idx + 1 /\
            cell next k = action_at actions idx k).
  { intros k Hk.
    destruct (S3 k) as [(j & Hj & _ & E & E1 & E2)|(_ & _ & Hno)].
    - cbn in E. subst j. split; [exact E1 | exact E2].
    - exfalso. apply (Hno k Hk eq_refl). reflexivity. }
  split.
  - unfold scan_inv. cbn [spacked tcheck tnext tcount tdefault chainlen].
    rewrite S1, S2, Hc.
    split; [lia|]. split; [reflexivity|]. split; [lia|].
    split; [|split].
    + intros k Hk. apply cell_ge. rewrite S1, Hc. lia.
    + intros k Hk.
      destruct (le_lt_dec MAPCOUNT k) as [Hge|Hlt].
      { exfalso. apply Hk. apply cell_ge. rewrite S1, Hc. lia. }
      destruct (Hall k Hlt) as [E1 E2].
      exists idx, k. rewrite Hbase.
      repeat split; auto.
    + intros s ->. rewrite Hbase.
      split; [lia|]. split.
      { rewrite cell_insert_eq by (rewrite length_replicate; lia). lia. }
      left. split.
      { apply cell_insert_eq. rewrite length_replicate. lia. }
      intros j Hj. apply (Hall j Hj).
  - unfold sized. cbn [spacked tbase tdefault chainlen].
    rewrite !length_insert, !length_replicate. auto.
Qed.

(** One more state, stored as its differences from an earlier state. *)
Lemma compress_scanner_inv (index : list nat) (entry : nat)
    (compare : list (list Z)) (done : nat -> Prop) (t : scanpack)
    (states : nat) :
  let state := index_at index entry in
  let dflt :=
    index_at index
      (closest compare index entry entry 0 (Z.of_nat MAPCOUNT + 1) 0) in
  scan_inv actions done t -> sized t states ->
  ~ done state -> (state < states)%nat -> done dflt ->
  scan_inv actions (fun s => s = state \/ done s)
    (compress_scanner actions index entry compare t) /\
  sized (compress_scanner actions index entry compare t) states.
Proof.
  intros st dflt (H1 & H2 & H3 & H4 & H5 & H6) (Z1 & Z2 & Z3)
    Hnew Hst Hdflt.
  unfold compress_scanner. fold st. fold dflt.
  set (p0 := spacked t) in *.
  set (row := default [] (actions !! st)).
  set (diff := fun i => negb (action_at actions st i
                              =? action_at actions dflt i)).
  destruct (grow_tables_spec (S (tcount p0 + MAPCOUNT)) MAPCOUNT p0 H1 H2)
    as (G1 & G2 & G3 & G4 & G5 & G6 & G7); [lia|].
  set (p := grow_tables (S (tcount p0 + MAPCOUNT)) MAPCOUNT p0) in *.
  destruct (find_diff_base_spec (tcount p) diff (tcheck p) 0) as [B1 B2].
  set (i := find_diff_base (tcount p) 0 diff (tcheck p)) in *.
  assert (Hfit : forall j, (j < MAPCOUNT)%nat -> diff j = true ->
                           cell (tcheck p) (i + j) = 0).
  { intros j Hj Hn. destruct (Nat.eq_dec i (tcount p)) as [E|E].
    - rewrite G6. apply H4. lia.
    - assert (Hf : diff_fits MAPCOUNT 0 diff (tcheck p) i = true)
        by (apply B2; lia).
      rewrite diff_fits_spec in Hf. destruct (Hf j) as [F|F];
        [lia | congruence | exact F]. }
  destruct (store_needed_cell MAPCOUNT row diff i (Z.of_nat st + 1)
              (tcheck p) (tnext p)) as (S1 & S2 & S3); [lia | exact G3|].
  destruct (store_needed MAPCOUNT 0 row diff i (Z.of_nat st + 1)
              (tcheck p) (tnext p)) as [check next].
  cbn [fst snd] in S1, S2, S3.
  set (cnt := if (tcount p <? i + MAPCOUNT)%nat then (i + MAPCOUNT)%nat
              else tcount p).
  assert (Hcnt : (tcount p <= cnt /\ i + MAPCOUNT <= cnt /\
                  cnt <= length (tcheck p))%nat).
  { subst cnt. destruct (Nat.ltb_spec (tcount p) (i + MAPCOUNT)); lia. }
  assert (Hbase : forall s,
            base_of {| tbase := <[st := i]> (tbase p); tcheck := check;
                       tnext := next; tcount := cnt |} s =
            if decide (s = st) then i else base_of p0 s).
  { intros s. rewrite base_of_set by (rewrite G1; lia).
    destruct (decide (s = st)); [reflexivity|].
    unfold base_of. now rewrite G1. }
  assert (Hdne : dflt <> st) by (intros E; apply Hnew; now rewrite <- E).
  split.
  - unfold scan_inv. cbn [spacked tcheck tnext tcount tdefault chainlen].
    rewrite S1, S2.
    split; [lia|]. split; [reflexivity|]. split; [lia|].
    split; [|split].
    + intros k Hk.
      destruct (S3 k) as [(j & Hj & _ & -> & _)|(E & _ & _)]; [lia|].
      rewrite E, G6. apply H4. lia.
    + intros k Hk.
      destruct (S3 k) as [(j & Hj & Hn & -> & E1 & E2)|(E1 & E2 & _)].
      * exists st, j. rewrite Hbase.
        destruct (decide (st = st)); [|congruence].
        repeat split; auto.
      * rewrite E1, G6 in Hk.
        destruct (H5 k Hk) as (s & j & Hs & Hj & -> & Hc & Hv).
        exists s, j. rewrite Hbase.
        destruct (decide (s = st)) as [->|Hne]; [contradiction|].
        rewrite E1, E2, G6, G7. repeat split; auto.
    + assert (Hkeep : forall s j, done s -> (j < MAPCOUNT)%nat ->
                cell (tcheck p0) (base_of p0 s + j) = Z.of_nat s + 1 ->
                cell check (base_of p0 s + j) = Z.of_nat s + 1).
      { intros s j Hs Hj Hown.
        destruct (S3 (base_of p0 s + j)%nat)
          as [(j' & Hj' & Hn' & E & _)|(E1 & _ & _)].
        - exfalso. pose proof (Hfit j' Hj' Hn') as Hz.
          rewrite <- E, G6, Hown in Hz. lia.
        - now rewrite E1, G6. }
      intros s [->|Hs]; rewrite Hbase.
      * destruct (decide (st = st)); [|congruence].
        split; [lia|].
        rewrite !cell_insert_eq by lia.
        destruct (H6 dflt Hdflt) as (_ & Hchain & _).
        split; [lia|]. right. exists dflt.
        split; [reflexivity|]. split; [now right|].
        split; [now rewrite cell_insert_ne by congruence|].
        intros j Hj. destruct (diff j) eqn:Hd.
        -- left.
           destruct (S3 (i + j)%nat)
             as [(j' & Hj' & _ & E & E1 & _)|(_ & _ & Hno)].
           ++ exact E1.
           ++ exfalso. now apply (Hno j Hj Hd).
        -- right. unfold diff in Hd. apply negb_false_iff in Hd.
           now apply Z.eqb_eq in Hd.
      * destruct (decide (s = st)) as [->|Hne]; [contradiction|].
        destruct (H6 s Hs) as (A & B & C).
        split; [lia|].
        rewrite !cell_insert_ne by congruence.
        split; [exact B|].
        destruct C as [[C1 C2]|(d & D1 & D2 & D3 & D4)].
        -- left. split; [exact C1|]. intros j Hj.
           apply Hkeep; auto.
        -- right. exists d. split; [exact D1|]. split; [now right|].
           assert (d <> st) by (intros ->; contradiction).
           split; [now rewrite cell_insert_ne by congruence|].
           intros j Hj. destruct (D4 j Hj) as [Hown|Heq]; [|now right].
           left. apply Hkeep; auto.
  - unfold sized. cbn [spacked tbase tdefault chainlen].
    rewrite !length_insert, G1. auto.
Qed.

(** ** Filling the unused cells *)

Lemma fill_row_spec (row : list Z) (base : nat) (owner : Z) (n : nat) :
  forall j check next,
  (base + j + n <= length check)%nat -> length next = length check ->
  let r := fill_row n j row base owner check next in
  length (fst r) = length check /\ length (snd r) = length check /\
  forall k,
    (exists j', (j <= j' < j + n)%nat /\ k = (base + j')%nat /\
                cell check k = 0 /\ cell (fst r) k = owner /\
                cell (snd r) k = cell row j') \/
    (cell (fst r) k = cell check k /\ cell (snd r) k = cell next k).
Proof.
  induction n as [|n IH]; intros j check next Hb Hl;
    cbn [fill_row]; cbn zeta.
  - cbn. split; [reflexivity|]. split; [exact Hl|]. intros k. now right.
  - destruct (Z.eqb_spec (cell check (base + j)) 0) as [Hz|Hnz].
    + destruct (IH (S j) (<[(base + j)%nat := owner]> check)
                  (<[(base + j)%nat := cell row j]> next))
        as (F1 & F2 & F3).
      { rewrite length_insert. lia. }
      { rewrite !length_insert. exact Hl. }
      rewrite !length_insert in *.
      split; [exact F1|]. split; [exact F2|]. intros k.
      destruct (F3 k) as [(j' & Hj' & -> & E0 & E1 & E2)|[E1 E2]].
      * left. exists j'. split; [lia|]. split; [reflexivity|].
        rewrite cell_insert_ne in E0 by lia. auto.
      * destruct (Nat.eq_dec k (base + j)%nat) as [->|Hne].
        -- left. exists j. split; [lia|]. split; [reflexivity|].
           rewrite E1, E2, !cell_insert_eq by lia. auto.
        -- right. rewrite E1, E2, !cell_insert_ne by congruence. auto.
    + destruct (IH (S j) check next) as (F1 & F2 & F3); [lia | exact Hl|].
      split; [exact F1|]. split; [exact F2|]. intros k.
      destruct (F3 k) as [(j' & Hj' & Hrest)|E]; [|now right].
      left. exists j'. split; [lia | exact Hrest].
Qed.

Lemma fill_state_inv (done : nat -> Prop) (t : scanpack) (st states : nat) :
  scan_inv actions done t -> sized t states -> done st ->
  scan_inv actions done (fill_state actions t st) /\
  sized (fill_state actions t st) states /\
  chainlen (fill_state actions t st) = chainlen t.
Proof.
  intros (H1 & H2 & H3 & H4 & H5 & H6) (Z1 & Z2 & Z3) Hst.
  unfold fill_state. set (p := spacked t) in *.
  destruct (H6 st Hst) as (Hrow & _ & _).
  destruct (fill_row_spec (default [] (actions !! st)) (base_of p st)
              (Z.of_nat st + 1) MAPCOUNT 0 (tcheck p) (tnext p))
    as (F1 & F2 & F3); [lia | exact H2|].
  destruct (fill_row MAPCOUNT 0 (default [] (actions !! st)) (base_of p st)
              (Z.of_nat st + 1) (tcheck p) (tnext p)) as [check next].
  cbn [fst snd] in F1, F2, F3.
  assert (Hbase : forall s,
            base_of {| tbase := tbase p; tcheck := check; tnext := next;
                       tcount := tcount p |} s = base_of p s)
    by reflexivity.
  assert (Hkeep : forall k, cell (tcheck p) k <> 0 ->
            cell check k = cell (tcheck p) k /\
            cell next k = cell (tnext p) k).
  { intros k Hk. destruct (F3 k) as [(j' & _ & _ & Hz & _)|E];
      [contradiction | exact E]. }
  split; [|split; [|reflexivity]].
  - unfold scan_inv. cbn [spacked tcheck tnext tcount tdefault chainlen].
    rewrite F1, F2.
    split; [exact H1|]. split; [reflexivity|]. split; [exact H3|].
    split; [|split].
    + intros k Hk.
      destruct (F3 k) as [(j' & Hj' & -> & _)|[E _]]; [lia|].
      rewrite E. now apply H4.
    + intros k Hk.
      destruct (F3 k) as [(j' & Hj' & -> & _ & E1 & E2)|[E1 E2]].
      * exists st, j'. rewrite Hbase. repeat split; auto; lia.
      * rewrite E1 in Hk.
        destruct (H5 k Hk) as (s & j & Hs & Hj & -> & Hc & Hv).
        exists s, j. rewrite Hbase, E1, E2. repeat split; auto.
    + intros s Hs. rewrite Hbase.
      destruct (H6 s Hs) as (A & B & C).
      split; [exact A|]. split; [exact B|].
      destruct C as [[C1 C2]|(d & D1 & D2 & D3 & D4)].
      * left. split; [exact C1|]. intros j Hj.
        destruct (Hkeep (base_of p s + j)%nat) as [E _];
          [rewrite C2 by exact Hj; lia|].
        rewrite E. now apply C2.
      * right. exists d. repeat (split; [assumption|]).
        intros j Hj. destruct (D4 j Hj) as [Hown|Heq]; [|now right].
        left. destruct (Hkeep (base_of p s + j)%nat) as [E _];
          [rewrite Hown; lia|].
        now rewrite E.
  - unfold sized. cbn [spacked tbase tdefault chainlen]. auto.
Qed.
End ScanStep.

(** ** All states *)

Lemma fold_left_nil {A B : Type} (f : A -> B -> A) (a : A) :
  fold_left f [] a = a.
Proof. reflexivity. Qed.

Lemma fold_left_cons {A B : Type} (f : A -> B -> A) (x : B) (l : list B)
    (a : A) :
  fold_left f (x :: l) a = fold_left f l (f a x).
Proof. reflexivity. Qed.

Lemma fold_left_seq_O {A : Type} (f : A -> nat -> A) (e : nat) (a : A) :
  fold_left f (seq e 0) a = a.
Proof. reflexivity. Qed.

Lemma fold_left_seq_S {A : Type} (f : A -> nat -> A) (e m : nat) (a : A) :
  fold_left f (seq e (S m)) a = fold_left f (seq (S e) m) (f a e).
Proof. reflexivity. Qed.

Lemma compress_scanner_chain (actions : list (list Z)) (index : list nat)
    (entry : nat) (compare : list (list Z)) (t : scanpack) :
  chainlen (compress_scanner actions index entry compare t)
  = <[index_at index entry :=
        cell (chainlen t)
          (index_at index
             (closest compare index entry entry 0 (Z.of_nat MAPCOUNT + 1) 0))
        + 1]> (chainlen t).
Proof.
  unfold compress_scanner.
  destruct (store_needed _ _ _ _ _ _ _ _) as [check next]. reflexivity.
Qed.

Section ScanAll.
Variable actions : list (list Z).
Variable index : list nat.
Variable states : nat.
Hypothesis index_perm : index ≡ₚ seq 0 states.

Let compare := compare_scanner actions states.
Let step (t : scanpack) (entry : nat) : scanpack :=
  compress_scanner actions index entry compare t.

(** The states at the positions before [n] of the index. *)
Let upto (n : nat) (s : nat) : Prop :=
  exists i, (i < n)%nat /\ index !! i = Some s.

Lemma index_length : length index = states.
Proof. rewrite index_perm. apply length_seq. Qed.

Lemma index_lookup (e : nat) :
  (e < states)%nat ->
  index !! e = Some (index_at index e) /\ (index_at index e < states)%nat.
Proof.
  intros He. unfold index_at.
  destruct (lookup_lt_is_Some_2 index e) as [s Hs];
    [rewrite index_length; exact He|].
  rewrite Hs. split; [reflexivity|]. cbn.
  assert (Hin : s ∈ index) by (apply list_elem_of_lookup; eauto).
  rewrite index_perm in Hin. apply elem_of_seq in Hin. lia.
Qed.

Lemma index_NoDup : NoDup index.
Proof. rewrite index_perm. apply NoDup_seq. Qed.

Lemma upto_all (s : nat) : upto states s <-> (s < states)%nat.
Proof.
  split.
  - intros (i & Hi & Hs).
    assert (Hin : s ∈ index) by (apply list_elem_of_lookup; eauto).
    rewrite index_perm in Hin. apply elem_of_seq in Hin. lia.
  - intros Hs.
    assert (Hin : s ∈ index)
      by (rewrite index_perm; apply elem_of_seq; lia).
    apply list_elem_of_lookup in Hin as [i Hi].
    exists i. split; [|exact Hi].
    apply lookup_lt_Some in Hi. now rewrite index_length in Hi.
Qed.

Lemma compress_fold (m : nat) : forall e t,
  (1 <= e)%nat -> (e + m = states)%nat ->
  scan_inv actions (upto e) t -> sized t states ->
  (forall s, upto e s -> cell (chainlen t) s <= Z.of_nat e) ->
  scan_inv actions (upto states) (fold_left step (seq e m) t) /\
  sized (fold_left step (seq e m) t) states /\
  (forall s, upto states s ->
     cell (chainlen (fold_left step (seq e m) t)) s <= Z.of_nat states).
Proof.
  induction m as [|m IH]; intros e t He Hem Hinv Hsz Hch.
  - rewrite fold_left_seq_O.
    assert (e = states) by lia. subst e. auto.
  - rewrite fold_left_seq_S.
    destruct (index_lookup e ltac:(lia)) as [Hst Hlt].
    set (st := index_at index e) in *.
    pose proof (closest_range compare index e e 0
                  (Z.of_nat MAPCOUNT + 1) 0%nat) as Hr.
    cbv zeta in Hr.
    set (min := closest compare index e e 0 (Z.of_nat MAPCOUNT + 1) 0) in *.
    assert (Hmin : (min < e)%nat) by lia.
    destruct (index_lookup min ltac:(lia)) as [Hd Hdlt].
    assert (Hnew : ~ upto e st).
    { intros (i & Hi & His).
      pose proof (NoDup_lookup index i e st index_NoDup His Hst). lia. }
    assert (Hdone : upto e (index_at index min)) by (exists min; auto).
    destruct (compress_scanner_inv actions index e compare (upto e) t states
                Hinv Hsz Hnew Hlt Hdone) as [Hinv' Hsz'].
    fold (step t e) in Hinv', Hsz'.
    assert (Hupto : forall s, upto (S e) s <-> s = st \/ upto e s).
    { intros s. split.
      - intros (i & Hi & His).
        destruct (decide (i = e)) as [->|Hne].
        + left. congruence.
        + right. exists i. split; [lia | exact His].
      - intros [->|(i & Hi & His)].
        + exists e. split; [lia | exact Hst].
        + exists i. split; [lia | exact His]. }
    apply (IH (S e) (step t e)); [lia | lia | | exact Hsz' |].
    + apply (scan_inv_ext actions (fun s => s = st \/ upto e s));
        [|exact Hinv'].
      intros s. symmetry. apply Hupto.
    + intros s Hs. unfold step. rewrite compress_scanner_chain.
      fold st. fold compare. fold min.
      destruct Hsz as (_ & _ & Hcl).
      apply Hupto in Hs as [->|Hs].
      * rewrite cell_insert_eq by lia.
        specialize (Hch _ Hdone). lia.
      * assert (s <> st) by (intros ->; contradiction).
        rewrite cell_insert_ne by congruence.
        specialize (Hch s Hs). lia.
Qed.

Lemma fill_fold (done : nat -> Prop) (l : list nat) : forall t,
  (forall s, s ∈ l -> done s) ->
  scan_inv actions done t -> sized t states ->
  scan_inv actions done (fold_left (fill_state actions) l t) /\
  sized (fold_left (fill_state actions) l t) states /\
  chainlen (fold_left (fill_state actions) l t) = chainlen t.
Proof.
  induction l as [|st l IH]; intros t Hl Hinv Hsz.
  - rewrite fold_left_nil. auto.
  - rewrite fold_left_cons.
    destruct (fill_state_inv actions done t st states Hinv Hsz)
      as (Hinv' & Hsz' & Hc); [apply Hl; left|].
    destruct (IH (fill_state actions t st)) as (A & B & C);
      [intros s Hs; apply Hl; now right | exact Hinv' | exact Hsz'|].
    split; [exact A|]. split; [exact B | congruence].
Qed.

Lemma pack_scanner_inv (check0 next0 : list Z) :
  (1 <= states)%nat ->
  length check0 = MAPCOUNT -> length next0 = MAPCOUNT ->
  let t := pack_scanner actions index states check0 next0 in
  scan_inv actions (fun s => (s < states)%nat) t /\ sized t states /\
  (forall s, (s < states)%nat -> cell (chainlen t) s <= Z.of_nat states).
Proof.
  intros Hpos Hc Hn. unfold pack_scanner. cbv zeta.
  fold compare.
  destruct (index_lookup 0 ltac:(lia)) as [H0 H0lt].
  destruct (insert_scanner_inv actions states (index_at index 0)
              check0 next0 Hc Hn H0lt) as [Hinv0 Hsz0].
  cbv zeta in Hinv0, Hsz0.
  set (t0 := insert_scanner actions states (index_at index 0) _) in *.
  destruct (compress_fold (states - 1) 1 t0) as (A & B & C);
    [lia | lia | | exact Hsz0 | |].
  - apply (scan_inv_ext actions (fun s => s = index_at index 0));
      [|exact Hinv0].
    intros s. split.
    + intros ->. exists 0%nat. split; [lia | exact H0].
    + intros (i & Hi & His). assert (i = 0)%nat by lia. subst i. congruence.
  - intros s (i & Hi & His). assert (i = 0)%nat by lia. subst i.
    assert (s = index_at index 0) by congruence. subst s.
    unfold t0, insert_scanner.
    destruct (store_needed _ _ _ _ _ _ _ _) as [check next].
    cbn [chainlen].
    rewrite cell_insert_eq by (rewrite length_replicate; lia). lia.
  - fold step.
    set (t1 := fold_left step (seq 1 (states - 1)) t0) in *.
    unfold complete_scanner.
    destruct (fill_fold (upto states) (sort_parser (chainlen t1) states) t1)
      as (F1 & F2 & F3); [| exact A | exact B |].
    + intros s Hs. rewrite sort_parser_perm in Hs.
      apply elem_of_seq in Hs. apply upto_all. lia.
    + split; [|split; [exact F2|]].
      * apply (scan_inv_ext actions (upto states)); [|exact F1].
        apply upto_all.
      * intros s Hs. rewrite F3. apply C. now apply upto_all.
Qed.
End ScanAll.

(** ** Decoding *)

Lemma aref_nat (a : list Z) (k : nat) : aref a (Z.of_nat k) = cell a k.
Proof.
  unfold aref, cell. destruct (Z.ltb_spec (Z.of_nat k) 0); [lia|].
  now rewrite Nat2Z.id.
Qed.

Lemma cell_map_nat (l : list nat) (s : nat) :
  cell (map Z.of_nat l) s = Z.of_nat (default 0%nat (l !! s)).
Proof.
  unfold cell. change (map Z.of_nat l) with (Z.of_nat <$> l).
  rewrite list_lookup_fmap. now destruct (l !! s).
Qed.

Section ScanDecode.
Variable actions : list (list Z).
Variable states : nat.
Variable t : scanpack.
Hypothesis inv : scan_inv actions (fun s => (s < states)%nat) t.

Lemma next_state_correct (c : nat) :
  (c < MAPCOUNT)%nat ->
  forall fuel s, (s < states)%nat ->
  cell (chainlen t) s <= Z.of_nat fuel ->
  next_state fuel (formatted_scanner t) (Z.of_nat s + 1) (Z.of_nat c)
  = Some (action_at actions s c).
Proof.
  intros Hc.
  destruct inv as (H1 & H2 & H3 & H4 & H5 & H6).
  induction fuel as [|fuel IH]; intros s Hs Hfuel.
  - destruct (H6 s Hs) as (_ & B & _). lia.
  - destruct (H6 s Hs) as (A & B & C).
    assert (Eb : aref (sbase (formatted_scanner t)) (Z.of_nat s + 1)
                 = Z.of_nat (base_of (spacked t) s)).
    { unfold formatted_scanner. cbn [sbase].
      now rewrite aref_filler, cell_map_nat. }
    assert (Ed : aref (sdefault (formatted_scanner t)) (Z.of_nat s + 1)
                 = cell (tdefault t) s).
    { unfold formatted_scanner. cbn [sdefault]. apply aref_filler. }
    assert (Ec : forall k, (k < tcount (spacked t))%nat ->
              aref (scheck (formatted_scanner t)) (Z.of_nat k)
              = cell (tcheck (spacked t)) k).
    { intros k Hk. unfold formatted_scanner. cbn [scheck].
      now rewrite aref_nat, cell_take. }
    assert (En : forall k, (k < tcount (spacked t))%nat ->
              aref (snext (formatted_scanner t)) (Z.of_nat k)
              = cell (tnext (spacked t)) k).
    { intros k Hk. unfold formatted_scanner. cbn [snext].
      now rewrite aref_nat, cell_take. }
    unfold next_state. cbn [default_chain].
    rewrite Eb, Ed, <- Nat2Z.inj_add, Ec by lia.
    set (k := (base_of (spacked t) s + c)%nat).
    destruct (Z.eqb_spec (cell (tcheck (spacked t)) k) (Z.of_nat s + 1))
      as [Hown|Hother]; cbn [negb].
    + destruct (Z.eqb_spec (Z.of_nat s + 1) 0) as [E|_]; [lia|]. cbn [negb].
      rewrite En by (unfold k; lia).
      destruct (H5 k) as (s' & j & Hs' & Hj & Hk & Hc' & Hv);
        [rewrite Hown; lia|].
      assert (s' = s) by lia. subst s'.
      assert (j = c) by (unfold k in Hk; lia). subst j.
      now rewrite Hv.
    + destruct C as [[_ C]|(d & D1 & D2 & D3 & D4)].
      { exfalso. apply Hother. now apply C. }
      rewrite D1.
      destruct (Z.eqb_spec (Z.of_nat d + 1) 0) as [E|_]; [lia|]. cbn [negb].
      specialize (IH d D2 ltac:(lia)). unfold next_state in IH.
      rewrite IH.
      destruct (D4 c Hc) as [Hown|Heq]; [contradiction|].
      now rewrite Heq.
Qed.
End ScanDecode.

(** X9: the compressed scanner tables give the transition table back:
    for every state and every character the search of [input_token]
    through the default state chain of the tables that [packtables] and
    [tableformat] produce ends, after at most as many probes as there
    are states, with the transition of the uncompressed table.  This
    holds for every order [sort_scanner] gives the states and whatever
    the arrays hold when they are allocated. *)
Theorem scanner_round_trip
    (actions : list (list Z)) (index : list nat) (states : nat)
    (check0 next0 : list Z) (s c : nat) :
  index ≡ₚ seq 0 states ->
  length check0 = MAPCOUNT -> length next0 = MAPCOUNT ->
  (s < states)%nat -> (c < MAPCOUNT)%nat ->
  next_state states
    (formatted_scanner (pack_scanner actions index states check0 next0))
    (Z.of_nat s + 1) (Z.of_nat c)
  = Some (action_at actions s c).
Proof.
  intros Hperm Hc Hn Hs Hchar.
  destruct (pack_scanner_inv actions index states Hperm check0 next0
              ltac:(lia) Hc Hn) as (Hinv & _ & Hchain).
  cbv zeta in Hinv, Hchain.
  apply (next_state_correct actions states _ Hinv c Hchar states s Hs).
  now apply Hchain.
Qed.

Lemma scanner_round_trip_witness :
  scan_index ≡ₚ seq 0 3 /\
  length (replicate MAPCOUNT 7) = MAPCOUNT /\
  (2 < 3)%nat /\ (1 < MAPCOUNT)%nat /\
  next_state 3 (formatted_scanner scan_packed) (Z.of_nat 2 + 1) (Z.of_nat 1)
  = Some (action_at scan_actions 2 1).
Proof.
  assert (Hp : scan_index ≡ₚ seq 0 3).
  { unfold scan_index. cbn. rewrite (perm_swap 0%nat 1%nat). reflexivity. }
  assert (Hl : length (replicate MAPCOUNT 7) = MAPCOUNT)
    by apply length_replicate.
  split; [exact Hp|]. split; [exact Hl|]. split; [lia|].
  split; [unfold MAPCOUNT; lia|].
  apply (scanner_round_trip scan_actions scan_index 3
           (replicate MAPCOUNT 7) (replicate MAPCOUNT 7) 2 1 Hp Hl Hl);
    [lia | unfold MAPCOUNT; lia].
Defined.

(** In the sample state 0 is stored as its one difference from state 1,
    state 2 as its four differences from state 0, and the transition of
    state 0 on character 1 is found in the row of state 1. *)
Example scanner_sample :
  tdefault scan_packed = [2; 0; 1] /\
  chainlen scan_packed = [2; 1; 3] /\
  default_chain 3 (formatted_scanner scan_packed) 1 1 = Some (2, 1) /\
  next_state 3 (formatted_scanner scan_packed) 1 1 = Some 2.
Proof. vm_compute. repeat split. Qed.

(** ** The choice of the default state *)

Lemma count_fold_bounds (P : nat -> bool) (l : list nat) : forall a,
  a <= fold_left (fun fail i => if P i then fail + 1 else fail) l a
    <= a + Z.of_nat (length l).
Proof.
  induction l as [|x l IH]; intros a; cbn [fold_left length].
  - lia.
  - destruct (P x).
    + specialize (IH (a + 1)). lia.
    + specialize (IH a). lia.
Qed.

Lemma count_fold_ext (P Q : nat -> bool) (l : list nat) :
  (forall i, P i = Q i) -> forall a,
  fold_left (fun fail i => if P i then fail + 1 else fail) l a
  = fold_left (fun fail i => if Q i then fail + 1 else fail) l a.
Proof.
  intros HPQ. induction l as [|x l IH]; intros a; cbn [fold_left];
    [reflexivity|].
  rewrite HPQ. apply IH.
Qed.

Lemma state_mismatch_sym (actions : list (list Z)) (s1 s2 : nat) :
  state_mismatch actions s1 s2 = state_mismatch actions s2 s1.
Proof.
  unfold state_mismatch. rewrite (Nat.eqb_sym s2 s1).
  destruct (s1 =? s2)%nat; [reflexivity|].
  apply count_fold_ext. intros i. now rewrite Z.eqb_sym.
Qed.

Lemma state_mismatch_bounds (actions : list (list Z)) (s1 s2 : nat) :
  0 <= state_mismatch actions s1 s2 <= Z.of_nat MAPCOUNT.
Proof.
  unfold state_mismatch. destruct (s1 =? s2)%nat; [lia|].
  pose proof (count_fold_bounds
                (fun i => negb (action_at actions s1 i
                                =? action_at actions s2 i))
                (seq 0 MAPCOUNT) 0) as H.
  rewrite length_seq in H. lia.
Qed.

Lemma compare_scanner_at (actions : list (list Z)) (states a b : nat) :
  (a < states)%nat -> (b < states)%nat ->
  compare_at (compare_scanner actions states) a b
  = state_mismatch actions a b.
Proof.
  intros Ha Hb. unfold compare_at, compare_scanner, cell.
  change (map ?f ?l) with (f <$> l).
  rewrite list_lookup_fmap, lookup_seq_lt by exact Ha. cbn [fmap option_fmap
    option_map from_option id].
  change (map ?f ?l) with (f <$> l).
  rewrite list_lookup_fmap, lookup_seq_lt by exact Hb. cbn.
  destruct (Nat.le_ge_cases a b) as [H|H].
  - now rewrite Nat.min_l, Nat.max_r by exact H.
  - rewrite Nat.min_r, Nat.max_l by exact H. apply state_mismatch_sym.
Qed.

Section Closest.
Variable compare : list (list Z).
Variable index : list nat.
Variable entry : nat.

Local Abbreviation v :=
  (fun i => compare_at compare (index_at index entry) (index_at index i)).

(** The search keeps the first of the least values. *)
Lemma closest_spec (n : nat) : forall i value min,
  let r := closest compare index entry n i value min in
  exists val,
    ((r = min /\ val = value) \/
     ((i <= r < i + n)%nat /\ val = v r /\ val < value /\
      forall i', (i <= i' < r)%nat -> val < v i')) /\
    (forall i', (i <= i' < i + n)%nat -> val <= v i') /\
    val <= value.
Proof.
  induction n as [|n IH]; intros i value min; cbn [closest]; cbv zeta.
  - exists value. split; [now left|]. split; [intros i' Hi'; lia | lia].
  - destruct (Z.ltb_spec (v i) value) as [Hlt|Hge].
    + destruct (IH (S i) (v i) i) as (val & Hr & Hall & Hle).
      cbv zeta in Hr.
      exists val. split; [right|split].
      * destruct Hr as [[-> ->]|(Hrange & Hval & Hstrict & Hfirst)].
        -- split; [lia|]. split; [reflexivity|]. split; [exact Hlt|].
           intros i' Hi'. lia.
        -- split; [lia|]. split; [exact Hval|]. split; [lia|].
           intros i' Hi'. destruct (decide (i' = i)) as [->|Hne]; [lia|].
           apply Hfirst. lia.
      * intros i' Hi'. destruct (decide (i' = i)) as [->|Hne]; [lia|].
        apply Hall. lia.
      * lia.
    + destruct (IH (S i) value min) as (val & Hr & Hall & Hle).
      cbv zeta in Hr.
      exists val. split; [|split].
      * destruct Hr as [[-> ->]|(Hrange & Hval & Hstrict & Hfirst)];
          [now left|right].
        split; [lia|]. split; [exact Hval|]. split; [exact Hstrict|].
        intros i' Hi'. destruct (decide (i' = i)) as [->|Hne]; [lia|].
        apply Hfirst. lia.
      * intros i' Hi'. destruct (decide (i' = i)) as [->|Hne]; [lia|].
        apply Hall. lia.
      * exact Hle.
Qed.
End Closest.

(** X10: the default state [compress_scanner] gives a state is the first
    of the states inserted before it that differ from it in the fewest
    transitions. *)
Theorem compress_scanner_default
    (actions : list (list Z)) (index : list nat) (states entry : nat)
    (t : scanpack) :
  Forall (fun s => (s < states)%nat) index ->
  (1 <= entry < length index)%nat ->
  (index_at index entry < length (tdefault t))%nat ->
  let state := index_at index entry in
  let t' := compress_scanner actions index entry
              (compare_scanner actions states) t in
  exists m,
    (m < entry)%nat /\
    cell (tdefault t') state = Z.of_nat (index_at index m) + 1 /\
    (forall i, (i < entry)%nat ->
       state_mismatch actions state (index_at index m)
       <= state_mismatch actions state (index_at index i)) /\
    (forall i, (i < m)%nat ->
       state_mismatch actions state (index_at index m)
       < state_mismatch actions state (index_at index i)).
Proof.
  intros Hidx Hentry Hlen state t'.
  assert (Hin : forall i, (i < length index)%nat ->
            (index_at index i < states)%nat).
  { intros i Hi. unfold index_at.
    destruct (lookup_lt_is_Some_2 index i Hi) as [s Hs]. rewrite Hs. cbn.
    rewrite Forall_forall in Hidx. apply Hidx.
    apply list_elem_of_lookup. eauto. }
  assert (Hv : forall i, (i < length index)%nat ->
            compare_at (compare_scanner actions states) state
              (index_at index i)
            = state_mismatch actions state (index_at index i)).
  { intros i Hi. apply compare_scanner_at; [apply Hin; lia | now apply Hin]. }
  destruct (closest_spec (compare_scanner actions states) index entry entry
              0 (Z.of_nat MAPCOUNT + 1) 0) as (val & Hr & Hall & _).
  cbv zeta in Hr.
  set (m := closest (compare_scanner actions states) index entry entry 0
              (Z.of_nat MAPCOUNT + 1) 0) in *.
  fold state in Hr, Hall.
  assert (Hrange : (m < entry)%nat /\
            val = state_mismatch actions state (index_at index m) /\
            forall i', (i' < m)%nat ->
              val < state_mismatch actions state (index_at index i')).
  { destruct Hr as [[_ ->]|(Hrange & Hval & _ & Hfirst)].
    - exfalso. specialize (Hall 0%nat ltac:(lia)).
      rewrite Hv in Hall by lia.
      pose proof (state_mismatch_bounds actions state (index_at index 0)).
      lia.
    - split; [lia|]. split; [rewrite Hval; apply Hv; lia|].
      intros i' Hi'. rewrite <- Hv by lia. apply Hfirst. lia. }
  destruct Hrange as (Hm & Hval & Hfirst).
  exists m. split; [exact Hm|]. split; [|split].
  - unfold t', compress_scanner. fold state. fold m.
    destruct (store_needed _ _ _ _ _ _ _ _) as [check next].
    cbn [tdefault]. now apply cell_insert_eq.
  - intros i Hi. rewrite <- Hval, <- Hv by lia. apply Hall. lia.
  - intros i Hi. rewrite <- Hval. now apply Hfirst.
Qed.

Lemma compress_scanner_default_witness :
  let t0 := insert_scanner scan_actions 3 1
              {| tdefault := replicate 3 0; chainlen := [];
                 spacked := {| tbase := replicate 3 0%nat;
                               tcheck := replicate MAPCOUNT 7;
                               tnext := replicate MAPCOUNT 7;
                               tcount := 0 |} |} in
  Forall (fun s => (s < 3)%nat) scan_index /\
  (1 <= 2 < length scan_index)%nat /\
  (index_at scan_index 2 < length (tdefault t0))%nat /\
  exists m, (m < 2)%nat /\
    cell (tdefault (compress_scanner scan_actions scan_index 2
                      (compare_scanner scan_actions 3) t0))
      (index_at scan_index 2)
    = Z.of_nat (index_at scan_index m) + 1.
Proof.
  cbv zeta.
  assert (H1 : Forall (fun s => (s < 3)%nat) scan_index)
    by (repeat constructor).
  assert (H2 : (1 <= 2 < length scan_index)%nat) by (cbn; lia).
  split; [exact H1|]. split; [exact H2|].
  match goal with |- (_ < length (tdefault ?t))%nat /\ _ =>
    assert (H3 : (index_at scan_index 2 < length (tdefault t))%nat)
      by (vm_compute; lia)
  end.
  split; [exact H3|].
  destruct (compress_scanner_default scan_actions scan_index 3 2 _ H1 H2 H3)
    as (m & Hm & Hd & _).
  exists m. split; [exact Hm | exact Hd].
Defined.

(** * Further properties of the parser generator *)

(** ** The closure of an item set *)

Section Closure.
Context (tables : generator).

Let closed_from (knl : nat) (items : list itementry) : Prop :=
  NoDup (map item_prod (drop knl items)) /\ (knl <= length items)%nat.

Lemma closure_item_mono (all all' : list itementry) x :
  (forall y, y ∈ all -> y ∈ all') ->
  closure_item tables all x -> closure_item tables all' x.
Proof.
  intros Hsub (j & y & Hx & Hj & Hy & Hopen & Htok).
  exists j, y. auto.
Qed.

Lemma in_closure_false knl items j :
  in_closure knl items j = false ->
  j ∉ map item_prod (drop knl items).
Proof.
  unfold in_closure. intros H Hin.
  apply list_elem_of_fmap in Hin as (x & -> & Hx).
  assert (existsb (fun it => (item_prod it =? item_prod x)%nat)
            (drop knl items) = true); [|congruence].
  apply existsb_exists. exists x. split; [now apply list_elem_of_In|].
  apply Nat.eqb_refl.
Qed.

(** The closure appends closure items, each production once. *)
Lemma apply_closure_appends fuel :
  (forall knl items i,
     exists added,
       apply_closure tables fuel knl items i = items ++ added /\
       Forall (closure_item tables (items ++ added)) added /\
       (closed_from knl items -> closed_from knl (items ++ added))) /\
  (forall knl items token j,
     (exists y, y ∈ items /\ before_nonterminal tables y /\
                sym_token (item_symbol tables y) = token) ->
     exists added,
       add_definitions tables fuel knl items token j = items ++ added /\
       Forall (closure_item tables (items ++ added)) added /\
       (closed_from knl items -> closed_from knl (items ++ added))).
Proof.
  induction fuel as [|fuel [IHc IHd]].
  { split; intros; exists []; rewrite app_nil_r;
      (split; [reflexivity|split; [constructor|auto]]). }
  split.
  - intros knl items i. cbn [apply_closure].
    destruct (items !! i) as [it|] eqn:Hit.
    2:{ exists []. rewrite app_nil_r.
        split; [reflexivity|split; [constructor|auto]]. }
    set (sym := item_symbol tables it).
    destruct (negb (complete tables it)
              && symtype_eqb (sym_type sym) NONTERMINAL) eqn:Hopen.
    + apply andb_true_iff in Hopen as [Hc Ht].
      apply negb_true_iff in Hc. apply symtype_eqb_eq in Ht.
      destruct (IHd knl items (sym_token sym)
                  (default 0%nat
                     (lhsindex tables
                        !! Z.to_nat (sym_token sym - termcount tables))))
        as (a1 & E1 & Q1 & N1).
      { exists it. split; [apply list_elem_of_lookup; eauto|].
        split; [split; assumption | reflexivity]. }
      rewrite E1.
      destruct (IHc knl (items ++ a1) (S i)) as (a2 & E2 & Q2 & N2).
      rewrite E2, <- app_assoc.
      exists (a1 ++ a2). split; [reflexivity|]. split.
      * apply Forall_app. split; [|now rewrite app_assoc].
        eapply Forall_impl; [exact Q1|]. intros x.
        apply closure_item_mono. intros y Hy.
        rewrite app_assoc. apply elem_of_app. now left.
      * intros Hn. rewrite app_assoc. auto.
    + destruct (IHc knl items (S i)) as (a & E & Q & N).
      exists a. auto.
  - intros knl items token j Hy. cbn [add_definitions].
    destruct ((j <? PRODCOUNT tables)%nat
              && (sym_token (lhside (PRODUCTION (productions tables) j))
                  =? token)) eqn:Hcond.
    2:{ exists []. rewrite app_nil_r.
        split; [reflexivity|split; [constructor|auto]]. }
    apply andb_true_iff in Hcond as [Hj Htok].
    apply Nat.ltb_lt in Hj. apply Z.eqb_eq in Htok.
    destruct (in_closure knl items j) eqn:Hin.
    + destruct (IHd knl items token (S j) Hy) as (a & E & Q & N).
      exists a. auto.
    + set (new := fresh_item j
                    (skip_epsilon
                       (rhside (PRODUCTION (productions tables) j)) 0)).
      assert (Hnew : closure_item tables (items ++ [new]) new).
      { destruct Hy as (y & Hy & Hopen & Hytok).
        exists j, y. split; [reflexivity|]. split; [exact Hj|].
        split; [apply elem_of_app; now left|].
        split; [exact Hopen | congruence]. }
      assert (Hnd : closed_from knl items ->
                    closed_from knl (items ++ [new])).
      { intros [Hnd Hk]. split; [|rewrite length_app; cbn; lia].
        rewrite drop_app_le by exact Hk. rewrite map_app.
        apply NoDup_app. split; [exact Hnd|]. split.
        - intros x Hx Hx'. cbn in Hx'.
          apply list_elem_of_singleton in Hx'. subst x.
          now apply in_closure_false in Hin.
        - cbn. apply NoDup_singleton. }
      assert (Hstep : exists a1,
                (if option_set (options tables) ERRORREPAIR
                 then apply_closure tables fuel knl (items ++ [new])
                        (length items)
                 else items ++ [new]) = (items ++ [new]) ++ a1 /\
                Forall (closure_item tables ((items ++ [new]) ++ a1)) a1 /\
                (closed_from knl (items ++ [new]) ->
                 closed_from knl ((items ++ [new]) ++ a1))).
      { destruct (option_set (options tables) ERRORREPAIR).
        - apply IHc.
        - exists []. rewrite app_nil_r.
          split; [reflexivity|split; [constructor|auto]]. }
      destruct Hstep as (a1 & E1 & Q1 & N1). rewrite E1.
      destruct (IHd knl ((items ++ [new]) ++ a1) token (S j))
        as (a2 & E2 & Q2 & N2).
      { destruct Hy as (y & Hy & Hrest). exists y.
        split; [|exact Hrest].
        apply elem_of_app. left. apply elem_of_app. now left. }
      rewrite E2, <- !app_assoc.
      exists ([new] ++ a1 ++ a2). split; [reflexivity|]. split.
      * rewrite <- !app_assoc in Q2. cbn [app] in Q2.
        apply Forall_app. split; [|apply Forall_app; split].
        -- apply Forall_singleton.
           eapply closure_item_mono; [|exact Hnew].
           intros y Hy'. rewrite !app_assoc.
           apply elem_of_app. left. apply elem_of_app. now left.
        -- eapply Forall_impl; [exact Q1|]. intros x.
           apply closure_item_mono. intros y Hy'.
           rewrite !app_assoc. apply elem_of_app. now left.
        -- exact Q2.
      * intros Hn. rewrite !app_assoc.  auto.
Qed.

(** *** Enough fuel *)

Let P : Z := Z.of_nat (PRODCOUNT tables).
Let left (knl : nat) (items : list itementry) : Z :=
  P - Z.of_nat (length (drop knl items)).

(** What holds of the item set while it is closed. *)
Let inv (knl : nat) (items : list itementry) : Prop :=
  closed_from knl items /\
  Forall (fun x => (item_prod x < PRODCOUNT tables)%nat) (drop knl items).

Lemma closure_count knl items : inv knl items -> 0 <= left knl items.
Proof.
  intros [[Hnd _] Hlt]. unfold left, P.
  assert (Hsub : map item_prod (drop knl items)
                 ⊆+ seq 0 (PRODCOUNT tables)).
  { apply NoDup_submseteq; [exact Hnd|].
    intros j Hj. apply list_elem_of_fmap in Hj as (x & -> & Hx).
    rewrite Forall_forall in Hlt. apply elem_of_seq.
    specialize (Hlt x Hx). lia. }
  apply submseteq_length in Hsub.
  rewrite length_map, length_seq in Hsub. lia.
Qed.

Lemma closure_item_prod all x :
  closure_item tables all x -> (item_prod x < PRODCOUNT tables)%nat.
Proof. intros (j & y & -> & Hj & _). exact Hj. Qed.

Lemma inv_app knl items added :
  inv knl items ->
  (closed_from knl items -> closed_from knl (items ++ added)) ->
  Forall (closure_item tables (items ++ added)) added ->
  inv knl (items ++ added) /\
  left knl (items ++ added) = left knl items - Z.of_nat (length added) /\
  (forall j, j ∈ map item_prod (drop knl items) ->
             j ∈ map item_prod (drop knl (items ++ added))).
Proof.
  intros [Hc Hlt] Hn Hq. pose proof Hc as [_ Hk].
  rewrite drop_app_le in * by exact Hk.
  split; [split; [now apply Hn|]|split].
  - rewrite drop_app_le by exact Hk.
    apply Forall_app. split; [exact Hlt|].
    eapply Forall_impl; [exact Hq|]. intros x. apply closure_item_prod.
  - unfold left. rewrite drop_app_le, length_app by exact Hk. lia.
  - intros j Hj. rewrite map_app. apply elem_of_app. now left.
Qed.

Lemma in_closure_true knl items j :
  in_closure knl items j = true -> j ∈ map item_prod (drop knl items).
Proof.
  unfold in_closure. intros H.
  apply existsb_exists in H as (x & Hx & Hj).
  apply Nat.eqb_eq in Hj. subst j.
  apply list_elem_of_fmap. exists x. split; [reflexivity|].
  now apply list_elem_of_In.
Qed.

(** With enough fuel every production that defines the nonterminal
    behind a dot is among the closure items. *)
Lemma apply_closure_closed fuel :
  (forall knl items i,
     inv knl items ->
     (left knl items + 1) * P + (Z.of_nat knl + P - Z.of_nat i)
     <= Z.of_nat fuel ->
     forall p y, (i <= p)%nat ->
       apply_closure tables fuel knl items i !! p = Some y ->
       before_nonterminal tables y ->
       forall j, defines tables (sym_token (item_symbol tables y)) j ->
         j ∈ map item_prod
               (drop knl (apply_closure tables fuel knl items i))) /\
  (forall knl items token j,
     inv knl items ->
     (exists y, y ∈ items /\ before_nonterminal tables y /\
                sym_token (item_symbol tables y) = token) ->
     left knl items * P + left knl items + (P - Z.of_nat j)
     <= Z.of_nat fuel ->
     forall j', (j <= j')%nat ->
       (forall m, (j <= m <= j')%nat ->
          (m < PRODCOUNT tables)%nat /\
          sym_token (lhside (PRODUCTION (productions tables) m)) = token) ->
       j' ∈ map item_prod
              (drop knl (add_definitions tables fuel knl items token j))).
Proof.
  assert (HP : 0 <= P) by (unfold P; lia).
  induction fuel as [|fuel [IHc IHd]].
  { split.
    - intros knl items i Hinv Hfuel p y Hp Hy. exfalso.
      cbn [apply_closure] in Hy. apply lookup_lt_Some in Hy.
      pose proof (closure_count knl items Hinv) as Hr.
      destruct Hinv as [[_ Hk] _]. unfold left in *.
      rewrite length_drop in *. nia.
    - intros knl items token j Hinv _ Hfuel j' Hj' Hrun. exfalso.
      pose proof (closure_count knl items Hinv) as Hr.
      destruct (Hrun j ltac:(lia)) as [Hlt _]. unfold P in *. nia. }
  split.
  - intros knl items i Hinv Hfuel p y Hp Hy Hopen j Hj.
    cbn [apply_closure] in Hy |- *.
    destruct (items !! i) as [it|] eqn:Hit.
    2:{ exfalso. apply lookup_ge_None in Hit. apply lookup_lt_Some in Hy.
        lia. }
    pose proof (lookup_lt_Some _ _ _ Hit) as Hilt.
    pose proof (closure_count knl items Hinv) as Hr.
    assert (Hlen : Z.of_nat (length items)
                   = Z.of_nat knl + (P - left knl items)).
    { destruct Hinv as [[_ Hk] _]. unfold left.
      rewrite length_drop. lia. }
    set (sym := item_symbol tables it) in *.
    set (start := default 0%nat
                    (lhsindex tables
                       !! Z.to_nat (sym_token sym - termcount tables))) in *.
    destruct (negb (complete tables it)
              && symtype_eqb (sym_type sym) NONTERMINAL) eqn:Htest.
    + apply andb_true_iff in Htest as [Hc Ht].
      apply negb_true_iff in Hc. apply symtype_eqb_eq in Ht.
      assert (Hsrc : exists y0, y0 ∈ items /\ before_nonterminal tables y0 /\
                       sym_token (item_symbol tables y0) = sym_token sym).
      { exists it. split; [apply list_elem_of_lookup; eauto|].
        split; [split; assumption | reflexivity]. }
      destruct (proj2 (apply_closure_appends fuel) knl items (sym_token sym)
                  start Hsrc) as (a1 & E1 & Q1 & N1).
      destruct (inv_app knl items a1 Hinv N1 Q1) as (Hinv1 & Hl1 & Hm1).
      rewrite E1 in Hy |- *.
      destruct (proj1 (apply_closure_appends fuel) knl (items ++ a1) (S i))
        as (a2 & E2 & Q2 & N2).
      destruct (inv_app knl (items ++ a1) a2 Hinv1 N2 Q2)
        as (Hinv2 & Hl2 & Hm2).
      destruct (decide (p = i)) as [->|Hne].
      * assert (y = it).
        { rewrite E2, <- app_assoc, lookup_app_l in Hy by exact Hilt.
          congruence. }
        subst y. rewrite E2. apply Hm2. rewrite <- E1.
        destruct Hj as [Hs Hrun]. fold sym in Hs, Hrun. fold start in Hs, Hrun.
        apply (IHd knl items (sym_token sym) start Hinv Hsrc);
          [nia | exact Hs | exact Hrun].
      * assert (Hf : (left knl (items ++ a1) + 1) * P
                     + (Z.of_nat knl + P - Z.of_nat (S i))
                     <= Z.of_nat fuel) by nia.
        apply (IHc knl (items ++ a1) (S i) Hinv1 Hf p y ltac:(lia) Hy Hopen
                 j Hj).
    + destruct (decide (p = i)) as [->|Hne].
      * exfalso.
        destruct (proj1 (apply_closure_appends fuel) knl items (S i))
          as (a2 & E2 & _).
        rewrite E2, lookup_app_l in Hy by exact Hilt.
        assert (y = it) by congruence. subst y.
        destruct Hopen as [Hc Ht]. fold sym in Ht.
        rewrite Hc, Ht in Htest. discriminate.
      * assert (Hf : (left knl items + 1) * P
                     + (Z.of_nat knl + P - Z.of_nat (S i))
                     <= Z.of_nat fuel) by nia.
        apply (IHc knl items (S i) Hinv Hf p y ltac:(lia) Hy Hopen j Hj).
  - intros knl items token j Hinv Hsrc Hfuel j' Hj' Hrun.
    cbn [add_definitions].
    pose proof (closure_count knl items Hinv) as Hr.
    destruct (Hrun j ltac:(lia)) as [Hjlt Hjtok].
    rewrite (proj2 (Nat.ltb_lt _ _) Hjlt), (proj2 (Z.eqb_eq _ _) Hjtok).
    cbn [andb].
    destruct (in_closure knl items j) eqn:Hin.
    + destruct (proj2 (apply_closure_appends fuel) knl items token (S j) Hsrc)
        as (a & E & Q & N).
      destruct (inv_app knl items a Hinv N Q) as (Hinv' & Hl & Hm).
      destruct (decide (j' = j)) as [->|Hne].
      * rewrite E. apply Hm. now apply in_closure_true.
      * apply (IHd knl items token (S j) Hinv Hsrc); [unfold P in *; nia | lia|].
        intros m Hm'. apply Hrun. lia.
    + set (new := fresh_item j
                    (skip_epsilon
                       (rhside (PRODUCTION (productions tables) j)) 0)).
      assert (Hinvn : inv knl (items ++ [new]) /\
                      left knl (items ++ [new]) = left knl items - 1 /\
                      j ∈ map item_prod (drop knl (items ++ [new]))).
      { pose proof Hinv as [[Hnd Hk] Hlt].
        rewrite drop_app_le by exact Hk.
        split; [split; [split|]|split].
        - rewrite drop_app_le by exact Hk. rewrite map_app.
          apply NoDup_app. split; [exact Hnd|]. split.
          + intros x Hx Hx'. cbn in Hx'.
            apply list_elem_of_singleton in Hx'. subst x.
            now apply in_closure_false in Hin.
          + cbn. apply NoDup_singleton.
        - rewrite length_app. cbn. lia.
        - rewrite drop_app_le by exact Hk.
          apply Forall_app. split; [exact Hlt|].
          apply Forall_singleton. exact Hjlt.
        - unfold left. rewrite drop_app_le, length_app by exact Hk.
          cbn [length]. lia.
        - rewrite map_app. apply elem_of_app. right. cbn.
          apply list_elem_of_singleton. reflexivity. }
      destruct Hinvn as (Hinvn & Hln & Hjn).
      assert (Hstep : exists a1,
                (if option_set (options tables) ERRORREPAIR
                 then apply_closure tables fuel knl (items ++ [new])
                        (length items)
                 else items ++ [new]) = (items ++ [new]) ++ a1 /\
                Forall (closure_item tables ((items ++ [new]) ++ a1)) a1 /\
                (closed_from knl (items ++ [new]) ->
                 closed_from knl ((items ++ [new]) ++ a1))).
      { destruct (option_set (options tables) ERRORREPAIR).
        - apply (proj1 (apply_closure_appends fuel)).
        - exists []. rewrite app_nil_r.
          split; [reflexivity|split; [constructor|auto]]. }
      destruct Hstep as (a1 & E1 & Q1 & N1). rewrite E1.
      destruct (inv_app knl (items ++ [new]) a1 Hinvn N1 Q1)
        as (Hinv1 & Hl1 & Hm1).
      assert (Hsrc1 : exists y, y ∈ (items ++ [new]) ++ a1 /\
                        before_nonterminal tables y /\
                        sym_token (item_symbol tables y) = token).
      { destruct Hsrc as (y & Hy & Hrest). exists y.
        split; [|exact Hrest].
        apply elem_of_app. left. apply elem_of_app. now left. }
      destruct (proj2 (apply_closure_appends fuel) knl
                  ((items ++ [new]) ++ a1) token (S j) Hsrc1)
        as (a2 & E2 & Q2 & N2).
      destruct (inv_app knl ((items ++ [new]) ++ a1) a2 Hinv1 N2 Q2)
        as (Hinv2 & Hl2 & Hm2).
      destruct (decide (j' = j)) as [->|Hne].
      * rewrite E2. apply Hm2, Hm1. exact Hjn.
      * apply (IHd knl ((items ++ [new]) ++ a1) token (S j) Hinv1 Hsrc1);
          [unfold P in *; nia | lia|].
        intros m Hm'. apply Hrun. lia.
Qed.
End Closure.

(** X11: the closure of a kernel keeps the kernel items in front as
    they are and appends closure items only: each is a production that
    defines the nonterminal behind the dot of an item of the set, with the
    dot behind its leading epsilon terminals and nothing else set, and no
    production is appended twice. *)
Theorem apply_closure_items (tables : generator) (fuel : nat)
    (knl : list itementry) :
  exists added,
    apply_closure tables fuel (length knl) knl 0 = knl ++ added /\
    Forall (closure_item tables (knl ++ added)) added /\
    NoDup (map item_prod added).
Proof.
  destruct (proj1 (apply_closure_appends tables fuel) (length knl) knl 0%nat)
    as (added & E & Q & N).
  exists added. split; [exact E|]. split; [exact Q|].
  destruct N as [N _].
  - rewrite drop_all. split; [constructor | lia].
  - now rewrite drop_app_length in N.
Qed.

(** X12: the closure is closed.  With the fuel [closure_fuel] of the
    kernel the loops of [apply_closure] are not cut short, and for every
    item of the closed set with the dot in front of a nonterminal every
    production that defines the nonterminal is among the closure items,
    with and without the depth first order of error repair. *)
Theorem apply_closure_complete (tables : generator) (knl : list itementry)
    (y : itementry) (j : nat) :
  y ∈ apply_closure tables (closure_fuel tables knl) (length knl) knl 0 ->
  before_nonterminal tables y ->
  defines tables (sym_token (item_symbol tables y)) j ->
  exists x,
    x ∈ drop (length knl)
          (apply_closure tables (closure_fuel tables knl) (length knl) knl 0)
    /\ item_prod x = j.
Proof.
  intros Hy Hopen Hj.
  apply list_elem_of_lookup in Hy as [p Hp].
  assert (Hin : j ∈ map item_prod
                  (drop (length knl)
                     (apply_closure tables (closure_fuel tables knl)
                        (length knl) knl 0))).
  { apply (proj1 (apply_closure_closed tables (closure_fuel tables knl))
             (length knl) knl 0%nat) with (p := p) (y := y).
    - split; [split; [rewrite drop_all; constructor | lia]|].
      rewrite drop_all. constructor.
    - rewrite drop_all. cbn [length]. unfold closure_fuel, PRODCOUNT. nia.
    - lia.
    - exact Hp.
    - exact Hopen.
    - exact Hj. }
  apply list_elem_of_fmap in Hin as (x & -> & Hx). eauto.
Qed.

Lemma apply_closure_complete_witness :
  let knl := [fresh_item 1 0] in
  let closed :=
    apply_closure sample_tables (closure_fuel sample_tables knl) (length knl)
      knl 0 in
  fresh_item 1 0 ∈ closed /\
  before_nonterminal sample_tables (fresh_item 1 0) /\
  defines sample_tables
    (sym_token (item_symbol sample_tables (fresh_item 1 0))) 3 /\
  exists x, x ∈ drop (length knl) closed /\ item_prod x = 3%nat.
Proof.
  cbv zeta.
  assert (H1 : fresh_item 1 0
               ∈ apply_closure sample_tables
                   (closure_fuel sample_tables [fresh_item 1 0])
                   (length [fresh_item 1 0]) [fresh_item 1 0] 0).
  { apply list_elem_of_lookup. exists 0%nat. vm_compute. reflexivity. }
  assert (H2 : before_nonterminal sample_tables (fresh_item 1 0))
    by (split; vm_compute; reflexivity).
  assert (H3 : defines sample_tables
                 (sym_token (item_symbol sample_tables (fresh_item 1 0))) 3).
  { split; [vm_compute; lia|]. intros m Hm.
    assert (Hs : default 0%nat
                   (lhsindex sample_tables
                      !! Z.to_nat
                           (sym_token
                              (item_symbol sample_tables (fresh_item 1 0))
                            - termcount sample_tables)) = 2%nat)
      by (vm_compute; reflexivity).
    rewrite Hs in Hm.
    assert (m = 2 \/ m = 3)%nat as [->| ->] by lia;
      (split; [vm_compute; lia | vm_compute; reflexivity]). }
  split; [exact H1|]. split; [exact H2|]. split; [exact H3|].
  exact (apply_closure_complete sample_tables [fresh_item 1 0]
           (fresh_item 1 0) 3 H1 H2 H3).
Defined.

(** The closure of the initial item of the sample grammar, in the depth
    first order of error repair. *)
Example apply_closure_sample :
  map item_key
    (apply_closure sample_tables (closure_fuel sample_tables [fresh_item 1 0])
       1 [fresh_item 1 0] 0)
  = [(1, 0); (2, 0); (3, 0)]%nat.
Proof. vm_compute. reflexivity. Qed.

(** * The goto states *)

Lemma filter_index {A : Type} (P : A -> bool) (l : list A) (q : nat) (x : A) :
  l !! q = Some x -> P x = true ->
  List.filter P l !! length (List.filter P (take q l)) = Some x.
Proof.
  revert q. induction l as [|y l IH]; intros q Hq Hx; [discriminate|].
  destruct q as [|q]; cbn in Hq |- *.
  - injection Hq as ->. now rewrite Hx.
  - destruct (P y); cbn; now apply IH.
Qed.

Section Links.
Context (tables : generator).

Lemma ITEMSET_set_item coll a b it' s q :
  ITEMSET (set_item coll a b it') s q =
  if decide (s = a /\ q = b /\ (a < length coll)%nat /\
             (b < length (itemset (COLLECTION coll a)))%nat)
  then it' else ITEMSET coll s q.
Proof.
  unfold ITEMSET. rewrite COLLECTION_set_item.
  destruct (decide (s = a /\ (a < length coll)%nat)) as [[-> Hlt]|Hn].
  - cbn [itemset].
    destruct (decide (q = b)) as [->|Hne].
    + destruct (decide (b < length (itemset (COLLECTION coll a)))%nat)
        as [Hb|Hb].
      * rewrite list_lookup_insert_eq by exact Hb.
        destruct (decide _) as [_|Hc]; [reflexivity|].
        exfalso. apply Hc. auto.
      * rewrite list_insert_ge by lia.
        destruct (decide _) as [(_ & _ & _ & Hc)|_]; [lia | reflexivity].
    + rewrite list_lookup_insert_ne by congruence.
      destruct (decide _) as [(_ & Hc & _)|_]; [congruence | reflexivity].
  - destruct (decide _) as [(Hs & _ & Hl & _)|_]; [|reflexivity].
    exfalso. apply Hn. auto.
Qed.

Lemma set_item_items coll a b it' s :
  length (itemset (COLLECTION (set_item coll a b it') s))
  = length (itemset (COLLECTION coll s)).
Proof.
  rewrite COLLECTION_set_item.
  destruct (decide _) as [[-> _]|_]; [|reflexivity].
  cbn [itemset]. apply length_insert.
Qed.

(** One pair of links. *)
Lemma link_step coll state j i k d anc :
  let coll1 := set_item coll state j
                 (set_descendant (ITEMSET coll state j) d) in
  let coll2 := set_item coll1 i k (add_ancestor (ITEMSET coll1 i k) anc) in
  (state < length coll)%nat ->
  (j < length (itemset (COLLECTION coll state)))%nat ->
  (forall s q, item_key (ITEMSET coll2 s q) = item_key (ITEMSET coll s q)) /\
  (forall s q, descendant (ITEMSET coll2 s q) =
               if decide (s = state /\ q = j) then d
               else descendant (ITEMSET coll s q)) /\
  length coll2 = length coll /\
  (forall s, length (itemset (COLLECTION coll2 s))
             = length (itemset (COLLECTION coll s))).
Proof.
  intros coll1 coll2 Hstate Hj.
  assert (H1 : forall s q, ITEMSET coll1 s q =
                 if decide (s = state /\ q = j)
                 then set_descendant (ITEMSET coll state j) d
                 else ITEMSET coll s q).
  { intros s q. unfold coll1. rewrite ITEMSET_set_item.
    destruct (decide (s = state /\ q = j)) as [[-> ->]|Hn].
    - destruct (decide _) as [_|Hc]; [reflexivity|]. exfalso. apply Hc. auto.
    - destruct (decide _) as [(E1 & E2 & _)|_]; [|reflexivity].
      exfalso. apply Hn. auto. }
  assert (H2 : forall s q,
             item_key (ITEMSET coll2 s q) = item_key (ITEMSET coll1 s q) /\
             descendant (ITEMSET coll2 s q)
             = descendant (ITEMSET coll1 s q)).
  { intros s q. unfold coll2. rewrite ITEMSET_set_item.
    destruct (decide _) as [(-> & -> & _)|_]; [|now split].
    split; reflexivity. }
  split; [|split; [|split]].
  - intros s q. rewrite (proj1 (H2 s q)), H1.
    destruct (decide _) as [[-> ->]|_]; reflexivity.
  - intros s q. rewrite (proj2 (H2 s q)), H1.
    destruct (decide _); reflexivity.
  - unfold coll2, coll1. now rewrite !set_item_length.
  - intros s. unfold coll2, coll1. now rewrite !set_item_items.
Qed.

(** The loop that sets the descendants: the items with the dot in front
    of the token are numbered in their order. *)
Lemma link_items_links state token i n : forall j k coll,
  (state < length coll)%nat ->
  (j + n <= length (itemset (COLLECTION coll state)))%nat ->
  let r := link_items tables n j k state token i coll in
  (forall s q, item_key (ITEMSET r s q) = item_key (ITEMSET coll s q)) /\
  (forall q, (j <= q < j + n)%nat ->
     before_token tables token (ITEMSET coll state q) = true ->
     descendant (ITEMSET r state q)
     = {| tg_state := i;
          tg_item :=
            k + length (List.filter (before_token tables token)
                          (take (q - j)
                             (drop j (itemset (COLLECTION coll state)))))
        |}).
Proof.
  induction n as [|n IH]; intros j k coll Hstate Hlen r.
  - split; [reflexivity|]. intros q Hq. lia.
  - unfold r. cbn [link_items].
    set (items := itemset (COLLECTION coll state)) in *.
    assert (Hjlt : (j < length items)%nat) by lia.
    destruct (lookup_lt_is_Some_2 items j Hjlt) as [it Hit].
    assert (Hdrop : drop j items = it :: drop (S j) items)
      by (now apply drop_S).
    assert (Hitem : ITEMSET coll state j = it).
    { unfold ITEMSET. fold items. now rewrite Hit. }
    rewrite Hitem.
    destruct (before_token tables token it) eqn:Hb.
    + destruct (link_step coll state j i k
                  {| tg_state := i; tg_item := k |}
                  {| tg_state := state; tg_item := j |} Hstate Hjlt)
        as (K1 & D1 & L1 & L2).
      cbv zeta in K1, D1, L1, L2. rewrite Hitem in K1, D1, L1, L2.
      set (coll2 := set_item _ i k _) in *.
      destruct (IH (S j) (S k) coll2) as [K2 D2];
        [rewrite L1; lia | rewrite L2; fold items; lia|].
      split.
      * intros s q. now rewrite K2, K1.
      * intros q Hq Hbq.
        destruct (decide (q = j)) as [->|Hne].
        -- rewrite Nat.sub_diag, take_0. cbn [List.filter length].
           rewrite Nat.add_0_r.
           assert (Hkeep : forall n' j' k' c,
                     (j < j')%nat ->
                     descendant (ITEMSET
                                   (link_items tables n' j' k' state token i c)
                                   state j)
                     = descendant (ITEMSET c state j)).
           { clear. induction n' as [|n' IHn]; intros j' k' c Hlt;
               [reflexivity|].
             cbn [link_items].
             destruct (before_token tables token (ITEMSET c state j'));
               [|apply IHn; lia].
             rewrite IHn by lia.
             rewrite ITEMSET_set_item.
             destruct (decide _) as [(-> & -> & _)|_];
               unfold add_ancestor; cbn [descendant];
               rewrite ITEMSET_set_item;
               (destruct (decide _) as [(_ & E & _)|_];
                [lia | reflexivity]). }
           rewrite Hkeep by lia. rewrite D1.
           destruct (decide _) as [_|Hc]; [reflexivity|].
           exfalso. apply Hc. auto.
        -- rewrite D2; [|lia|].
           ++ f_equal.
              assert (Hq' : (q - j = S (q - S j))%nat) by lia.
              rewrite Hq'. fold items. rewrite Hdrop. cbn [take List.filter].
              rewrite Hb. cbn [length].
              assert (Hk : map item_key (itemset (COLLECTION coll2 state))
                           = map item_key items).
              { apply list_eq. intros p. rewrite !list_lookup_fmap.
                pose proof (K1 state p) as Hp. unfold ITEMSET in Hp.
                fold items in Hp.
                pose proof (L2 state) as Hl. fold items in Hl.
                destruct (itemset (COLLECTION coll2 state) !! p) as [a|] eqn:Ea;
                  destruct (items !! p) as [b|] eqn:Eb; cbn in Hp |- *.
                - now rewrite Hp.
                - apply lookup_lt_Some in Ea. apply lookup_ge_None in Eb. lia.
                - apply lookup_ge_None in Ea. apply lookup_lt_Some in Eb. lia.
                - reflexivity. }
              assert (Hf : forall l l' : list itementry,
                        map item_key l = map item_key l' ->
                        length (List.filter (before_token tables token) l)
                        = length (List.filter (before_token tables token) l')).
              { clear. induction l as [|a l IHl]; intros [|b l'] E;
                  try discriminate; [reflexivity|].
                cbn [map] in E.
                assert (Ea : item_key a = item_key b) by congruence.
                assert (El : map item_key l = map item_key l')
                  by congruence.
                cbn [List.filter].
                rewrite (before_token_key tables token a b Ea).
                destruct (before_token tables token b); cbn;
                  [f_equal|]; now apply IHl. }
              rewrite (Hf (take (q - S j)
                             (drop (S j) (itemset (COLLECTION coll2 state))))
                         (take (q - S j) (drop (S j) items))).
              ** lia.
              ** change (map item_key ?l) with (item_key <$> l).
                 rewrite !fmap_take, !fmap_drop.
                 change (item_key <$> ?l) with (map item_key l).
                 now rewrite Hk.
           ++ rewrite (before_token_key tables token _ (ITEMSET coll state q));
                [exact Hbq | apply K1].
    + destruct (IH (S j) k coll) as [K2 D2]; [exact Hstate | fold items; lia|].
      split; [exact K2|].
      intros q Hq Hbq.
      destruct (decide (q = j)) as [->|Hne]; [congruence|].
      rewrite D2 by (try lia; exact Hbq).
      f_equal. f_equal.
      assert (Hq' : (q - j = S (q - S j))%nat) by lia.
      rewrite Hq'. fold items. rewrite Hdrop. cbn [take List.filter].
      now rewrite Hb.
Qed.
End Links.

Section Goto.
Context (tables : generator).

Lemma link_items_kernel n : forall j k state token i coll s,
  kernel (COLLECTION (link_items tables n j k state token i coll) s)
  = kernel (COLLECTION coll s).
Proof.
  induction n as [|n IH]; intros j k state token i coll s; [reflexivity|].
  cbn [link_items].
  destruct (before_token tables token (ITEMSET coll state j)); [|apply IH].
  rewrite IH, !COLLECTION_set_item.
  destruct (decide _) as [[-> _]|_]; cbn [kernel];
    rewrite ?COLLECTION_set_item;
    repeat (destruct (decide _) as [[-> _]|_]; cbn [kernel]); reflexivity.
Qed.

(** The search of [lookup_goto] stops at the first state whose kernel is
    the one looked for, or past the last state. *)
Lemma find_state_spec knl n : forall i coll,
  let same (c : configuration) :=
    itemset_equal tables (itemset c) (kernel c) knl (length knl) in
  let r := find_state tables n i coll knl in
  (i <= r)%nat /\
  (forall s c, (i <= s < r)%nat -> coll !! s = Some c -> same c = false) /\
  ((length coll <= i + n)%nat ->
   (exists c, coll !! r = Some c /\ same c = true) \/
   (length coll <= r)%nat /\ (i <= length coll -> r = length coll)%nat).
Proof.
  induction n as [|n IH]; intros i coll same r.
  - unfold r. cbn [find_state].
    split; [lia|]. split; [intros s c Hs; lia|].
    intros Hn. right. split; lia.
  - unfold r. cbn [find_state].
    destruct (coll !! i) as [c|] eqn:Hc.
    + destruct (itemset_equal tables (itemset c) (kernel c) knl (length knl))
        eqn:He.
      * split; [lia|]. split; [intros s c' Hs; lia|].
        intros _. left. now exists c.
      * destruct (IH (S i) coll) as (H1 & H2 & H3).
        split; [lia|]. split.
        -- intros s c' Hs Hc'.
           destruct (decide (s = i)) as [->|Hne].
           ++ rewrite Hc in Hc'. injection Hc' as <-. exact He.
           ++ apply (H2 s c'); [lia | exact Hc'].
        -- intros Hn. apply lookup_lt_Some in Hc.
           destruct H3 as [H3|[H3 H4]]; [lia | now left |].
           right. split; [exact H3|]. intros _. apply H4. lia.
    + apply lookup_ge_None in Hc.
      split; [lia|]. split; [intros s c Hs; lia|].
      intros _. right. split; lia.
Qed.
End Goto.

(** X13 (lookup_goto): the state returned is the first state from state 2
    on whose kernel is the goto kernel of [state] on [token]; when there is
    none, it is a new state added at the end of the collection, whose kernel
    is the goto kernel and whose items are the closure of that kernel.  The
    states there were keep their items and their kernels. *)
Theorem lookup_goto_state (tables : generator) (coll : list configuration)
    (state : nat) (token : Z) :
  let knl := goto_kernel tables (itemset (COLLECTION coll state)) token in
  let same (c : configuration) :=
    itemset_equal tables (itemset c) (kernel c) knl (length knl) in
  let coll' := fst (lookup_goto tables coll state token) in
  let i := snd (lookup_goto tables coll state token) in
  (forall s c, (2 <= s < i)%nat -> coll !! s = Some c -> same c = false) /\
  ((exists c, coll !! i = Some c /\ same c = true /\
              length coll' = length coll) \/
   (i = length coll /\ length coll' = S (length coll) /\
    kernel (COLLECTION coll' i) = length knl /\
    map item_key (itemset (COLLECTION coll' i))
    = map item_key
        (apply_closure tables (closure_fuel tables knl) (length knl) knl 0)))
  /\
  (forall s, (s < length coll)%nat ->
     map item_key (itemset (COLLECTION coll' s))
     = map item_key (itemset (COLLECTION coll s)) /\
     kernel (COLLECTION coll' s) = kernel (COLLECTION coll s)).
Proof.
  intros knl same coll' i.
  destruct (find_state_spec tables knl (length coll) 2 coll) as (H1 & H2 & H3).
  fold knl in H1, H2, H3. cbv zeta in H1, H2, H3.
  set (r := find_state tables (length coll) 2 coll knl) in *.
  assert (Hshape : lookup_goto tables coll state token =
            (link_items tables (length (itemset (COLLECTION coll state))) 0 0
               state token
               (if (length coll <=? r)%nat then length coll else r)
               (if (length coll <=? r)%nat then
                  coll ++ [ {| itemset :=
                                 apply_closure tables (closure_fuel tables knl)
                                   (length knl) knl 0;
                               kernel := length knl; gotos := [] |} ]
                else coll),
             if (length coll <=? r)%nat then length coll else r))
    by reflexivity.
  unfold coll', i. rewrite Hshape. cbn [fst snd]. clear coll' i Hshape.
  destruct (Nat.leb_spec (length coll) r) as [Hle|Hlt].
  - split; [|split].
    + intros s c Hs Hc. apply (H2 s c); [lia | exact Hc].
    + right. split; [reflexivity|].
      rewrite link_items_length, length_app. cbn [length].
      split; [lia|].
      rewrite link_items_kernel, link_items_keys.
      unfold COLLECTION. rewrite lookup_app_r by lia.
      rewrite Nat.sub_diag. cbn. split; reflexivity.
    + intros s Hs. rewrite link_items_keys, link_items_kernel.
      rewrite COLLECTION_app_l by exact Hs. split; reflexivity.
  - split; [|split].
    + exact H2.
    + left. destruct H3 as [(c & Hc & He)|[H3 _]]; [lia | | lia].
      exists c. split; [exact Hc|]. split; [exact He|].
      apply link_items_length.
    + intros s Hs. rewrite link_items_keys, link_items_kernel.
      split; reflexivity.
Qed.

(** X14 (lookup_goto, itemset_equal): with ERRORREPAIR selected, every item
    of [state] with the dot in front of [token] gets a descendant in the
    state returned, and the item the descendant names there is that item
    with the dot moved past the token. *)
Theorem lookup_goto_links (tables : generator) (coll : list configuration)
    (state : nat) (token : Z) (q : nat) (x : itementry) :
  option_set (options tables) ERRORREPAIR = true ->
  itemset (COLLECTION coll state) !! q = Some x ->
  before_token tables token x = true ->
  let coll' := fst (lookup_goto tables coll state token) in
  let i := snd (lookup_goto tables coll state token) in
  let x' := ITEMSET coll' state q in
  item_key x' = item_key x /\
  tg_state (descendant x') = i /\
  item_key (ITEMSET coll' i (tg_item (descendant x')))
  = item_key (advance tables x).
Proof.
  intros Hrepair Hx Hb coll' i x'.
  set (items := itemset (COLLECTION coll state)) in *.
  set (knl := goto_kernel tables items token).
  assert (Hstate : (state < length coll)%nat).
  { destruct (decide (state < length coll)%nat) as [H|H]; [exact H|].
    exfalso. unfold items, COLLECTION in Hx.
    rewrite (proj2 (lookup_ge_None coll state)) in Hx by lia.
    discriminate. }
  destruct (find_state_spec tables knl (length coll) 2 coll) as (H1 & H2 & H3).
  cbv zeta in H1, H2, H3.
  set (r := find_state tables (length coll) 2 coll knl) in *.
  set (new := {| itemset :=
                   apply_closure tables (closure_fuel tables knl)
                     (length knl) knl 0;
                 kernel := length knl; gotos := [] |}).
  set (i0 := if (length coll <=? r)%nat then length coll else r).
  set (coll1 := if (length coll <=? r)%nat then coll ++ [new] else coll).
  assert (Hshape : lookup_goto tables coll state token =
            (link_items tables (length items) 0 0 state token i0 coll1, i0))
    by reflexivity.
  unfold x', coll', i. rewrite Hshape. cbn [fst snd].
  clear x' coll' i Hshape.
  assert (Hitems1 : itemset (COLLECTION coll1 state) = items).
  { unfold coll1. destruct (length coll <=? r)%nat; [|reflexivity].
    now rewrite COLLECTION_app_l. }
  assert (Hlen1 : (state < length coll1)%nat).
  { unfold coll1. destruct (length coll <=? r)%nat; [|exact Hstate].
    rewrite length_app. lia. }
  destruct (link_items_links tables state token i0 (length items) 0 0 coll1
              Hlen1) as [K D]; [rewrite Hitems1; lia|].
  assert (Hq : (q < length items)%nat) by (eapply lookup_lt_Some; exact Hx).
  assert (Hx1 : ITEMSET coll1 state q = x).
  { unfold ITEMSET. now rewrite Hitems1, Hx. }
  specialize (D q). rewrite Hx1, Hitems1 in D.
  rewrite D by (try lia; exact Hb). clear D.
  cbn [tg_state tg_item]. rewrite !K, Hx1.
  split; [reflexivity|]. split; [reflexivity|].
  rewrite drop_0, Nat.sub_0_r, Nat.add_0_l.
  set (k := length (List.filter (before_token tables token) (take q items))).
  assert (Hk : knl !! k = Some (advance tables x)).
  { unfold knl, goto_kernel.
    change (map (advance tables) ?l) with (advance tables <$> l).
    rewrite list_lookup_fmap. unfold k.
    now rewrite (filter_index _ _ _ _ Hx Hb). }
  assert (Hklt : (k < length knl)%nat) by (eapply lookup_lt_Some; exact Hk).
  unfold i0, coll1.
  destruct (Nat.leb_spec (length coll) r) as [Hle|Hlt].
  - unfold ITEMSET, COLLECTION. rewrite lookup_app_r by lia.
    rewrite Nat.sub_diag. cbn [lookup list_lookup from_option id itemset new].
    destruct (proj1 (apply_closure_appends tables (closure_fuel tables knl))
                (length knl) knl 0%nat) as (added & -> & _).
    rewrite lookup_app_l by exact Hklt. now rewrite Hk.
  - destruct H3 as [(c & Hc & He)|[H3 _]]; [lia | | lia].
    unfold itemset_equal in He. rewrite Hrepair in He.
    destruct (kernel c =? length knl)%nat eqn:Hkn; [|discriminate].
    apply Nat.eqb_eq in Hkn. cbn [negb] in He.
    rewrite forallb_forall in He.
    specialize (He k). rewrite Hkn in He.
    assert (Hin : In k (seq 0 (length knl))) by (apply in_seq; lia).
    specialize (He Hin). unfold same_item in He.
    apply andb_true_iff in He as [Ep Ed].
    apply Nat.eqb_eq in Ep, Ed.
    unfold ITEMSET, COLLECTION. rewrite Hc. cbn [from_option id].
    unfold item_at in Ep, Ed. rewrite Hk in Ep, Ed. cbn [from_option id] in Ep, Ed.
    unfold item_key. now rewrite Ep, Ed.
Qed.

Lemma lookup_goto_links_witness :
  let coll := initial_collection plain_tables in
  let x := ITEMSET coll 1 2 in
  let coll' := fst (lookup_goto plain_tables coll 1 1) in
  let i := snd (lookup_goto plain_tables coll 1 1) in
  let x' := ITEMSET coll' 1 2 in
  option_set (options plain_tables) ERRORREPAIR = true /\
  itemset (COLLECTION coll 1) !! 2%nat = Some x /\
  before_token plain_tables 1 x = true /\
  item_key x' = item_key x /\
  tg_state (descendant x') = i /\
  item_key (ITEMSET coll' i (tg_item (descendant x')))
  = item_key (advance plain_tables x).
Proof.
  cbv zeta.
  assert (H1 : option_set (options plain_tables) ERRORREPAIR = true)
    by reflexivity.
  assert (H2 : itemset (COLLECTION (initial_collection plain_tables) 1)
                 !! 2%nat
               = Some (ITEMSET (initial_collection plain_tables) 1 2))
    by (vm_compute; reflexivity).
  assert (H3 : before_token plain_tables 1
                 (ITEMSET (initial_collection plain_tables) 1 2) = true)
    by (vm_compute; reflexivity).
  split; [exact H1|]. split; [exact H2|]. split; [exact H3|].
  exact (lookup_goto_links plain_tables (initial_collection plain_tables)
           1 1 2 (ITEMSET (initial_collection plain_tables) 1 2) H1 H2 H3).
Defined.

(** The goto of state 1 of the sample grammar on [a]: state 2 is new, its
    kernel is [List -> a . List b], and the item of state 1 names it. *)
Example lookup_goto_sample :
  let r := lookup_goto plain_tables (initial_collection plain_tables) 1 1 in
  snd r = 2%nat /\
  map item_key (itemset (COLLECTION (fst r) 2)) = [(3, 1); (2, 0); (3, 0)]%nat /\
  descendant (ITEMSET (fst r) 1 2) = {| tg_state := 2; tg_item := 0 |}.
Proof. vm_compute. repeat split. Qed.

(** Without ERRORREPAIR the kernels are compared as sets.  In the grammar
    [cross_productions] state 3 reaches the kernel of state 5 in the other
    order: its item [B -> . x z] names item 0 of state 5, which is
    [A -> x . y].  With ERRORREPAIR the second order is a state of its own
    and the item named is [B -> x . z]. *)
Example lookup_goto_unordered :
  let item (opts : Z) := ITEMSET (cross_collection opts) 3 2 in
  let named (opts : Z) :=
    ITEMSET (cross_collection opts) (tg_state (descendant (item opts)))
      (tg_item (descendant (item opts))) in
  item_key (item 0) = (7, 0)%nat /\
  descendant (item 0) = {| tg_state := 5; tg_item := 0 |} /\
  item_key (named 0) = (6, 1)%nat /\
  item_key (item 1) = (7, 0)%nat /\
  descendant (item 1) = {| tg_state := 8; tg_item := 0 |} /\
  item_key (named 1) = (7, 1)%nat.
Proof. vm_compute. repeat split. Qed.

(** * The symbol table (lookup_symbol) *)

Lemma chain_match_spec name type e :
  chain_match name type e = true <->
  symbol e = name /\ sym_type (node e) = type.
Proof.
  unfold chain_match. rewrite andb_true_iff, bool_decide_eq_true.
  destruct (sym_type (node e)), type; cbn; intuition congruence.
Qed.

Lemma search_chain_Some chain name type e :
  search_chain chain name type = Some e ->
  e ∈ chain /\ symbol e = name /\ sym_type (node e) = type.
Proof.
  induction chain as [|x chain IH]; cbn; [discriminate|].
  destruct (chain_match name type x) eqn:Hm.
  - intros [= <-]. apply chain_match_spec in Hm. split; [left | exact Hm].
  - intros H. destruct (IH H) as [Hin Hk]. split; [now right | exact Hk].
Qed.

Lemma search_chain_None chain name type :
  search_chain chain name type = None <->
  forall e, e ∈ chain -> ~ (symbol e = name /\ sym_type (node e) = type).
Proof.
  induction chain as [|x chain IH]; cbn.
  - split; [intros _ e He; inversion He | reflexivity].
  - destruct (chain_match name type x) eqn:Hm.
    + split; [discriminate|]. intros H. exfalso.
      apply (H x); [left | now apply chain_match_spec].
    + rewrite IH. split.
      * intros H e He. apply elem_of_cons in He as [->|He]; [|now apply H].
        rewrite <- chain_match_spec. congruence.
      * intros H e He. apply H. now right.
Qed.

(** A search for another symbol or type does not see the entry. *)
Lemma search_chain_other chain name type name' type' e :
  (name', type') <> (name, type) ->
  symbol e = name -> sym_type (node e) = type ->
  search_chain (e :: chain) name' type' = search_chain chain name' type'.
Proof.
  intros Hne Hs Ht. cbn.
  destruct (chain_match name' type' e) eqn:Hm; [|reflexivity].
  apply chain_match_spec in Hm as [H1 H2]. congruence.
Qed.

Lemma unlink_chain_other chain name type name' type' :
  (name', type') <> (name, type) ->
  search_chain (unlink_chain chain name type) name' type'
  = search_chain chain name' type'.
Proof.
  intros Hne. induction chain as [|x chain IH]; [reflexivity|].
  cbn. destruct (chain_match name type x) eqn:Hm.
  - destruct (chain_match name' type' x) eqn:Hm'; [|reflexivity].
    apply chain_match_spec in Hm as [H1 H2].
    apply chain_match_spec in Hm' as [H3 H4]. congruence.
  - cbn. now rewrite IH.
Qed.

Lemma unlink_chain_sublist chain name type :
  sublist (unlink_chain chain name type) chain.
Proof.
  induction chain as [|x chain IH]; cbn; [constructor|].
  destruct (chain_match name type x).
  - now apply sublist_cons.
  - now apply sublist_skip.
Qed.

Lemma search_chain_keys chain name type :
  search_chain chain name type = None <-> (name, type) ∉ chain_keys chain.
Proof.
  rewrite search_chain_None. unfold chain_keys. split.
  - intros H Hin. apply list_elem_of_fmap in Hin as (e & He & Hin).
    apply (H e Hin). split; congruence.
  - intros H e He [Hs Ht]. apply H. apply list_elem_of_fmap.
    exists e. split; [congruence | exact He].
Qed.

Lemma unlink_chain_gone chain name type :
  NoDup (chain_keys chain) ->
  search_chain (unlink_chain chain name type) name type = None.
Proof.
  induction chain as [|x chain IH]; intros Hnd; [reflexivity|].
  cbn in Hnd. apply NoDup_cons in Hnd as [Hx Hnd].
  cbn. destruct (chain_match name type x) eqn:Hm.
  - apply search_chain_keys. apply chain_match_spec in Hm as [<- <-].
    exact Hx.
  - cbn. rewrite Hm. now apply IH.
Qed.

Lemma unlink_chain_keys chain name type :
  NoDup (chain_keys chain) -> NoDup (chain_keys (unlink_chain chain name type)).
Proof.
  intros H. eapply sublist_NoDup; [exact H|].
  unfold chain_keys. apply fmap_sublist, unlink_chain_sublist.
Qed.

(** The entries of a table in which one chain is replaced. *)
Lemma entries_insert (table : list (list symbolnode)) h chain chain' :
  table !! h = Some chain ->
  exists pre post,
    concat table = pre ++ chain ++ post /\
    concat (<[h := chain']> table) = pre ++ chain' ++ post.
Proof.
  intros Hh. exists (concat (take h table)), (concat (drop (S h) table)).
  split.
  - rewrite <- (take_drop_middle table h chain Hh) at 1.
    now rewrite concat_app.
  - rewrite insert_take_drop by (eapply lookup_lt_Some; exact Hh).
    now rewrite concat_app.
Qed.

Section SymbolTable.
Context (hash_string : cstring -> nat).

Lemma lookup_symbol_found t name type action e :
  search_chain (default [] (symboltable t !! hash_string name)) name type
  = Some e ->
  action <> DELETE ->
  lookup_symbol hash_string t name type action = (t, Some e).
Proof.
  intros Hs Ha. unfold lookup_symbol. rewrite Hs.
  destruct (action =? DELETE) eqn:E; [|reflexivity].
  apply Z.eqb_eq in E. contradiction.
Qed.

Lemma lookup_symbol_LOOKUP t name type :
  lookup_symbol hash_string t name type LOOKUP
  = (t, search_chain (default [] (symboltable t !! hash_string name))
          name type).
Proof.
  unfold lookup_symbol.
  destruct (search_chain _ name type); reflexivity.
Qed.

(** The chain searched for a symbol after one chain was replaced. *)
Lemma chain_insert (table : list (list symbolnode)) h chain' name :
  (h < length table)%nat ->
  default [] (<[h := chain']> table !! hash_string name)
  = if decide (hash_string name = h) then chain'
    else default [] (table !! hash_string name).
Proof.
  intros Hh. destruct (decide (hash_string name = h)) as [->|Hne].
  - now rewrite list_lookup_insert_eq.
  - now rewrite list_lookup_insert_ne by congruence.
Qed.

(** Every call keeps the invariant; an insertion takes the next order. *)
Lemma lookup_symbol_inv n t name type action :
  symbols_inv n t -> n < INT_MAX ->
  symbols_inv (n + 1) (fst (lookup_symbol hash_string t name type action)).
Proof.
  intros (Hlen & Hcnt & Hord & Hnd & Hkeys) Hn.
  unfold lookup_symbol.
  set (h := hash_string name).
  destruct (symboltable t !! h) as [chain|] eqn:Hh; cbn [from_option id].
  2:{ (* the hash is outside the table: nothing is stored *)
      apply lookup_ge_None in Hh.
      cbn [search_chain].
      destruct (action =? INSERT); cbn [fst alloc_symbol].
      - unfold symbols_inv, entries. cbn [symboltable next_order].
        rewrite list_insert_ge by exact Hh.
        assert (Hnext : next_int (next_order t) = next_order t + 1).
        { unfold next_int. destruct (Z.eqb_spec (next_order t) INT_MAX); lia. }
        rewrite Hnext.
        split; [exact Hlen|]. split; [lia|]. split; [|now split].
        eapply Forall_impl; [exact Hord|]. cbn. intros e He. lia.
      - split; [exact Hlen|]. split; [lia|]. now split. }
  destruct (search_chain chain name type) as [e|] eqn:Hs.
  - destruct (action =? DELETE); cbn [fst].
    + destruct (entries_insert (symboltable t) h chain
                  (unlink_chain chain name type) Hh)
        as (pre & post & E1 & E2).
      unfold symbols_inv, entries in *. cbn [symboltable next_order].
      rewrite E2. rewrite E1 in Hord, Hnd.
      assert (Hsub : sublist (pre ++ unlink_chain chain name type ++ post)
                       (pre ++ chain ++ post)).
      { apply sublist_app; [reflexivity|].
        apply sublist_app; [apply unlink_chain_sublist | reflexivity]. }
      split; [now rewrite length_insert|]. split; [lia|].
      split; [|split].
      * rewrite Forall_forall in Hord |- *. intros x Hx.
        apply Hord. eapply elem_of_sublist; [exact Hx | exact Hsub].
      * eapply sublist_NoDup; [exact Hnd|]. now apply fmap_sublist.
      * apply Forall_insert; [exact Hkeys|].
        apply unlink_chain_keys.
        eapply Forall_lookup_1 in Hkeys; [exact Hkeys | exact Hh].
    + split; [exact Hlen|]. split; [lia|]. now split.
  - destruct (action =? INSERT); cbn [fst alloc_symbol].
    + set (e := {| symbol := name; node := _ |}).
      destruct (entries_insert (symboltable t) h chain (e :: chain) Hh)
        as (pre & post & E1 & E2).
      assert (Hnext : next_int (next_order t) = next_order t + 1).
      { unfold next_int. destruct (Z.eqb_spec (next_order t) INT_MAX); lia. }
      unfold symbols_inv, entries in *. cbn [symboltable next_order].
      rewrite E2, Hnext. rewrite E1 in Hord, Hnd.
      assert (Hperm : pre ++ (e :: chain) ++ post
                      ≡ₚ e :: pre ++ chain ++ post).
      { cbn. now rewrite <- Permutation_middle. }
      split; [now rewrite length_insert|]. split; [lia|].
      split; [|split].
      * rewrite Hperm. constructor; [cbn; lia|].
        eapply Forall_impl; [exact Hord|]. cbn. intros x Hx. lia.
      * rewrite Hperm. cbn [map]. apply NoDup_cons. split; [|exact Hnd].
        intros Hin. apply list_elem_of_fmap in Hin as (x & Hx & Hin).
        rewrite Forall_forall in Hord. specialize (Hord x Hin).
        unfold order_of in Hx at 1. cbn in Hx. lia.
      * apply Forall_insert; [exact Hkeys|].
        cbn. apply NoDup_cons. split.
        -- now apply search_chain_keys.
        -- eapply Forall_lookup_1 in Hkeys; [exact Hkeys | exact Hh].
    + split; [exact Hlen|]. split; [lia|]. now split.
Qed.

(** The chains keep their number and hold no symbol of a type twice. *)
Lemma lookup_symbol_chains t name type action :
  length (symboltable t) = HASH_TABLE_SIZE /\
  Forall (fun chain => NoDup (chain_keys chain)) (symboltable t) ->
  length (symboltable
            (fst (lookup_symbol hash_string t name type action)))
  = HASH_TABLE_SIZE /\
  Forall (fun chain => NoDup (chain_keys chain))
    (symboltable (fst (lookup_symbol hash_string t name type action))).
Proof.
  intros [Hlen Hkeys]. unfold lookup_symbol.
  set (h := hash_string name).
  destruct (symboltable t !! h) as [chain|] eqn:Hh; cbn [from_option id].
  2:{ apply lookup_ge_None in Hh. cbn [search_chain].
      destruct (action =? INSERT); cbn [fst alloc_symbol symboltable];
        [|now split].
      rewrite list_insert_ge by exact Hh. now split. }
  assert (Hc : NoDup (chain_keys chain))
    by (eapply Forall_lookup_1 in Hkeys; [exact Hkeys | exact Hh]).
  destruct (search_chain chain name type) as [e|] eqn:Hs.
  - destruct (action =? DELETE); cbn [fst symboltable]; [|now split].
    split; [now rewrite length_insert|].
    apply Forall_insert; [exact Hkeys|]. now apply unlink_chain_keys.
  - destruct (action =? INSERT); cbn [fst alloc_symbol symboltable];
      [|now split].
    split; [now rewrite length_insert|].
    apply Forall_insert; [exact Hkeys|].
    cbn. apply NoDup_cons. split; [now apply search_chain_keys | exact Hc].
Qed.

Lemma lookup_symbols_chains calls : forall t,
  length (symboltable t) = HASH_TABLE_SIZE /\
  Forall (fun chain => NoDup (chain_keys chain)) (symboltable t) ->
  length (symboltable (lookup_symbols hash_string calls t))
  = HASH_TABLE_SIZE /\
  Forall (fun chain => NoDup (chain_keys chain))
    (symboltable (lookup_symbols hash_string calls t)).
Proof.
  induction calls as [|c calls IH]; intros t Ht; [exact Ht|].
  cbn [lookup_symbols fold_left]. apply IH, lookup_symbol_chains, Ht.
Qed.

Lemma empty_symbols_chains :
  length (symboltable empty_symbols) = HASH_TABLE_SIZE /\
  Forall (fun chain => NoDup (chain_keys chain)) (symboltable empty_symbols).
Proof.
  split; [apply length_replicate|]. apply Forall_replicate. constructor.
Qed.

Lemma empty_symbols_inv : symbols_inv 0 empty_symbols.
Proof.
  assert (He : entries empty_symbols = []).
  { unfold entries, empty_symbols. cbn [symboltable].
    generalize HASH_TABLE_SIZE. induction n as [|n IH]; [reflexivity|].
    cbn. exact IH. }
  unfold symbols_inv. rewrite He.
  split; [apply length_replicate|]. split; [cbn; lia|].
  split; [constructor|]. split; [constructor|].
  apply Forall_replicate. constructor.
Qed.

Lemma lookup_symbols_inv calls : forall n t,
  symbols_inv n t -> n + Z.of_nat (length calls) <= INT_MAX ->
  symbols_inv (n + Z.of_nat (length calls))
    (lookup_symbols hash_string calls t).
Proof.
  induction calls as [|c calls IH]; intros n t Hinv Hn.
  - cbn. now rewrite Z.add_0_r.
  - cbn [lookup_symbols fold_left length] in *.
    replace (n + Z.of_nat (S (length calls)))
      with (n + 1 + Z.of_nat (length calls)) by lia.
    apply IH; [|lia]. apply lookup_symbol_inv; [exact Hinv | lia].
Qed.
End SymbolTable.

Lemma elem_of_concat {A : Type} (x : A) (ls : list (list A)) :
  x ∈ concat ls -> exists l, x ∈ l /\ l ∈ ls.
Proof.
  induction ls as [|l ls IH]; cbn; [intros H; inversion H|].
  intros H. apply elem_of_app in H as [H|H].
  - exists l. split; [exact H | left].
  - destruct (IH H) as (l' & H1 & H2). exists l'. split; [exact H1 | now right].
Qed.

Section SymbolCalls.
Context (hash_string : cstring -> nat).

(** Every entry sits in the chain of its hash. *)
Let placed (t : symtable) : Prop :=
  forall h chain e,
    symboltable t !! h = Some chain -> e ∈ chain ->
    hash_string (symbol e) = h.

Lemma lookup_symbol_placed t name type action :
  placed t -> placed (fst (lookup_symbol hash_string t name type action)).
Proof.
  intros Hp. unfold lookup_symbol.
  set (h := hash_string name).
  destruct (symboltable t !! h) as [chain|] eqn:Hh; cbn [from_option id].
  2:{ apply lookup_ge_None in Hh. cbn [search_chain].
      destruct (action =? INSERT); cbn [fst alloc_symbol]; [|exact Hp].
      intros h' c e. cbn [symboltable].
      rewrite list_insert_ge by exact Hh. apply Hp. }
  assert (Hlt : (h < length (symboltable t))%nat)
    by (eapply lookup_lt_Some; exact Hh).
  destruct (search_chain chain name type) as [e|] eqn:Hs.
  - destruct (action =? DELETE); cbn [fst]; [|exact Hp].
    intros h' c x. cbn [symboltable].
    destruct (decide (h' = h)) as [->|Hne].
    + rewrite list_lookup_insert_eq by exact Hlt. intros [= <-] Hx.
      apply (Hp h chain x Hh).
      eapply elem_of_sublist; [exact Hx | apply unlink_chain_sublist].
    + rewrite list_lookup_insert_ne by congruence. apply Hp.
  - destruct (action =? INSERT); cbn [fst alloc_symbol]; [|exact Hp].
    intros h' c x. cbn [symboltable].
    destruct (decide (h' = h)) as [->|Hne].
    + rewrite list_lookup_insert_eq by exact Hlt. intros [= <-] Hx.
      apply elem_of_cons in Hx as [->|Hx]; [reflexivity|].
      now apply (Hp h chain x Hh).
    + rewrite list_lookup_insert_ne by congruence. apply Hp.
Qed.

Lemma lookup_symbols_placed calls : forall t,
  placed t -> placed (lookup_symbols hash_string calls t).
Proof.
  induction calls as [|c calls IH]; intros t Hp; [exact Hp|].
  cbn [lookup_symbols fold_left]. apply IH, lookup_symbol_placed, Hp.
Qed.

Lemma empty_symbols_placed : placed empty_symbols.
Proof.
  intros h chain e Hh He. unfold empty_symbols in Hh.
  cbn [symboltable] in Hh.
  apply lookup_replicate in Hh as [-> _]. inversion He.
Qed.

(** Chains with different hashes hold different symbols. *)
Lemma concat_keys (table : list (list symbolnode)) : forall offset,
  (forall i chain e, table !! i = Some chain -> e ∈ chain ->
                     hash_string (symbol e) = (offset + i)%nat) ->
  Forall (fun chain => NoDup (chain_keys chain)) table ->
  NoDup (chain_keys (concat table)).
Proof.
  induction table as [|c table IH]; intros offset Hpl Hnd.
  - constructor.
  - apply Forall_cons in Hnd as [Hc Hnd]. cbn [concat].
    unfold chain_keys. rewrite map_app. apply NoDup_app.
    split; [exact Hc|]. split.
    + intros k Hk1 Hk2.
      apply list_elem_of_fmap in Hk1 as (e1 & -> & He1).
      apply list_elem_of_fmap in Hk2 as (e2 & Hk & He2).
      apply elem_of_concat in He2 as (c2 & He2 & Hc2).
      apply list_elem_of_lookup in Hc2 as (i & Hi).
      pose proof (Hpl 0%nat c e1 eq_refl He1) as H1.
      pose proof (Hpl (S i) c2 e2 Hi He2) as H2.
      assert (symbol e1 = symbol e2) by congruence.
      rewrite H in H1. lia.
    + apply (IH (S offset)); [|exact Hnd].
      intros i chain e Hi He.
      rewrite (Hpl (S i) chain e Hi He). lia.
Qed.

Lemma lookup_symbol_other (t : symtable) (name : cstring)
    (chain' : list symbolnode) (name' : cstring) (type' : symtype) :
  (hash_string name < length (symboltable t))%nat ->
  search_chain chain' name' type'
  = search_chain (default [] (symboltable t !! hash_string name))
      name' type' ->
  search_chain
    (default [] (<[hash_string name := chain']> (symboltable t)
                   !! hash_string name')) name' type'
  = search_chain (default [] (symboltable t !! hash_string name'))
      name' type'.
Proof.
  intros Hh Hc. rewrite chain_insert by exact Hh.
  destruct (decide _) as [E|_]; [|reflexivity].
  now rewrite Hc, E.
Qed.
End SymbolCalls.

(** X15 (lookup_symbol): an INSERT returns an entry with the symbol and the
    type; a LOOKUP or another INSERT of the same symbol and type afterwards
    returns that entry and leaves the table as it is, and a LOOKUP of any
    other symbol or type returns what it returned before. *)
Theorem lookup_symbol_insert (hash_string : cstring -> nat) (t : symtable)
    (name : cstring) (type : symtype) :
  (hash_string name < length (symboltable t))%nat ->
  let r := lookup_symbol hash_string t name type INSERT in
  exists e,
    snd r = Some e /\ symbol e = name /\ sym_type (node e) = type /\
    lookup_symbol hash_string (fst r) name type LOOKUP = (fst r, Some e) /\
    lookup_symbol hash_string (fst r) name type INSERT = (fst r, Some e) /\
    (forall name' type', (name', type') <> (name, type) ->
       snd (lookup_symbol hash_string (fst r) name' type' LOOKUP)
       = snd (lookup_symbol hash_string t name' type' LOOKUP)).
Proof.
  intros Hh r.
  set (chain := default [] (symboltable t !! hash_string name)).
  destruct (search_chain chain name type) as [e|] eqn:Hs.
  - assert (Hr : r = (t, Some e)).
    { unfold r. apply lookup_symbol_found; [exact Hs | discriminate]. }
    rewrite Hr. cbn [fst snd].
    destruct (search_chain_Some _ _ _ _ Hs) as (_ & Hn & Ht).
    exists e. split; [reflexivity|]. split; [exact Hn|]. split; [exact Ht|].
    split; [apply lookup_symbol_found; [exact Hs | discriminate]|].
    split; [apply lookup_symbol_found; [exact Hs | discriminate]|].
    reflexivity.
  - set (e := fst (alloc_symbol t name type)).
    assert (Hr : r = ({| symboltable :=
                           <[hash_string name := e :: chain]> (symboltable t);
                         next_order := next_int (next_order t) |}, Some e)).
    { unfold r, lookup_symbol. fold chain. rewrite Hs. reflexivity. }
    rewrite Hr. cbn [fst snd].
    assert (Hnew : search_chain
                     (default []
                        (<[hash_string name := e :: chain]> (symboltable t)
                           !! hash_string name)) name type = Some e).
    { rewrite list_lookup_insert_eq by exact Hh. cbn [from_option id].
      cbn [search_chain].
      replace (chain_match name type e) with true; [reflexivity|].
      symmetry. apply chain_match_spec. now split. }
    exists e. split; [reflexivity|]. split; [reflexivity|].
    split; [reflexivity|].
    split; [apply lookup_symbol_found; [exact Hnew | discriminate]|].
    split; [apply lookup_symbol_found; [exact Hnew | discriminate]|].
    intros name' type' Hne. rewrite !lookup_symbol_LOOKUP. cbn [snd symboltable].
    apply lookup_symbol_other; [exact Hh|].
    fold chain. now apply (search_chain_other chain name type).
Qed.

Lemma lookup_symbol_insert_witness :
  let r := lookup_symbol sample_hash empty_symbols name_ab TERMINAL INSERT in
  (sample_hash name_ab < length (symboltable empty_symbols))%nat /\
  exists e,
    snd r = Some e /\ symbol e = name_ab /\ sym_type (node e) = TERMINAL /\
    lookup_symbol sample_hash (fst r) name_ab TERMINAL LOOKUP
    = (fst r, Some e) /\
    lookup_symbol sample_hash (fst r) name_ab TERMINAL INSERT
    = (fst r, Some e) /\
    (forall name' type', (name', type') <> (name_ab, TERMINAL) ->
       snd (lookup_symbol sample_hash (fst r) name' type' LOOKUP)
       = snd (lookup_symbol sample_hash empty_symbols name' type' LOOKUP)).
Proof.
  assert (H : (sample_hash name_ab < length (symboltable empty_symbols))%nat)
    by (vm_compute; lia).
  split; [exact H|].
  exact (lookup_symbol_insert sample_hash empty_symbols name_ab TERMINAL H).
Defined.

(** X16 (lookup_symbol): in a table built by calls of lookup_symbol, a
    DELETE returns the entry a LOOKUP finds and removes it: a LOOKUP of the
    symbol and type afterwards returns NULL, and a LOOKUP of any other
    symbol or type returns what it returned before. *)
Theorem lookup_symbol_delete (hash_string : cstring -> nat)
    (calls : list (cstring * symtype * Z)) (name : cstring) (type : symtype) :
  Forall (fun c => hashed hash_string c.1.1) calls ->
  hashed hash_string name ->
  let t := lookup_symbols hash_string calls empty_symbols in
  let r := lookup_symbol hash_string t name type DELETE in
  snd r = snd (lookup_symbol hash_string t name type LOOKUP) /\
  snd (lookup_symbol hash_string (fst r) name type LOOKUP) = None /\
  (forall name' type', (name', type') <> (name, type) ->
     snd (lookup_symbol hash_string (fst r) name' type' LOOKUP)
     = snd (lookup_symbol hash_string t name' type' LOOKUP)).
Proof.
  intros _ Hh t r.
  destruct (lookup_symbols_chains hash_string calls empty_symbols
              empty_symbols_chains) as [Hlen Hkeys].
  fold t in Hlen, Hkeys.
  assert (Hlt : (hash_string name < length (symboltable t))%nat)
    by (rewrite Hlen; exact Hh).
  destruct (lookup_lt_is_Some_2 _ _ Hlt) as [chain Hc].
  assert (Hnd : NoDup (chain_keys chain))
    by (eapply Forall_lookup_1 in Hkeys; [exact Hkeys | exact Hc]).
  rewrite (lookup_symbol_LOOKUP hash_string t name type).
  cbn [snd]. rewrite Hc. cbn [from_option id].
  assert (Hr : r = match search_chain chain name type with
                   | Some e =>
                       ({| symboltable :=
                             <[hash_string name := unlink_chain chain name type]>
                               (symboltable t);
                           next_order := next_order t |}, Some e)
                   | None => (t, None)
                   end).
  { unfold r, lookup_symbol. rewrite Hc. cbn [from_option id].
    destruct (search_chain chain name type); reflexivity. }
  rewrite Hr. clear Hr r.
  destruct (search_chain chain name type) as [e|] eqn:Hs; cbn [fst snd].
  - split; [reflexivity|]. split.
    + rewrite lookup_symbol_LOOKUP. cbn [snd symboltable].
      rewrite list_lookup_insert_eq by exact Hlt. cbn [from_option id].
      now apply unlink_chain_gone.
    + intros name' type' Hne.
      rewrite !lookup_symbol_LOOKUP. cbn [snd symboltable].
      apply lookup_symbol_other; [exact Hlt|].
      rewrite Hc. cbn [from_option id]. now apply unlink_chain_other.
  - split; [reflexivity|]. split; [|reflexivity].
    rewrite lookup_symbol_LOOKUP. cbn [snd].
    rewrite Hc. cbn [from_option id]. exact Hs.
Qed.

Lemma lookup_symbol_delete_witness :
  let t := lookup_symbols sample_hash sample_calls empty_symbols in
  let r := lookup_symbol sample_hash t name_ab TERMINAL DELETE in
  Forall (fun c => hashed sample_hash c.1.1) sample_calls /\
  hashed sample_hash name_ab /\
  snd r = snd (lookup_symbol sample_hash t name_ab TERMINAL LOOKUP) /\
  snd (lookup_symbol sample_hash (fst r) name_ab TERMINAL LOOKUP) = None /\
  (forall name' type', (name', type') <> (name_ab, TERMINAL) ->
     snd (lookup_symbol sample_hash (fst r) name' type' LOOKUP)
     = snd (lookup_symbol sample_hash t name' type' LOOKUP)).
Proof.
  assert (H1 : Forall (fun c => hashed sample_hash c.1.1) sample_calls)
    by (repeat constructor; vm_compute; lia).
  assert (H3 : hashed sample_hash name_ab) by (vm_compute; lia).
  split; [exact H1|]. split; [exact H3|].
  exact (lookup_symbol_delete sample_hash sample_calls name_ab TERMINAL
           H1 H3).
Defined.

(** X17 (lookup_symbol, alloc_symbol): in a table built by calls of
    lookup_symbol the [order] of an entry identifies it, no two entries have
    the same symbol and type, and every order is below the counter of
    alloc_symbol. *)
Theorem lookup_symbol_unique (hash_string : cstring -> nat)
    (calls : list (cstring * symtype * Z)) :
  Forall (fun c => hashed hash_string c.1.1) calls ->
  Z.of_nat (length calls) <= INT_MAX ->
  let t := lookup_symbols hash_string calls empty_symbols in
  NoDup (map order_of (entries t)) /\
  NoDup (chain_keys (entries t)) /\
  Forall (fun e => 0 <= order_of e < next_order t) (entries t) /\
  next_order t <= Z.of_nat (length calls).
Proof.
  intros _ Hcalls t.
  destruct (lookup_symbols_inv hash_string calls 0 empty_symbols
              empty_symbols_inv) as (Hlen & Hcnt & Hord & Hnd & Hkeys); [lia|].
  fold t in Hlen, Hcnt, Hord, Hnd, Hkeys.
  split; [exact Hnd|]. split; [|split; [exact Hord | lia]].
  apply (concat_keys hash_string (symboltable t) 0); [|exact Hkeys].
  intros i chain e Hi He. cbn.
  exact (lookup_symbols_placed hash_string calls empty_symbols
           (empty_symbols_placed hash_string) i chain e Hi He).
Qed.

Lemma lookup_symbol_unique_witness :
  let t := lookup_symbols sample_hash sample_calls empty_symbols in
  Forall (fun c => hashed sample_hash c.1.1) sample_calls /\
  Z.of_nat (length sample_calls) <= INT_MAX /\
  NoDup (map order_of (entries t)) /\
  NoDup (chain_keys (entries t)) /\
  Forall (fun e => 0 <= order_of e < next_order t) (entries t) /\
  next_order t <= Z.of_nat (length sample_calls).
Proof.
  assert (H1 : Forall (fun c => hashed sample_hash c.1.1) sample_calls)
    by (repeat constructor; vm_compute; lia).
  assert (H2 : Z.of_nat (length sample_calls) <= INT_MAX)
    by (vm_compute; discriminate).
  split; [exact H1|]. split; [exact H2|].
  exact (lookup_symbol_unique sample_hash sample_calls H1 H2).
Defined.

(** The sample calls: [ab] and [ba] hash to the same chain, the later
    entry in front, and the nonterminal [ab] is an entry of its own. *)
Example lookup_symbols_sample :
  let t := lookup_symbols sample_hash sample_calls empty_symbols in
  map (fun e => (symbol e, sym_type (node e), order_of e)) (entries t)
  = [ (name_ab, NONTERMINAL, 2); (name_ba, TERMINAL, 1);
      (name_ab, TERMINAL, 0) ] /\
  next_order t = 3.
Proof. vm_compute. split; reflexivity. Qed.

(** * Escape sequences (decode_char, decode_string) *)

Lemma char_at_end (s : cstring) (i : nat) :
  Forall is_char s -> (i <= length s)%nat ->
  char_at s i <> 0 -> (i < length s)%nat.
Proof.
  intros _ Hi Hc. destruct (decide (i < length s)%nat) as [H|H]; [exact H|].
  exfalso. apply Hc. unfold char_at.
  rewrite (proj2 (lookup_ge_None s i)) by lia. reflexivity.
Qed.

Lemma char_at_char (s : cstring) (i : nat) :
  Forall is_char s -> (i < length s)%nat -> is_char (char_at s i).
Proof.
  intros Hs Hi. destruct (lookup_lt_is_Some_2 s i Hi) as [c Hc].
  unfold char_at. rewrite Hc. cbn.
  eapply Forall_lookup_1; [exact Hs | exact Hc].
Qed.

Lemma hex_digit_range c d : hex_digit c = Some d -> 0 <= d <= 15 /\ c <> 0.
Proof.
  unfold hex_digit.
  destruct ((97 <=? c) && (c <=? 102)) eqn:E1;
    [|destruct ((65 <=? c) && (c <=? 70)) eqn:E2;
      [|destruct ((48 <=? c) && (c <=? 57)) eqn:E3]];
    intros [= <-]; lia.
Qed.

(** The digit loops stay inside the string. *)
Lemma hex_code_range s n : forall value chr,
  Forall is_char s -> (value <= length s)%nat -> 0 <= chr ->
  (value <= fst (hex_code n s value chr) <= length s)%nat /\
  0 <= snd (hex_code n s value chr).
Proof.
  induction n as [|n IH]; intros value chr Hs Hv Hc; cbn [hex_code].
  - cbn. lia.
  - destruct (hex_digit (char_at s value)) as [d|] eqn:Hd; [|cbn; lia].
    apply hex_digit_range in Hd as [Hd Hne].
    pose proof (char_at_end s value Hs Hv Hne) as Hlt.
    destruct (IH (S value) (chr * 16 + d) Hs) as [H1 H2]; lia.
Qed.

Lemma octal_code_range s n : forall value chr,
  Forall is_char s -> (value <= length s)%nat -> 0 <= chr ->
  (value <= fst (octal_code n s value chr) <= length s)%nat /\
  0 <= snd (octal_code n s value chr).
Proof.
  induction n as [|n IH]; intros value chr Hs Hv Hc; cbn [octal_code].
  - cbn. lia.
  - cbv zeta.
    destruct ((48 <=? char_at s value) && (char_at s value <=? 55)) eqn:E;
      [|cbn; lia].
    destruct (chr * 8 + (char_at s value - 48) <? 255); [|cbn; lia].
    assert (Hne : char_at s value <> 0) by lia.
    pose proof (char_at_end s value Hs Hv Hne) as Hlt.
    destruct (IH (S value) (chr * 8 + (char_at s value - 48)) Hs)
      as [H1 H2]; lia.
Qed.

Lemma special_char_char c : is_char c -> is_char (special_char c).
Proof.
  unfold special_char, is_char. intros Hc.
  repeat (match goal with |- context [if ?b then _ else _] => destruct b end);
    lia.
Qed.

(** Inside the string [decode_char] returns a character and moves the
    pointer forward, never past the terminating zero. *)
Lemma decode_char_inside s ccode :
  Forall is_char s -> (ccode < length s)%nat ->
  is_char (fst (decode_char s ccode)) /\
  (ccode < snd (decode_char s ccode) <= length s)%nat.
Proof.
  intros Hs Hc. unfold decode_char.
  pose proof (char_at_char s ccode Hs Hc) as Hchar.
  destruct (char_at s ccode =? 92) eqn:Hb; cbn [negb].
  - set (code := if char_at s (S ccode) =? 120
                 then hex_code 2 s (S (S ccode)) 0
                 else octal_code 3 s (S ccode) 0).
    assert (Hcode : (S ccode <= fst code <= length s)%nat /\ 0 <= snd code).
    { unfold code. destruct (char_at s (S ccode) =? 120) eqn:Hx.
      - assert (Hne : char_at s (S ccode) <> 0) by lia.
        pose proof (char_at_end s (S ccode) Hs ltac:(lia) Hne) as Hlt.
        destruct (hex_code_range s 2 (S (S ccode)) 0 Hs); lia.
      - destruct (octal_code_range s 3 (S ccode) 0 Hs); lia. }
    destruct code as [value chr]. cbn [fst snd] in Hcode.
    destruct ((0 <? chr) && (chr <=? 255)) eqn:Hv.
    + cbn [fst snd]. unfold is_char. lia.
    + destruct (char_at s (S ccode) =? 0) eqn:Hz; cbn [fst snd].
      * unfold is_char. lia.
      * assert (Hne : char_at s (S ccode) <> 0) by lia.
        pose proof (char_at_end s (S ccode) Hs ltac:(lia) Hne) as Hlt.
        split; [|lia].
        apply special_char_char. now apply char_at_char.
  - cbn [fst snd]. split; [exact Hchar | lia].
Qed.

(** At the terminating zero [decode_char] returns zero. *)
Lemma decode_char_end s ccode :
  (length s <= ccode)%nat -> fst (decode_char s ccode) = 0.
Proof.
  intros Hc. unfold decode_char, char_at.
  rewrite (proj2 (lookup_ge_None s ccode)) by lia. reflexivity.
Qed.

Lemma decode_chars_fits s fuel : forall src dst,
  Forall is_char s -> Forall is_char dst ->
  (src <= length s)%nat -> (length s - src < fuel)%nat ->
  exists out,
    decode_chars fuel s src dst = Some out /\
    (length out <= length dst + (length s - src))%nat /\
    Forall is_char out.
Proof.
  induction fuel as [|fuel IH]; intros src dst Hs Hd Hsrc Hf; [lia|].
  cbn [decode_chars].
  destruct (decide (src < length s)%nat) as [Hlt|Hge].
  - destruct (decode_char_inside s src Hs Hlt) as [Hc Hn].
    destruct (decode_char s src) as [c src']. cbn [fst snd] in Hc, Hn.
    destruct (Z.eqb_spec c 0) as [->|_]; [unfold is_char in Hc; lia|].
    destruct (IH src' (dst ++ [c]) Hs) as (out & Ho & Hl & Hout);
      [apply Forall_app; split; [exact Hd | now constructor] | lia | lia |].
    exists out. split; [exact Ho|]. split; [|exact Hout].
    rewrite length_app in Hl. cbn [length] in Hl. lia.
  - pose proof (decode_char_end s src ltac:(lia)) as Hz.
    destruct (decode_char s src) as [c src']. cbn [fst] in Hz. subst c.
    exists dst. split; [reflexivity|]. split; [lia | exact Hd].
Qed.

(** X18 (decode_string, decode_char): the loop of decode_string ends at the
    terminating zero of the source, and the decoded string has at most the
    length of the source, so it fits the buffer of [strlen(src) + 1] bytes;
    what it stores are characters other than zero. *)
Theorem decode_string_fits (src : cstring) :
  Forall is_char src ->
  exists out,
    decode_string src = Some out /\
    (length out <= length src)%nat /\
    Forall is_char out.
Proof.
  intros Hs. unfold decode_string.
  destruct (decode_chars_fits src (S (length src)) 0 [] Hs)
    as (out & Ho & Hl & Hout); [constructor | lia | lia |].
  exists out. split; [exact Ho|]. split; [|exact Hout].
  cbn [length] in Hl. lia.
Qed.

Lemma decode_string_fits_witness :
  Forall is_char escaped_string /\
  exists out,
    decode_string escaped_string = Some out /\
    (length out <= length escaped_string)%nat /\
    Forall is_char out.
Proof.
  assert (H : Forall is_char escaped_string)
    by (repeat constructor; unfold is_char; lia).
  split; [exact H|]. exact (decode_string_fits escaped_string H).
Defined.

Lemma decode_chars_plain s fuel : forall src dst,
  Forall is_char s -> 92 ∉ s ->
  (src <= length s)%nat -> (length s - src < fuel)%nat ->
  decode_chars fuel s src dst = Some (dst ++ drop src s).
Proof.
  induction fuel as [|fuel IH]; intros src dst Hs Hb Hsrc Hf; [lia|].
  cbn [decode_chars]. unfold decode_char, char_at.
  destruct (s !! src) as [c|] eqn:Hc; cbn [from_option id].
  - assert (Hin : c ∈ s) by (eapply list_elem_of_lookup_2; exact Hc).
    assert (Hchar : is_char c) by (eapply Forall_lookup_1; eassumption).
    destruct (Z.eqb_spec c 92) as [->|_]; [contradiction|]. cbn [negb].
    destruct (Z.eqb_spec c 0) as [->|_]; [unfold is_char in Hchar; lia|].
    apply lookup_lt_Some in Hc as Hlt.
    rewrite IH by (try assumption; lia).
    rewrite (drop_S s c src Hc). now rewrite <- app_assoc.
  - cbn. apply lookup_ge_None in Hc.
    rewrite drop_ge by lia. now rewrite app_nil_r.
Qed.

(** X19 (decode_string): a string without a backslash is decoded to
    itself. *)
Theorem decode_string_plain (src : cstring) :
  Forall is_char src -> 92 ∉ src -> decode_string src = Some src.
Proof.
  intros Hs Hb. unfold decode_string.
  rewrite (decode_chars_plain src (S (length src)) 0 [] Hs Hb) by lia.
  reflexivity.
Qed.

Lemma decode_string_plain_witness :
  Forall is_char name_ab /\ (92 ∉ name_ab) /\
  decode_string name_ab = Some name_ab.
Proof.
  assert (H1 : Forall is_char name_ab)
    by (repeat constructor; unfold is_char; lia).
  assert (H2 : 92 ∉ name_ab).
  { intros H. apply elem_of_cons in H as [H|H]; [discriminate|].
    apply elem_of_cons in H as [H|H]; [discriminate | inversion H]. }
  split; [exact H1|]. split; [exact H2|].
  exact (decode_string_plain name_ab H1 H2).
Defined.

(** The escapes of the sample: [\x41] is [A], [\t] the tabulator, and a
    backslash in front of the terminating zero stands for itself.  An
    octal escape stops in front of the digit that would take it to 255:
    [\377] is the character 31 followed by [7]. *)
Example decode_string_sample :
  decode_string escaped_string = Some [97; 65; 9; 98; 92] /\
  decode_string [92; 51; 55; 55] = Some [31; 55] /\
  decode_string [92; 120; 102; 102] = Some [255].
Proof. vm_compute. repeat split. Qed.

(** * First sets (compute_first) *)

(** ** Allocated symbol sets *)

Lemma sorted_keys_NoDup (l : list Z) : StronglySorted Z.lt l -> NoDup l.
Proof.
  induction 1 as [|x l Hs IH Hall]; constructor; [|exact IH].
  intros Hin. rewrite Forall_forall in Hall. specialize (Hall x Hin). lia.
Qed.

Lemma sorted_keys_grow (l k : list Z) :
  StronglySorted Z.lt l -> StronglySorted Z.lt k ->
  (forall x, x ∈ l -> x ∈ k) -> l <> k -> (length l < length k)%nat.
Proof.
  intros Hl Hk Hsub Hne.
  assert (Hm : l ⊆+ k)
    by (apply NoDup_submseteq; [now apply sorted_keys_NoDup | exact Hsub]).
  pose proof (submseteq_length _ _ Hm) as Hlen.
  destruct (decide (length l < length k)%nat) as [H|H]; [exact H|].
  exfalso. apply Hne.
  apply (StronglySorted_unique_strong Z.lt); [|exact Hl | exact Hk|].
  - intros x1 x2 _ _ H1 H2. lia.
  - apply submseteq_length_Permutation; [exact Hm | lia].
Qed.

Section SymbolSets.
Lemma allocated_inv s : allocated s -> set_inv order sizeof_pointer s.
Proof. intros (a & Ha & He & Hi). unfold set_inv. rewrite Ha. now split. Qed.

Lemma allocated_cells s : allocated s -> increasing order (cells s).
Proof. intros (a & Ha & He & Hi). unfold cells. now rewrite Ha. Qed.

Lemma alloc_allocated : allocated symbolset_alloc.
Proof. exists []. repeat split. constructor. Qed.

Lemma insert_allocated s x :
  allocated s -> allocated (symbolset_insert s x).
Proof.
  intros Hs. pose proof (allocated_inv s Hs) as Hinv.
  destruct (set_insert_spec order sizeof_pointer s x Hinv) as (Hi & _ & _).
  destruct Hs as (a & Ha & He & Hinc).
  unfold symbolset_insert, set_insert in *. rewrite Ha in *.
  destruct (set_lookup order a (order x)).
  - exists a. now repeat split.
  - unfold set_inv in Hi. cbn [array element] in Hi.
    eexists. split; [reflexivity|]. cbn [element]. destruct Hi as [_ Hi].
    split; [exact He | exact Hi].
Qed.

(** The union of two allocated sets: it grows the first set unless
    [symbolset_equal] finds it unchanged. *)
Lemma union_allocated cur other :
  allocated cur -> allocated other ->
  let merge := symbolset_union cur other in
  allocated merge /\
  (forall z, z ∈ cells merge -> z ∈ cells cur \/ z ∈ cells other) /\
  (forall k, k ∈ map order (cells merge) <->
             k ∈ map order (cells cur) \/ k ∈ map order (cells other)) /\
  (symbolset_equal merge cur = true ->
     map order (cells merge) = map order (cells cur)) /\
  (symbolset_equal merge cur = false ->
     (length (cells cur) < length (cells merge))%nat).
Proof.
  intros Hc Ho merge.
  destruct (set_union_spec order sizeof_pointer cur other
              (allocated_inv _ Hc) (allocated_inv _ Ho)) as (Hinv & Hel & Hk).
  assert (Hm : allocated merge).
  { destruct Hc as (a1 & E1 & _). destruct Ho as (a2 & E2 & _).
    unfold merge, symbolset_union.
    rewrite (set_union_cells order sizeof_pointer cur other a1 a2 E1 E2).
    rewrite (set_union_cells order sizeof_pointer cur other a1 a2 E1 E2)
      in Hinv.
    unfold set_inv in Hinv. cbn [array element] in Hinv.
    eexists. split; [reflexivity|]. cbn [element]. exact Hinv. }
  fold (symbolset_union cur other) in Hinv, Hel, Hk. fold merge in Hinv, Hel, Hk.
  assert (Hsame : element merge = element cur).
  { destruct Hm as (_ & _ & -> & _). destruct Hc as (_ & _ & -> & _).
    reflexivity. }
  split; [exact Hm|]. split; [exact Hel|]. split; [exact Hk|].
  pose proof (set_equal_spec order merge cur Hsame) as Heq.
  fold (symbolset_equal merge cur) in Heq.
  split; [apply Heq|].
  intros Hne.
  rewrite <- (length_map order (cells cur)).
  rewrite <- (length_map order (cells merge)).
  apply sorted_keys_grow.
  - apply (allocated_cells _ Hc).
  - apply (allocated_cells _ Hm).
  - intros k Hin. apply Hk. now left.
  - intros E. symmetry in E. apply Heq in E. congruence.
Qed.
End SymbolSets.

Section FirstFacts.
Context (tables : generator) (termtable : list symbolentry).
Hypothesis Hok : first_ok tables termtable.

Let T : nat := Z.to_nat (termcount tables).
Let N : nat := Z.to_nat (termcount tables + nontermcount tables).
Let RHS (j k : nat) : Z :=
  sym_token (RHSIDE (PRODUCTION (productions tables) j) k).
Let LEN (j : nat) : nat := plength (PRODUCTION (productions tables) j).

Lemma terminal_lookup i :
  (1 <= i <= T)%nat -> termtable !! i = Some (TERMINAL_AT termtable i).
Proof.
  intros Hi. destruct Hok as (_ & _ & Hlen & _).
  destruct (lookup_lt_is_Some_2 termtable i) as [x Hx]; [fold T in Hlen; lia|].
  unfold TERMINAL_AT. now rewrite Hx.
Qed.

(** What a token begins with is the symbol of a terminal. *)
Lemma begins_terminal_entry token x :
  begins_with tables termtable token x ->
  exists i, (1 <= i <= T)%nat /\ termtable !! i = Some x.
Proof.
  induction 1 as [i H1 H2 Hf|token j k x Ht Hd Hk Hm Hb IH]; [|exact IH].
  exists i. assert (Hi : (1 <= i <= T)%nat) by (unfold T; lia).
  split; [exact Hi | now apply terminal_lookup].
Qed.

(** The order identifies the symbol of a terminal. *)
Lemma terminal_unique x z i i' :
  termtable !! i = Some x -> termtable !! i' = Some z ->
  (1 <= i)%nat -> (1 <= i')%nat -> order x = order z -> x = z.
Proof.
  intros Hx Hz Hi Hi' Ho.
  destruct Hok as (_ & _ & _ & _ & Hnd & _).
  assert (Ex : map order (drop 1 termtable) !! (i - 1)%nat = Some (order x)).
  { change (map order ?l) with (order <$> l).
    rewrite list_lookup_fmap, lookup_drop.
    replace (1 + (i - 1))%nat with i by lia. now rewrite Hx. }
  assert (Ez : map order (drop 1 termtable) !! (i' - 1)%nat = Some (order x)).
  { change (map order ?l) with (order <$> l).
    rewrite list_lookup_fmap, lookup_drop.
    replace (1 + (i' - 1))%nat with i' by lia. rewrite Hz. cbn. congruence. }
  pose proof (NoDup_lookup _ _ _ _ Hnd Ex Ez) as E.
  assert (i = i') by lia. subst i'. congruence.
Qed.

(** The size of the sets: the measure that bounds the passes. *)
Let weight (e : firstset) : nat :=
  (length (cells (symbols e)) + if nullable e then 1 else 0)%nat.

Let mu (first : list firstset) : nat :=
  foldr (fun e acc => (weight e + acc)%nat) 0%nat first.

Lemma mu_cons x first : mu (x :: first) = (weight x + mu first)%nat.
Proof. reflexivity. Qed.

Lemma mu_insert first : forall t e e',
  first !! t = Some e ->
  (mu (<[t := e']> first) + weight e = mu first + weight e')%nat.
Proof.
  induction first as [|x first IH]; intros t e e' Ht; [discriminate|].
  destruct t as [|t].
  - injection Ht as ->.
    change (<[0%nat := e']> (e :: first)) with (e' :: first).
    rewrite !mu_cons. lia.
  - change (<[S t := e']> (x :: first)) with (x :: <[t := e']> first).
    change ((x :: first) !! S t) with (first !! t) in Ht.
    rewrite !mu_cons. specialize (IH t e e' Ht). lia.
Qed.

(** The invariant of the loops: the sets are allocated, hold only what
    the token begins with, a token marked nullable derives the empty
    string, and the terminals are entered. *)
Let inv (first : list firstset) : Prop :=
  length first = S N /\
  (forall t e, first !! t = Some e -> allocated (symbols e)) /\
  (forall t e x, first !! t = Some e -> x ∈ cells (symbols e) ->
     begins_with tables termtable (Z.of_nat t) x) /\
  (forall t e, first !! t = Some e -> nullable e = true ->
     derives_empty tables termtable (Z.of_nat t)) /\
  (forall i, (1 <= i <= T)%nat ->
     if flagged_empty (TERMINAL_AT termtable i)
     then nullable (FIRST first i) = true
     else TERMINAL_AT termtable i ∈ cells (symbols (FIRST first i))).

Lemma inv_lookup first t :
  inv first -> (t <= N)%nat ->
  exists e, first !! t = Some e /\ FIRST first t = e.
Proof.
  intros (Hlen & _) Ht.
  destruct (lookup_lt_is_Some_2 first t) as [e He]; [lia|].
  exists e. split; [exact He|]. unfold FIRST. now rewrite He.
Qed.

Lemma weight_bound first t e :
  inv first -> first !! t = Some e -> (weight e <= S T)%nat.
Proof.
  intros (_ & Ha & Hb & _) He.
  assert (Hlen : (length (cells (symbols e)) <= T)%nat).
  { assert (Hnd : NoDup (cells (symbols e))).
    { apply (NoDup_fmap_1 order). apply sorted_keys_NoDup.
      apply (allocated_cells _ (Ha t e He)). }
    assert (Hsub : cells (symbols e) ⊆+ drop 1 termtable).
    { apply NoDup_submseteq; [exact Hnd|]. intros x Hx.
      destruct (begins_terminal_entry _ x (Hb t e x He Hx)) as (i & Hi & Hl).
      apply list_elem_of_lookup. exists (i - 1)%nat.
      rewrite lookup_drop. replace (1 + (i - 1))%nat with i by lia.
      exact Hl. }
    apply submseteq_length in Hsub. rewrite length_drop in Hsub.
    destruct Hok as (_ & _ & Hl & _). fold T in Hl. lia. }
  unfold weight. destruct (nullable e); lia.
Qed.

Lemma mu_bound first : inv first -> (mu first <= S N * S T)%nat.
Proof.
  intros Hinv.
  assert (Hall : forall t e, first !! t = Some e -> (weight e <= S T)%nat)
    by (intros t e; now apply weight_bound).
  destruct Hinv as (Hlen & _). rewrite <- Hlen. clear Hlen.
  induction first as [|x first IH]; [cbn; lia|].
  rewrite mu_cons. cbn [length].
  pose proof (Hall 0%nat x eq_refl).
  assert (mu first <= length first * S T)%nat
    by (apply IH; intros t e He; apply (Hall (S t) e He)).
  lia.
Qed.

(** A step of the loops: the sets only grow, [changed] is set only when
    they grew, and while it is clear they are as they were. *)
Let step (first : list firstset) (changed : bool)
    (first' : list firstset) (changed' : bool) : Prop :=
  inv first' /\ (mu first <= mu first')%nat /\
  (changed' = true -> changed = true \/ (mu first < mu first')%nat) /\
  (changed' = false -> changed = false /\ first' = first).

Lemma step_refl first changed : inv first -> step first changed first changed.
Proof. intros H. split; [exact H|]. split; [lia|]. split; auto. Qed.

Lemma step_trans f1 c1 f2 c2 f3 c3 :
  step f1 c1 f2 c2 -> step f2 c2 f3 c3 -> step f1 c1 f3 c3.
Proof.
  intros (_ & Hm1 & Ht1 & Hf1) (Hi & Hm2 & Ht2 & Hf2).
  split; [exact Hi|]. split; [lia|]. split.
  - intros H. destruct (Ht2 H) as [H2|H2]; [|right; lia].
    destruct (Ht1 H2) as [H1|H1]; [now left | right; lia].
  - intros H. destruct (Hf2 H) as [H2 ->]. now apply Hf1.
Qed.
(** The symbols [first_rhs] reads are tokens of the table. *)
Lemma rhs_token lhs j k :
  defines tables (Z.of_nat lhs) j -> (k < LEN j)%nat ->
  (1 <= Z.to_nat (RHS j k) <= N)%nat /\
  Z.of_nat (Z.to_nat (RHS j k)) = RHS j k.
Proof.
  intros [Hs Hall] Hk.
  destruct (Hall j ltac:(cbv zeta in Hs; lia)) as [Hj _].
  destruct Hok as (H1 & H2 & _ & _ & _ & Hrhs).
  specialize (Hrhs j k Hj Hk). unfold is_token in Hrhs. fold (RHS j k) in Hrhs.
  unfold N. lia.
Qed.

Lemma lhs_in_range lhs :
  (T < lhs <= N)%nat ->
  termcount tables < Z.of_nat lhs <= termcount tables + nontermcount tables.
Proof.
  destruct Hok as (H1 & H2 & _). unfold T, N. lia.
Qed.

(** When the merged set equals the set of the left hand side, the set of
    the symbol is part of it. *)
Lemma first_equal_sub first lhs t el et :
  inv first -> first !! lhs = Some el -> first !! t = Some et ->
  symbolset_equal (symbolset_union (symbols el) (symbols et)) (symbols el)
  = true ->
  forall x, x ∈ cells (symbols et) -> x ∈ cells (symbols el).
Proof.
  intros (_ & Ha & Hb & _) Hl Ht Heq x Hx.
  destruct (union_allocated (symbols el) (symbols et)
              (Ha lhs el Hl) (Ha t et Ht)) as (_ & _ & Hk & He & _).
  assert (Hin : order x ∈ map order (cells (symbols el))).
  { rewrite <- (He Heq). apply Hk. right.
    change (map order ?l) with (order <$> l). apply list_elem_of_fmap.
    exists x. split; [reflexivity | exact Hx]. }
  change (map order ?l) with (order <$> l) in Hin.
  apply list_elem_of_fmap in Hin as (z & Hz & Hin).
  destruct (begins_terminal_entry _ x (Hb t et x Ht Hx)) as (i & Hi & Hxi).
  destruct (begins_terminal_entry _ z (Hb lhs el z Hl Hin)) as (i' & Hi' & Hzi).
  rewrite (terminal_unique x z i i' Hxi Hzi); [exact Hin | lia | lia | exact Hz].
Qed.

(** Storing the merged set keeps the invariant and grows the sets. *)
Lemma first_store first lhs j k el et :
  inv first -> (T < lhs <= N)%nat ->
  defines tables (Z.of_nat lhs) j -> (k < LEN j)%nat ->
  (forall m, (m < k)%nat -> derives_empty tables termtable (RHS j m)) ->
  first !! lhs = Some el -> first !! Z.to_nat (RHS j k) = Some et ->
  symbolset_equal (symbolset_union (symbols el) (symbols et)) (symbols el)
  = false ->
  let first1 :=
    <[lhs := set_symbols el (symbolset_union (symbols el) (symbols et))]>
      first in
  inv first1 /\ (mu first < mu first1)%nat.
Proof.
  intros Hinv Hlhs Hdef Hk Hprev Hl Ht Heq first1.
  pose proof Hinv as (Hlen & Ha & Hb & Hn & Hterm).
  destruct (union_allocated (symbols el) (symbols et)
              (Ha lhs el Hl) (Ha _ et Ht)) as (Hm & Hel & _ & _ & Hgrow).
  specialize (Hgrow Heq).
  destruct (rhs_token lhs j k Hdef Hk) as [Hrange Hid].
  assert (Hlt : (lhs < length first)%nat) by lia.
  split.
  - split; [unfold first1; now rewrite length_insert|].
    split; [|split; [|split]].
    + intros t e He. unfold first1 in He.
      destruct (decide (t = lhs)) as [->|Hne].
      * rewrite list_lookup_insert_eq in He by exact Hlt.
        injection He as <-. exact Hm.
      * rewrite list_lookup_insert_ne in He by congruence. now apply (Ha t).
    + intros t e x He Hx. unfold first1 in He.
      destruct (decide (t = lhs)) as [->|Hne].
      * rewrite list_lookup_insert_eq in He by exact Hlt.
        injection He as <-. cbn [symbols set_symbols] in Hx.
        destruct (Hel x Hx) as [Hc|Ho]; [now apply (Hb lhs el)|].
        apply (begins_production tables termtable (Z.of_nat lhs) j k x);
          [now apply lhs_in_range | exact Hdef | exact Hk | exact Hprev|].
        fold (RHS j k). rewrite <- Hid. now apply (Hb _ et).
      * rewrite list_lookup_insert_ne in He by congruence.
        now apply (Hb t e).
    + intros t e He Hnull. unfold first1 in He.
      destruct (decide (t = lhs)) as [->|Hne].
      * rewrite list_lookup_insert_eq in He by exact Hlt.
        injection He as <-. now apply (Hn lhs el).
      * rewrite list_lookup_insert_ne in He by congruence.
        now apply (Hn t e).
    + intros i Hi. specialize (Hterm i Hi).
      assert (E : FIRST first1 i = FIRST first i).
      { unfold FIRST, first1. rewrite list_lookup_insert_ne by lia.
        reflexivity. }
      now rewrite E.
  - pose proof (mu_insert first lhs el
                  (set_symbols el (symbolset_union (symbols el) (symbols et)))
                  Hl) as Hmu.
    fold first1 in Hmu. unfold weight in Hmu.
    cbn [symbols nullable set_symbols] in Hmu. lia.
Qed.

(** The closure of the sets under a production, from symbol [k] on:
    the set of a symbol behind nullable symbols is part of the set of
    the left hand side. *)
Let closed_from (first : list firstset) (lhs j k : nat) : Prop :=
  forall m, (k <= m < LEN j)%nat ->
    (forall m', (k <= m' < m)%nat ->
       nullable (FIRST first (Z.to_nat (RHS j m'))) = true) ->
    forall x, x ∈ cells (symbols (FIRST first (Z.to_nat (RHS j m)))) ->
              x ∈ cells (symbols (FIRST first lhs)).

Lemma first_rhs_spec lhs j n : forall k first changed,
  inv first -> (T < lhs <= N)%nat ->
  defines tables (Z.of_nat lhs) j -> (k + n = LEN j)%nat ->
  (forall m, (m < k)%nat -> derives_empty tables termtable (RHS j m)) ->
  exists first' changed' whole,
    first_rhs n lhs (PRODUCTION (productions tables) j) k first changed
    = (first', changed', whole) /\
    step first changed first' changed' /\
    (whole = true ->
       forall m, (m < LEN j)%nat -> derives_empty tables termtable (RHS j m))
    /\
    (changed' = false ->
       closed_from first lhs j k /\
       (whole = false ->
          exists m, (k <= m < LEN j)%nat /\
                    nullable (FIRST first (Z.to_nat (RHS j m))) = false)).
Proof.
  induction n as [|n IH]; intros k first changed Hinv Hlhs Hdef Hkn Hprev.
  { exists first, changed, true. split; [reflexivity|].
    split; [now apply step_refl|]. split.
    - intros _ m Hm. apply Hprev. lia.
    - intros _. split; [intros m Hm; lia | discriminate]. }
  assert (Hk : (k < LEN j)%nat) by lia.
  destruct (rhs_token lhs j k Hdef Hk) as [Hrange Hid].
  destruct (inv_lookup first lhs Hinv ltac:(lia)) as (el & Hl & El).
  destruct (inv_lookup first (Z.to_nat (RHS j k)) Hinv ltac:(lia))
    as (et & Ht & Et).
  cbn [first_rhs]. cbv zeta. fold (RHS j k). rewrite El, Et.
  destruct (symbolset_equal (symbolset_union (symbols el) (symbols et))
              (symbols el)) eqn:Heq.
  - (* the set of the left hand side is as it was *)
    pose proof (first_equal_sub first lhs _ el et Hinv Hl Ht Heq) as Hsub.
    rewrite Et.
    destruct (nullable et) eqn:Hnull; cbn [negb].
    + assert (Hprev' : forall m, (m < S k)%nat ->
                derives_empty tables termtable (RHS j m)).
      { intros m Hm. destruct (decide (m = k)) as [->|Hne];
          [|apply Hprev; lia].
        rewrite <- Hid. destruct Hinv as (_ & _ & _ & Hn & _).
        now apply (Hn _ et). }
      destruct (IH (S k) first changed Hinv Hlhs Hdef ltac:(lia) Hprev')
        as (first' & changed' & whole & Hr & Hstep & Hw & Hc).
      exists first', changed', whole. split; [exact Hr|].
      split; [exact Hstep|]. split; [exact Hw|].
      intros Hch. destruct (Hc Hch) as [Hcl Hex]. split.
      * intros m Hm Hnul x Hx.
        destruct (decide (m = k)) as [->|Hne].
        -- rewrite El. rewrite Et in Hx. now apply Hsub.
        -- apply (Hcl m); [lia | | exact Hx].
           intros m' Hm'. apply Hnul. lia.
      * intros Hwh. destruct (Hex Hwh) as (m & Hm & Hmn).
        exists m. split; [lia | exact Hmn].
    + exists first, changed, false. split; [reflexivity|].
      split; [now apply step_refl|]. split; [discriminate|].
      intros _. split.
      * intros m Hm Hnul x Hx.
        destruct (decide (m = k)) as [->|Hne].
        -- rewrite El. rewrite Et in Hx. now apply Hsub.
        -- specialize (Hnul k ltac:(lia)). rewrite Et in Hnul. congruence.
      * intros _. exists k. split; [lia|]. now rewrite Et.
  - (* the merged set is stored *)
    destruct (first_store first lhs j k el et Hinv Hlhs Hdef Hk Hprev Hl Ht Heq)
      as [Hinv1 Hmu].
    set (first1 := <[lhs := _]> first) in *.
    assert (Hstep1 : step first changed first1 true).
    { split; [exact Hinv1|]. split; [lia|].
      split; [intros _; right; exact Hmu | discriminate]. }
    destruct (nullable (FIRST first1 (Z.to_nat (RHS j k)))) eqn:Hnull;
      cbn [negb].
    + assert (Hprev' : forall m, (m < S k)%nat ->
                derives_empty tables termtable (RHS j m)).
      { intros m Hm. destruct (decide (m = k)) as [->|Hne];
          [|apply Hprev; lia].
        rewrite <- Hid.
        destruct (inv_lookup first1 (Z.to_nat (RHS j k)) Hinv1 ltac:(lia))
          as (e1 & He1 & Ee1).
        destruct Hinv1 as (_ & _ & _ & Hn & _).
        apply (Hn _ e1 He1). now rewrite <- Ee1. }
      destruct (IH (S k) first1 true Hinv1 Hlhs Hdef ltac:(lia) Hprev')
        as (first' & changed' & whole & Hr & Hstep & Hw & Hc).
      exists first', changed', whole. split; [exact Hr|].
      split; [eapply step_trans; eassumption|]. split; [exact Hw|].
      intros Hch. destruct Hstep as (_ & _ & _ & Hf).
      destruct (Hf Hch) as [Hcontra _]. discriminate.
    + exists first1, true, false. split; [reflexivity|].
      split; [exact Hstep1|]. split; discriminate.
Qed.
(** The sets are closed under production [j] of the token [lhs]. *)
Let production_closed (first : list firstset) (lhs j : nat) : Prop :=
  closed_from first lhs j 0 /\
  ((forall m, (m < LEN j)%nat ->
      nullable (FIRST first (Z.to_nat (RHS j m))) = true) ->
   nullable (FIRST first lhs) = true).

Lemma set_nullable_id e : nullable e = true -> set_nullable e true = e.
Proof. destruct e as [s n]. cbn. now intros ->. Qed.

Lemma first_production_spec lhs j first changed :
  inv first -> (T < lhs <= N)%nat -> defines tables (Z.of_nat lhs) j ->
  exists first' changed',
    first_production tables lhs j first changed = (first', changed') /\
    step first changed first' changed' /\
    (changed' = false -> production_closed first lhs j).
Proof.
  intros Hinv Hlhs Hdef. unfold first_production.
  destruct (first_rhs_spec lhs j (LEN j) 0 first changed Hinv Hlhs Hdef
              ltac:(lia) ltac:(intros m Hm; lia))
    as (first1 & changed1 & whole & Hr & Hstep & Hw & Hc).
  fold (LEN j). rewrite Hr.
  destruct whole.
  - pose proof Hstep as (Hinv1 & _).
    destruct (inv_lookup first1 lhs Hinv1 ltac:(lia)) as (el & Hl & El).
    rewrite El.
    set (first2 := <[lhs := set_nullable el true]> first1).
    assert (Hstep2 : step first1 changed1 first2
                       (changed1 || negb (nullable el))).
    { destruct (nullable el) eqn:Hnull.
      - assert (E : first2 = first1).
        { unfold first2. rewrite set_nullable_id by exact Hnull.
          now apply list_insert_id. }
        rewrite E, orb_false_r. now apply step_refl.
      - pose proof Hinv1 as (Hlen & Ha & Hb & Hn & Hterm).
        assert (Hlt : (lhs < length first1)%nat) by lia.
        assert (Hinv2 : inv first2).
        { split; [unfold first2; now rewrite length_insert|].
          split; [|split; [|split]].
          - intros t e He. unfold first2 in He.
            destruct (decide (t = lhs)) as [->|Hne].
            + rewrite list_lookup_insert_eq in He by exact Hlt.
              injection He as <-. now apply (Ha lhs el).
            + rewrite list_lookup_insert_ne in He by congruence.
              now apply (Ha t).
          - intros t e x He Hx. unfold first2 in He.
            destruct (decide (t = lhs)) as [->|Hne].
            + rewrite list_lookup_insert_eq in He by exact Hlt.
              injection He as <-. now apply (Hb lhs el).
            + rewrite list_lookup_insert_ne in He by congruence.
              now apply (Hb t e).
          - intros t e He Hnul. unfold first2 in He.
            destruct (decide (t = lhs)) as [->|Hne].
            + apply (empty_production tables termtable (Z.of_nat lhs) j);
                [now apply lhs_in_range | exact Hdef|].
              intros k Hk. now apply Hw.
            + rewrite list_lookup_insert_ne in He by congruence.
              now apply (Hn t e).
          - intros i Hi. specialize (Hterm i Hi).
            assert (E : FIRST first2 i = FIRST first1 i).
            { unfold FIRST, first2. rewrite list_lookup_insert_ne by lia.
              reflexivity. }
            now rewrite E. }
        pose proof (mu_insert first1 lhs el (set_nullable el true) Hl) as Hmu.
        fold first2 in Hmu. unfold weight in Hmu.
        cbn [symbols nullable set_nullable] in Hmu. rewrite Hnull in Hmu.
        split; [exact Hinv2|]. split; [lia|]. split.
        + intros _. right. lia.
        + rewrite orb_true_r. discriminate. }
    exists first2, (changed1 || negb (nullable el)).
    split; [reflexivity|]. split; [eapply step_trans; eassumption|].
    intros Hch. apply orb_false_iff in Hch as [Hc1 Hn1].
    apply negb_false_iff in Hn1.
    destruct Hstep as (_ & _ & _ & Hf). destruct (Hf Hc1) as [_ E1].
    destruct (Hc Hc1) as [Hcl _].
    split; [exact Hcl|]. intros _. rewrite <- E1, El. exact Hn1.
  - exists first1, changed1. split; [reflexivity|]. split; [exact Hstep|].
    intros Hch. destruct (Hc Hch) as [Hcl Hex].
    split; [exact Hcl|]. intros Hall.
    destruct (Hex eq_refl) as (m & Hm & Hmn).
    rewrite Hall in Hmn by lia. discriminate.
Qed.

(** The loop over the productions of a nonterminal reaches every
    production that defines it. *)
Lemma first_productions_spec lhs n : forall j first changed,
  inv first -> (T < lhs <= N)%nat ->
  (default 0%nat (lhsindex tables
                    !! Z.to_nat (Z.of_nat lhs - termcount tables))
   <= j)%nat ->
  (forall m,
     (default 0%nat (lhsindex tables
                       !! Z.to_nat (Z.of_nat lhs - termcount tables))
      <= m < j)%nat ->
     (m < PRODCOUNT tables)%nat /\
     sym_token (lhside (PRODUCTION (productions tables) m)) = Z.of_nat lhs) ->
  (PRODCOUNT tables <= j + n)%nat ->
  exists first' changed',
    first_productions tables n (Z.of_nat lhs) j first changed
    = (first', changed') /\
    step first changed first' changed' /\
    (changed' = false ->
       forall j', (j <= j')%nat -> defines tables (Z.of_nat lhs) j' ->
                  production_closed first lhs j').
Proof.
  induction n as [|n IH]; intros j first changed Hinv Hlhs Hstart Hbefore Hn.
  { exists first, changed. split; [reflexivity|].
    split; [now apply step_refl|].
    intros _ j' Hj' [_ Hall]. destruct (Hall j') as [Hlt _]; [|lia].
    cbv zeta. lia. }
  cbn [first_productions].
  destruct ((j <? PRODCOUNT tables)%nat
            && (sym_token (lhside (PRODUCTION (productions tables) j))
                =? Z.of_nat lhs)) eqn:Hcond.
  - apply andb_true_iff in Hcond as [Hj Hsym].
    apply Nat.ltb_lt in Hj. apply Z.eqb_eq in Hsym.
    assert (Hdef : defines tables (Z.of_nat lhs) j).
    { split; [exact Hstart|]. intros m Hm.
      destruct (decide (m = j)) as [->|Hne]; [now split|].
      apply Hbefore. lia. }
    rewrite Nat2Z.id.
    destruct (first_production_spec lhs j first changed Hinv Hlhs Hdef)
      as (first1 & changed1 & Hr & Hstep & Hc).
    rewrite Hr.
    destruct (IH (S j) first1 changed1) as (first' & changed' & Hr' & Hstep' & Hc');
      [apply Hstep | exact Hlhs | lia | | lia |].
    { intros m Hm. destruct (decide (m = j)) as [->|Hne]; [now split|].
      apply Hbefore. lia. }
    exists first', changed'. split; [exact Hr'|].
    split; [eapply step_trans; eassumption|].
    intros Hch j' Hj' Hdef'.
    destruct Hstep' as (_ & _ & _ & Hf). destruct (Hf Hch) as [Hc1 E1].
    destruct Hstep as (_ & _ & _ & Hf1). destruct (Hf1 Hc1) as [_ E].
    destruct (decide (j' = j)) as [->|Hne]; [now apply Hc|].
    rewrite <- E. apply (Hc' Hch); [lia | exact Hdef'].
  - exists first, changed. split; [reflexivity|].
    split; [now apply step_refl|].
    intros _ j' Hj' [Hs Hall]. exfalso.
    destruct (Hall j) as [Hlt Hsym]; [cbv zeta in Hs |- *; lia|].
    apply andb_false_iff in Hcond as [H|H].
    + apply Nat.ltb_ge in H. lia.
    + apply Z.eqb_neq in H. contradiction.
Qed.
Lemma first_nonterminals_spec cnt : forall start first changed,
  inv first -> (1 <= start)%nat ->
  (start + cnt <= S (Z.to_nat (nontermcount tables)))%nat ->
  exists first' changed',
    fold_left (first_nonterminal tables) (seq start cnt) (first, changed)
    = (first', changed') /\
    step first changed first' changed' /\
    (changed' = false ->
       forall i, (start <= i < start + cnt)%nat ->
       forall j, defines tables (termcount tables + Z.of_nat i) j ->
                 production_closed first (T + i) j).
Proof.
  induction cnt as [|cnt IH]; intros start first changed Hinv Hs Hc.
  { exists first, changed. split; [reflexivity|].
    split; [now apply step_refl|]. intros _ i Hi. lia. }
  cbn [seq fold_left]. unfold first_nonterminal at 2. cbn [fst snd].
  destruct Hok as (H1 & H2 & _).
  assert (Hlhs : (T < T + start <= N)%nat) by (unfold T, N; lia).
  assert (Etok : termcount tables + Z.of_nat start = Z.of_nat (T + start))
    by (unfold T; lia).
  assert (Eidx : Z.to_nat (Z.of_nat (T + start) - termcount tables) = start)
    by (unfold T; lia).
  rewrite Etok.
  destruct (first_productions_spec (T + start) (PRODCOUNT tables)
              (default 0%nat (lhsindex tables !! start)) first changed
              Hinv Hlhs) as (first1 & changed1 & Hr & Hstep & Hcl);
    [rewrite Eidx; lia | rewrite Eidx; intros m Hm; lia | lia |].
  rewrite Hr.
  destruct (IH (S start) first1 changed1) as (first' & changed' & Hr' & Hstep' & Hcl');
    [apply Hstep | lia | lia |].
  exists first', changed'. split; [exact Hr'|].
  split; [eapply step_trans; eassumption|].
  intros Hch i Hi j Hdef.
  destruct Hstep' as (_ & _ & _ & Hf). destruct (Hf Hch) as [Hc1 E1].
  destruct Hstep as (_ & _ & _ & Hf1). destruct (Hf1 Hc1) as [_ E].
  destruct (decide (i = start)) as [->|Hne].
  - apply (Hcl Hc1 j); [|now rewrite <- Etok].
    destruct Hdef as [Hd _]. cbv zeta in Hd.
    replace (Z.to_nat (termcount tables + Z.of_nat start - termcount tables))
      with start in Hd by lia.
    exact Hd.
  - rewrite <- E. apply (Hcl' Hch i); [lia | exact Hdef].
Qed.

(** The sets are closed under every production. *)
Let closed (first : list firstset) : Prop :=
  forall i, (1 <= i <= Z.to_nat (nontermcount tables))%nat ->
  forall j, defines tables (termcount tables + Z.of_nat i) j ->
            production_closed first (T + i) j.

(** The passes end before the sets can grow any further. *)
Lemma first_passes_spec fuel : forall first,
  inv first -> (S N * S T - mu first < fuel)%nat ->
  exists first',
    first_passes tables fuel first = Some first' /\
    inv first' /\ closed first'.
Proof.
  induction fuel as [|fuel IH]; intros first Hinv Hfuel; [lia|].
  cbn [first_passes]. unfold first_pass.
  destruct (first_nonterminals_spec (Z.to_nat (nontermcount tables)) 1
              first false Hinv ltac:(lia) ltac:(lia))
    as (first1 & changed & Hr & Hstep & Hcl).
  rewrite Hr. destruct changed.
  - destruct Hstep as (Hinv1 & _ & Ht & _).
    destruct (Ht eq_refl) as [Hc|Hmu]; [discriminate|].
    pose proof (mu_bound first1 Hinv1).
    apply IH; [exact Hinv1 | lia].
  - destruct Hstep as (Hinv1 & _ & _ & Hf). destruct (Hf eq_refl) as [_ ->].
    exists first. split; [reflexivity|]. split; [exact Hinv|].
    intros i Hi j Hdef. apply (Hcl eq_refl i); [lia | exact Hdef].
Qed.

(** The loop over the terminals, the terminals below [i] being
    entered. *)
Let entered (i : nat) (first : list firstset) : Prop :=
  length first = S N /\
  (forall t e, first !! t = Some e -> allocated (symbols e)) /\
  (forall t e x, first !! t = Some e -> x ∈ cells (symbols e) ->
     begins_with tables termtable (Z.of_nat t) x) /\
  (forall t e, first !! t = Some e -> nullable e = true ->
     derives_empty tables termtable (Z.of_nat t)) /\
  (forall i', (1 <= i' < i)%nat ->
     if flagged_empty (TERMINAL_AT termtable i')
     then nullable (FIRST first i') = true
     else TERMINAL_AT termtable i' ∈ cells (symbols (FIRST first i'))) /\
  (forall t e, (i <= t)%nat -> first !! t = Some e ->
     e = {| symbols := symbolset_alloc; nullable := false |}).

Lemma first_terminal_entered first i :
  entered i first -> (1 <= i <= T)%nat ->
  entered (S i) (first_terminal termtable first i).
Proof.
  intros (Hlen & Ha & Hb & Hn & Hterm & Hinit) Hi.
  destruct Hok as (H1 & H2 & _).
  assert (Hlt : (i < length first)%nat) by (unfold T, N in *; lia).
  destruct (lookup_lt_is_Some_2 first i Hlt) as [e He].
  pose proof (Hinit i e ltac:(lia) He) as ->.
  assert (Ei : FIRST first i = {| symbols := symbolset_alloc;
                                 nullable := false |})
    by (unfold FIRST; now rewrite He).
  assert (Hkeep : forall e' i', (i' <> i)%nat ->
            FIRST (<[i := e']> first) i' = FIRST first i').
  { intros e' i' Hne. unfold FIRST.
    now rewrite list_lookup_insert_ne by congruence. }
  assert (Hnew : forall e', FIRST (<[i := e']> first) i = e').
  { intros e'. unfold FIRST. now rewrite list_lookup_insert_eq. }
  unfold first_terminal. rewrite Ei.
  destruct (flagged_empty (TERMINAL_AT termtable i)) eqn:Hflag.
  - split; [now rewrite length_insert|].
    split; [|split; [|split; [|split]]].
    + intros t e He'. destruct (decide (t = i)) as [->|Hne].
      * rewrite list_lookup_insert_eq in He' by exact Hlt.
        injection He' as <-. apply alloc_allocated.
      * rewrite list_lookup_insert_ne in He' by congruence. now apply (Ha t).
    + intros t e x He' Hx. destruct (decide (t = i)) as [->|Hne].
      * rewrite list_lookup_insert_eq in He' by exact Hlt.
        injection He' as <-. inversion Hx.
      * rewrite list_lookup_insert_ne in He' by congruence.
        now apply (Hb t e).
    + intros t e He' Hnul. destruct (decide (t = i)) as [->|Hne].
      * apply empty_terminal; [lia | unfold T in Hi; lia | exact Hflag].
      * rewrite list_lookup_insert_ne in He' by congruence.
        now apply (Hn t e).
    + intros i' Hi'. destruct (decide (i' = i)) as [->|Hne].
      * rewrite Hflag, Hnew. reflexivity.
      * rewrite Hkeep by exact Hne. apply Hterm. lia.
    + intros t e Ht He'. rewrite list_lookup_insert_ne in He' by lia.
      apply (Hinit t e); [lia | exact He'].
  - assert (Hcells : forall z,
              z ∈ cells (symbolset_insert symbolset_alloc
                           (TERMINAL_AT termtable i)) <->
              z = TERMINAL_AT termtable i).
    { intros z.
      destruct (set_insert_spec order sizeof_pointer symbolset_alloc
                  (TERMINAL_AT termtable i)
                  (allocated_inv _ alloc_allocated)) as (_ & _ & Hins).
      fold (symbolset_insert symbolset_alloc (TERMINAL_AT termtable i))
        in Hins.
      rewrite Hins; [|intros y Hy; inversion Hy].
      split; [intros [H|H]; [exact H | inversion H] | now left]. }
    split; [now rewrite length_insert|].
    split; [|split; [|split; [|split]]].
    + intros t e He'. destruct (decide (t = i)) as [->|Hne].
      * rewrite list_lookup_insert_eq in He' by exact Hlt.
        injection He' as <-. apply insert_allocated, alloc_allocated.
      * rewrite list_lookup_insert_ne in He' by congruence. now apply (Ha t).
    + intros t e x He' Hx. destruct (decide (t = i)) as [->|Hne].
      * rewrite list_lookup_insert_eq in He' by exact Hlt.
        injection He' as <-. cbn [symbols] in Hx.
        apply Hcells in Hx as ->.
        apply begins_terminal; [lia | unfold T in Hi; lia | exact Hflag].
      * rewrite list_lookup_insert_ne in He' by congruence.
        now apply (Hb t e).
    + intros t e He' Hnul. destruct (decide (t = i)) as [->|Hne].
      * rewrite list_lookup_insert_eq in He' by exact Hlt.
        injection He' as <-. discriminate.
      * rewrite list_lookup_insert_ne in He' by congruence.
        now apply (Hn t e).
    + intros i' Hi'. destruct (decide (i' = i)) as [->|Hne].
      * rewrite Hflag, Hnew. cbn [symbols]. now apply Hcells.
      * rewrite Hkeep by exact Hne. apply Hterm. lia.
    + intros t e Ht He'. rewrite list_lookup_insert_ne in He' by lia.
      apply (Hinit t e); [lia | exact He'].
Qed.

Lemma first_terminals_entered cnt : forall start first,
  entered start first -> (1 <= start)%nat -> (start + cnt = S T)%nat ->
  entered (S T) (fold_left (first_terminal termtable) (seq start cnt) first).
Proof.
  induction cnt as [|cnt IH]; intros start first He Hs Hc.
  - cbn. replace (S T) with start by lia. exact He.
  - cbn [seq fold_left]. apply IH; [|lia|lia].
    apply first_terminal_entered; [exact He | lia].
Qed.

Lemma first_terminals_inv :
  inv (first_terminals tables termtable (init_first tables)).
Proof.
  assert (H0 : entered 1 (init_first tables)).
  { unfold init_first. fold N.
    split; [apply length_replicate|].
    split; [|split; [|split; [|split]]].
    - intros t e He. apply lookup_replicate in He as [-> _].
      apply alloc_allocated.
    - intros t e x He Hx. apply lookup_replicate in He as [-> _].
      inversion Hx.
    - intros t e He Hnul. apply lookup_replicate in He as [-> _].
      discriminate.
    - intros i' Hi'. lia.
    - intros t e _ He. now apply lookup_replicate in He as [-> _]. }
  unfold first_terminals. fold T.
  destruct (first_terminals_entered T 1 _ H0 ltac:(lia) ltac:(lia))
    as (Hlen & Ha & Hb & Hn & Hterm & _).
  split; [exact Hlen|]. split; [exact Ha|]. split; [exact Hb|].
  split; [exact Hn|]. intros i Hi. apply Hterm. lia.
Qed.

(** In closed sets every token that derives the empty string is marked
    nullable, and the set of a token holds all it begins with. *)
Lemma closed_nullable first token :
  inv first -> closed first ->
  derives_empty tables termtable token ->
  nullable (FIRST first (Z.to_nat token)) = true.
Proof.
  intros Hinv Hcl. induction 1 as [i H1 H2 Hf|token j Ht Hd Hall IH].
  - destruct Hinv as (_ & _ & _ & _ & Hterm).
    specialize (Hterm i ltac:(unfold T; lia)). rewrite Hf in Hterm.
    now rewrite Nat2Z.id.
  - destruct Hok as (H1 & H2 & _).
    assert (Etok : token
                   = termcount tables
                     + Z.of_nat (Z.to_nat (token - termcount tables)))
      by lia.
    rewrite Etok in Hd.
    destruct (Hcl (Z.to_nat (token - termcount tables)) ltac:(lia) j Hd)
      as [_ Hnul].
    replace (Z.to_nat token)
      with (T + Z.to_nat (token - termcount tables))%nat by (unfold T; lia).
    apply Hnul. intros m Hm. apply IH. exact Hm.
Qed.

Lemma closed_begins first token x :
  inv first -> closed first ->
  begins_with tables termtable token x ->
  x ∈ cells (symbols (FIRST first (Z.to_nat token))).
Proof.
  intros Hinv Hcl.
  induction 1 as [i H1 H2 Hf|token j k x Ht Hd Hk Hm Hb IH].
  - pose proof Hinv as (_ & _ & _ & _ & Hterm).
    specialize (Hterm i ltac:(unfold T; lia)). rewrite Hf in Hterm.
    now rewrite Nat2Z.id.
  - destruct Hok as (H1 & H2 & _).
    assert (Etok : token
                   = termcount tables
                     + Z.of_nat (Z.to_nat (token - termcount tables)))
      by lia.
    rewrite Etok in Hd.
    destruct (Hcl (Z.to_nat (token - termcount tables)) ltac:(lia) j Hd)
      as [Hfrom _].
    replace (Z.to_nat token)
      with (T + Z.to_nat (token - termcount tables))%nat by (unfold T; lia).
    apply (Hfrom k); [fold (LEN j) in Hk; lia | | exact IH].
    intros m' Hm'. apply (closed_nullable first _ Hinv Hcl).
    apply Hm. lia.
Qed.
End FirstFacts.

(** X20 (compute_first): the loop of compute_first ends, within as many
    passes as the sets have room to grow, and leaves the first sets of the
    grammar: a token is marked nullable exactly when it derives the empty
    string, and its set holds exactly the terminals it can begin with. *)
Theorem compute_first_correct (tables : generator)
    (termtable : list symbolentry) (fuel : nat) :
  first_ok tables termtable ->
  (S (Z.to_nat (termcount tables + nontermcount tables))
   * S (Z.to_nat (termcount tables)) < fuel)%nat ->
  exists first,
    compute_first tables termtable fuel (init_first tables) = Some first /\
    forall token, is_token tables token ->
      (nullable (FIRST first (Z.to_nat token)) = true <->
       derives_empty tables termtable token) /\
      (forall x, x ∈ cells (symbols (FIRST first (Z.to_nat token))) <->
                 begins_with tables termtable token x).
Proof.
  intros Hok Hfuel. unfold compute_first.
  pose proof (first_terminals_inv tables termtable Hok) as Hinv0.
  pose proof (first_passes_spec tables termtable Hok fuel
                (first_terminals tables termtable (init_first tables)) Hinv0)
    as Hpass.
  cbv zeta in Hpass.
  destruct Hpass as (first & Hr & Hinv & Hcl);
    [eapply Nat.le_lt_trans; [apply Nat.le_sub_l | exact Hfuel]|].
  exists first. split; [exact Hr|].
  intros token Htok. unfold is_token in Htok.
  pose proof (inv_lookup tables termtable first (Z.to_nat token) Hinv) as Hl.
  cbv zeta in Hl.
  destruct Hl as (e & He & Ee); [lia|].
  pose proof Hinv as (_ & _ & Hb & Hn & _).
  split; split.
  - intros Hnul. rewrite <- (Z2Nat.id token) by lia.
    apply (Hn _ e He). now rewrite <- Ee.
  - now apply (closed_nullable tables termtable Hok).
  - intros Hx. rewrite <- (Z2Nat.id token) by lia.
    apply (Hb _ e x He). now rewrite <- Ee.
  - now apply (closed_begins tables termtable Hok).
Qed.

Lemma sample_first_ok : first_ok sample_tables sample_termtable.
Proof.
  split; [vm_compute; discriminate|]. split; [vm_compute; discriminate|].
  split; [reflexivity|]. split; [reflexivity|].
  split; [apply sorted_keys_NoDup; vm_compute; repeat constructor|].
  intros j k Hj Hk.
  do 4 (destruct j as [|j];
        [vm_compute in Hk;
         do 3 (destruct k as [|k];
               [try lia; vm_compute; split; intros Hc; discriminate Hc|]); lia|]).
  vm_compute in Hj. lia.
Qed.

Lemma compute_first_correct_witness :
  first_ok sample_tables sample_termtable /\
  (S (Z.to_nat (termcount sample_tables + nontermcount sample_tables))
   * S (Z.to_nat (termcount sample_tables)) < 25)%nat /\
  exists first,
    compute_first sample_tables sample_termtable 25 (init_first sample_tables)
    = Some first /\
    forall token, is_token sample_tables token ->
      (nullable (FIRST first (Z.to_nat token)) = true <->
       derives_empty sample_tables sample_termtable token) /\
      (forall x, x ∈ cells (symbols (FIRST first (Z.to_nat token))) <->
                 begins_with sample_tables sample_termtable token x).
Proof.
  assert (H : (S (Z.to_nat (termcount sample_tables
                            + nontermcount sample_tables))
               * S (Z.to_nat (termcount sample_tables)) < 25)%nat)
    by (vm_compute; lia).
  split; [exact sample_first_ok|]. split; [exact H|].
  exact (compute_first_correct sample_tables sample_termtable 25
           sample_first_ok H).
Defined.

(** The first sets of the sample grammar: [List] and [Goal] begin with
    [a] or [b], and no token is nullable. *)
Example compute_first_sample :
  option_map (map (fun e => (map sym_token (cells (symbols e)), nullable e)))
    (compute_first sample_tables sample_termtable 25
       (init_first sample_tables))
  = Some [([], false); ([1], false); ([2], false); ([3], false);
          ([1; 2], false); ([1; 2], false)].
Proof. vm_compute. reflexivity. Qed.

(** * The parsing tables from write_parser to load_actions *)

Section WriteRow.
Context (row : list Z).

Lemma write_actions_spec n : forall j out,
  write_actions n row j out = out ++ action_pairs row j n.
Proof.
  induction n as [|n IH]; intros j out.
  - cbn. now rewrite app_nil_r.
  - cbn [write_actions]. unfold action_pairs. cbn [seq flat_map].
    destruct (negb (aref row (Z.of_nat j) =? 0)); rewrite IH.
    + now rewrite <- app_assoc.
    + reflexivity.
Qed.

Lemma count_actions_spec n : forall j len limit,
  fst (count_actions n row j len limit)
  = len + Z.of_nat (actions_from row j n) /\
  ((actions_from row j n = 0%nat /\
    snd (count_actions n row j len limit) = limit) \/
   (exists last, (j <= last < j + n)%nat /\
      snd (count_actions n row j len limit) = Z.of_nat last /\
      forall j', (last < j' < j + n)%nat -> aref row (Z.of_nat j') = 0)).
Proof.
  induction n as [|n IH]; intros j len limit.
  - cbn. split; [lia | now left].
  - cbn [count_actions]. unfold actions_from. cbn [seq List.filter].
    destruct (Z.eqb_spec (aref row (Z.of_nat j)) 0) as [Hz|Hnz]; cbn [negb].
    + destruct (IH (S j) len limit) as [H1 H2]. split; [exact H1|].
      destruct H2 as [[H2 H3]|(last & Hl & H3 & H4)].
      * left. split; [exact H2 | exact H3].
      * right. exists last. split; [lia|]. split; [exact H3|].
        intros j' Hj'. apply H4. lia.
    + destruct (IH (S j) (len + 1) (Z.of_nat j)) as [H1 H2].
      split; [rewrite H1; cbn [length]; fold (actions_from row (S j) n); lia|].
      right. destruct H2 as [[H2 H3]|(last & Hl & H3 & H4)].
      * exists j. split; [lia|]. split; [exact H3|].
        intros j' Hj'.
        destruct (Z.eqb_spec (aref row (Z.of_nat j')) 0) as [E|E]; [exact E|].
        exfalso. unfold actions_from in H2.
        assert (Hin : j' ∈ List.filter
                        (fun j => negb (aref row (Z.of_nat j) =? 0))
                        (seq (S j) n)).
        { apply list_elem_of_In, filter_In. split.
          - apply in_seq. lia.
          - apply negb_true_iff. now apply Z.eqb_neq. }
        destruct (List.filter _ (seq (S j) n)); [inversion Hin | discriminate].
      * exists last. split; [lia|]. split; [exact H3|].
        intros j' Hj'. apply H4. lia.
Qed.

Lemma pairs_zero j n m :
  (forall j', (j + n <= j' < j + n + m)%nat -> aref row (Z.of_nat j') = 0) ->
  action_pairs row j (n + m) = action_pairs row j n.
Proof.
  intros Hz. unfold action_pairs. rewrite seq_app, flat_map_app.
  rewrite <- (app_nil_r (flat_map _ (seq j n))) at 2. f_equal.
  assert (H : forall l : list nat,
            (forall j', j' ∈ l -> aref row (Z.of_nat j') = 0) ->
            flat_map (fun j => if negb (aref row (Z.of_nat j) =? 0)
                               then [Z.of_nat j; aref row (Z.of_nat j)]
                               else []) l = []).
  { induction l as [|x l IH]; intros Hl; [reflexivity|].
    cbn [flat_map]. rewrite (Hl x) by left. cbn.
    apply IH. intros j' Hj'. apply Hl. now right. }
  apply H. intros j' Hj'. apply list_elem_of_In, in_seq in Hj'.
  apply Hz. lia.
Qed.

(** The actions counted are the cells of the row that are not zero. *)
Lemma actions_count tokens :
  length row = S tokens ->
  Z.of_nat (actions_from row 1 tokens) = action_count row.
Proof.
  intros Hlen. unfold action_count, actions_from. f_equal.
  assert (E : drop 1 row = map (fun j => aref row (Z.of_nat j)) (seq 1 tokens)).
  { apply list_eq. intros k. rewrite lookup_drop.
    change (map ?f ?l) with (f <$> l). rewrite list_lookup_fmap.
    destruct (decide (k < tokens)%nat) as [Hk|Hk].
    - rewrite lookup_seq_lt by exact Hk.
      destruct (lookup_lt_is_Some_2 row (1 + k)) as [v Hv]; [lia|].
      rewrite Hv. cbn [fmap option_fmap option_map]. f_equal.
      unfold aref. destruct (Z.ltb_spec (Z.of_nat (1 + k)) 0); [lia|].
      now rewrite Nat2Z.id, Hv.
    - rewrite lookup_seq_ge by lia. cbn.
      apply lookup_ge_None. lia. }
  rewrite E. generalize (seq 1 tokens). intros l.
  induction l as [|x l IH]; [reflexivity|].
  cbn [map List.filter].
  destruct (negb (aref row (Z.of_nat x) =? 0)); cbn [length]; now rewrite IH.
Qed.

(** What [write_parser] writes for a state that has an action, whatever
    [limit] was. *)
Lemma write_state_spec tokens out limit :
  length row = S tokens -> has_action row ->
  fst (write_state tokens (out, limit) row)
  = out ++ action_count row :: action_pairs row 1 tokens.
Proof.
  intros Hlen (v & Hv & Hnz). unfold write_state. cbn [fst snd].
  destruct (count_actions_spec tokens 1 0 limit) as [H1 H2].
  destruct (count_actions tokens row 1 0 limit) as [len lim].
  cbn [fst snd] in *.
  rewrite write_actions_spec, <- app_assoc. cbn [app].
  rewrite H1, Z.add_0_l, (actions_count tokens Hlen). f_equal. f_equal.
  destruct H2 as [[H2 _]|(last & Hl & H3 & H4)].
  - exfalso. apply list_elem_of_lookup in Hv as [k Hk].
    rewrite lookup_drop in Hk.
    assert (Hkl : (1 + k < length row)%nat) by (eapply lookup_lt_Some; exact Hk).
    assert (Hin : (1 + k)%nat
                  ∈ List.filter (fun j => negb (aref row (Z.of_nat j) =? 0))
                      (seq 1 tokens)).
    { apply list_elem_of_In, filter_In. split; [apply in_seq; lia|].
      apply negb_true_iff, Z.eqb_neq. unfold aref.
      destruct (Z.ltb_spec (Z.of_nat (1 + k)) 0); [lia|].
      rewrite Nat2Z.id, Hk. exact Hnz. }
    unfold actions_from in H2.
    destruct (List.filter _ (seq 1 tokens)); [inversion Hin | discriminate].
  - subst lim.
    replace (Z.to_nat (Z.of_nat last + 1 - 1)) with last by lia.
    rewrite <- (pairs_zero 1 last (tokens - last));
      [f_equal; lia | intros j' Hj'; apply H4; lia].
Qed.

(** [load_actions] reads the actions back into the cleared row. *)
Lemma load_row_spec tokens rest n : forall j acc,
  length row = S tokens -> (1 <= j)%nat -> (j + n = S tokens)%nat ->
  acc = take (j - 1) (drop 1 row) ++ replicate (S tokens - j) 0 ->
  load_row (actions_from row j n) tokens (action_pairs row j n ++ rest)
    acc
  = Some (drop 1 row, rest).
Proof.
  induction n as [|n IH]; intros j acc Hlen Hj Hn Hacc.
  - cbn. subst acc. replace (S tokens - j)%nat with 0%nat by lia.
    cbn [replicate]. rewrite app_nil_r, take_ge; [reflexivity|].
    rewrite length_drop. lia.
  - unfold actions_from, action_pairs. cbn [seq List.filter flat_map].
    assert (Hcell : aref row (Z.of_nat j)
                    = default 0 (drop 1 row !! (j - 1)%nat)).
    { unfold aref. destruct (Z.ltb_spec (Z.of_nat j) 0); [lia|].
      rewrite Nat2Z.id, lookup_drop. now replace (1 + (j - 1))%nat with j by lia. }
    destruct (lookup_lt_is_Some_2 (drop 1 row) (j - 1)) as [v Hv];
      [rewrite length_drop; lia|].
    rewrite Hv in Hcell. cbn [from_option id] in Hcell.
    assert (Hnext : take (S j - 1) (drop 1 row)
                    = take (j - 1) (drop 1 row) ++ [v]).
    { replace (S j - 1)%nat with (S (j - 1)) by lia.
      now apply take_S_r. }
    destruct (Z.eqb_spec (aref row (Z.of_nat j)) 0) as [Hz|Hnz]; cbn [negb].
    + apply (IH (S j)); [exact Hlen | lia | lia|].
      rewrite Hnext, <- app_assoc. subst acc. f_equal.
      replace (S tokens - j)%nat with (S (S tokens - S j)) by lia.
      cbn [replicate app]. congruence.
    + cbn [length app load_row].
      replace ((1 <=? Z.of_nat j) && (Z.of_nat j <=? Z.of_nat tokens))
        with true by (symmetry; apply andb_true_iff; split;
                      [apply Z.leb_le | apply Z.leb_le]; lia).
      apply (IH (S j)); [exact Hlen | lia | lia|].
      rewrite Hnext, <- app_assoc. subst acc.
      replace (Z.to_nat (Z.of_nat j - 1)) with (j - 1)%nat by lia.
      replace (S tokens - j)%nat with (S (S tokens - S j)) by lia.
      cbn [replicate].
      assert (Hl : length (take (j - 1) (drop 1 row)) = (j - 1)%nat).
      { rewrite length_take, length_drop. lia. }
      rewrite insert_app_r_alt by lia. rewrite Hl, Nat.sub_diag.
      change (<[0%nat := ?x]> (?y :: ?l)) with (x :: l).
      now rewrite Hcell.
Qed.
End WriteRow.

(** The output of [write_parser] for states that have actions. *)
Lemma write_states_spec tokens rows : forall out limit,
  Forall (fun row => length row = S tokens /\ has_action row) rows ->
  fst (fold_left (write_state tokens) rows (out, limit))
  = out ++ flat_map (fun row => action_count row
                                :: action_pairs row 1 tokens) rows.
Proof.
  induction rows as [|row rows IH]; intros out limit Hall.
  - cbn. now rewrite app_nil_r.
  - apply Forall_cons in Hall as [[Hlen Hact] Hall].
    cbn [fold_left flat_map].
    pose proof (write_state_spec row tokens out limit Hlen Hact) as Hw.
    destruct (write_state tokens (out, limit) row) as [out1 limit1].
    cbn [fst] in Hw. subst out1. rewrite (IH _ limit1 Hall).
    now rewrite <- app_assoc.
Qed.

(** X21 (write_parser, load_actions): packtables reads back the parsing
    tables the generator wrote: for states that each have an action,
    [load_actions] on the output of [write_parser] returns the rows of
    [lrstates] from token 1 on, the number of actions of each state as its
    count, and leaves the input behind the tables. *)
Theorem load_actions_round_trip (tokens : nat) (lrstates : list (list Z))
    (limit : Z) (rest : list Z) :
  Forall (fun row => length row = S tokens /\ has_action row)
    (drop 1 lrstates) ->
  load_actions (length lrstates - 1) tokens
    (write_states tokens lrstates limit ++ rest)
  = Some (map action_count (drop 1 lrstates),
          map (drop 1) (drop 1 lrstates), rest).
Proof.
  intros Hall. unfold write_states.
  rewrite (write_states_spec tokens (drop 1 lrstates) [] limit Hall).
  cbn [app]. rewrite <- (length_drop lrstates 1).
  induction (drop 1 lrstates) as [|row rows IH]; [reflexivity|].
  apply Forall_cons in Hall as [[Hlen Hact] Hall].
  cbn [length flat_map map load_actions app].
  rewrite <- (actions_count row tokens Hlen), Nat2Z.id.
  rewrite <- app_assoc.
  rewrite (load_row_spec row tokens _ tokens 1 (replicate tokens 0) Hlen);
    [|lia | lia|].
  - rewrite (IH Hall). reflexivity.
  - replace (1 - 1)%nat with 0%nat by lia.
    replace (S tokens - 1)%nat with tokens by lia. reflexivity.
Qed.

Lemma load_actions_round_trip_witness :
  Forall (fun row => length row = 4%nat /\ has_action row)
    (drop 1 sample_lrstates) /\
  load_actions (length sample_lrstates - 1) 3
    (write_states 3 sample_lrstates 0 ++ [7])
  = Some (map action_count (drop 1 sample_lrstates),
          map (drop 1) (drop 1 sample_lrstates), [7]).
Proof.
  assert (H : Forall (fun row => length row = 4%nat /\ has_action row)
                (drop 1 sample_lrstates)).
  { repeat constructor.
    - exists 10002. split; [left | discriminate].
    - exists 3. split; [right; left | discriminate]. }
  split; [exact H|].
  exact (load_actions_round_trip 3 sample_lrstates 0 [7] H).
Defined.

(** The sample table as it is written: the count of each state and a
    token and an action for each action. *)
Example write_states_sample :
  write_states 3 sample_lrstates 0 = [2; 1; 10002; 3; -1; 1; 2; 3].
Proof. reflexivity. Qed.

(** * The gotos of the collection (generate_parser) *)

Lemma forallb_eq {A : Type} (f g : A -> bool) (l : list A) :
  (forall x, f x = g x) -> forallb f l = forallb g l.
Proof. intros H. induction l as [|x l IH]; cbn; [reflexivity|]. now rewrite H, IH. Qed.

Lemma existsb_eq {A : Type} (f g : A -> bool) (l : list A) :
  (forall x, f x = g x) -> existsb f l = existsb g l.
Proof. intros H. induction l as [|x l IH]; cbn; [reflexivity|]. now rewrite H, IH. Qed.

Section Cfsm.
Context (tables : generator).

Lemma advance_key x y :
  item_key x = item_key y -> advance tables x = advance tables y.
Proof.
  unfold item_key, advance, item_production. intros [= Hp Hd].
  now rewrite Hp, Hd.
Qed.

(** The goto kernel is read off the productions and dots of the items. *)
Lemma goto_kernel_key items : forall items' token,
  map item_key items = map item_key items' ->
  goto_kernel tables items token = goto_kernel tables items' token.
Proof.
  unfold goto_kernel.
  induction items as [|x items IH]; intros [|y items'] token H;
    try discriminate; [reflexivity|].
  cbn [map] in H.
  assert (Hxy : item_key x = item_key y) by congruence.
  assert (Hrest : map item_key items = map item_key items') by congruence.
  cbn [List.filter]. rewrite (before_token_key tables token x y Hxy).
  destruct (before_token tables token y); cbn [map];
    rewrite (IH items' token Hrest); [|reflexivity].
  now rewrite (advance_key x y Hxy).
Qed.

Lemma same_item_key a a' b :
  item_key a = item_key a' -> same_item a b = same_item a' b.
Proof. unfold item_key, same_item. intros [= -> ->]. reflexivity. Qed.

Lemma itemset_equal_key items items' k knl n :
  map item_key items = map item_key items' ->
  itemset_equal tables items k knl n = itemset_equal tables items' k knl n.
Proof.
  intros H. unfold itemset_equal.
  destruct (negb (k =? n)%nat); [reflexivity|].
  destruct (option_set (options tables) ERRORREPAIR).
  - apply forallb_eq. intros i.
    apply same_item_key, item_at_key, H.
  - apply forallb_eq. intros i. apply existsb_eq. intros j.
    apply same_item_key, item_at_key, H.
Qed.

Lemma same_item_refl a : same_item a a = true.
Proof. unfold same_item. now rewrite !Nat.eqb_refl. Qed.

(** A state whose items begin with the kernel is accepted for it. *)
Lemma itemset_equal_prefix knl added :
  itemset_equal tables (knl ++ added) (length knl) knl (length knl) = true.
Proof.
  unfold itemset_equal. rewrite Nat.eqb_refl. cbn [negb].
  assert (Hat : forall i, (i < length knl)%nat ->
            item_at (knl ++ added) i = item_at knl i).
  { intros i Hi. unfold item_at. now rewrite lookup_app_l. }
  destruct (option_set (options tables) ERRORREPAIR);
    apply forallb_forall; intros i Hi; apply in_seq in Hi.
  - rewrite Hat by lia. apply same_item_refl.
  - apply existsb_exists. exists i. split; [apply in_seq; lia|].
    rewrite Hat by lia. apply same_item_refl.
Qed.

Lemma link_items_gotos n : forall j k state token i coll s,
  gotos (COLLECTION (link_items tables n j k state token i coll) s)
  = gotos (COLLECTION coll s).
Proof.
  induction n as [|n IH]; intros j k state token i coll s; [reflexivity|].
  cbn [link_items].
  destruct (before_token tables token (ITEMSET coll state j)); [|apply IH].
  rewrite IH, !COLLECTION_set_item.
  destruct (decide _) as [[-> _]|_]; cbn [gotos];
    rewrite ?COLLECTION_set_item;
    repeat (destruct (decide _) as [[-> _]|_]; cbn [gotos]); reflexivity.
Qed.

Lemma COLLECTION_lookup (coll : list configuration) s c :
  coll !! s = Some c -> COLLECTION coll s = c.
Proof. intros H. unfold COLLECTION. now rewrite H. Qed.

(** The states of [coll] are found in [coll'] with their productions and
    dots, kernel sizes and gotos. *)
Let kept (coll coll' : list configuration) : Prop :=
  forall s c, coll !! s = Some c ->
    exists c', coll' !! s = Some c' /\
      map item_key (itemset c') = map item_key (itemset c) /\
      kernel c' = kernel c /\ gotos c' = gotos c.

Lemma kept_refl coll : kept coll coll.
Proof. intros s c Hc. exists c. auto. Qed.

Lemma kept_trans c1 c2 c3 : kept c1 c2 -> kept c2 c3 -> kept c1 c3.
Proof.
  intros H1 H2 s c Hc.
  destruct (H1 s c Hc) as (c' & Hc' & Hk & Hn & Hg).
  destruct (H2 s c' Hc') as (c'' & Hc'' & Hk' & Hn' & Hg').
  exists c''. repeat split; congruence.
Qed.

Lemma lookup_goto_kept coll state token :
  kept coll (fst (lookup_goto tables coll state token)).
Proof.
  intros s c Hc.
  assert (Hs : (s < length coll)%nat) by (eapply lookup_lt_Some; exact Hc).
  pose proof (lookup_goto_length tables coll state token) as Hlen.
  pose proof (lookup_goto_keys tables coll state token s Hs) as Hkeys.
  destruct (lookup_lt_is_Some_2 (fst (lookup_goto tables coll state token)) s)
    as [c' Hc']; [lia|].
  exists c'. split; [exact Hc'|].
  rewrite (COLLECTION_lookup _ _ _ Hc'), (COLLECTION_lookup _ _ _ Hc) in Hkeys.
  split; [exact Hkeys|].
  rewrite <- (COLLECTION_lookup _ _ _ Hc'), <- (COLLECTION_lookup _ _ _ Hc).
  unfold lookup_goto. cbn [fst].
  rewrite link_items_kernel, link_items_gotos.
  destruct (length coll <=? _)%nat; [|now split].
  now rewrite COLLECTION_app_l.
Qed.

(** The state [lookup_goto] returns has the goto kernel as its kernel. *)
Lemma lookup_goto_target coll state token :
  let knl := goto_kernel tables (itemset (COLLECTION coll state)) token in
  exists c',
    fst (lookup_goto tables coll state token)
      !! snd (lookup_goto tables coll state token) = Some c' /\
    itemset_equal tables (itemset c') (kernel c') knl (length knl) = true.
Proof.
  intros knl.
  destruct (find_state_spec tables knl (length coll) 2 coll) as (H1 & H2 & H3).
  cbv zeta in H1, H2, H3.
  set (r := find_state tables (length coll) 2 coll knl) in *.
  set (new := {| itemset :=
                   apply_closure tables (closure_fuel tables knl)
                     (length knl) knl 0;
                 kernel := length knl; gotos := [] |}).
  assert (Hshape : lookup_goto tables coll state token =
            (link_items tables (length (itemset (COLLECTION coll state))) 0 0
               state token
               (if (length coll <=? r)%nat then length coll else r)
               (if (length coll <=? r)%nat then coll ++ [new] else coll),
             if (length coll <=? r)%nat then length coll else r))
    by reflexivity.
  rewrite Hshape. cbn [fst snd]. clear Hshape.
  set (i := if (length coll <=? r)%nat then length coll else r).
  set (coll1 := if (length coll <=? r)%nat then coll ++ [new] else coll).
  set (coll2 := link_items tables _ 0 0 state token i coll1).
  assert (Hlen2 : length coll2 = length coll1) by apply link_items_length.
  assert (Hc1 : exists c1, coll1 !! i = Some c1 /\
            itemset_equal tables (itemset c1) (kernel c1) knl (length knl)
            = true).
  { unfold i, coll1.
    destruct (Nat.leb_spec (length coll) r) as [Hle|Hlt].
    - exists new. split.
      + rewrite lookup_app_r by lia. now rewrite Nat.sub_diag.
      + unfold new. cbn [itemset kernel].
        destruct (proj1 (apply_closure_appends tables
                           (closure_fuel tables knl))
                    (length knl) knl 0%nat) as (added & -> & _).
        apply itemset_equal_prefix.
    - destruct H3 as [(c & Hc & He)|[H3 _]]; [lia | | lia].
      exists c. split; [exact Hc | exact He]. }
  destruct Hc1 as (c1 & Hc1 & He1).
  assert (Hi : (i < length coll2)%nat)
    by (rewrite Hlen2; eapply lookup_lt_Some; exact Hc1).
  destruct (lookup_lt_is_Some_2 coll2 i Hi) as [c2 Hc2].
  exists c2. split; [exact Hc2|].
  pose proof (link_items_keys tables
                (length (itemset (COLLECTION coll state))) 0 0 state token i
                coll1 i) as Hk.
  pose proof (link_items_kernel tables
                (length (itemset (COLLECTION coll state))) 0 0 state token i
                coll1 i) as Hn.
  fold coll2 in Hk, Hn.
  rewrite (COLLECTION_lookup _ _ _ Hc2), (COLLECTION_lookup _ _ _ Hc1) in Hk, Hn.
  rewrite Hn, (itemset_equal_key _ _ _ _ _ Hk). exact He1.
Qed.

(** The invariant of the goto loop: every goto leads to the state of its
    goto kernel. *)
Let sound (coll : list configuration) : Prop :=
  forall i c g, coll !! i = Some c -> g ∈ gotos c ->
                goto_target tables coll c g.

Lemma goto_target_kept coll coll' c c' g :
  (forall s t, coll !! s = Some t ->
     exists t', coll' !! s = Some t' /\
       map item_key (itemset t') = map item_key (itemset t) /\
       kernel t' = kernel t) ->
  map item_key (itemset c') = map item_key (itemset c) ->
  goto_target tables coll c g -> goto_target tables coll' c' g.
Proof.
  intros Hk Hc (t & Ht & He). cbv zeta in He.
  destruct (Hk _ t Ht) as (t' & Ht' & Hkeys & Hn).
  exists t'. split; [exact Ht'|].
  rewrite (goto_kernel_key _ _ _ Hc), Hn,
    (itemset_equal_key _ _ _ _ _ Hkeys).
  exact He.
Qed.

Lemma sound_kept coll coll' :
  sound coll -> kept coll coll' ->
  (forall i c', coll' !! i = Some c' -> (length coll <= i)%nat ->
                gotos c' = []) ->
  sound coll'.
Proof.
  intros Hs Hk Hnew i c' g Hc' Hg.
  destruct (decide (i < length coll)%nat) as [Hi|Hi].
  - destruct (lookup_lt_is_Some_2 coll i Hi) as [c Hc].
    destruct (Hk i c Hc) as (c2 & Hc2 & Hkeys & _ & Hgo).
    assert (c2 = c') by congruence. subst c2.
    apply (goto_target_kept coll coll' c c' g); [|exact Hkeys|].
    + intros s t Ht. destruct (Hk s t Ht) as (t' & H1 & H2 & H3 & _).
      exists t'. auto.
    + apply (Hs i c g Hc). now rewrite <- Hgo.
  - rewrite (Hnew i c' Hc' ltac:(lia)) in Hg. inversion Hg.
Qed.

Lemma lookup_goto_new coll state token i c' :
  fst (lookup_goto tables coll state token) !! i = Some c' ->
  (length coll <= i)%nat -> gotos c' = [].
Proof.
  intros Hc' Hi.
  rewrite <- (COLLECTION_lookup _ _ _ Hc').
  unfold lookup_goto in *. cbn [fst] in *.
  rewrite link_items_gotos.
  apply lookup_lt_Some in Hc'. rewrite link_items_length in Hc'.
  destruct (length coll <=? _)%nat; [|lia].
  rewrite length_app in Hc'. cbn [length] in Hc'.
  unfold COLLECTION. rewrite lookup_app_r by lia.
  replace (i - length coll)%nat with 0%nat by lia. reflexivity.
Qed.

Lemma count_token_some items token : forall j count found,
  (exists x, x ∈ items /\ before_token tables token x = true) ->
  (count < fst (count_token tables items token j count found))%nat.
Proof.
  induction items as [|x items IH]; intros j count found (y & Hy & Hb);
    [inversion Hy|].
  cbn [count_token].
  destruct (before_token tables token x) eqn:Hx.
  - destruct (count_token_found tables items token (S j) (S count) j)
      as (_ & H & _). cbv zeta in H. lia.
  - apply IH. apply elem_of_cons in Hy as [->|Hy]; [congruence|].
    now exists y.
Qed.

(** The states of [coll] are found in [coll'] with their productions and
    dots and kernel sizes, and with more gotos. *)
Let grown (coll coll' : list configuration) : Prop :=
  forall s c, coll !! s = Some c ->
    exists c', coll' !! s = Some c' /\
      map item_key (itemset c') = map item_key (itemset c) /\
      kernel c' = kernel c /\
      exists more, gotos c' = gotos c ++ more.

Lemma grown_refl coll : grown coll coll.
Proof.
  intros s c Hc. exists c. repeat split; try assumption.
  exists []. now rewrite app_nil_r.
Qed.

Lemma grown_trans c1 c2 c3 : grown c1 c2 -> grown c2 c3 -> grown c1 c3.
Proof.
  intros H1 H2 s c Hc.
  destruct (H1 s c Hc) as (c' & Hc' & Hk & Hn & m & Hg).
  destruct (H2 s c' Hc') as (c'' & Hc'' & Hk' & Hn' & m' & Hg').
  exists c''. split; [exact Hc''|]. split; [congruence|].
  split; [congruence|]. exists (m ++ m'). rewrite Hg', Hg.
  now rewrite app_assoc.
Qed.

(** The body of the goto loop: what it keeps, and the goto it adds. *)
Lemma goto_step_spec coll i token :
  sound coll -> (i < length coll)%nat ->
  sound (goto_step tables coll i token) /\
  grown coll (goto_step tables coll i token) /\
  ((exists x, x ∈ itemset (COLLECTION coll i) /\
              before_token tables token x = true) ->
   shortcut tables (itemset (COLLECTION coll i)) token = false ->
   exists g, g ∈ gotos (COLLECTION (goto_step tables coll i token) i) /\
             goto_token g = token).
Proof.
  intros Hs Hi.
  pose proof (count_token_some (itemset (COLLECTION coll i)) token 0 0 0)
    as Hsome.
  unfold goto_step, shortcut.
  destruct (count_token tables (itemset (COLLECTION coll i)) token 0 0 0)
    as [count found] eqn:Ec.
  cbn [fst] in Hsome.
  destruct (_ && _ && _) eqn:Hshort.
  { split; [exact Hs|]. split; [apply grown_refl|].
    intros _ H. discriminate. }
  destruct (0 <? count)%nat eqn:Hpos.
  2:{ split; [exact Hs|]. split; [apply grown_refl|].
      intros Hex _. apply Nat.ltb_ge in Hpos. specialize (Hsome Hex). lia. }
  apply Nat.ltb_lt in Hpos.
  pose proof (count_token_positive tables _ _ _ _ Ec Hpos) as Hb.
  apply (before_token_symbol tables) in Hb as [_ Htok]. rewrite Htok.
  pose proof (lookup_goto_kept coll i token) as Hkept.
  pose proof (lookup_goto_target coll i token) as Htarget.
  pose proof (lookup_goto_new coll i token) as Hnew.
  destruct (lookup_goto tables coll i token) as [coll1 st].
  cbn [fst snd] in *. cbv zeta in Htarget.
  assert (Hs1 : sound coll1) by (eapply sound_kept; eassumption).
  destruct (lookup_lt_is_Some_2 coll i Hi) as [c Hc].
  destruct (Hkept i c Hc) as (c1 & Hc1 & Hkeys & Hn & Hg).
  assert (Hi1 : (i < length coll1)%nat) by (eapply lookup_lt_Some; exact Hc1).
  set (g := {| goto_token := token; goto_state := st |}).
  set (c2 := {| itemset := itemset c1; kernel := kernel c1;
                gotos := gotos c1 ++ [g] |}).
  assert (E2 : add_goto coll1 i g = <[i := c2]> coll1).
  { unfold add_goto. now rewrite (COLLECTION_lookup _ _ _ Hc1). }
  rewrite E2.
  assert (Hframe : forall s t, coll1 !! s = Some t ->
            exists t', <[i := c2]> coll1 !! s = Some t' /\
              map item_key (itemset t') = map item_key (itemset t) /\
              kernel t' = kernel t /\
              exists more, gotos t' = gotos t ++ more).
  { intros s t Ht. destruct (decide (s = i)) as [->|Hne].
    - exists c2. rewrite list_lookup_insert_eq by exact Hi1.
      assert (t = c1) by congruence. subst t.
      repeat split. now exists [g].
    - exists t. rewrite list_lookup_insert_ne by congruence.
      repeat split; try assumption. exists []. now rewrite app_nil_r. }
  assert (Hframe' : forall s t, coll1 !! s = Some t ->
            exists t', <[i := c2]> coll1 !! s = Some t' /\
              map item_key (itemset t') = map item_key (itemset t) /\
              kernel t' = kernel t).
  { intros s t Ht. destruct (Hframe s t Ht) as (t' & H1 & H2 & H3 & _).
    exists t'. auto. }
  split; [|split].
  - intros s t g' Ht Hg'.
    destruct (decide (s = i)) as [->|Hne].
    + rewrite list_lookup_insert_eq in Ht by exact Hi1.
      injection Ht as <-. cbn [gotos c2] in Hg'.
      apply elem_of_app in Hg' as [Hg'|Hg'].
      * apply (goto_target_kept coll1 _ c1 c2 g' Hframe' eq_refl).
        now apply (Hs1 i c1 g' Hc1).
      * apply list_elem_of_singleton in Hg'. subst g'.
        destruct Htarget as (t & Ht & He).
        destruct (Hframe' st t Ht) as (t' & Ht' & Hk' & Hn').
        exists t'. split; [exact Ht'|]. cbv zeta. cbn [goto_token g itemset c2].
        rewrite (COLLECTION_lookup _ _ _ Hc) in He.
        rewrite (goto_kernel_key _ _ _ Hkeys), Hn',
          (itemset_equal_key _ _ _ _ _ Hk').
        exact He.
    + rewrite list_lookup_insert_ne in Ht by congruence.
      apply (goto_target_kept coll1 _ t t g' Hframe' eq_refl).
      now apply (Hs1 s t g' Ht).
  - intros s t Ht.
    destruct (Hkept s t Ht) as (t1 & Ht1 & Hk1 & Hn1 & Hg1).
    destruct (Hframe s t1 Ht1) as (t2 & Ht2 & Hk2 & Hn2 & more & Hg2).
    exists t2. split; [exact Ht2|]. split; [congruence|].
    split; [congruence|]. exists more. congruence.
  - intros _ _. exists g. split; [|reflexivity].
    unfold COLLECTION. rewrite list_lookup_insert_eq by exact Hi1.
    cbn [from_option id gotos c2]. apply elem_of_app. right. left.
Qed.
(** The tokens from [lo] up to [hi] have their goto in state [i]. *)
Let done (coll : list configuration) (i : nat) (lo hi : Z) : Prop :=
  forall token, lo <= token < hi ->
    (exists x, x ∈ itemset (COLLECTION coll i) /\
               before_token tables token x = true) ->
    shortcut tables (itemset (COLLECTION coll i)) token = false ->
    exists g, g ∈ gotos (COLLECTION coll i) /\ goto_token g = token.

Lemma before_key items : forall items' token,
  map item_key items = map item_key items' ->
  (exists x, x ∈ items /\ before_token tables token x = true) ->
  exists x, x ∈ items' /\ before_token tables token x = true.
Proof.
  induction items as [|x items IH]; intros [|y items'] token H (z & Hz & Hb);
    try discriminate; [inversion Hz|].
  cbn [map] in H.
  assert (Hxy : item_key x = item_key y) by congruence.
  assert (Hrest : map item_key items = map item_key items') by congruence.
  apply elem_of_cons in Hz as [->|Hz].
  - exists y. split; [left|].
    now rewrite <- (before_token_key tables token x y Hxy).
  - destruct (IH items' token Hrest) as (w & Hw & Hbw); [now exists z|].
    exists w. split; [now right | exact Hbw].
Qed.

Lemma done_grown coll coll' i lo hi :
  grown coll coll' -> (i < length coll)%nat ->
  done coll i lo hi -> done coll' i lo hi.
Proof.
  intros Hg Hi Hd token Ht Hex Hsh.
  destruct (lookup_lt_is_Some_2 coll i Hi) as [c Hc].
  destruct (Hg i c Hc) as (c' & Hc' & Hk & _ & more & Hgo).
  rewrite (COLLECTION_lookup _ _ _ Hc') in *.
  destruct (Hd token Ht) as (g & Hin & Htok).
  - rewrite (COLLECTION_lookup _ _ _ Hc).
    now apply (before_key (itemset c') (itemset c) token Hk).
  - rewrite (COLLECTION_lookup _ _ _ Hc).
    now rewrite <- (shortcut_key tables _ _ token Hk).
  - rewrite (COLLECTION_lookup _ _ _ Hc) in Hin.
    exists g. split; [|exact Htok]. rewrite Hgo. apply elem_of_app. now left.
Qed.

Lemma grown_length coll coll' :
  grown coll coll' -> (length coll <= length coll')%nat.
Proof.
  intros Hg. destruct (decide (length coll <= length coll')%nat) as [H|H];
    [exact H|].
  exfalso.
  destruct (lookup_lt_is_Some_2 coll (length coll')) as [c Hc]; [lia|].
  destruct (Hg _ c Hc) as (c' & Hc' & _).
  apply lookup_lt_Some in Hc'. lia.
Qed.

(** [for (token = 1; token <= termcount + nontermcount; token++)] *)
Lemma goto_tokens_spec n : forall token i coll lo,
  sound coll -> (i < length coll)%nat -> done coll i lo token ->
  sound (goto_tokens tables n token i coll) /\
  grown coll (goto_tokens tables n token i coll) /\
  done (goto_tokens tables n token i coll) i lo (token + Z.of_nat n).
Proof.
  induction n as [|n IH]; intros token i coll lo Hs Hi Hd.
  - cbn [goto_tokens]. split; [exact Hs|]. split; [apply grown_refl|].
    now rewrite Z.add_0_r.
  - cbn [goto_tokens].
    destruct (goto_step_spec coll i token Hs Hi) as (Hs1 & Hg1 & Hnew).
    pose proof (grown_length _ _ Hg1) as Hlen.
    destruct (IH (token + 1) i (goto_step tables coll i token) lo Hs1)
      as (Hs2 & Hg2 & Hd2); [lia| |].
    + intros t Ht Hex Hsh.
      destruct (decide (t = token)) as [->|Hne].
      * destruct (lookup_lt_is_Some_2 coll i Hi) as [c Hc].
        destruct (Hg1 i c Hc) as (c' & Hc' & Hk & _).
        rewrite (COLLECTION_lookup _ _ _ Hc') in Hex, Hsh.
        apply Hnew.
        -- rewrite (COLLECTION_lookup _ _ _ Hc).
           now apply (before_key (itemset c') (itemset c) token Hk).
        -- rewrite (COLLECTION_lookup _ _ _ Hc).
           now rewrite <- (shortcut_key tables _ _ token Hk).
      * apply (done_grown coll _ i lo token Hg1 Hi Hd); [lia | exact Hex
                                                        | exact Hsh].
    + split; [exact Hs2|]. split; [eapply grown_trans; eassumption|].
      replace (token + Z.of_nat (S n)) with (token + 1 + Z.of_nat n) by lia.
      exact Hd2.
Qed.

(** [for (i = 1; i < COLLCOUNT; i++)] *)
Lemma goto_states_spec fuel : forall i coll,
  sound coll -> (1 <= i)%nat ->
  (forall s, (1 <= s < i)%nat -> (s < length coll)%nat ->
             done coll s 1 (1 + Z.of_nat (token_count tables))) ->
  sound (goto_states tables fuel i coll) /\
  forall s, (1 <= s < i + fuel)%nat ->
            (s < length (goto_states tables fuel i coll))%nat ->
            done (goto_states tables fuel i coll) s 1
              (1 + Z.of_nat (token_count tables)).
Proof.
  induction fuel as [|fuel IH]; intros i coll Hs Hi Hd.
  - cbn [goto_states]. split; [exact Hs|]. intros s Hs' Hl.
    apply Hd; [lia | exact Hl].
  - cbn [goto_states].
    destruct (Nat.ltb_spec i (length coll)) as [Hlt|Hge].
    + destruct (goto_tokens_spec (token_count tables) 1 i coll 1 Hs Hlt)
        as (Hs1 & Hg1 & Hd1); [intros t Ht; lia|].
      destruct (IH (S i) (goto_tokens tables (token_count tables) 1 i coll)
                  Hs1 ltac:(lia)) as (Hs2 & Hd2).
      * intros s Hs' Hl. destruct (decide (s = i)) as [->|Hne];
          [exact Hd1|].
        apply (done_grown coll _ s _ _ Hg1); [lia|].
        apply Hd; lia.
      * split; [exact Hs2|]. intros s Hs' Hl. apply Hd2; [lia | exact Hl].
    + split; [exact Hs|]. intros s Hs' Hl. apply Hd; [lia | exact Hl].
Qed.

Lemma initial_sound : sound (initial_collection tables).
Proof.
  intros i c g Hc Hg. unfold initial_collection in Hc.
  destruct i as [|[|i]]; cbn in Hc; try discriminate;
    injection Hc as <-; inversion Hg.
Qed.
End Cfsm.

(** X22 (generate_parser, lookup_goto): in the collection the goto loop
    builds, every goto of a state leads to a state of the collection whose
    kernel [itemset_equal] accepts for the goto kernel of the state on the
    token of the goto. *)
Theorem goto_states_sound (tables : generator) (fuel i : nat)
    (c : configuration) (g : gotoentry) :
  let coll := goto_states tables fuel 1 (initial_collection tables) in
  coll !! i = Some c -> g ∈ gotos c ->
  let knl := goto_kernel tables (itemset c) (goto_token g) in
  exists c', coll !! goto_state g = Some c' /\
    itemset_equal tables (itemset c') (kernel c') knl (length knl) = true.
Proof.
  intros coll Hc Hg knl.
  destruct (goto_states_spec tables fuel 1 (initial_collection tables)
              (initial_sound tables) ltac:(lia)) as [Hs _];
    [intros s Hs; lia|].
  exact (Hs i c g Hc Hg).
Qed.

Lemma goto_states_sound_witness :
  let coll := goto_states plain_tables 8 1 (initial_collection plain_tables) in
  let c := COLLECTION coll 1 in
  let g := {| goto_token := 1; goto_state := 2 |} in
  let knl := goto_kernel plain_tables (itemset c) (goto_token g) in
  coll !! 1%nat = Some c /\ g ∈ gotos c /\
  exists c', coll !! goto_state g = Some c' /\
    itemset_equal plain_tables (itemset c') (kernel c') knl (length knl) = true.
Proof.
  cbv zeta.
  assert (H1 : goto_states plain_tables 8 1 (initial_collection plain_tables)
                 !! 1%nat
               = Some (COLLECTION
                         (goto_states plain_tables 8 1
                            (initial_collection plain_tables)) 1))
    by (vm_compute; reflexivity).
  assert (H2 : {| goto_token := 1; goto_state := 2 |}
               ∈ gotos (COLLECTION
                          (goto_states plain_tables 8 1
                             (initial_collection plain_tables)) 1)).
  { apply list_elem_of_lookup. exists 0%nat. vm_compute. reflexivity. }
  split; [exact H1|]. split; [exact H2|].
  exact (goto_states_sound plain_tables 8 1 _ _ H1 H2).
Defined.

(** X23 (generate_parser): every state the goto loop has visited has a
    goto for each token that one of its items has the dot in front of,
    unless the token is taken by a default shiftreduce. *)
Theorem goto_states_complete (tables : generator) (fuel i : nat)
    (c : configuration) (token : Z) (x : itementry) :
  goto_states tables fuel 1 (initial_collection tables) !! i = Some c ->
  (1 <= i <= fuel)%nat ->
  1 <= token <= termcount tables + nontermcount tables ->
  x ∈ itemset c -> before_token tables token x = true ->
  shortcut tables (itemset c) token = false ->
  exists g, g ∈ gotos c /\ goto_token g = token.
Proof.
  intros Hc Hi Htok Hx Hb Hsh.
  destruct (goto_states_spec tables fuel 1 (initial_collection tables)
              (initial_sound tables) ltac:(lia)) as [_ Hd];
    [intros s Hs; lia|].
  cbv zeta in Hd.
  specialize (Hd i ltac:(lia) ltac:(eapply lookup_lt_Some; exact Hc) token).
  unfold COLLECTION in Hd. rewrite Hc in Hd. cbn [from_option id] in Hd.
  apply Hd; [unfold token_count; lia | now exists x | exact Hsh].
Qed.

Lemma goto_states_complete_witness :
  let coll := goto_states plain_tables 8 1 (initial_collection plain_tables) in
  let c := COLLECTION coll 2 in
  let x := ITEMSET coll 2 0 in
  coll !! 2%nat = Some c /\ (1 <= 2 <= 8)%nat /\
  1 <= 5 <= termcount plain_tables + nontermcount plain_tables /\
  x ∈ itemset c /\ before_token plain_tables 5 x = true /\
  shortcut plain_tables (itemset c) 5 = false /\
  exists g, g ∈ gotos c /\ goto_token g = 5.
Proof.
  cbv zeta.
  assert (H1 : goto_states plain_tables 8 1 (initial_collection plain_tables)
                 !! 2%nat
               = Some (COLLECTION
                         (goto_states plain_tables 8 1
                            (initial_collection plain_tables)) 2))
    by (vm_compute; reflexivity).
  assert (H2 : (1 <= 2 <= 8)%nat) by lia.
  assert (H3 : 1 <= 5 <= termcount plain_tables + nontermcount plain_tables)
    by (vm_compute; split; discriminate).
  assert (H4 : ITEMSET (goto_states plain_tables 8 1
                          (initial_collection plain_tables)) 2 0
               ∈ itemset (COLLECTION
                            (goto_states plain_tables 8 1
                               (initial_collection plain_tables)) 2)).
  { apply list_elem_of_lookup. exists 0%nat. vm_compute. reflexivity. }
  assert (H5 : before_token plain_tables 5
                 (ITEMSET (goto_states plain_tables 8 1
                             (initial_collection plain_tables)) 2 0) = true)
    by (vm_compute; reflexivity).
  assert (H6 : shortcut plain_tables
                 (itemset (COLLECTION
                             (goto_states plain_tables 8 1
                                (initial_collection plain_tables)) 2)) 5
               = false)
    by (vm_compute; reflexivity).
  split; [exact H1|]. split; [exact H2|]. split; [exact H3|].
  split; [exact H4|]. split; [exact H5|]. split; [exact H6|].
  exact (goto_states_complete plain_tables 8 2 _ 5 _ H1 H2 H3 H4 H5 H6).
Defined.

(** * The propagation of the lookahead sets (propagate_lookahead) *)

Lemma sum_insert {A : Type} (f : A -> nat) (l : list A) : forall t e e',
  l !! t = Some e ->
  (foldr (fun x n => f x + n) 0 (<[t := e']> l) + f e
   = foldr (fun x n => f x + n) 0 l + f e')%nat.
Proof.
  induction l as [|x l IH]; intros t e e' Ht; [discriminate|].
  destruct t as [|t].
  - injection Ht as ->. cbn. lia.
  - change (<[S t := e']> (x :: l)) with (x :: <[t := e']> l).
    change ((x :: l) !! S t) with (l !! t) in Ht.
    cbn [foldr]. specialize (IH t e e' Ht). lia.
Qed.

Lemma sum_bound {A : Type} (f g : A -> nat) (l : list A) :
  (forall x, x ∈ l -> (f x <= g x)%nat) ->
  (foldr (fun x n => f x + n) 0 l <= foldr (fun x n => g x + n) 0 l)%nat.
Proof.
  induction l as [|x l IH]; intros H; [cbn; lia|].
  cbn [foldr]. pose proof (H x ltac:(left)).
  assert (foldr (fun x n => f x + n) 0 l <= foldr (fun x n => g x + n) 0 l)%nat
    by (apply IH; intros y Hy; apply H; now right).
  lia.
Qed.

Lemma sum_const {A : Type} (f : A -> nat) (k : nat) (l : list A) :
  (forall x, x ∈ l -> (f x <= k)%nat) ->
  (foldr (fun x n => f x + n) 0 l <= length l * k)%nat.
Proof.
  induction l as [|x l IH]; intros H; [cbn; lia|].
  cbn [foldr length]. pose proof (H x ltac:(left)).
  assert (foldr (fun x n => f x + n) 0 l <= length l * k)%nat
    by (apply IH; intros y Hy; apply H; now right).
  lia.
Qed.

Section LookFacts.
Context (follow : list (list symbolset))
        (update : list (list (list target))) (sentinel : symbolentry)
        (universe : list symbolentry) (coll : list configuration).
Hypothesis Hok : lookahead_ok follow update sentinel universe coll.

Let LOOK (c : list configuration) (i j : nat) : list symbolentry :=
  cells (lookahead (ITEMSET c i j)).

Lemma universe_unique x z :
  x ∈ universe -> z ∈ universe -> order x = order z -> x = z.
Proof.
  intros Hx Hz Ho. destruct Hok as (Hnd & _).
  apply list_elem_of_lookup in Hx as [i Hi].
  apply list_elem_of_lookup in Hz as [i' Hi'].
  assert (Ex : map order universe !! i = Some (order x)).
  { change (map order ?l) with (order <$> l).
    now rewrite list_lookup_fmap, Hi. }
  assert (Ez : map order universe !! i' = Some (order x)).
  { change (map order ?l) with (order <$> l).
    rewrite list_lookup_fmap, Hi'. cbn. congruence. }
  pose proof (NoDup_lookup _ _ _ _ Hnd Ex Ez). subst i'. congruence.
Qed.

Lemma looks_ahead_universe i j x :
  looks_ahead follow update sentinel coll i j x -> x ∈ universe.
Proof.
  destruct Hok as (_ & Hs & _ & Hitems & _).
  induction 1 as [i j x Hin Hx|i j x Hin Hx Hd| |i j t x Hi Hj Ht Hl IH].
  - now apply (Hitems i j Hin).
  - now apply (Hitems i j Hin).
  - exact Hs.
  - exact IH.
Qed.

(** The collection keeps its shape: the lookahead sets are all that
    changes. *)
Let sizes (cfg : configuration) : nat * nat :=
  (length (itemset cfg), kernel cfg).

Let shape (c : list configuration) : Prop :=
  map sizes c = map sizes coll /\
  forall i j, descendant (ITEMSET c i j) = descendant (ITEMSET coll i j).

Lemma shape_length c : shape c -> length c = length coll.
Proof.
  intros [H _]. rewrite <- (length_map sizes c), H. apply length_map.
Qed.

Lemma shape_state c i :
  shape c ->
  length (itemset (COLLECTION c i)) = length (itemset (COLLECTION coll i)) /\
  kernel (COLLECTION c i) = kernel (COLLECTION coll i).
Proof.
  intros [H _].
  assert (E : map sizes c !! i = map sizes coll !! i) by now rewrite H.
  change (map ?f ?l) with (f <$> l) in E. rewrite !list_lookup_fmap in E.
  unfold COLLECTION.
  destruct (c !! i), (coll !! i); cbn in E |- *; try discriminate;
    [unfold sizes in E; injection E as E1 E2; now split | now split].
Qed.

Lemma shape_in_items c i j :
  shape c -> in_items c i j <-> in_items coll i j.
Proof.
  intros Hs. unfold in_items.
  rewrite (shape_length c Hs), (proj1 (shape_state c i Hs)). reflexivity.
Qed.

(** Storing a lookahead set. *)
Lemma store_shape c i j s :
  shape c -> shape (set_item c i j (set_lookahead (ITEMSET c i j) s)).
Proof.
  intros [Hm Hd]. split.
  - rewrite <- Hm. unfold set_item.
    destruct (c !! i) as [cfg|] eqn:Hc.
    + change (map ?f ?l) with (f <$> l). rewrite list_fmap_insert.
      apply list_insert_id. rewrite list_lookup_fmap, Hc.
      cbn [fmap option_fmap option_map]. unfold sizes.
      cbn [itemset kernel].
      unfold COLLECTION. rewrite Hc. cbn [from_option id].
      now rewrite length_insert.
    + rewrite list_insert_ge; [reflexivity|]. now apply lookup_ge_None.
  - intros i' j'. rewrite ITEMSET_set_item.
    destruct (decide _) as [(-> & -> & _)|_]; [|apply Hd].
    cbn [descendant set_lookahead]. apply Hd.
Qed.

Lemma store_look c i j s i' j' :
  shape c -> in_items coll i j ->
  lookahead (ITEMSET (set_item c i j (set_lookahead (ITEMSET c i j) s)) i' j')
  = if decide (i' = i /\ j' = j) then s else lookahead (ITEMSET c i' j').
Proof.
  intros Hs Hin. apply (shape_in_items c i j Hs) in Hin as [Hi Hj].
  rewrite ITEMSET_set_item.
  destruct (decide (i' = i /\ j' = j)) as [[-> ->]|Hne].
  - destruct (decide _) as [_|Hc]; [reflexivity|].
    exfalso. apply Hc. repeat split; lia.
  - destruct (decide _) as [(E1 & E2 & _)|_]; [|reflexivity].
    exfalso. apply Hne. now split.
Qed.
(** The invariant of the loops: the lookahead sets are allocated and
    hold only symbols the item looks ahead to. *)
Let inv (c : list configuration) : Prop :=
  shape c /\
  (forall i j, in_items coll i j -> allocated (lookahead (ITEMSET c i j))) /\
  (forall i j x, in_items coll i j -> x ∈ LOOK c i j ->
     looks_ahead follow update sentinel coll i j x).

Let grows (c c' : list configuration) : Prop :=
  forall i j x, in_items coll i j -> x ∈ LOOK c i j -> x ∈ LOOK c' i j.

Lemma grows_refl c : grows c c.
Proof. intros i j x _ H. exact H. Qed.

Lemma grows_trans c1 c2 c3 : grows c1 c2 -> grows c2 c3 -> grows c1 c3.
Proof. intros H1 H2 i j x Hin Hx. apply H2, H1; assumption. Qed.

(** The size of the lookahead sets: the measure that bounds the
    passes. *)
Let weight (it : itementry) : nat := length (cells (lookahead it)).

Let mu (c : list configuration) : nat :=
  foldr (fun cfg n => (foldr (fun it m => (weight it + m)%nat) 0%nat
                         (itemset cfg) + n)%nat) 0%nat (drop 1 c).

Lemma mu_store c i j s :
  shape c -> in_items coll i j ->
  (mu (set_item c i j (set_lookahead (ITEMSET c i j) s))
   + length (LOOK c i j)
   = mu c + length (cells s))%nat.
Proof.
  intros Hs Hin. apply (shape_in_items c i j Hs) in Hin as [Hi Hj].
  destruct (lookup_lt_is_Some_2 c i) as [cfg Hc]; [lia|].
  assert (Ec : COLLECTION c i = cfg) by (unfold COLLECTION; now rewrite Hc).
  rewrite Ec in Hj.
  destruct (lookup_lt_is_Some_2 (itemset cfg) j Hj) as [it Hit].
  assert (Ei : ITEMSET c i j = it)
    by (unfold ITEMSET; now rewrite Ec, Hit).
  unfold LOOK. rewrite Ei.
  unfold mu, set_item. rewrite Ec, drop_insert_ge by lia.
  set (f := fun cfg : configuration =>
              foldr (fun it m => (weight it + m)%nat) 0%nat (itemset cfg)).
  assert (Hd : drop 1 c !! (i - 1)%nat = Some cfg).
  { rewrite lookup_drop. now replace (1 + (i - 1))%nat with i by lia. }
  pose proof (sum_insert f (drop 1 c) (i - 1) cfg
                {| itemset := <[j := set_lookahead it s]> (itemset cfg);
                   kernel := kernel cfg; gotos := gotos cfg |} Hd) as H1.
  pose proof (sum_insert weight (itemset cfg) j it (set_lookahead it s) Hit)
    as H2.
  unfold f in H1. cbn [itemset] in H1.
  assert (E : weight (set_lookahead it s) = length (cells s)) by reflexivity.
  assert (E' : weight it = length (cells (lookahead it))) by reflexivity.
  rewrite E, E' in H2. lia.
Qed.

Lemma look_bound c i j :
  inv c -> in_items coll i j ->
  (length (LOOK c i j) <= length universe)%nat.
Proof.
  intros (_ & Ha & Hw) Hin.
  assert (Hnd : NoDup (LOOK c i j)).
  { apply (NoDup_fmap_1 order), sorted_keys_NoDup.
    apply (allocated_cells _ (Ha i j Hin)). }
  apply submseteq_length, NoDup_submseteq; [exact Hnd|].
  intros x Hx. apply (looks_ahead_universe i j). now apply Hw.
Qed.

Lemma item_total_shape c : shape c -> item_total c = item_total coll.
Proof.
  intros [H _].
  assert (E : forall l, item_total l
                        = foldr (fun p n => (fst p + n)%nat) 0%nat
                            (map sizes l)).
  { induction l as [|x l IH]; [reflexivity|].
    cbn [item_total foldr map]. unfold item_total in IH. now rewrite IH. }
  now rewrite !E, H.
Qed.

Lemma lookahead_bound c :
  inv c -> (mu c <= item_total coll * length universe)%nat.
Proof.
  intros Hinv. pose proof Hinv as (Hs & _).
  rewrite <- (item_total_shape c Hs).
  pose proof (shape_length c Hs) as Hlen.
  assert (Hall : forall i cfg, c !! i = Some cfg -> (1 <= i)%nat ->
            forall it, it ∈ itemset cfg ->
                       (weight it <= length universe)%nat).
  { intros i cfg Hc Hi it Hit.
    apply list_elem_of_lookup in Hit as [j Hj].
    assert (Ec : COLLECTION c i = cfg) by (unfold COLLECTION; now rewrite Hc).
    assert (Hin : in_items coll i j).
    { apply (shape_in_items c i j Hs). split.
      - apply lookup_lt_Some in Hc. lia.
      - rewrite Ec. eapply lookup_lt_Some. exact Hj. }
    pose proof (look_bound c i j Hinv Hin) as Hb.
    unfold LOOK, ITEMSET in Hb. rewrite Ec, Hj in Hb. exact Hb. }
  unfold mu, item_total.
  transitivity (foldr (fun cfg n => (length (itemset cfg) * length universe
                                     + n)%nat) 0%nat (drop 1 c)).
  - apply sum_bound. intros cfg Hcfg.
    apply list_elem_of_lookup in Hcfg as [k Hk]. rewrite lookup_drop in Hk.
    apply sum_const. intros it Hit.
    apply (Hall (1 + k)%nat cfg Hk ltac:(lia) it Hit).
  - assert (H : forall l : list configuration,
              foldr (fun cfg n => (length (itemset cfg) * length universe
                                   + n)%nat) 0%nat l
              = (foldr (fun cfg n => (length (itemset cfg) + n)%nat) 0%nat l
                 * length universe)%nat).
    { induction l as [|y l IH]; [reflexivity|]. cbn [foldr]. rewrite IH. lia. }
    rewrite H. apply Nat.mul_le_mono_r.
    destruct c as [|x l]; [reflexivity|].
    change (drop 1 (x :: l)) with l. cbn [foldr]. lia.
Qed.
(** Merging a set of symbols the item looks ahead to into its lookahead
    set. *)
Lemma merge_step c i j src :
  inv c -> in_items coll i j -> allocated src ->
  (forall x, x ∈ cells src ->
             looks_ahead follow update sentinel coll i j x) ->
  let merge := symbolset_union (lookahead (ITEMSET c i j)) src in
  let c' := set_item c i j (set_lookahead (ITEMSET c i j) merge) in
  inv c' /\ grows c c' /\
  (forall x, x ∈ cells src -> x ∈ LOOK c' i j) /\
  (mu c <= mu c')%nat /\
  (symbolset_equal merge (lookahead (ITEMSET c i j)) = false ->
   (mu c < mu c')%nat) /\
  (symbolset_equal merge (lookahead (ITEMSET c i j)) = true ->
   forall x, x ∈ cells src -> x ∈ LOOK c i j).
Proof.
  intros Hinv Hin Hsrc Hjust merge c'.
  pose proof Hinv as (Hs & Ha & Hw).
  destruct (union_allocated (lookahead (ITEMSET c i j)) src
              (Ha i j Hin) Hsrc) as (Hm & Hel & Hk & He & Hgrow).
  fold merge in Hm, Hel, Hk, He, Hgrow.
  assert (Hcur : forall x, x ∈ LOOK c i j -> x ∈ universe)
    by (intros x Hx; apply (looks_ahead_universe i j); now apply Hw).
  assert (Huni : forall x, x ∈ cells src -> x ∈ universe)
    by (intros x Hx; apply (looks_ahead_universe i j); now apply Hjust).
  assert (Hmem : forall x, x ∈ LOOK c i j \/ x ∈ cells src ->
                           x ∈ cells merge).
  { intros x Hx.
    assert (Hkey : order x ∈ map order (cells merge)).
    { apply Hk. change (map order ?l) with (order <$> l).
      destruct Hx as [Hx|Hx]; [left | right];
        apply list_elem_of_fmap; exists x; now split. }
    change (map order ?l) with (order <$> l) in Hkey.
    apply list_elem_of_fmap in Hkey as (z & Hz & Hzin).
    assert (Hxu : x ∈ universe) by (destruct Hx; auto).
    assert (Hzu : z ∈ universe) by (destruct (Hel z Hzin); auto).
    now rewrite (universe_unique x z Hxu Hzu Hz). }
  assert (Hlook : forall i' j',
            lookahead (ITEMSET c' i' j')
            = if decide (i' = i /\ j' = j) then merge
              else lookahead (ITEMSET c i' j'))
    by (intros i' j'; apply store_look; assumption).
  split; [|split; [|split; [|split; [|split]]]].
  - split; [now apply store_shape|]. split.
    + intros i' j' Hin'. rewrite Hlook.
      destruct (decide _); [exact Hm | now apply Ha].
    + intros i' j' x Hin' Hx. unfold LOOK in Hx. rewrite Hlook in Hx.
      destruct (decide _) as [[-> ->]|_]; [|now apply Hw].
      destruct (Hel x Hx) as [H|H]; [now apply Hw | now apply Hjust].
  - intros i' j' x Hin' Hx. unfold LOOK. rewrite Hlook.
    destruct (decide _) as [[-> ->]|_]; [|exact Hx].
    apply Hmem. now left.
  - intros x Hx. unfold LOOK. rewrite Hlook.
    destruct (decide _) as [_|Hc]; [|exfalso; apply Hc; now split].
    apply Hmem. now right.
  - pose proof (mu_store c i j merge Hs Hin) as Hmu. fold c' in Hmu.
    destruct (symbolset_equal merge (lookahead (ITEMSET c i j))) eqn:E.
    + pose proof (f_equal length (He eq_refl)) as Hl.
      rewrite !length_map in Hl. unfold LOOK in Hmu. lia.
    + specialize (Hgrow eq_refl). unfold LOOK in Hmu. lia.
  - intros E. pose proof (mu_store c i j merge Hs Hin) as Hmu.
    fold c' in Hmu. specialize (Hgrow E). unfold LOOK in Hmu. lia.
  - intros E x Hx.
    assert (Hkey : order x ∈ map order (LOOK c i j)).
    { unfold LOOK. rewrite <- (He E). apply Hk. right.
      change (map order ?l) with (order <$> l).
      apply list_elem_of_fmap. exists x. now split. }
    change (map order ?l) with (order <$> l) in Hkey.
    apply list_elem_of_fmap in Hkey as (z & Hz & Hzin).
    now rewrite (universe_unique x z (Huni x Hx) (Hcur z Hzin) Hz).
Qed.

(** The loop over the items of the collection: [I] is kept by the body,
    which establishes [Q] for the item it is run on and keeps it for the
    others. *)
Lemma each_item_spec
    (body : list configuration -> nat -> nat -> list configuration)
    (I : list configuration -> Prop)
    (Q : nat -> nat -> list configuration -> Prop) :
  (forall c, I c -> shape c) ->
  (forall c i j, I c -> in_items coll i j ->
     I (body c i j) /\ Q i j (body c i j) /\
     forall i' j', Q i' j' c -> Q i' j' (body c i j)) ->
  forall c, I c ->
    I (each_item body c) /\
    forall i j, in_items coll i j -> Q i j (each_item body c).
Proof.
  intros Hshape Hbody c Hc.
  assert (Hinner : forall i n j0 c0,
            (1 <= i < length coll)%nat ->
            (j0 + n <= length (itemset (COLLECTION coll i)))%nat ->
            I c0 ->
            let c1 := fold_left (fun c j => body c i j) (seq j0 n) c0 in
            I c1 /\
            (forall i' j', Q i' j' c0 -> Q i' j' c1) /\
            (forall j, (j0 <= j < j0 + n)%nat -> Q i j c1)).
  { intros i n. induction n as [|n IH]; intros j0 c0 Hi Hn H0 c1.
    - split; [exact H0|]. split; [auto|]. intros j Hj. lia.
    - unfold c1. cbn [seq fold_left].
      destruct (Hbody c0 i j0 H0) as (H1 & Hq & Hkeep); [split; [exact Hi | lia]|].
      destruct (IH (S j0) (body c0 i j0) Hi ltac:(lia) H1) as (H2 & Hk2 & Hq2).
      split; [exact H2|]. split; [intros i' j' H; now apply Hk2, Hkeep|].
      intros j Hj. destruct (decide (j = j0)) as [->|Hne];
        [now apply Hk2 | apply Hq2; lia]. }
  assert (Houter : forall n i0 c0,
            (1 <= i0)%nat -> (i0 + n <= length coll)%nat -> I c0 ->
            let c1 := fold_left
                        (fun c i =>
                           fold_left (fun c j => body c i j)
                             (seq 0 (length (itemset (COLLECTION c i)))) c)
                        (seq i0 n) c0 in
            I c1 /\
            (forall i' j', Q i' j' c0 -> Q i' j' c1) /\
            (forall i j, (i0 <= i < i0 + n)%nat ->
               (j < length (itemset (COLLECTION coll i)))%nat -> Q i j c1)).
  { induction n as [|n IH]; intros i0 c0 Hi Hn H0 c1.
    - split; [exact H0|]. split; [auto|]. intros i j Hi'. lia.
    - unfold c1. cbn [seq fold_left].
      rewrite (proj1 (shape_state c0 i0 (Hshape c0 H0))).
      destruct (Hinner i0 (length (itemset (COLLECTION coll i0))) 0%nat c0
                  ltac:(lia) ltac:(lia) H0) as (H1 & Hk1 & Hq1).
      destruct (IH (S i0) _ ltac:(lia) ltac:(lia) H1) as (H2 & Hk2 & Hq2).
      split; [exact H2|]. split; [intros i' j' H; now apply Hk2, Hk1|].
      intros i j Hi' Hj. destruct (decide (i = i0)) as [->|Hne].
      + apply Hk2, Hq1. lia.
      + apply Hq2; [lia | exact Hj]. }
  unfold each_item. rewrite (shape_length c (Hshape c Hc)).
  destruct Hok as (_ & _ & [[H1 H2] _] & _).
  destruct (Houter (length coll - 1)%nat 1%nat c ltac:(lia) ltac:(lia) Hc)
    as (Hi & _ & Hq).
  split; [exact Hi|]. intros i j [Hi' Hj]. apply Hq; [lia | exact Hj].
Qed.
Lemma shape_refl : shape coll.
Proof. split; reflexivity. Qed.

(** The first loop: every lookahead set is emptied. *)
Lemma clear_lookahead_spec :
  let c := each_item (clear_lookahead) coll in
  shape c /\
  forall i j, in_items coll i j ->
    allocated (lookahead (ITEMSET c i j)) /\ LOOK c i j = [].
Proof.
  intros c.
  destruct (each_item_spec clear_lookahead
              (fun c => shape c /\
                        forall i j, in_items coll i j ->
                          allocated (lookahead (ITEMSET c i j)))
              (fun i j c => LOOK c i j = [])) with (c := coll)
    as ((Hs & Ha) & Hq).
  - intros c0 [H _]. exact H.
  - intros c0 i j [Hs Ha] Hin. unfold clear_lookahead.
    assert (Hclear : allocated (clear_set (lookahead (ITEMSET c0 i j))) /\
                     cells (clear_set (lookahead (ITEMSET c0 i j))) = []).
    { destruct (Ha i j Hin) as (a & Ea & He & _). unfold clear_set, cells.
      rewrite Ea. cbn [array]. split; [|reflexivity].
      exists []. cbn [array element]. repeat split; [exact He | constructor]. }
    split; [split|split].
    + now apply store_shape.
    + intros i' j' Hin'. rewrite store_look by assumption.
      destruct (decide _); [apply Hclear | now apply Ha].
    + unfold LOOK. rewrite store_look by assumption.
      destruct (decide _) as [_|Hc]; [apply Hclear | exfalso; apply Hc; now split].
    + intros i' j' H. unfold LOOK. rewrite store_look by assumption.
      destruct (decide _) as [[-> ->]|_]; [apply Hclear | exact H].
  - split; [apply shape_refl|]. intros i j Hin.
    destruct Hok as (_ & _ & _ & Hitems & _). now apply (Hitems i j Hin).
  - split; [exact Hs|]. intros i j Hin. split; [now apply Ha | now apply Hq].
Qed.

(** The second loop: an item and its descendant are given the symbols of
    its follow set. *)
Lemma spontaneous_spec c :
  inv c ->
  let c' := each_item (spontaneous follow) c in
  inv c' /\
  forall i j x, in_items coll i j -> x ∈ cells (FOLLOW follow i j) ->
    x ∈ LOOK c' i j /\
    (tg_state (descendant (ITEMSET coll i j)) <> 0%nat ->
     x ∈ LOOK c' (tg_state (descendant (ITEMSET coll i j)))
           (tg_item (descendant (ITEMSET coll i j)))).
Proof.
  intros Hinv c'.
  pose proof Hok as (_ & _ & _ & Hitems & _).
  destruct (each_item_spec (spontaneous follow) inv
              (fun i j c =>
                 in_items coll i j ->
                 forall x, x ∈ cells (FOLLOW follow i j) ->
                   x ∈ LOOK c i j /\
                   (tg_state (descendant (ITEMSET coll i j)) <> 0%nat ->
                    x ∈ LOOK c (tg_state (descendant (ITEMSET coll i j)))
                          (tg_item (descendant (ITEMSET coll i j))))))
    with (c := c) as (Hi & Hq).
  - intros c0 [H _]. exact H.
  - intros c0 i j H0 Hin.
    destruct (Hitems i j Hin) as (Hf & _ & _ & Hd).
    assert (Hstep : inv (spontaneous follow c0 i j) /\
                    grows c0 (spontaneous follow c0 i j) /\
                    forall x, x ∈ cells (FOLLOW follow i j) ->
                      x ∈ LOOK (spontaneous follow c0 i j) i j /\
                      (tg_state (descendant (ITEMSET coll i j)) <> 0%nat ->
                       x ∈ LOOK (spontaneous follow c0 i j)
                             (tg_state (descendant (ITEMSET coll i j)))
                             (tg_item (descendant (ITEMSET coll i j))))).
    { unfold spontaneous.
      destruct (0 <? length (cells (FOLLOW follow i j)))%nat eqn:E.
      - cbv zeta. set (c1 := merge_lookahead c0 i j (FOLLOW follow i j)).
        assert (H1s : inv c1 /\ grows c0 c1 /\
                      forall x, x ∈ cells (FOLLOW follow i j) ->
                                x ∈ LOOK c1 i j).
        { destruct (merge_step c0 i j (FOLLOW follow i j) H0 Hin Hf)
            as (H1 & Hg1 & Hin1 & _);
            [intros x Hx; now apply look_follow|].
          split; [exact H1|]. split; [exact Hg1 | exact Hin1]. }
        destruct H1s as (H1 & Hg1 & Hin1).
        assert (Ed : descendant (ITEMSET c1 i j)
                     = descendant (ITEMSET coll i j))
          by (destruct H1 as ((_ & Hdesc) & _); apply Hdesc).
        rewrite Ed.
        destruct (tg_state (descendant (ITEMSET coll i j)) =? 0)%nat eqn:E0;
          cbn [negb].
        + apply Nat.eqb_eq in E0.
          split; [exact H1|]. split; [exact Hg1|].
          intros x Hx. split; [now apply Hin1 | intros Hc; now destruct Hc].
        + apply Nat.eqb_neq in E0.
          destruct (merge_step c1 _ _ (FOLLOW follow i j) H1 (Hd E0) Hf)
            as (H2 & Hg2 & Hin2 & _);
            [intros x Hx; now apply look_descendant|].
          unfold merge_lookahead.
          split; [exact H2|]. split; [now apply (grows_trans _ c1)|].
          intros x Hx. split; [apply Hg2; [exact Hin | now apply Hin1]|].
          intros _. now apply Hin2.
      - apply Nat.ltb_ge in E.
        split; [exact H0|]. split; [apply grows_refl|].
        intros x Hx. destruct (cells (FOLLOW follow i j)); [|cbn in E; lia].
        now apply elem_of_nil in Hx. }
    destruct Hstep as (H1 & Hg & Hq1).
    split; [exact H1|]. split; [intros _; exact Hq1|].
    intros i' j' H Hin' x Hx. destruct (H Hin' x Hx) as [Ha Hb].
    destruct (Hitems i' j' Hin') as (_ & _ & _ & Hd').
    split; [now apply Hg|]. intros Hne. apply Hg; [now apply Hd' | now apply Hb].
  - exact Hinv.
  - split; [exact Hi|]. intros i j x Hin Hx. now apply Hq.
Qed.

(** [symbolset_insert] of the end of file symbol. *)
Lemma end_of_file_spec c :
  inv c ->
  let c' := end_of_file sentinel c in
  inv c' /\ grows c c' /\ sentinel ∈ LOOK c' 1 0.
Proof.
  intros Hinv c'. pose proof Hinv as (Hs & Ha & Hw).
  pose proof Hok as (_ & Hsent & H10 & _).
  set (s := lookahead (ITEMSET c 1 0)).
  assert (Hins : allocated (symbolset_insert s sentinel))
    by apply insert_allocated, (Ha _ _ H10).
  assert (Hcells : forall z, z ∈ cells (symbolset_insert s sentinel) <->
                             z = sentinel \/ z ∈ cells s).
  { destruct (set_insert_spec order sizeof_pointer s sentinel
                (allocated_inv _ (Ha _ _ H10))) as (_ & Hsame & Hnew).
    destruct (decide (order sentinel ∈ order <$> cells s)) as [Hk|Hk].
    - apply list_elem_of_fmap in Hk as (y & Hy & Hyin).
      assert (y = sentinel).
      { apply universe_unique; [|exact Hsent|now symmetry].
        apply (looks_ahead_universe 1 0). now apply Hw. }
      subst y. unfold symbolset_insert.
      rewrite Hsame by (exists sentinel; now split).
      intros z. split; [now right | intros [->|H]; assumption].
    - apply Hnew. intros y Hy Hc. apply Hk.
      apply list_elem_of_fmap. exists y. now split. }
  assert (Hlook : forall i' j',
            lookahead (ITEMSET c' i' j')
            = if decide (i' = 1%nat /\ j' = 0%nat)
              then symbolset_insert s sentinel
              else lookahead (ITEMSET c i' j'))
    by (intros i' j'; apply store_look; assumption).
  split; [|split].
  - split; [now apply store_shape|]. split.
    + intros i j Hin. rewrite Hlook. destruct (decide _); [exact Hins | now apply Ha].
    + intros i j x Hin Hx. unfold LOOK in Hx. rewrite Hlook in Hx.
      destruct (decide _) as [[-> ->]|_]; [|now apply Hw].
      apply Hcells in Hx as [->|Hx]; [apply look_sentinel | now apply Hw].
  - intros i j x Hin Hx. unfold LOOK. rewrite Hlook.
    destruct (decide _) as [[-> ->]|_]; [|exact Hx].
    apply Hcells. now right.
  - unfold LOOK. rewrite Hlook.
    destruct (decide _) as [_|Hc]; [|exfalso; apply Hc; now split].
    apply Hcells. now left.
Qed.
(** What a part of a pass does to the collection and the flag
    [changed]. *)
Let step (s s' : list configuration * bool) : Prop :=
  inv (fst s') /\ grows (fst s) (fst s') /\
  (mu (fst s) <= mu (fst s'))%nat /\
  (snd s' = false -> fst s' = fst s /\ snd s = false) /\
  (snd s = false -> snd s' = true -> (mu (fst s) < mu (fst s'))%nat).

Lemma pass_refl s : inv (fst s) -> step s s.
Proof.
  intros H. split; [exact H|]. split; [apply grows_refl|].
  split; [lia|]. split; [now intros ->|]. intros -> Hc. discriminate Hc.
Qed.

Lemma pass_trans s1 s2 s3 : step s1 s2 -> step s2 s3 -> step s1 s3.
Proof.
  intros (_ & Hg1 & Hm1 & Hf1 & Hc1) (H3 & Hg2 & Hm2 & Hf2 & Hc2).
  split; [exact H3|]. split; [now apply (grows_trans _ (fst s2))|].
  split; [lia|]. split.
  - intros E. destruct (Hf2 E) as [E2 Eb]. destruct (Hf1 Eb) as [E1 Eb1].
    split; [congruence | exact Eb1].
  - intros E1 E3. destruct (snd s2) eqn:E2.
    + specialize (Hc1 E1 eq_refl). lia.
    + specialize (Hc2 eq_refl E3). destruct (Hf1 eq_refl) as [E _].
      rewrite <- E. exact Hc2.
Qed.

(** A loop of a pass: when the flag is still [false] at its end, the
    property [C] that a body leaves behind holds for every element, of
    the collection as it was. *)
Lemma fold_step {A : Type}
    (f : list configuration * bool -> A -> list configuration * bool)
    (C : A -> list configuration -> Prop) (l : list A) :
  (forall s a, a ∈ l -> inv (fst s) ->
     step s (f s a) /\ (snd (f s a) = false -> C a (fst s))) ->
  forall s, inv (fst s) ->
    step s (fold_left f l s) /\
    (snd (fold_left f l s) = false -> forall a, a ∈ l -> C a (fst s)).
Proof.
  induction l as [|a l IH]; intros Hf s Hs.
  - split; [now apply pass_refl|]. intros _ a Ha.
    now apply elem_of_nil in Ha.
  - cbn [fold_left].
    destruct (Hf s a ltac:(left) Hs) as [H1 Hc1].
    destruct (IH (fun s a Ha => Hf s a ltac:(now right)) (f s a)
                ltac:(apply H1)) as [H2 Hc2].
    split; [now apply (pass_trans _ (f s a))|].
    intros E a' Ha'.
    destruct H2 as (_ & _ & _ & Hf2 & _). destruct (Hf2 E) as [E2 Eb].
    destruct H1 as (_ & _ & _ & Hf1 & _). destruct (Hf1 Eb) as [E1 _].
    apply elem_of_cons in Ha' as [->|Ha'].
    + now apply Hc1.
    + rewrite <- E1. now apply Hc2.
Qed.

(** Kernel item [j] of state [i] has given its lookahead set to the items
    it updates. *)
Let given (i j : nat) (t : target) (c : list configuration) : Prop :=
  forall x, x ∈ LOOK c i j -> x ∈ LOOK c (tg_state t) (tg_item t).

Lemma propagate_to_spec i j s t :
  (1 <= i < length coll)%nat -> (j < kernel (COLLECTION coll i))%nat ->
  t ∈ UPDATE update i j -> inv (fst s) ->
  step s (propagate_to i j s t) /\
  (snd (propagate_to i j s t) = false -> given i j t (fst s)).
Proof.
  intros Hi Hj Ht Hinv. pose proof Hinv as (Hs & Ha & Hw).
  destruct Hok as (_ & _ & _ & _ & Hupd).
  destruct (Hupd i j Hi Hj) as [Hin Htargets].
  destruct (merge_step (fst s) (tg_state t) (tg_item t)
              (lookahead (ITEMSET (fst s) i j)) Hinv (Htargets t Ht)
              (Ha i j Hin))
    as (H1 & Hg & _ & Hmu & Hlt & Heq).
  { intros x Hx. apply (look_update follow update sentinel coll i j t x);
      [exact Hi | exact Hj | exact Ht | now apply Hw]. }
  unfold propagate_to. cbv zeta.
  destruct (symbolset_equal _ _) eqn:E.
  - split; [now apply pass_refl|]. intros _ x Hx. now apply (Heq eq_refl).
  - split; [|intros Hc; discriminate Hc]. cbn [fst snd].
    split; [exact H1|]. split; [exact Hg|]. split; [exact Hmu|].
    split; [intros Hc; discriminate Hc|]. intros _ _. now apply Hlt.
Qed.

(** Every kernel item has given its lookahead set to the items it
    updates. *)
Let closed (c : list configuration) : Prop :=
  forall i j t, (1 <= i < length coll)%nat ->
    (j < kernel (COLLECTION coll i))%nat -> t ∈ UPDATE update i j ->
    given i j t c.

Lemma propagate_pass_spec c :
  inv c ->
  step (c, false) (propagate_pass update c) /\
  (snd (propagate_pass update c) = false -> closed c).
Proof.
  intros Hinv. unfold propagate_pass.
  destruct (fold_step
              (fun state i =>
                 fold_left
                   (fun state j =>
                      fold_left (propagate_to i j) (UPDATE update i j) state)
                   (seq 0 (kernel (COLLECTION (fst state) i))) state)
              (fun i c => forall j t, (j < kernel (COLLECTION coll i))%nat ->
                                      t ∈ UPDATE update i j -> given i j t c)
              (seq 1 (length c - 1))) with (s := (c, false)) as [Hstep Hc].
  - intros s i Hi Hs. apply elem_of_seq in Hi.
    rewrite (shape_length c (proj1 Hinv)) in Hi.
    rewrite (proj2 (shape_state (fst s) i (proj1 Hs))).
    destruct (fold_step
                (fun state j =>
                   fold_left (propagate_to i j) (UPDATE update i j) state)
                (fun j c => forall t, t ∈ UPDATE update i j -> given i j t c)
                (seq 0 (kernel (COLLECTION coll i)))) with (s := s)
      as [Hstep Hc].
    + intros s' j Hj Hs'. apply elem_of_seq in Hj.
      apply (fold_step (propagate_to i j) (fun t c => given i j t c)).
      * intros s'' t Ht Hs''. apply propagate_to_spec; [lia | lia | exact Ht | exact Hs''].
      * exact Hs'.
    + exact Hs.
    + split; [exact Hstep|]. intros E j t Hj Ht.
      apply (Hc E j); [apply elem_of_seq; lia | exact Ht].
  - exact Hinv.
  - split; [exact Hstep|]. intros E i j t Hi Hj Ht.
    apply (Hc E i); [|exact Hj | exact Ht].
    apply elem_of_seq. rewrite (shape_length c (proj1 Hinv)). lia.
Qed.

(** The loop ends before the passes run out, with every lookahead set
    given on. *)
Lemma propagate_passes_spec fuel : forall c,
  inv c -> (item_total coll * length universe - mu c < fuel)%nat ->
  exists c', propagate_passes update fuel c = Some c' /\
             inv c' /\ grows c c' /\ closed c'.
Proof.
  induction fuel as [|fuel IH]; intros c Hinv Hfuel; [lia|].
  cbn [propagate_passes].
  destruct (propagate_pass_spec c Hinv) as [Hstep Hclosed].
  destruct (propagate_pass update c) as [c1 changed].
  cbn [fst snd] in Hstep, Hclosed.
  destruct Hstep as (H1 & Hg & Hmu & Hf & Hlt). cbn [fst snd] in *.
  destruct changed.
  - specialize (Hlt eq_refl eq_refl). pose proof (lookahead_bound c1 H1) as Hb.
    destruct (IH c1 H1 ltac:(lia)) as (c' & E & H' & Hg' & Hc').
    exists c'. split; [exact E|]. split; [exact H'|].
    split; [now apply (grows_trans _ c1) | exact Hc'].
  - destruct (Hf eq_refl) as [-> _]. exists c.
    split; [reflexivity|]. split; [exact Hinv|].
    split; [apply grows_refl | now apply Hclosed].
Qed.

(** [propagate_lookahead] ends, and the lookahead set of an item is then
    the set of the symbols it looks ahead to. *)
Lemma propagate_lookahead_spec fuel :
  (item_total coll * length universe < fuel)%nat ->
  exists coll',
    propagate_lookahead follow update sentinel fuel coll = Some coll' /\
    forall i j, in_items coll i j ->
      forall x, x ∈ cells (lookahead (ITEMSET coll' i j)) <->
                looks_ahead follow update sentinel coll i j x.
Proof.
  intros Hfuel. unfold propagate_lookahead.
  destruct clear_lookahead_spec as [Hs1 Hq1].
  set (c1 := each_item clear_lookahead coll) in *.
  assert (H1 : inv c1).
  { split; [exact Hs1|]. split; [intros i j Hin; now apply Hq1|].
    intros i j x Hin Hx. pose proof (proj2 (Hq1 i j Hin)) as E0.
    unfold LOOK in Hx, E0. rewrite E0 in Hx. now apply elem_of_nil in Hx. }
  destruct (spontaneous_spec c1 H1) as [H2 Hq2].
  set (c2 := each_item (spontaneous follow) c1) in *.
  destruct (end_of_file_spec c2 H2) as (H3 & Hg3 & Hsent).
  set (c3 := end_of_file sentinel c2) in *.
  destruct (propagate_passes_spec fuel c3 H3 ltac:(lia))
    as (c' & E & H' & Hg' & Hc').
  exists c'. split; [exact E|]. intros i j Hin x. split.
  - intros Hx. destruct H' as (_ & _ & Hw). now apply Hw.
  - intros Hx. clear Hin.
    pose proof Hok as (_ & _ & H10 & Hitems & Hupd).
    induction Hx as [i j x Hin Hx|i j x Hin Hx Hd| |i j t x Hi Hj Ht Hl IH].
    + apply Hg', Hg3; [exact Hin | exact Hin |]. now apply Hq2.
    + destruct (Hitems i j Hin) as (_ & _ & _ & Hdesc).
      apply Hg', Hg3; [now apply Hdesc | now apply Hdesc |].
      now apply (Hq2 i j x Hin Hx).
    + apply Hg'; [exact H10 | exact Hsent].
    + now apply (Hc' i j t Hi Hj Ht).
Qed.
End LookFacts.

(** X24: given follow sets and update lists that name items of the
    collection, and symbols with different orders, [propagate_lookahead]
    ends within as many passes as the lookahead sets have room to grow, and
    leaves in every item exactly the symbols it looks ahead to: those of
    its follow set and of the follow set of the item it descends from, the
    end of file for the first item of state 1, and those of the kernel
    items that update it; what the sets held before is gone. *)
Theorem propagate_lookahead_correct (follow : list (list symbolset))
    (update : list (list (list target))) (sentinel : symbolentry)
    (universe : list symbolentry) (coll : list configuration) (fuel : nat) :
  lookahead_ok follow update sentinel universe coll ->
  (item_total coll * length universe < fuel)%nat ->
  exists coll',
    propagate_lookahead follow update sentinel fuel coll = Some coll' /\
    forall i j, in_items coll i j ->
      forall x, x ∈ cells (lookahead (ITEMSET coll' i j)) <->
                looks_ahead follow update sentinel coll i j x.
Proof.
  intros Hok Hfuel.
  exact (propagate_lookahead_spec follow update sentinel universe coll Hok
           fuel Hfuel).
Qed.

Lemma sample_lookahead_ok :
  lookahead_ok look_follows look_updates tok_eof [tok_a; tok_b; tok_eof]
    look_collection.
Proof.
  assert (Hone : allocated (look_set [tok_a])).
  { exists [tok_a]. repeat split. vm_compute. repeat constructor. }
  assert (Hstale : allocated (look_set [tok_b])).
  { exists [tok_b]. repeat split. vm_compute. repeat constructor. }
  split; [apply sorted_keys_NoDup; vm_compute; repeat constructor|].
  split; [right; right; left|].
  split; [split; vm_compute; lia|]. split.
  - intros i j [Hi Hj].
    destruct i as [|[|[|i]]]; [vm_compute in Hi; lia | | |vm_compute in Hi; lia].
    + destruct j as [|[|j]]; [| |vm_compute in Hj; lia].
      * split; [apply alloc_allocated|]. split; [apply alloc_allocated|].
        split; [intros x Hx; now apply elem_of_nil in Hx|].
        intros Hc. now destruct Hc.
      * split; [exact Hone|]. split; [apply alloc_allocated|].
        split; [|intros _; split; vm_compute; lia].
        intros x Hx. apply list_elem_of_singleton in Hx as ->. left.
    + destruct j as [|j]; [|vm_compute in Hj; lia].
      split; [apply alloc_allocated|]. split; [exact Hstale|].
      split; [intros x Hx; now apply elem_of_nil in Hx|].
      intros Hc. now destruct Hc.
  - intros i j Hi Hj.
    destruct i as [|[|[|i]]]; [vm_compute in Hi; lia | | |vm_compute in Hi; lia].
    + destruct j as [|j]; [|vm_compute in Hj; lia].
      split; [split; vm_compute; lia|]. intros t Ht.
      apply elem_of_cons in Ht as [->|Ht]; [split; vm_compute; lia|].
      apply list_elem_of_singleton in Ht as ->. split; vm_compute; lia.
    + destruct j as [|j]; [|vm_compute in Hj; lia].
      split; [split; vm_compute; lia|]. intros t Ht.
      now apply elem_of_nil in Ht.
Qed.

Lemma propagate_lookahead_correct_witness :
  lookahead_ok look_follows look_updates tok_eof [tok_a; tok_b; tok_eof]
    look_collection /\
  (item_total look_collection * length [tok_a; tok_b; tok_eof] < 10)%nat /\
  exists coll',
    propagate_lookahead look_follows look_updates tok_eof 10 look_collection
    = Some coll' /\
    forall i j, in_items look_collection i j ->
      forall x, x ∈ cells (lookahead (ITEMSET coll' i j)) <->
                looks_ahead look_follows look_updates tok_eof
                  look_collection i j x.
Proof.
  assert (H : (item_total look_collection * length [tok_a; tok_b; tok_eof]
               < 10)%nat) by (vm_compute; lia).
  split; [exact sample_lookahead_ok|]. split; [exact H|].
  exact (propagate_lookahead_correct look_follows look_updates tok_eof
           [tok_a; tok_b; tok_eof] look_collection 10 sample_lookahead_ok H).
Defined.

(** The lookahead sets of the sample: the end of file reaches both items
    that the first item updates, [a] goes from the closure item to its
    descendant, and the [b] of the earlier run is gone. *)
Example propagate_lookahead_sample :
  option_map
    (fun c => map (fun cfg => map (fun it => map sym_token
                                               (cells (lookahead it)))
                                (itemset cfg)) c)
    (propagate_lookahead look_follows look_updates tok_eof 10 look_collection)
  = Some [ []; [ [3]; [1; 3] ]; [ [1; 3] ] ].
Proof. vm_compute. reflexivity. Qed.
